(** * flow-editor: the IDEF0 layout engine and its port model

    A shallow embedding of the parts of the flow editor that its layout
    specification talks about:

    - [ProcessNode]: the port-key allocation of [src/nodes/ProcessNode.ts]
      ([makeKey], [addFlowInterface]);
    - [Bezier] and [BezierDouble]: the arrow-overlay geometry of
      [src/App.vue] ([parseBezierPath], [bezierMidpoint]);
    - [Layout]: the placement pass [autoArrangeNodes] of [src/App.vue] with
      its grouping step, its size measurement and its two orientation
      modes;
    - [Persist]: [buildFlowPayload], [applyFlowPayload] and the change
      watcher of [src/App.vue];
    - [Text] and [Pattern]: [trim] and the anchored patterns that the
      remaining code tests strings against;
    - [Auth]: the stored sign-in of [src/services/reownAppkit.ts];
    - [Flow]: [isValidEmail], [parseFlowIdFromUrl], [updateUrlWithId] and
      [handleSaveFlow] of [src/App.vue];
    - [Ports]: [addInputPort], [addOutputPort] and [addMechanismPort] of
      [src/App.vue], as far as they change the process;
    - [ResourceNode]: the class of [src/nodes/ResourceNode.ts].

    Numbers.  JavaScript numbers are IEEE doubles, and so are the numbers
    of [Layout], [Persist] and [BezierDouble]: the primitive [float], whose
    [+], [-], [*], [/] and comparisons round and treat NaN and the
    infinities as the code does.  [Math.max] and [||] on numbers are in
    [Math].  [Bezier] gives the formulas of [bezierMidpoint] once more over
    the reals, where [Math.atan2] and [Math.PI] are the numbers they stand
    for.  The numeric fields of a resource are only stored and given back;
    they are rationals.

    Strings.  A string is a sequence of code units below 256, one [ascii]
    each. *)

From Stdlib Require Import Ascii String QArith.
From Stdlib Require Reals Lra Ratan.
From Stdlib Require Import Floats.
From stdpp Require Import gmap strings list pretty.

(** ** ProcessNode.ts: port keys *)

Module ProcessNode.

Inductive FlowSide := input | output | knowHow | service.
Inductive Location := left | right | top | bottom.

Record PortMeta := {
  side : FlowSide;
  location : Location;
  flowType : string;
  fieldPath : option string
}.

(** A [NodeInterface] with its [data]; [name] is the label given to the
    constructor of the interface. *)
Record PortIntf := {
  name : string;
  data : PortMeta
}.

(** The two interface collections of a process node.  They are plain JS
    objects used as string-keyed maps. *)
Record t := {
  inputs : gmap string PortIntf;
  outputs : gmap string PortIntf
}.

Definition inputSideToLocation (s : FlowSide) : option Location :=
  match s with
  | input => Some left
  | knowHow => Some top
  | service => Some bottom
  | output => None
  end.

Definition outputSideToLocation (s : FlowSide) : Location :=
  match s with
  | input => left
  | output => right
  | knowHow => top
  | service => bottom
  end.

(** The text a [FlowSide] contributes to a template literal. *)
Definition sideName (s : FlowSide) : string :=
  match s with
  | input => "input"
  | output => "output"
  | knowHow => "knowHow"
  | service => "service"
  end.

(** *** String normalisation

    Strings are sequences of 8-bit code units; [toLowerCase] lowers the
    ASCII capitals and leaves every other unit alone. *)

Definition lowerChar (c : ascii) : ascii :=
  let n := nat_of_ascii c in
  if (65 <=? n)%nat && (n <=? 90)%nat then ascii_of_nat (n + 32) else c.

Fixpoint toLowerCase (s : string) : string :=
  match s with
  | EmptyString => EmptyString
  | String c s' => String (lowerChar c) (toLowerCase s')
  end.

(** The class [[a-z0-9]]. *)
Definition isKeyChar (c : ascii) : bool :=
  let n := nat_of_ascii c in
  ((97 <=? n)%nat && (n <=? 122)%nat) || ((48 <=? n)%nat && (n <=? 57)%nat).

(** [replace(/[^a-z0-9]+/g, "_")]: every maximal run of other characters
    becomes one underscore.  [inRun] says that the previous character was
    part of such a run. *)
Fixpoint replaceRuns (inRun : bool) (s : string) : string :=
  match s with
  | EmptyString => EmptyString
  | String c s' =>
      if isKeyChar c then String c (replaceRuns false s')
      else if inRun then replaceRuns true s'
      else String "_" (replaceRuns true s')
  end.

Fixpoint stripLeadingUnderscores (s : string) : string :=
  match s with
  | String "_" s' => stripLeadingUnderscores s'
  | _ => s
  end.

(** [replace(/^_+|_+$/g, "")]. *)
Definition trimUnderscores (s : string) : string :=
  String.rev (stripLeadingUnderscores (String.rev (stripLeadingUnderscores s))).

Definition normalize (source : string) : string :=
  trimUnderscores (replaceRuns false (toLowerCase source)).

(** *** makeKey *)

Definition ioCollectionOf (node : t) (s : FlowSide) : gmap string PortIntf :=
  match s with
  | output | knowHow => outputs node
  | input | service => inputs node
  end.

(** [Object.prototype.hasOwnProperty.call(ioCollection, key)]. *)
Definition hasOwnProperty (ioCollection : gmap string PortIntf) (key : string) : bool :=
  bool_decide (is_Some (ioCollection !! key)).

(** The suffix loop, with the loop variables [key] and [index] as
    arguments.  [fuel] bounds the number of tests of the loop condition;
    [None] means the bound was reached. *)
Fixpoint makeKey_loop (fuel : nat) (ioCollection : gmap string PortIntf)
    (normalized key : string) (index : nat) : option string :=
  match fuel with
  | O => None
  | S fuel' =>
      if hasOwnProperty ioCollection key
      then makeKey_loop fuel' ioCollection normalized
             (normalized +:+ "_" +:+ pretty index) (S index)
      else Some key
  end.

Definition keySource (name : string) (s : FlowSide) (flowType : string)
    (fieldPath : option string) : string :=
  match fieldPath with
  | Some fp => fp
  | None => sideName s +:+ "_" +:+ flowType +:+ "_" +:+ name
  end.

(** The loop is run with one more test than the collection has keys, which
    is always enough ([makeKey_loop_returns] below). *)
Definition makeKey (node : t) (name : string) (s : FlowSide) (flowType : string)
    (fieldPath : option string) : string :=
  let normalized := normalize (keySource name s flowType fieldPath) in
  let ioCollection := ioCollectionOf node s in
  default normalized
    (makeKey_loop (S (size ioCollection)) ioCollection normalized normalized 1).

(** *** addFlowInterface

    [addInput(key, intf)] and [addOutput(key, intf)] of the graph library
    store the interface under [key] in the collection. *)
Definition addFlowInterface (node : t) (nm flowTy : string) (s : FlowSide)
    (fp : option string) : t * PortIntf :=
  let key := makeKey node nm s flowTy fp in
  let intf := {| name := nm;
                 data := {| side := s; location := outputSideToLocation s;
                            flowType := flowTy; fieldPath := fp |} |} in
  match s with
  | output | knowHow =>
      ({| inputs := inputs node; outputs := <[key := intf]> (outputs node) |}, intf)
  | input | service =>
      let intf' := {| name := nm;
                      data := {| side := s;
                                 location := default (outputSideToLocation s)
                                               (inputSideToLocation s);
                                 flowType := flowTy; fieldPath := fp |} |} in
      ({| inputs := <[key := intf']> (inputs node); outputs := outputs node |}, intf')
  end.

Definition empty : t := {| inputs := ∅; outputs := ∅ |}.

(** The constructor: ten ports with their field paths. *)
Definition new : t :=
  let add nm ft s fp n := fst (addFlowInterface n nm ft s (Some fp)) in
  add "Output 2" "product" output "output.byproduct"
  (add "Output 1" "product" output "output.mainProduct"
  (add "Ingatlan" "service" service "serviceInstance.property"
  (add "Szolgáltatás" "service" service "serviceInstance.service"
  (add "Víz (m3)" "service" service "serviceInstance.water"
  (add "Gáz (m3)" "service" service "serviceInstance.gas"
  (add "Energy" "service" service "machineInstance.quantity"
  (add "Machine" "service" service "machineInstance.category"
  (add "Input 2" "material" input "inputInstance.quantity"
  (add "Input 1" "material" input "inputInstance.material" empty))))))))).

End ProcessNode.

(** ** App.vue: arrow overlays ([parseBezierPath], [bezierMidpoint]) *)

(** The scan of a path and [parseBezierPath] are as in the code.  The
    formulas of [bezierMidpoint] are given twice: in this module over the
    real numbers, with [Math.atan2] and [Math.PI] as the numbers they stand
    for, which is what the code computes when no operation rounds; and in
    [BezierDouble] over doubles, as the code runs. *)
Module Bezier.
Import Reals Ratan.
Local Open Scope R_scope.

(** [Math.atan2(y, x)] by its mathematical definition: the angle in
    (-PI, PI] of the vector (x, y), and 0 for the null vector. *)
Definition atan2 (y x : R) : R :=
  if Rlt_dec 0 x then atan (y / x)
  else if Rlt_dec x 0 then
    (if Rle_dec 0 y then atan (y / x) + PI else atan (y / x) - PI)
  else if Rlt_dec 0 y then PI / 2
  else if Rlt_dec y 0 then - (PI / 2)
  else 0.

Record Midpoint := {
  mx : R;
  my : R;
  angle : R
}.

Definition bezierMidpoint (x1 y1 cx1 cy1 cx2 cy2 x2 y2 : R) : Midpoint :=
  let t := 1 / 2 in
  let t2 := t * t in
  let t3 := t2 * t in
  let mt := 1 - t in
  let mt2 := mt * mt in
  let mt3 := mt2 * mt in
  let mx := mt3 * x1 + 3 * mt2 * t * cx1 + 3 * mt * t2 * cx2 + t3 * x2 in
  let my := mt3 * y1 + 3 * mt2 * t * cy1 + 3 * mt * t2 * cy2 + t3 * y2 in
  let dx := 3 * mt2 * (cx1 - x1) + 6 * mt * t * (cx2 - cx1) + 3 * t2 * (x2 - cx2) in
  let dy := 3 * mt2 * (cy1 - y1) + 6 * mt * t * (cy2 - cy1) + 3 * t2 * (y2 - cy2) in
  let angle := atan2 dy dx * (180 / PI) in
  {| mx := mx; my := my; angle := angle |}.

(** *** The scan [d.match(/-?[\d.]+/g)] *)

(** The class [[\d.]]. *)
Definition isNumChar (c : ascii) : bool :=
  let n := nat_of_ascii c in
  ((48 <=? n)%nat && (n <=? 57)%nat) || (n =? 46)%nat.

Definition isDash (c : ascii) : bool := (nat_of_ascii c =? 45)%nat.

Definition startsWithNumChar (s : string) : bool :=
  match s with
  | String c _ => isNumChar c
  | EmptyString => false
  end.

Definition emit (cur : option string) : list string :=
  match cur with
  | Some tok => [tok]
  | None => []
  end.

Definition extend (cur : option string) (c : ascii) : option string :=
  Some (default EmptyString cur +:+ String c EmptyString).

(** All matches from left to right.  [cur] is the match in progress.  A
    match is greedy: it takes every following digit or dot.  A dash opens a
    match only when a digit or dot follows it. *)
Fixpoint scanNumbers (cur : option string) (s : string) : list string :=
  match s with
  | EmptyString => emit cur
  | String c s' =>
      if isNumChar c then scanNumbers (extend cur c) s'
      else if isDash c && startsWithNumChar s'
      then emit cur ++ scanNumbers (Some (String c EmptyString)) s'
      else emit cur ++ scanNumbers None s'
  end.

(** [String.prototype.match] with a global pattern yields [null] when there
    is no match, and the list of matches otherwise. *)
Definition matchNumbers (d : string) : option (list string) :=
  match scanNumbers None d with
  | [] => None
  | nums => Some nums
  end.

Definition Coords (num : Type) : Type := num * num * num * num * num * num * num * num.

Section Parse.

(** The conversion [Number] of a matched text.  It is a parameter, and so
    is the type of its values: [parseBezierPath] only passes the matches
    through it. *)
Context {num : Type}.
Variable Number : string → num.

Definition parseBezierPath (d : string) : option (Coords num) :=
  match matchNumbers d with
  | None => None
  | Some nums =>
      if (8 <=? length nums)%nat then
        match Number <$> take 8 nums with
        | [a; b; c; d; e; f; g; h] => Some (a, b, c, d, e, f, g, h)
        | _ => None
        end
      else if (4 <=? length nums)%nat then
        match Number <$> nums with
        | x1 :: y1 :: x2 :: y2 :: _ => Some (x1, y1, x1, y1, x2, y2, x2, y2)
        | _ => None
        end
      else None
  end.

End Parse.

End Bezier.

(** ** App.vue: [bezierMidpoint] in doubles *)

Module BezierDouble.
Import Bezier.
Local Open Scope float_scope.

(** [Math.PI], the double nearest to the number. *)
Definition PI : float := 0x1.921fb54442d18p+1.

Record Midpoint := {
  mx : float;
  my : float;
  angle : float
}.

Section Atan2.

(** [Math.atan2] gives an approximation that the implementation chooses;
    it is a parameter. *)
Variable atan2 : float → float → float.

Definition bezierMidpoint (x1 y1 cx1 cy1 cx2 cy2 x2 y2 : float) : Midpoint :=
  let t := 0.5 in
  let t2 := t * t in
  let t3 := t2 * t in
  let mt := 1 - t in
  let mt2 := mt * mt in
  let mt3 := mt2 * mt in
  let mx := mt3 * x1 + 3 * mt2 * t * cx1 + 3 * mt * t2 * cx2 + t3 * x2 in
  let my := mt3 * y1 + 3 * mt2 * t * cy1 + 3 * mt * t2 * cy2 + t3 * y2 in
  let dx := 3 * mt2 * (cx1 - x1) + 6 * mt * t * (cx2 - cx1) + 3 * t2 * (x2 - cx2) in
  let dy := 3 * mt2 * (cy1 - y1) + 6 * mt * t * (cy2 - cy1) + 3 * t2 * (y2 - cy2) in
  let angle := atan2 dy dx * (180 / PI) in
  {| mx := mx; my := my; angle := angle |}.

(** [Number] gives a double, which may be NaN; it is a parameter. *)
Variable Number : string → float.


End Atan2.




End BezierDouble.
(** ** Numbers

    The numbers of the program are IEEE 754 doubles: the primitive floats,
    with [+], [-], [*] and [/] rounding to the nearest double as in
    JavaScript. *)

Module Math.
Local Open Scope float_scope.

(** [Math.max(a, b)]: [NaN] if one of the two is [NaN]; of the two zeros the
    positive one is the larger. *)
Definition max (a b : float) : float :=
  if is_nan a || is_nan b then nan
  else if a <? b then b
  else if b <? a then a
  else if is_zero a && get_sign a then b
  else a.

(** [a || b] on numbers: [0], [-0] and [NaN] are false. *)
Definition or (a b : float) : float :=
  if is_zero a || is_nan a then b else a.

(** A length or an index as a number. *)
Definition ofNat (n : nat) : float := of_uint63 (Uint63.of_Z (Z.of_nat n)).

End Math.

(** ** App.vue: the placement pass [autoArrangeNodes] *)

Module Layout.
Local Open Scope float_scope.

(** *** The diagram *)

(** A [NodeInterface] object, by its identity. *)
Definition Intf : Type := nat.

Record Size := {
  width : float;
  height : float
}.

Record Position := {
  x : float;
  y : float
}.

(** The fields of a node that the pass reads and never writes.  [type] is
    the string the node classes set (["ProcessNode"], ["ResourceNode"]);
    [resourceType] is the resource kind, and the empty string on nodes that
    have none.  [inputs] and [outputs] are [Object.values] of the two
    interface collections. *)
Record NodeInfo := {
  id : string;
  type : string;
  title : string;
  resourceType : string;
  inputs : list Intf;
  outputs : list Intf
}.

Record Node := {
  info : NodeInfo;
  position : Position
}.

Record Connection := {
  from : Intf;
  to : Intf
}.

(** [baklava.displayedGraph]. *)
Record Graph := {
  nodes : list Node;
  connections : list Connection;
  scaling : float;
  panning : Position
}.

(** What the pass reads of the browser: the size of the window, and for
    every element id the bounding rectangle of the element, if there is
    one. *)
Record Window := {
  innerWidth : float;
  innerHeight : float;
  getElementById : string → option Size
}.

(** A reference to a node object: the place of the node in [graph.nodes],
    which is its identity, with the fields that stay as they are.  The
    position of a node is always read from the current graph. *)
Definition NodeRef : Type := nat * NodeInfo.

Definition refs (g : Graph) : list NodeRef := imap (λ i n, (i, info n)) (nodes g).

Definition positionOf (g : Graph) (node : NodeRef) : Position :=
  match nodes g !! node.1 with
  | Some n => position n
  | None => {| x := 0; y := 0 |}
  end.

(** [a === b] on node objects. *)
Definition sameNode (a b : NodeRef) : Prop := a.1 = b.1.

Definition isProcess (node : NodeRef) : Prop := type node.2 = "ProcessNode".
Definition isResource (node : NodeRef) : Prop := type node.2 = "ResourceNode".

Global Instance sameNode_dec a b : Decision (sameNode a b).
Proof. unfold sameNode; apply _. Defined.
Global Instance isProcess_dec node : Decision (isProcess node).
Proof. unfold isProcess; apply _. Defined.
Global Instance isResource_dec node : Decision (isResource node).
Proof. unfold isResource; apply _. Defined.

Definition processNodesOf (allNodes : list NodeRef) : list NodeRef :=
  filter isProcess allNodes.
Definition resourceNodesOf (allNodes : list NodeRef) : list NodeRef :=
  filter isResource allNodes.

(** *** Sizes *)

Definition processFallback : Size := {| width := 200; height := 180 |}.
Definition resourceFallback : Size := {| width := 200; height := 120 |}.

Definition getNodeSize (w : Window) (g : Graph) (node : NodeRef) (fallback : Size) : Size :=
  match getElementById w (id node.2) with
  | None => fallback
  | Some rect =>
      let scale := Math.or (scaling g) 1 in
      {| width := width rect / scale; height := height rect / scale |}
  end.

(** [setPos]: the two assignments, which [setNodePosition] of the renderer
    repeats. *)
Definition setPos (g : Graph) (node : NodeRef) (px py : float) : Graph :=
  {| nodes := alter (λ n, {| info := info n; position := {| x := px; y := py |} |})
                node.1 (nodes g);
     connections := connections g;
     scaling := scaling g;
     panning := panning g |}.

(** *** Grouping *)

(** [processNodes.find((node) => node.title === "Process") || processNodes[0]] *)
Definition findMainProcess (processNodes : list NodeRef) : option NodeRef :=
  match List.find (λ node, String.eqb (title node.2) "Process") processNodes with
  | Some node => Some node
  | None => head processNodes
  end.

Definition isInput (node : NodeRef) : Prop := resourceType node.2 = "input".
Definition isOutput (node : NodeRef) : Prop := resourceType node.2 = "output".

Global Instance isInput_dec node : Decision (isInput node).
Proof. unfold isInput; apply _. Defined.
Global Instance isOutput_dec node : Decision (isOutput node).
Proof. unfold isOutput; apply _. Defined.

(** The three lists the [forEach] over the resource nodes fills: a node
    goes to the first of [inputs], [outputs], [mechanisms] whose test it
    passes. *)
Definition inputsOf (resourceNodes : list NodeRef) : list NodeRef :=
  filter isInput resourceNodes.
Definition outputsOf (resourceNodes : list NodeRef) : list NodeRef :=
  filter (λ node, ¬ isInput node ∧ isOutput node) resourceNodes.
Definition mechanismsOf (resourceNodes : list NodeRef) : list NodeRef :=
  filter (λ node, ¬ isInput node ∧ ¬ isOutput node) resourceNodes.

(** [node !== mainProcess] *)
Definition notMain (mainProcess : option NodeRef) (node : NodeRef) : Prop :=
  match mainProcess with
  | Some main => ¬ sameNode node main
  | None => True
  end.

Global Instance notMain_dec mainProcess node : Decision (notMain mainProcess node).
Proof. destruct mainProcess; simpl; apply _. Defined.

Definition secondaryOf (mainProcess : option NodeRef) (processNodes : list NodeRef)
    : list NodeRef :=
  filter (notMain mainProcess) processNodes.

(** [interfaceNodeMap]: every interface of every node is set to its node,
    inputs first; a later [set] replaces an earlier one. *)
Definition interfaceNodeMap (allNodes : list NodeRef) : gmap Intf NodeRef :=
  foldl (λ m node,
           foldl (λ m intf, <[intf := node]> m)
             (foldl (λ m intf, <[intf := node]> m) m (inputs node.2))
             (outputs node.2))
        ∅ allNodes.

(** A [Map] from process nodes to lists of resource nodes, in insertion
    order; keys are compared by identity. *)
Definition Groups : Type := list (NodeRef * list NodeRef).

Fixpoint groupsGet (groups : Groups) (owner : NodeRef) : option (list NodeRef) :=
  match groups with
  | [] => None
  | (key, items) :: rest =>
      if decide (sameNode key owner) then Some items else groupsGet rest owner
  end.

(** [if (!groups.has(owner)) groups.set(owner, []); groups.get(owner)?.push(item)]:
    the item goes to the end of the owner's list; a new owner goes to the
    end of the map. *)
Fixpoint groupsPush (groups : Groups) (owner item : NodeRef) : Groups :=
  match groups with
  | [] => [(owner, [item])]
  | (key, items) :: rest =>
      if decide (sameNode key owner) then (key, items ++ [item]) :: rest
      else (key, items) :: groupsPush rest owner item
  end.

(** The owner of a resource, given the connection found at its grouping
    port. [far] picks the end of the connection away from the resource. *)
Definition ownerProcessOf (ifaceMap : gmap Intf NodeRef) (mainProcess : option NodeRef)
    (connection : option Connection) (far : Connection → Intf) : option NodeRef :=
  let owner :=
    match connection with
    | Some c => ifaceMap !! far c
    | None => mainProcess
    end in
  match owner with
  | Some o => if decide (isProcess o) then Some o else mainProcess
  | None => mainProcess
  end.

(** [graph.connections.find((c) => c.from === outputIntf)]; no connection
    has an undefined end, so nothing is found for a node without ports. *)
Definition findConnection (g : Graph) (near : Connection → Intf) (port : option Intf)
    : option Connection :=
  match port with
  | Some p => List.find (λ c, (near c =? p)%nat) (connections g)
  | None => None
  end.

Definition inputGroups (g : Graph) (ifaceMap : gmap Intf NodeRef)
    (mainProcess : option NodeRef) (inputNodes : list NodeRef) : Groups :=
  foldl (λ groups inputNode,
           let outputIntf := head (outputs inputNode.2) in
           let connection := findConnection g from outputIntf in
           match ownerProcessOf ifaceMap mainProcess connection to with
           | None => groups
           | Some ownerProcess => groupsPush groups ownerProcess inputNode
           end)
        [] inputNodes.

Definition outputGroups (g : Graph) (ifaceMap : gmap Intf NodeRef)
    (mainProcess : option NodeRef) (outputNodes : list NodeRef) : Groups :=
  foldl (λ groups outputNode,
           let inputIntf := head (inputs outputNode.2) in
           let connection := findConnection g to inputIntf in
           match ownerProcessOf ifaceMap mainProcess connection from with
           | None => groups
           | Some ownerProcess => groupsPush groups ownerProcess outputNode
           end)
        [] outputNodes.

(** *** Arithmetic helpers *)

(** [sizes.reduce((sum, size) => sum + f(size), 0)] *)
Definition sumBy (f : Size → float) (sizes : list Size) : float :=
  foldl (λ sum size, sum + f size) 0 sizes.

(** [sizes.reduce((max, size) => Math.max(max, f(size)), 0)] *)
Definition maxBy (f : Size → float) (sizes : list Size) : float :=
  foldl (λ m size, Math.max m (f size)) 0 sizes.

(** [Math.max(0, n - 1) * gap] for a length [n]. *)
Definition gapsOf (n : nat) (gap : float) : float := Math.ofNat (n - 1) * gap.

(** *** Portrait mode *)

Module Portrait.

Definition offsetFromProcess : float := 180.
Definition mechanismGap : float := 90.
Definition rowGap : float := 20.
Definition columnGap : float := 20.

Record RowMetrics := {
  sizes : list Size;
  totalWidth : float;
  maxHeight : float
}.

Definition getRowMetrics (w : Window) (g : Graph) (items : list NodeRef) (fallback : Size)
    : RowMetrics :=
  let sizes := (λ node, getNodeSize w g node fallback) <$> items in
  {| sizes := sizes;
     totalWidth := sumBy width sizes + gapsOf (length items) rowGap;
     maxHeight := maxBy height sizes |}.

Definition placeRowFromMetrics (g : Graph) (items : list NodeRef) (metrics : RowMetrics)
    (centerXPos py : float) : Graph :=
  match items with
  | [] => g
  | _ =>
      fst (foldl (λ '(g, currentX) '(node, size),
                    (setPos g node currentX py, currentX + (width size + rowGap)))
                 (g, centerXPos - totalWidth metrics / 2)
                 (zip items (sizes metrics)))
  end.

Definition placeColumnRight (w : Window) (g : Graph) (items : list NodeRef)
    (px centerYPos : float) : Graph :=
  match items with
  | [] => g
  | _ =>
      let sizes := (λ node, getNodeSize w g node resourceFallback) <$> items in
      let totalHeight := sumBy height sizes + gapsOf (length items) columnGap in
      fst (foldl (λ '(g, currentY) '(node, size),
                    (setPos g node px currentY, currentY + (height size + columnGap)))
                 (g, centerYPos - totalHeight / 2)
                 (zip items sizes))
  end.

(** The body of [secondaryProcesses.forEach]: the output row of one
    secondary process below it, then its input row above it. *)
Definition placeSecondaryGroups (w : Window) (inGroups outGroups : Groups)
    (g : Graph) (processNode : NodeRef) : Graph :=
  let procSize := getNodeSize w g processNode processFallback in
  let procX := x (positionOf g processNode) + width procSize / 2 in
  let procY := y (positionOf g processNode) + height procSize / 2 in
  let procOutputs := default [] (groupsGet outGroups processNode) in
  let procOutputsMetrics := getRowMetrics w g procOutputs resourceFallback in
  let procOutputY := procY + height procSize / 2 + offsetFromProcess in
  let g := placeRowFromMetrics g procOutputs procOutputsMetrics procX procOutputY in
  let procInputs := default [] (groupsGet inGroups processNode) in
  let procInputsMetrics := getRowMetrics w g procInputs resourceFallback in
  let procInputY :=
    procY - height procSize / 2 - offsetFromProcess - maxHeight procInputsMetrics in
  placeRowFromMetrics g procInputs procInputsMetrics procX procInputY.

(** The block [if (secondaryProcesses.length > 0)]. *)
Definition placeSecondaryRow (w : Window) (inGroups outGroups : Groups) (g : Graph)
    (secondaryProcesses : list NodeRef) (processX outputRowY outputsMaxHeight : float)
    : Graph :=
  match secondaryProcesses with
  | [] => g
  | _ =>
      let secondaryInputsMax :=
        foldl Math.max 0
          ((λ node, maxHeight (getRowMetrics w g (default [] (groupsGet inGroups node))
                                 resourceFallback)) <$> secondaryProcesses) in
      let outputsBottom := outputRowY + outputsMaxHeight in
      let secondaryRowY := outputsBottom + offsetFromProcess + secondaryInputsMax + 40 in
      let secondaryMetrics := getRowMetrics w g secondaryProcesses processFallback in
      let g := placeRowFromMetrics g secondaryProcesses secondaryMetrics processX
                 secondaryRowY in
      foldl (placeSecondaryGroups w inGroups outGroups) g secondaryProcesses
  end.

(** The main process is put at the centre of the view. *)
Definition placeMain (w : Window) (g : Graph) (mainProcess : option NodeRef)
    (centerX centerY : float) : Graph :=
  match mainProcess with
  | Some main =>
      let size := getNodeSize w g main processFallback in
      setPos g main (centerX - width size / 2) (centerY - height size / 2 - 20)
  | None => g
  end.

Definition arrange (w : Window) (g : Graph) (processNodes resourceNodes : list NodeRef)
    (centerX centerY : float) : Graph :=
  let allNodes := refs g in
  let mainProcess := findMainProcess processNodes in
  let g := placeMain w g mainProcess centerX centerY in
  let inputNodes := inputsOf resourceNodes in
  let outputNodes := outputsOf resourceNodes in
  let mechanisms := mechanismsOf resourceNodes in
  let ifaceMap := interfaceNodeMap allNodes in
  let inGroups := inputGroups g ifaceMap mainProcess inputNodes in
  let outGroups := outputGroups g ifaceMap mainProcess outputNodes in
  let processRect :=
    match mainProcess with
    | Some main => getNodeSize w g main processFallback
    | None => processFallback
    end in
  let processX :=
    match mainProcess with
    | Some main => x (positionOf g main) + width processRect / 2
    | None => centerX
    end in
  let processY :=
    match mainProcess with
    | Some main => y (positionOf g main) + height processRect / 2
    | None => centerY
    end in
  let inputGroup :=
    match mainProcess with
    | Some main => default [] (groupsGet inGroups main)
    | None => []
    end in
  let inputMetrics := getRowMetrics w g inputGroup resourceFallback in
  let inputRowY :=
    processY - height processRect / 2 - offsetFromProcess - maxHeight inputMetrics in
  let g := placeRowFromMetrics g inputGroup inputMetrics processX inputRowY in
  let outputGroup :=
    match mainProcess with
    | Some main => default [] (groupsGet outGroups main)
    | None => []
    end in
  let outputMetrics := getRowMetrics w g outputGroup resourceFallback in
  let outputRowY := processY + height processRect / 2 + offsetFromProcess in
  let g := placeRowFromMetrics g outputGroup outputMetrics processX outputRowY in
  let secondaryProcesses := secondaryOf mainProcess processNodes in
  let g := placeSecondaryRow w inGroups outGroups g secondaryProcesses processX
             outputRowY (maxHeight outputMetrics) in
  let maxRowRight :=
    Math.max (Math.max (processX + totalWidth inputMetrics / 2)
                       (processX + totalWidth outputMetrics / 2))
             (processX + width processRect / 2) in
  let mechanismX := maxRowRight + mechanismGap in
  placeColumnRight w g mechanisms mechanismX processY.

End Portrait.

(** *** Landscape mode *)

Module Landscape.

Definition offsetFromProcess : float := 220.
Definition verticalGap : float := 30.
Definition mechanismGap : float := 40.
Definition processColumnGap : float := 40.

Definition placeLeftOfProcess (w : Window) (processTop : float) (g : Graph)
    (processNode : NodeRef) (items : list NodeRef) : Graph * float :=
  match items with
  | [] => (g, processTop)
  | _ =>
      let processRect := getNodeSize w g processNode processFallback in
      let processX := x (positionOf g processNode) + width processRect / 2 in
      let processY := y (positionOf g processNode) + height processRect / 2 in
      let sizes := (λ node, getNodeSize w g node resourceFallback) <$> items in
      let totalHeight := sumBy height sizes + gapsOf (length items) verticalGap in
      let currentY := processY - totalHeight / 2 in
      let '(g, _, bottom) :=
        foldl (λ '(g, currentY, bottom) '(node, size),
                 let px := processX - width processRect / 2 - offsetFromProcess
                           - width size in
                 let py := currentY in
                 (setPos g node px py, currentY + (height size + verticalGap),
                  py + height size))
              (g, currentY, currentY) (zip items sizes) in
      (g, bottom)
  end.

Record RightResult := {
  maxRight : float;
  top : float;
  bottom : float
}.

Definition placeRightOfProcess (w : Window) (processRight processTop : float) (g : Graph)
    (processNode : NodeRef) (items : list NodeRef) : Graph * RightResult :=
  match items with
  | [] => (g, {| maxRight := processRight; top := processTop; bottom := processTop |})
  | _ =>
      let processRect := getNodeSize w g processNode processFallback in
      let processX := x (positionOf g processNode) + width processRect / 2 in
      let processY := y (positionOf g processNode) + height processRect / 2 in
      let sizes := (λ node, getNodeSize w g node resourceFallback) <$> items in
      let totalHeight := sumBy height sizes + gapsOf (length items) verticalGap in
      let currentY := processY - totalHeight / 2 in
      let '(g, _, maxRight, bottom) :=
        foldl (λ '(g, currentY, maxRight, bottom) '(node, size),
                 let px := processX + width processRect / 2 + offsetFromProcess in
                 let py := currentY in
                 (setPos g node px py, currentY + (height size + verticalGap),
                  Math.max maxRight (px + width size), py + height size))
              (g, currentY, neg_infinity, currentY) (zip items sizes) in
      (g, {| maxRight := maxRight; top := currentY; bottom := bottom |})
  end.

(** [inputGroups.forEach]: every input column is placed; [inputsBottom]
    starts at [-Infinity]. *)
Definition placeInputColumns (w : Window) (processTop : float) (g : Graph)
    (inGroups : Groups) : Graph * float :=
  foldl (λ '(g, inputsBottom) '(ownerProcess, group),
           let '(g, bottom) := placeLeftOfProcess w processTop g ownerProcess group in
           (g, Math.max inputsBottom bottom))
        (g, neg_infinity) inGroups.

(** [outputGroups.forEach]; [outputColumnRight] starts at [processRight] and
    [outputsBottom] at [-Infinity]. *)
Definition placeOutputColumns (w : Window) (processRight processTop : float) (g : Graph)
    (outGroups : Groups) : Graph * float * float :=
  foldl (λ '(g, outputColumnRight, outputsBottom) '(ownerProcess, group),
           let '(g, result) :=
             placeRightOfProcess w processRight processTop g ownerProcess group in
           (g, Math.max outputColumnRight (maxRight result),
            Math.max outputsBottom (bottom result)))
        (g, processRight, neg_infinity) outGroups.

(** The row of mechanisms, centred on [centerX]. *)
Definition placeMechanismRow (w : Window) (g : Graph) (mechanisms : list NodeRef)
    (centerX bottomRowY : float) : Graph :=
  let mechSizes := (λ node, getNodeSize w g node resourceFallback) <$> mechanisms in
  let totalMechWidth := sumBy width mechSizes + gapsOf (length mechanisms) mechanismGap in
  fst (foldl (λ '(g, currentX) '(node, size),
                (setPos g node currentX bottomRowY, currentX + (width size + mechanismGap)))
             (g, centerX - totalMechWidth / 2) (zip mechanisms mechSizes)).

(** The block [if (secondaryProcesses.length > 0)]. *)
Definition placeSecondaryColumn (w : Window) (g : Graph) (secondaryProcesses : list NodeRef)
    (outputColumnRight centerX centerY : float) : Graph :=
  match secondaryProcesses with
  | [] => g
  | _ =>
      let columnCenterX := Math.max (outputColumnRight + 220) (centerX + 520) in
      let sizes := (λ node, getNodeSize w g node processFallback) <$> secondaryProcesses in
      let totalHeight := sumBy height sizes + gapsOf (length sizes) processColumnGap in
      fst (foldl (λ '(g, currentY) '(node, size),
                    (setPos g node (columnCenterX - width size / 2) currentY,
                     currentY + (height size + processColumnGap)))
                 (g, centerY - totalHeight / 2 - 40) (zip secondaryProcesses sizes))
  end.

Definition placeMain (w : Window) (g : Graph) (mainProcess : option NodeRef)
    (centerX centerY : float) : Graph :=
  match mainProcess with
  | Some main =>
      let size := getNodeSize w g main processFallback in
      setPos g main (centerX - width size / 2) (centerY - height size / 2 - 40)
  | None => g
  end.

(** The height at which the row of mechanisms is put. *)
Definition bottomRowYOf (processBottom inputsBottom outputsBottom : float) : float :=
  let safeInputsBottom :=
    if is_finite inputsBottom then inputsBottom else processBottom in
  let safeOutputsBottom :=
    if is_finite outputsBottom then outputsBottom else inputsBottom in
  let bottomRowTarget := Math.max safeInputsBottom safeOutputsBottom + 10 in
  Math.max (processBottom + 20) bottomRowTarget.

Definition arrange (w : Window) (g : Graph) (processNodes resourceNodes : list NodeRef)
    (centerX centerY : float) : Graph :=
  let allNodes := refs g in
  let mainProcess := findMainProcess processNodes in
  let g := placeMain w g mainProcess centerX centerY in
  let inputNodes := inputsOf resourceNodes in
  let outputNodes := outputsOf resourceNodes in
  let mechanisms := mechanismsOf resourceNodes in
  let primaryProcess :=
    match mainProcess with
    | Some main => Some main
    | None => head processNodes
    end in
  let processSize :=
    match primaryProcess with
    | Some primary => getNodeSize w g primary processFallback
    | None => processFallback
    end in
  let processRight := centerX + width processSize / 2 in
  let processTop := centerY - height processSize / 2 - 40 in
  let processBottom := centerY + height processSize / 2 - 40 in
  let ifaceMap := interfaceNodeMap allNodes in
  let inGroups := inputGroups g ifaceMap mainProcess inputNodes in
  let '(g, inputsBottom) := placeInputColumns w processTop g inGroups in
  let outGroups := outputGroups g ifaceMap mainProcess outputNodes in
  let '(g, outputColumnRight, outputsBottom) :=
    placeOutputColumns w processRight processTop g outGroups in
  let bottomRowY := bottomRowYOf processBottom inputsBottom outputsBottom in
  let g := placeMechanismRow w g mechanisms centerX bottomRowY in
  let secondaryProcesses := secondaryOf mainProcess processNodes in
  placeSecondaryColumn w g secondaryProcesses outputColumnRight centerX centerY.

End Landscape.

(** *** The pass *)

Definition centerXOf (w : Window) (g : Graph) : float :=
  innerWidth w / (2 * scaling g) - x (panning g).
Definition centerYOf (w : Window) (g : Graph) : float :=
  innerHeight w / (2 * scaling g) - y (panning g).

(** [window.innerHeight > window.innerWidth] *)
Definition isPortrait (w : Window) : bool := innerWidth w <? innerHeight w.

(** The synchronous part of [autoArrangeNodes].  The call of
    [refreshConnectionCoords] that ends it only requests animation frames;
    see [refreshFrames]. *)
Definition autoArrangeNodes (w : Window) (g : Graph) : Graph :=
  match nodes g with
  | [] => g
  | _ =>
      let processNodes := processNodesOf (refs g) in
      let resourceNodes := resourceNodesOf (refs g) in
      let centerX := centerXOf w g in
      let centerY := centerYOf w g in
      if isPortrait w
      then Portrait.arrange w g processNodes resourceNodes centerX centerY
      else Landscape.arrange w g processNodes resourceNodes centerX centerY
  end.

(** *** refreshConnectionCoords

    The two animation frames: every node is moved by [epsilon] and moved
    back.  [setNodePosition] of the renderer writes the two coordinates it
    is given. *)
#[warnings="-inexact-float"]
Definition epsilon : float := 0.01.

(** One frame: [move] is what the frame does to a coordinate. *)
Definition nudge (move : float → float) (g : Graph) : Graph :=
  foldl (λ g' node, setPos g' node (move (x (positionOf g' node)))
                      (move (y (positionOf g' node))))
        g (refs g).

Definition refreshFrames (g : Graph) : Graph :=
  match nodes g with
  | [] => g
  | _ => nudge (λ c, c - epsilon) (nudge (λ c, c + epsilon) g)
  end.

End Layout.

(** ** App.vue: saving, loading and the change watcher *)

Module Persist.
Import Layout.
Local Open Scope float_scope.

(** [SavedNodeMeta].  The free-form [fields] and [details] play no part in
    the layout and are left out. *)
Record SavedNodeMeta := {
  meta_id : string;
  meta_type : string;
  meta_title : string;
  meta_position : Position;
  meta_resourceType : option string
}.

(** What [graph.save()] of the graph library keeps of a node, and of the
    graph. *)
Record NodeState := {
  state_info : NodeInfo;
  state_position : Position
}.

Record GraphState := {
  state_nodes : list NodeState;
  state_connections : list Connection;
  state_scaling : float;
  state_panning : Position
}.

Record FlowPayload := {
  version : nat;
  graph : GraphState;
  payload_nodes : list SavedNodeMeta;
  view_scaling : float;
  view_panning : option Position
}.

(** Callbacks given to [setTimeout], with their delay in milliseconds. *)
Inductive Task :=
  | AutoArrange
  | RefreshConnectionCoords
  | RefreshCoordsAndArrows.

(** Work queued for the end of the current tick, in the order it will
    run: the job of the change watcher, and callbacks given to
    [nextTick]. *)
Inductive Job :=
  | WatcherJob
  | ScheduleRefresh.

Record App := {
  displayedGraph : Graph;
  suppressAutoArrange : bool;
  timers : list (nat * Task);
  pending : list Job
}.

Definition metaOf (node : Node) : SavedNodeMeta :=
  {| meta_id := id (info node);
     meta_type := type (info node);
     meta_title := title (info node);
     meta_position := {| x := x (position node); y := y (position node) |};
     meta_resourceType :=
       if String.eqb (type (info node)) "ResourceNode"
       then Some (resourceType (info node)) else None |}.

(** [new Map(payload.nodes.map((meta) => [meta.id, meta]))]: a later entry
    replaces an earlier one with the same id. *)
Definition metaById (metas : list SavedNodeMeta) : gmap string SavedNodeMeta :=
  foldl (λ m meta, <[meta_id meta := meta]> m) ∅ metas.

Definition truthy (s : string) : bool := negb (String.eqb s "").

Definition withResourceType (i : NodeInfo) (rt : string) : NodeInfo :=
  {| id := id i; type := type i; title := title i; resourceType := rt;
     inputs := inputs i; outputs := outputs i |}.

Definition withTitle (i : NodeInfo) (t : string) : NodeInfo :=
  {| id := id i; type := type i; title := t; resourceType := resourceType i;
     inputs := inputs i; outputs := outputs i |}.

(** The enrichment of one saved node state with the metadata of its id. *)
Definition enrich (byId : gmap string SavedNodeMeta) (nodeState : NodeState) : NodeState :=
  match byId !! id (state_info nodeState) with
  | None => nodeState
  | Some meta =>
      match meta_resourceType meta with
      | Some rt =>
          if truthy rt && negb (truthy (resourceType (state_info nodeState)))
          then {| state_info := withResourceType (state_info nodeState) rt;
                  state_position := state_position nodeState |}
          else nodeState
      | None => nodeState
      end
  end.

(** The body of [graph.nodes.forEach] in [applyFlowPayload]. *)
Definition restoreNode (byId : gmap string SavedNodeMeta) (node : Node) : Node :=
  match byId !! id (info node) with
  | None => node
  | Some meta =>
      let i := info node in
      let i := if truthy (meta_title meta) then withTitle i (meta_title meta) else i in
      let i :=
        if String.eqb (type i) "ResourceNode"
        then withResourceType i (default (resourceType i) (meta_resourceType meta))
        else i in
      {| info := i;
         position := {| x := x (meta_position meta); y := y (meta_position meta) |} |}
  end.



(** The callback of the watcher on the node and connection counts. *)
Definition watchCallback (app : App) : App :=
  if suppressAutoArrange app then app
  else {| displayedGraph := displayedGraph app;
          suppressAutoArrange := suppressAutoArrange app;
          timers := timers app ++ [(50, AutoArrange); (100, RefreshConnectionCoords)]%nat;
          pending := pending app |}.






Section SaveLoad.

(** [graph.save()] and [graph.load(state)] belong to the graph library and
    are parameters here.  [graph_load] gives the graph that replaces the
    displayed one. *)
Variable graph_save : Graph → GraphState.
Variable graph_load : GraphState → Graph.

Definition buildFlowPayload (app : App) : FlowPayload :=
  let g := displayedGraph app in
  {| version := 1;
     graph := graph_save g;
     payload_nodes := metaOf <$> nodes g;
     view_scaling := scaling g;
     view_panning := Some {| x := x (panning g); y := y (panning g) |} |}.

(** The synchronous part of [applyFlowPayload].  The load changes the node
    and connection counts, which queues the job of the watcher; the
    callback given to [nextTick] runs after the jobs queued before it. *)
Definition applyFlowPayload (app : App) (payload : FlowPayload) : App :=
  let byId := metaById (payload_nodes payload) in
  let enrichedGraph :=
    {| state_nodes := enrich byId <$> state_nodes (graph payload);
       state_connections := state_connections (graph payload);
       state_scaling := state_scaling (graph payload);
       state_panning := state_panning (graph payload) |} in
  let loaded := graph_load enrichedGraph in
  let restored := restoreNode byId <$> nodes loaded in
  {| displayedGraph :=
       {| nodes := restored;
          connections := connections loaded;
          scaling := Math.or (view_scaling payload) (scaling loaded);
          panning := match view_panning payload with
                     | Some p => {| x := x p; y := y p |}
                     | None => panning loaded
                     end |};
     suppressAutoArrange := true;
     timers := timers app;
     pending := pending app ++ [WatcherJob; ScheduleRefresh] |}.

End SaveLoad.

(** A plain implementation of the two library functions, to run the
    definitions above: every node is kept with all its fields. *)
Definition plainSave (g : Graph) : GraphState :=
  {| state_nodes := (λ n, {| state_info := info n; state_position := position n |})
                      <$> nodes g;
     state_connections := connections g;
     state_scaling := scaling g;
     state_panning := panning g |}.

Definition plainLoad (s : GraphState) : Graph :=
  {| nodes := (λ n, {| info := state_info n; position := state_position n |})
                <$> state_nodes s;
     connections := state_connections s;
     scaling := state_scaling s;
     panning := state_panning s |}.

End Persist.


(** ** Texts and patterns

    What the remaining code does with strings: [trim], and tests against
    anchored patterns.  Strings are sequences of code units below 256, one
    [ascii] each, as in [ProcessNode]; the code unit 160 is the no-break
    space. *)

Module Text.

(** The white space and line terminators of JavaScript among the 8-bit
    code units: tab, line feed, vertical tab, form feed, carriage return,
    space and no-break space.  This is the class [\s], and what [trim]
    removes. *)
Definition isWhiteSpace (c : ascii) : bool :=
  let n := nat_of_ascii c in
  ((9 <=? n)%nat && (n <=? 13)%nat) || (n =? 32)%nat || (n =? 160)%nat.

Fixpoint trimStart (s : string) : string :=
  match s with
  | String c s' => if isWhiteSpace c then trimStart s' else s
  | EmptyString => EmptyString
  end.

(** [trimEnd], from the right end: the result of the rest decides whether
    a white space is kept. *)
Fixpoint trimEnd (s : string) : string :=
  match s with
  | String c s' =>
      match trimEnd s' with
      | EmptyString => if isWhiteSpace c then EmptyString else String c EmptyString
      | rest => String c rest
      end
  | EmptyString => EmptyString
  end.

(** [s.trim()] *)
Definition trim (s : string) : string := trimEnd (trimStart s).

(** The truth value of a string: every string but the empty one. *)
Definition truthy (s : string) : bool := negb (String.eqb s "").

(** A string that may be [null]: [null] and the empty string are false. *)
Definition truthyOpt (s : option string) : bool :=
  match s with
  | Some s => truthy s
  | None => false
  end.

End Text.

(** Patterns without groups, tested against a whole string as in
    [/^...$/.test(s)]. *)
Module Pattern.

Inductive t :=
  | Never
  | Empty
  | Class (p : ascii → bool)
  | Seq (r1 r2 : t)
  | Or (r1 r2 : t)
  | Star (r : t).

(** [r+] *)
Definition Plus (r : t) : t := Seq r (Star r).

(** A literal character. *)
Definition Lit (c : ascii) : t := Class (Ascii.eqb c).

Fixpoint nullable (r : t) : bool :=
  match r with
  | Never => false
  | Empty => true
  | Class _ => false
  | Seq r1 r2 => nullable r1 && nullable r2
  | Or r1 r2 => nullable r1 || nullable r2
  | Star _ => true
  end.

(** What is left of [r] to match after the character [c]. *)
Fixpoint derive (c : ascii) (r : t) : t :=
  match r with
  | Never => Never
  | Empty => Never
  | Class p => if p c then Empty else Never
  | Seq r1 r2 =>
      if nullable r1 then Or (Seq (derive c r1) r2) (derive c r2)
      else Seq (derive c r1) r2
  | Or r1 r2 => Or (derive c r1) (derive c r2)
  | Star r' => Seq (derive c r') (Star r')
  end.

Fixpoint test (r : t) (s : string) : bool :=
  match s with
  | EmptyString => nullable r
  | String c s' => test (derive c r) s'
  end.

(** The strings a pattern denotes. *)
Inductive matches : t → string → Prop :=
  | matches_empty : matches Empty EmptyString
  | matches_class p c : p c = true → matches (Class p) (String c EmptyString)
  | matches_seq r1 r2 s1 s2 :
      matches r1 s1 → matches r2 s2 → matches (Seq r1 r2) (s1 +:+ s2)
  | matches_or_l r1 r2 s : matches r1 s → matches (Or r1 r2) s
  | matches_or_r r1 r2 s : matches r2 s → matches (Or r1 r2) s
  | matches_star_nil r : matches (Star r) EmptyString
  | matches_star_more r s1 s2 :
      matches r s1 → matches (Star r) s2 → matches (Star r) (s1 +:+ s2).

(** Every character of [s] is in the class [p]. *)
Fixpoint allChars (p : ascii → bool) (s : string) : bool :=
  match s with
  | EmptyString => true
  | String c s' => p c && allChars p s'
  end.

End Pattern.

(** ** services/reownAppkit.ts: the stored sign-in *)

Module Auth.
Import Text.

(** [window.localStorage] is a map from keys to strings. *)

Record ReownAuthProfile := {
  token : string;
  address : option string;
  email : option string;
  provider : option string
}.

(** [if (value) storage.setItem(key, value)] for a value that may be
    missing. *)
Definition setIfTruthy (key : string) (value : option string) (storage : gmap string string)
    : gmap string string :=
  match value with
  | Some v => if truthy v then <[key := v]> storage else storage
  | None => storage
  end.

Definition storeAuthToken (profile : ReownAuthProfile) (storage : gmap string string) : gmap string string :=
  setIfTruthy "reown_provider" (provider profile)
    (setIfTruthy "reown_email" (email profile)
       (setIfTruthy "reown_address" (address profile)
          (<["auth" := token profile]> storage))).

Definition clearAuthToken (storage : gmap string string) : gmap string string :=
  delete "reown_provider"
    (delete "reown_email" (delete "reown_address" (delete "auth" storage))).

(** [value && value.trim() ? value : null] for a stored value. *)
Definition notBlank (value : option string) : option string :=
  match value with
  | Some v => if truthy v && truthy (trim v) then Some v else None
  | None => None
  end.

Definition getStoredAuthToken (storage : gmap string string) : option string :=
  notBlank (storage !! "auth").

Definition getStoredEmail (storage : gmap string string) : option string :=
  notBlank (storage !! "reown_email").

End Auth.

(** ** App.vue: the address of a flow, and saving it *)

Module Flow.
Import Text.

(** *** The patterns *)

(** The class [[^\s@]]. *)
Definition notSpaceNorAt (c : ascii) : bool :=
  negb (isWhiteSpace c) && negb (Ascii.eqb c "@").

(** [/^[^\s@]+@[^\s@]+\.[^\s@]+$/] *)
Definition emailPattern : Pattern.t :=
  Pattern.Seq (Pattern.Plus (Pattern.Class notSpaceNorAt))
    (Pattern.Seq (Pattern.Lit "@")
       (Pattern.Seq (Pattern.Plus (Pattern.Class notSpaceNorAt))
          (Pattern.Seq (Pattern.Lit ".")
             (Pattern.Plus (Pattern.Class notSpaceNorAt))))).

Definition isValidEmail (value : string) : bool := Pattern.test emailPattern value.

(** The class [[^/]]. *)
Definition notSlash (c : ascii) : bool := negb (Ascii.eqb c "/").

(** [/^\/s\/([^/]+)$/] without its group. *)
Definition flowPathPattern : Pattern.t :=
  Pattern.Seq (Pattern.Lit "/")
    (Pattern.Seq (Pattern.Lit "s")
       (Pattern.Seq (Pattern.Lit "/") (Pattern.Plus (Pattern.Class notSlash)))).

Fixpoint dropChars (n : nat) (s : string) : string :=
  match n, s with
  | S n', String _ s' => dropChars n' s'
  | _, _ => s
  end.

(** [parseFlowIdFromUrl], of [window.location.pathname].  The group of the
    pattern is what follows the three characters before it. *)
Definition parseFlowIdFromUrl (pathname : string) : option string :=
  if Pattern.test flowPathPattern pathname then Some (dropChars 3 pathname) else None.

(** The characters of the ids that the server makes with
    [crypto.randomUUID()]: the digits, the letters [a] to [f], and [-]. *)
Definition isUuidChar (c : ascii) : bool :=
  let n := nat_of_ascii c in
  ((48 <=? n)%nat && (n <=? 57)%nat) || ((97 <=? n)%nat && (n <=? 102)%nat)
  || (n =? 45)%nat.

(** [updateUrlWithId], as the path it leaves.  For an id of the characters
    above, [history.replaceState] puts the path it is given; other ids are
    outside the model. *)
Definition updateUrlWithId (pathname id : string) : string :=
  let nextPath := "/s/" +:+ id in
  if String.eqb pathname nextPath then pathname else nextPath.

(** *** handleSaveFlow *)

(** The refs of the component that saving reads and writes, the path of
    the page, the local storage, and whether a draft is kept in the session
    storage. *)
Record Editor := {
  isSaving : bool;
  saveError : string;
  saveStatus : string;
  contactEmail : string;
  contactPhone : string;
  currentFlowId : option string;
  authToken : option string;
  pendingSave : bool;
  pathname : string;
  localStorage : gmap string string;
  draftStored : bool
}.

(** The request given to [fetch]: its method, its address after
    [FLOW_API_BASE], and its [Authorization] header if it has one.  Its
    body is the payload of the diagram. *)
Record Request := {
  method : string;
  endpoint : string;
  authorization : option string
}.

(** How the synchronous part of [handleSaveFlow] ends: it returns, it
    opens the sign-in dialog and returns, or it starts the request. *)
Inductive Step :=
  | Stop (e : Editor)
  | SignIn (e : Editor)
  | Send (e : Editor) (request : Request).

(** [authToken.value || getStoredAuthToken()] *)
Definition getAuthToken (e : Editor) : option string :=
  if truthyOpt (authToken e) then authToken e
  else Auth.getStoredAuthToken (localStorage e).

(** [getStoredEmail() || ""] *)
Definition readStoredEmail (e : Editor) : string :=
  match Auth.getStoredEmail (localStorage e) with
  | Some v => if truthy v then v else EmptyString
  | None => EmptyString
  end.

Definition withError (e : Editor) (msg : string) : Editor :=
  {| isSaving := isSaving e; saveError := msg; saveStatus := saveStatus e;
     contactEmail := contactEmail e; contactPhone := contactPhone e;
     currentFlowId := currentFlowId e; authToken := authToken e;
     pendingSave := pendingSave e; pathname := pathname e;
     localStorage := localStorage e; draftStored := draftStored e |}.

Definition withEmail (e : Editor) (value : string) : Editor :=
  {| isSaving := isSaving e; saveError := saveError e; saveStatus := saveStatus e;
     contactEmail := value; contactPhone := contactPhone e;
     currentFlowId := currentFlowId e; authToken := authToken e;
     pendingSave := pendingSave e; pathname := pathname e;
     localStorage := localStorage e; draftStored := draftStored e |}.

(** [pendingSave.value = true; storeDraftToSession()] *)
Definition withPendingDraft (e : Editor) : Editor :=
  {| isSaving := isSaving e; saveError := saveError e; saveStatus := saveStatus e;
     contactEmail := contactEmail e; contactPhone := contactPhone e;
     currentFlowId := currentFlowId e; authToken := authToken e;
     pendingSave := true; pathname := pathname e;
     localStorage := localStorage e; draftStored := true |}.

(** [isSaving.value = true; saveStatus.value = "Saving..."] *)
Definition withSaving (e : Editor) : Editor :=
  {| isSaving := true; saveError := saveError e; saveStatus := "Saving...";
     contactEmail := contactEmail e; contactPhone := contactPhone e;
     currentFlowId := currentFlowId e; authToken := authToken e;
     pendingSave := pendingSave e; pathname := pathname e;
     localStorage := localStorage e; draftStored := draftStored e |}.

Definition requestOf (e : Editor) (token : option string) : Request :=
  let isUpdate := truthyOpt (currentFlowId e) in
  {| method := if isUpdate then "PUT" else "POST";
     endpoint := if isUpdate then "/api/flows/" +:+ default EmptyString (currentFlowId e)
            else "/api/flows";
     authorization := if truthyOpt token
                      then Some ("Bearer " +:+ default EmptyString token)
                      else None |}.

(** The block [if (!contactEmail.value.trim()) { ... }] of
    [handleSaveFlow]: an e-mail field that is blank takes the stored e-mail
    of the sign-in, if there is one. *)
Definition restoreEmail (e : Editor) : Editor :=
  if negb (truthy (trim (contactEmail e)))
  then let storedEmail := readStoredEmail e in
       if truthy storedEmail then withEmail e storedEmail else e
  else e.

(** The part of [handleSaveFlow] before the request.  It runs without
    interruption; the watcher of [contactEmail] runs after it. *)
Definition handleSaveFlow (e : Editor) : Step :=
  if isSaving e then Stop e
  else
    let e := withError e "" in
    let trimmedPhone := trim (contactPhone e) in
    if negb (truthy trimmedPhone) then Stop (withError e "Phone number is required.")
    else
      let e := restoreEmail e in
      if negb (truthy (trim (contactEmail e)))
      then
        let token := getAuthToken e in
        if negb (truthyOpt (currentFlowId e)) && negb (truthyOpt token)
        then SignIn (withPendingDraft e)
        else Stop (withError e "Email is required.")
      else if negb (isValidEmail (trim (contactEmail e)))
      then Stop (withError e "Enter a valid email address.")
      else
        let token := getAuthToken e in
        if negb (truthyOpt (currentFlowId e)) && negb (truthyOpt token)
        then SignIn (withPendingDraft e)
        else Send (withSaving e) (requestOf e token).

(** How the request ends: the response, with the id of its body if it has
    one, or an exception, which is the abort of the timeout or another
    one. *)
Inductive Outcome :=
  | Responded (ok : bool) (resultId : option string)
  | Aborted
  | Failed.

(** The part of [handleSaveFlow] after the request, [finally] included,
    from the state [e] it finds; [wasUpdate] is [isUpdate], computed before
    the request.  An exception is one of [fetch] or of reading the body. *)
Definition finishSaveFlow (e : Editor) (wasUpdate : bool) (outcome : Outcome) : Editor :=
  let '(status, flowId, path, draft) :=
    match outcome with
    | Responded true resultId =>
        if negb wasUpdate && truthyOpt resultId
        then ("Saved", resultId,
              updateUrlWithId (pathname e) (default EmptyString resultId), false)
        else ("Saved", currentFlowId e, pathname e, false)
    | Responded false _ => ("Save failed", currentFlowId e, pathname e, draftStored e)
    | Aborted => ("Save timed out", currentFlowId e, pathname e, draftStored e)
    | Failed => ("Save failed", currentFlowId e, pathname e, draftStored e)
    end in
  {| isSaving := false; saveError := saveError e; saveStatus := status;
     contactEmail := contactEmail e; contactPhone := contactPhone e;
     currentFlowId := flowId; authToken := authToken e;
     pendingSave := pendingSave e; pathname := path;
     localStorage := localStorage e; draftStored := draft |}.

(** [onMounted], for the id of the flow: the path of the page gives it. *)
Definition mountFlowId (e : Editor) : option string :=
  match parseFlowIdFromUrl (pathname e) with
  | Some initialFlowId => if truthy initialFlowId then Some initialFlowId
                          else currentFlowId e
  | None => currentFlowId e
  end.

(** [handleSaveFlow] as a whole, when nothing else runs while the request
    is under way: [outcome] is how the request ends, if there is one. *)
Definition saveFlow (e : Editor) (outcome : Outcome) : Editor :=
  match handleSaveFlow e with
  | Stop e' => e'
  | SignIn e' => e'
  | Send e' _ => finishSaveFlow e' (truthyOpt (currentFlowId e')) outcome
  end.

End Flow.

(** ** App.vue: the buttons that add a port to a process *)

Module Ports.
Import ProcessNode.

Global Instance Location_eq_dec : EqDecision Location.
Proof. solve_decision. Defined.

(** [Object.values(collection).filter((intf) => getMeta(intf)?.location === loc)].
    Only the number of these ports is used, so their order is left
    open. *)
Definition portsAt (loc : Location) (collection : gmap string PortIntf)
    : list PortIntf :=
  filter (λ intf, location (data intf) = loc) (map_to_list collection).*2.

(** What [addInputPort] does to the process it is given, when [addNode] of
    the graph returns the new resource.  (It also gives this input resource
    the label of the port as its title, connects it to the new port and
    arranges the diagram.) *)
Definition addInputPort (process : t) : t :=
  let nextIndex := (length (portsAt left (inputs process)) + 1)%nat in
  (addFlowInterface process ("Input " +:+ pretty nextIndex) "material" input None).1.

(** What [addOutputPort] does to the process; the resource is an output
    resource. *)
Definition addOutputPort (process : t) : t :=
  let nextIndex := (length (portsAt right (outputs process)) + 1)%nat in
  (addFlowInterface process ("Output " +:+ pretty nextIndex) "product" output None).1.

(** What [addMechanismPort] does to the process; the resource is a service
    resource. *)
Definition addMechanismPort (process : t) : t :=
  let nextIndex := (length (portsAt bottom (inputs process)) + 1)%nat in
  (addFlowInterface process ("Szolgáltatás " +:+ pretty nextIndex) "service" service
     None).1.

End Ports.

(** ** ResourceNode.ts *)

Module ResourceNode.
Import Text.



Record ResourceFields := {
  origin : option string;
  inputQuantity : option Q;
  details : option string;
  outputKg : option Q;
  destination : option string;
  quantity : option Q;
  duration : option string;
  parameters : option string
}.

(** The object [{}]. *)
Definition noFields : ResourceFields :=
  {| origin := None; inputQuantity := None; details := None; outputKg := None;
     destination := None; quantity := None; duration := None; parameters := None |}.

(** A [NodeInterface] with its [data]. *)
Record PortIntf := {
  name : string;
  location : ProcessNode.Location
}.

(** A resource node: what the class declares and sets.  [title] is [None]
    until the class sets it. *)
Record t := {
  title : option string;
  resourceType : string;
  inputs : gmap string PortIntf;
  outputs : gmap string PortIntf;
  fields : ResourceFields
}.

(** [replace(/\s+/g, "_")]: every maximal run of white space becomes one
    underscore. *)
Fixpoint replaceSpaces (inRun : bool) (s : string) : string :=
  match s with
  | EmptyString => EmptyString
  | String c s' =>
      if isWhiteSpace c
      then if inRun then replaceSpaces true s' else String "_" (replaceSpaces true s')
      else String c (replaceSpaces false s')
  end.

(** [name.toLowerCase().replace(/\s+/g, "_")] *)
Definition keyOf (name : string) : string :=
  replaceSpaces false (ProcessNode.toLowerCase name).

Definition addResourceOutput (node : t) (name : string) (location : ProcessNode.Location) : t :=
  {| title := title node; resourceType := resourceType node; inputs := inputs node;
     outputs := <[keyOf name := {| name := name; location := location |}]> (outputs node);
     fields := fields node |}.

Definition addResourceInput (node : t) (name : string) : t :=
  {| title := title node; resourceType := resourceType node;
     inputs := <[keyOf name := {| name := name; location := ProcessNode.left |}]>
                 (inputs node);
     outputs := outputs node; fields := fields node |}.

(** [this.title = ...; this.fields = ...] *)
Definition withTitleFields (node : t) (newTitle : string) (newFields : ResourceFields)
    : t :=
  {| title := Some newTitle; resourceType := resourceType node; inputs := inputs node;
     outputs := outputs node; fields := newFields |}.

(** The [switch] of [initInterfaces]; it has no default case. *)
Definition initInterfaces (node : t) (resourceType : string) : t :=
  if String.eqb resourceType "input" then
    addResourceOutput
      (withTitleFields node "Input Material"
         {| origin := Some EmptyString; inputQuantity := Some 0%Q;
            details := Some EmptyString; outputKg := None; destination := None;
            quantity := None; duration := None; parameters := None |})
      "Material" ProcessNode.right
  else if String.eqb resourceType "output" then
    addResourceOutput
      (addResourceInput
         (withTitleFields node "Output Product"
            {| origin := None; inputQuantity := None; details := None;
               outputKg := Some 1%Q; destination := Some EmptyString;
               quantity := None; duration := None; parameters := None |})
         "Product")
      "Output" ProcessNode.right
  else if String.eqb resourceType "machine" then
    addResourceOutput
      (withTitleFields node "Machine"
         {| origin := None; inputQuantity := None; details := None; outputKg := None;
            destination := None; quantity := None; duration := Some EmptyString;
            parameters := Some EmptyString |})
      "Machine Slot" ProcessNode.top
  else if String.eqb resourceType "energy" then
    addResourceOutput
      (withTitleFields node "Energy Source"
         {| origin := None; inputQuantity := None; details := None; outputKg := None;
            destination := None; quantity := Some 0%Q; duration := None;
            parameters := None |})
      "Energy" ProcessNode.top
  else if String.eqb resourceType "gas" then
    addResourceOutput
      (withTitleFields node "Gáz (m3)"
         {| origin := None; inputQuantity := None; details := None; outputKg := None;
            destination := None; quantity := Some 0%Q; duration := None;
            parameters := None |})
      "Gas" ProcessNode.top
  else if String.eqb resourceType "water" then
    addResourceOutput
      (withTitleFields node "Víz (m3)"
         {| origin := None; inputQuantity := None; details := None; outputKg := None;
            destination := None; quantity := Some 0%Q; duration := None;
            parameters := None |})
      "Water" ProcessNode.top
  else if String.eqb resourceType "service" then
    addResourceOutput
      (withTitleFields node "Szolgáltatás"
         {| origin := None; inputQuantity := None; details := None; outputKg := None;
            destination := None; quantity := None; duration := Some EmptyString;
            parameters := Some EmptyString |})
      "Service" ProcessNode.top
  else if String.eqb resourceType "property" then
    addResourceOutput
      (withTitleFields node "Ingatlan"
         {| origin := None; inputQuantity := None; details := None; outputKg := None;
            destination := None; quantity := None; duration := Some EmptyString;
            parameters := Some EmptyString |})
      "Property" ProcessNode.top
  else node.

(** The constructor. *)
Definition new (resourceType : string) : t :=
  initInterfaces
    {| title := None; resourceType := resourceType; inputs := ∅; outputs := ∅;
       fields := noFields |}
    resourceType.

(** The saved state of a node: what [save] adds to the state of the
    library, and the title, which is part of that state.  A state that was
    saved by an earlier version may lack the kind and the fields. *)
Record State := {
  state_title : option string;
  state_resourceType : option string;
  state_fields : option ResourceFields
}.

Definition save (node : t) : State :=
  {| state_title := title node; state_resourceType := Some (resourceType node);
     state_fields := Some (fields node) |}.

Section Load.

(** [super.load(state)], of the graph library. *)
Variable super_load : State → t → t.

Definition load (node : t) (state : State) : t :=
  let savedType := state_resourceType state in
  let node :=
    if truthyOpt savedType
       && negb (String.eqb (default EmptyString savedType) (resourceType node))
    then initInterfaces
           {| title := title node; resourceType := default EmptyString savedType;
              inputs := ∅; outputs := ∅; fields := fields node |}
           (default EmptyString savedType)
    else node in
  let node := super_load state node in
  match state_fields state with
  | Some savedFields =>
      {| title := title node; resourceType := resourceType node;
         inputs := inputs node; outputs := outputs node; fields := savedFields |}
  | None => node
  end.

End Load.

(** A [super.load] that takes the title of the state and leaves the rest
    of [t] as it is. *)
Definition libraryLoad (state : State) (node : t) : t :=
  {| title := state_title state; resourceType := resourceType node;
     inputs := inputs node; outputs := outputs node; fields := fields node |}.

End ResourceNode.
(** ** ProcessNode.ts: the suffix loop finds a free key *)

Module ProcessNodeSpec.
Import ProcessNode.

(** *** Executable checks *)

Example normalize_fieldPath :
  normalize "inputInstance.material" = "inputinstance_material".
Proof. reflexivity. Qed.

Example normalize_name :
  normalize (keySource "Input 3" input "material" None) = "input_material_input_3".
Proof. reflexivity. Qed.

Example normalize_trims : normalize "  (m3) " = "m3".
Proof. reflexivity. Qed.

Example makeKey_suffixes :
  let n1 := fst (addFlowInterface empty "Port" "material" input None) in
  let n2 := fst (addFlowInterface n1 "port" "material" input None) in
  makeKey empty "Port" input "material" None = "input_material_port"
  ∧ makeKey n1 "port" input "material" None = "input_material_port_1"
  ∧ makeKey n2 "PORT" input "material" None = "input_material_port_2".
Proof. vm_compute. done. Qed.

(** *** The loop finds a free key *)

(** The keys the loop tries, in order: [candidate normalized 0] is
    [normalized] itself, [candidate normalized (S i)] carries the suffix
    [_ (S i)]. *)
Definition candidate (normalized : string) (i : nat) : string :=
  match i with
  | O => normalized
  | S _ => normalized +:+ "_" +:+ pretty i
  end.

Lemma append_inj_r (p s1 s2 : string) : p +:+ s1 = p +:+ s2 → s1 = s2.
Proof. induction p as [|c p IH]; simpl; intros H; [done|]. injection H. auto. Qed.

Lemma append_length (s1 s2 : string) :
  String.length (s1 +:+ s2) = (String.length s1 + String.length s2)%nat.
Proof. induction s1 as [|c s1 IH]; simpl; [done|]. by rewrite IH. Qed.

Lemma candidate_inj normalized : Inj (=) (=) (candidate normalized).
Proof.
  intros [|i] [|j] H; simpl in H; [done| | |].
  - apply (f_equal String.length) in H. rewrite append_length in H. simpl in H. lia.
  - apply (f_equal String.length) in H. rewrite append_length in H. simpl in H. lia.
  - apply append_inj_r in H. simpl in H. injection H as H.
    exact (pretty_nat_inj _ _ H).
Qed.

Lemma makeKey_loop_candidates fuel coll normalized j :
  makeKey_loop fuel coll normalized (candidate normalized j) (S j) = None →
  ∀ i, (j ≤ i < j + fuel)%nat → is_Some (coll !! candidate normalized i).
Proof.
  revert j. induction fuel as [|fuel IH]; intros j Hloop i Hi; [lia|].
  simpl in Hloop. unfold hasOwnProperty in Hloop.
  case_bool_decide as Hin; [|done].
  destruct (decide (i = j)) as [->|Hne]; [done|].
  apply (IH (S j)); [exact Hloop | lia].
Qed.

Lemma makeKey_loop_free fuel coll normalized key index k :
  makeKey_loop fuel coll normalized key index = Some k → coll !! k = None.
Proof.
  revert key index. induction fuel as [|fuel IH]; intros key index H; [done|].
  simpl in H. unfold hasOwnProperty in H. case_bool_decide as Hin.
  - by eapply IH.
  - injection H as <-. by apply eq_None_not_Some.
Qed.

(** Pigeonhole: a collection cannot hold more pairwise different candidates
    than it has keys. *)
Lemma candidates_bounded (coll : gmap string PortIntf) normalized n :
  (∀ i, (i < n)%nat → is_Some (coll !! candidate normalized i)) →
  (n ≤ size coll)%nat.
Proof.
  intros Hall.
  pose (cs := candidate normalized <$> seq 0 n).
  assert (NoDup cs) as Hnd.
  { apply NoDup_fmap_2; [apply candidate_inj | apply NoDup_seq]. }
  assert (list_to_set cs ⊆ dom coll) as Hsub.
  { intros k Hk. apply elem_of_list_to_set in Hk.
    apply list_elem_of_fmap in Hk as (i & -> & Hi).
    apply elem_of_seq in Hi. apply elem_of_dom. apply Hall. lia. }
  apply subseteq_size in Hsub.
  rewrite size_list_to_set in Hsub by done.
  rewrite size_dom in Hsub.
  unfold cs in Hsub. by rewrite length_fmap, length_seq in Hsub.
Qed.

Lemma makeKey_loop_returns (coll : gmap string PortIntf) normalized :
  ∃ k, makeKey_loop (S (size coll)) coll normalized normalized 1 = Some k.
Proof.
  destruct (makeKey_loop (S (size coll)) coll normalized normalized 1)
    as [k|] eqn:Hloop; [by exists k|].
  pose proof (makeKey_loop_candidates _ _ _ 0 Hloop) as Hall.
  assert (S (size coll) ≤ size coll)%nat; [|lia].
  apply (candidates_bounded coll normalized). intros i Hi. apply Hall. lia.
Qed.

Lemma makeKey_free_in (node : t) nm s ft fp :
  ioCollectionOf node s !! makeKey node nm s ft fp = None.
Proof.
  unfold makeKey.
  destruct (makeKey_loop_returns (ioCollectionOf node s)
              (normalize (keySource nm s ft fp))) as [k Hk].
  rewrite Hk. simpl. by eapply makeKey_loop_free.
Qed.

Example new_keys :
  size (inputs new) = 8%nat ∧ size (outputs new) = 2%nat
  ∧ name <$> inputs new !! "serviceinstance_gas" = Some "Gáz (m3)"
  ∧ name <$> outputs new !! "output_byproduct" = Some "Output 2".
Proof. vm_compute. done. Qed.

(** C10.  In every state of a process node, the key [makeKey] returns is
    not a key of the collection the new port goes to: the loop stops within
    one more test than the collection has keys, on a free key.  So
    [addFlowInterface] stores the new port under a new key, every port that
    was there stays under its key, and the collection grows by one. *)
Theorem addFlowInterface_fresh_key (node : t) (nm ft : string) (s : FlowSide)
    (fp : option string) :
  let key := makeKey node nm s ft fp in
  let node' := (addFlowInterface node nm ft s fp).1 in
  let intf := (addFlowInterface node nm ft s fp).2 in
  let normalized := normalize (keySource nm s ft fp) in
  makeKey_loop (S (size (ioCollectionOf node s))) (ioCollectionOf node s)
    normalized normalized 1 = Some key
  ∧ ioCollectionOf node s !! key = None
  ∧ ioCollectionOf node' s = <[key := intf]> (ioCollectionOf node s)
  ∧ inputs node ⊆ inputs node'
  ∧ outputs node ⊆ outputs node'
  ∧ size (ioCollectionOf node' s) = S (size (ioCollectionOf node s)).
Proof.
  intros key node' intf normalized.
  pose proof (makeKey_free_in node nm s ft fp) as Hfree. fold key in Hfree.
  assert (makeKey_loop (S (size (ioCollectionOf node s))) (ioCollectionOf node s)
            normalized normalized 1 = Some key) as Hloop.
  { destruct (makeKey_loop_returns (ioCollectionOf node s) normalized) as [k Hk].
    rewrite Hk. unfold key, makeKey. fold normalized. by rewrite Hk. }
  split; [exact Hloop|]. split; [exact Hfree|].
  assert (ioCollectionOf node' s = <[key := intf]> (ioCollectionOf node s)) as Hins.
  { unfold node', intf, addFlowInterface. fold key. by destruct s. }
  split; [exact Hins|].
  split; [|split].
  - unfold node', addFlowInterface. fold key.
    destruct s; simpl; try done; by apply insert_subseteq.
  - unfold node', addFlowInterface. fold key.
    destruct s; simpl; try done; by apply insert_subseteq.
  - rewrite Hins. by apply map_size_insert_None.
Qed.

(** *** Which key the loop returns *)

(** The loop returns the first candidate that is free. *)
Lemma makeKey_loop_first_free fuel coll normalized j key :
  makeKey_loop fuel coll normalized (candidate normalized j) (S j) = Some key →
  ∃ k, (j ≤ k < j + fuel)%nat ∧ key = candidate normalized k
       ∧ ∀ i, (j ≤ i < k)%nat → is_Some (coll !! candidate normalized i).
Proof.
  revert j. induction fuel as [|fuel IH]; intros j Hloop; [done|].
  simpl in Hloop. unfold hasOwnProperty in Hloop. case_bool_decide as Hin.
  - destruct (IH (S j) Hloop) as (k & Hk & -> & Hall).
    exists k. split; [lia|]. split; [done|].
    intros i Hi. destruct (decide (i = j)) as [->|Hne]; [done|]. apply Hall. lia.
  - injection Hloop as <-. exists j. split; [lia|]. split; [done|]. intros i Hi. lia.
Qed.

Lemma makeKey_candidate (node : t) nm s ft fp :
  let normalized := normalize (keySource nm s ft fp) in
  let coll := ioCollectionOf node s in
  ∃ k, makeKey node nm s ft fp = candidate normalized k
       ∧ (∀ i, (i < k)%nat → is_Some (coll !! candidate normalized i))
       ∧ coll !! candidate normalized k = None
       ∧ (k ≤ size coll)%nat.
Proof.
  intros normalized coll.
  destruct (makeKey_loop_returns coll normalized) as [key Hkey].
  assert (makeKey node nm s ft fp = key) as Hmk
    by (unfold makeKey; fold normalized coll; by rewrite Hkey).
  pose proof (makeKey_loop_free _ _ _ _ _ _ Hkey) as Hfree.
  destruct (makeKey_loop_first_free _ coll normalized 0 key Hkey) as (k & Hk & -> & Hall).
  exists k. split; [done|]. split; [intros i Hi; apply Hall; lia|]. split; [done|].
  apply (candidates_bounded coll normalized). intros i Hi. apply Hall. lia.
Qed.

(** X1.  [makeKey] returns the first free key of the sequence
    normalized, normalized_1, normalized_2, ...: every earlier key of the
    sequence is taken in the target collection, the returned one is not, and
    its index is at most the number of keys of the collection.  In
    particular it returns the normalised text itself when that is free. *)
Theorem makeKey_first_free (node : t) (nm : string) (s : FlowSide) (ft : string)
    (fp : option string) :
  let normalized := normalize (keySource nm s ft fp) in
  let coll := ioCollectionOf node s in
  (∃ k, makeKey node nm s ft fp = candidate normalized k
        ∧ (∀ i, (i < k)%nat → is_Some (coll !! candidate normalized i))
        ∧ coll !! candidate normalized k = None
        ∧ (k ≤ size coll)%nat)
  ∧ (coll !! normalized = None → makeKey node nm s ft fp = normalized)
  ∧ (is_Some (coll !! normalized) → coll !! (normalized +:+ "_1") = None →
     makeKey node nm s ft fp = normalized +:+ "_1").
Proof.
  intros normalized coll.
  destruct (makeKey_candidate node nm s ft fp) as (k & Hk & Hall & Hfree & Hsize).
  fold normalized coll in Hk, Hall, Hfree.
  split; [by exists k|]. split.
  - intros Hnone. destruct k as [|k]; [done|].
    destruct (Hall 0%nat ltac:(lia)) as [v Hv]. simpl in Hv. congruence.
  - intros [v Hv] Hnone. destruct k as [|[|k]].
    + simpl in Hfree. congruence.
    + exact Hk.
    + destruct (Hall 1%nat ltac:(lia)) as [v1 Hv1].
      change (candidate normalized 1) with (normalized +:+ "_1") in Hv1. congruence.
Qed.

(** *** Adding the same port again and again *)

(** [k] calls of [addFlowInterface] with the same arguments. *)
Fixpoint addTimes (k : nat) (node : t) (nm ft : string) (s : FlowSide)
    (fp : option string) : t :=
  match k with
  | O => node
  | S k' => (addFlowInterface (addTimes k' node nm ft s fp) nm ft s fp).1
  end.

Lemma addFlowInterface_collection (node : t) nm ft s fp :
  ioCollectionOf (addFlowInterface node nm ft s fp).1 s
  = <[makeKey node nm s ft fp := (addFlowInterface node nm ft s fp).2]>
      (ioCollectionOf node s).
Proof. unfold addFlowInterface. by destruct s. Qed.

Lemma addTimes_candidates (node : t) nm ft s fp k :
  let normalized := normalize (keySource nm s ft fp) in
  (∀ i, ioCollectionOf node s !! candidate normalized i = None) →
  (∀ i, is_Some (ioCollectionOf (addTimes k node nm ft s fp) s !! candidate normalized i)
        ↔ (i < k)%nat)
  ∧ makeKey (addTimes k node nm ft s fp) nm s ft fp = candidate normalized k.
Proof.
  intros normalized Hfree. induction k as [|k [IHin IHkey]].
  - assert (∀ i, is_Some (ioCollectionOf (addTimes 0 node nm ft s fp) s
                            !! candidate normalized i) ↔ (i < 0)%nat) as Hin.
    { intros i. simpl. rewrite Hfree. split; [by intros [? ?] | lia]. }
    split; [exact Hin|].
    destruct (makeKey_candidate (addTimes 0 node nm ft s fp) nm s ft fp)
      as (j & Hj & Hall & _ & _). fold normalized in Hj, Hall.
    destruct j as [|j]; [done|].
    assert (0 < 0)%nat; [|lia]. apply Hin, Hall. lia.
  - assert (∀ i, is_Some (ioCollectionOf (addTimes (S k) node nm ft s fp) s
                            !! candidate normalized i) ↔ (i < S k)%nat) as Hin.
    { intros i. simpl. rewrite addFlowInterface_collection, IHkey.
      destruct (decide (i = k)) as [->|Hne].
      - rewrite lookup_insert_eq. split; [lia | eauto].
      - rewrite lookup_insert_ne by (intros Heq; by apply candidate_inj in Heq).
        rewrite IHin. lia. }
    split; [exact Hin|].
    destruct (makeKey_candidate (addTimes (S k) node nm ft s fp) nm s ft fp)
      as (j & Hj & Hall & Hnone & _). fold normalized in Hj, Hall, Hnone.
    rewrite Hj. f_equal.
    destruct (decide (j < S k)%nat) as [Hlt|Hge].
    + apply Hin in Hlt as [v Hv]. congruence.
    + destruct (decide (j = S k)) as [|Hne]; [done|].
      assert (S k < S k)%nat; [|lia]. apply Hin, Hall. lia.
Qed.

(** X2.  When none of the keys normalized, normalized_1, normalized_2,
    ... is taken in the target collection, adding a port with the same
    arguments again and again uses these keys in order: the port added after
    [k] earlier ones gets the key with index [k], and exactly the first [k]
    keys of the sequence are taken before it. *)
Theorem repeated_ports_get_suffixes (node : t) (nm ft : string) (s : FlowSide)
    (fp : option string) (k : nat) :
  let normalized := normalize (keySource nm s ft fp) in
  (∀ i, ioCollectionOf node s !! candidate normalized i = None) →
  makeKey (addTimes k node nm ft s fp) nm s ft fp = candidate normalized k
  ∧ ∀ i, is_Some (ioCollectionOf (addTimes k node nm ft s fp) s !! candidate normalized i)
         ↔ (i < k)%nat.
Proof.
  intros normalized Hfree.
  destruct (addTimes_candidates node nm ft s fp k Hfree) as [Hin Hkey]. by split.
Qed.

Lemma repeated_ports_get_suffixes_witness :
  makeKey (addTimes 3 empty "Port" "material" input None) "Port" input "material" None
  = "input_material_port_3".
Proof.
  refine (proj1 (repeated_ports_get_suffixes empty "Port" "material" input None 3 _)).
  intros i. reflexivity.
Defined.

(** *** The shape of a normalised text *)

Definition underscore : ascii := "_"%char.

(** A character a key may hold: [[a-z0-9]] or the underscore. *)
Definition keyish (c : ascii) : Prop := isKeyChar c = true ∨ c = underscore.

Definition chars (s : string) : list ascii := list_ascii_of_string s.

(** No two underscores side by side. *)
Definition noDouble (l : list ascii) : Prop :=
  ∀ l1 l2, l ≠ l1 ++ underscore :: underscore :: l2.

Lemma chars_inj s1 s2 : chars s1 = chars s2 → s1 = s2.
Proof.
  intros H. rewrite <- (string_of_list_ascii_of_string s1),
    <- (string_of_list_ascii_of_string s2). unfold chars in H. by rewrite H.
Qed.

Lemma chars_app s1 s2 : chars (s1 +:+ s2) = chars s1 ++ chars s2.
Proof. induction s1 as [|c s1 IH]; simpl; [done|]. unfold chars in *. simpl. by rewrite IH. Qed.

Lemma chars_rev_app s1 s2 : chars (String.rev_app s1 s2) = List.rev (chars s1) ++ chars s2.
Proof.
  revert s2. induction s1 as [|c s1 IH]; intros s2; simpl; [done|].
  rewrite IH. unfold chars. simpl. by rewrite <- app_assoc.
Qed.

Lemma chars_rev s : chars (String.rev s) = List.rev (chars s).
Proof. unfold String.rev. rewrite chars_rev_app. unfold chars. simpl. by rewrite app_nil_r. Qed.

Lemma isKeyChar_not_underscore : isKeyChar underscore = false.
Proof. reflexivity. Qed.

Lemma strip_underscore s :
  stripLeadingUnderscores (String underscore s) = stripLeadingUnderscores s.
Proof. reflexivity. Qed.

Lemma strip_other c s :
  c ≠ underscore → stripLeadingUnderscores (String c s) = String c s.
Proof.
  intros Hne. destruct c as [[] [] [] [] [] [] [] []]; try reflexivity.
  by destruct Hne.
Qed.

Lemma strip_suffix s : ∃ us, chars s = us ++ chars (stripLeadingUnderscores s)
                             ∧ Forall (λ c, c = underscore) us.
Proof.
  induction s as [|c s (us & Hus & Hall)].
  - exists []. by split.
  - destruct (decide (c = underscore)) as [->|Hne].
    + exists (underscore :: us). rewrite strip_underscore. split.
      * unfold chars in *. simpl. by rewrite Hus.
      * by constructor.
    + exists []. rewrite (strip_other c s Hne). by split.
Qed.

Lemma strip_head s : head (chars (stripLeadingUnderscores s)) ≠ Some underscore.
Proof.
  induction s as [|c s IH]; [done|].
  destruct (decide (c = underscore)) as [->|Hne].
  - by rewrite strip_underscore.
  - rewrite (strip_other c s Hne). unfold chars. simpl. congruence.
Qed.

Lemma strip_id s : head (chars s) ≠ Some underscore → stripLeadingUnderscores s = s.
Proof.
  destruct s as [|c s]; [done|]. unfold chars. simpl. intros Hne.
  apply strip_other. congruence.
Qed.

Lemma noDouble_suffix l1 l2 : noDouble (l1 ++ l2) → noDouble l2.
Proof. intros H a b ->. apply (H (l1 ++ a) b). by rewrite <- app_assoc. Qed.

Lemma noDouble_prefix l1 l2 : noDouble (l1 ++ l2) → noDouble l1.
Proof.
  intros H a b ->. apply (H a (b ++ l2)). by rewrite <- app_assoc.
Qed.

Lemma noDouble_rev l : noDouble l → noDouble (List.rev l).
Proof.
  intros H a b Heq. apply (H (List.rev b) (List.rev a)).
  rewrite <- (rev_involutive l), Heq, rev_app_distr. simpl.
  by rewrite <- !app_assoc.
Qed.

Lemma noDouble_cons c l :
  noDouble l → (c = underscore → head l ≠ Some underscore) → noDouble (c :: l).
Proof.
  intros Hl Hc [|a l1] l2 Heq; simpl in Heq.
  - injection Heq as -> ->. by apply Hc.
  - injection Heq as -> ->. by apply (Hl l1 l2).
Qed.

Lemma noDouble_nil : noDouble [].
Proof. intros [|a l1] l2 H; discriminate. Qed.

(** What [replaceRuns] yields. *)
Lemma replaceRuns_shape inRun s :
  Forall keyish (chars (replaceRuns inRun s))
  ∧ noDouble (chars (replaceRuns inRun s))
  ∧ (inRun = true → head (chars (replaceRuns inRun s)) ≠ Some underscore).
Proof.
  revert inRun. induction s as [|c s IH]; intros inRun.
  - split; [constructor|]. split; [apply noDouble_nil | done].
  - simpl. destruct (isKeyChar c) eqn:Hc.
    + destruct (IH false) as (Hall & Hnd & _).
      split; [constructor; [by left | exact Hall]|]. split.
      * apply noDouble_cons; [exact Hnd|]. intros ->. by rewrite isKeyChar_not_underscore in Hc.
      * intros _. unfold chars. simpl. intros [= ->].
        by rewrite isKeyChar_not_underscore in Hc.
    + destruct (IH true) as (Hall & Hnd & Hhead). destruct inRun.
      * by split.
      * split; [constructor; [by right | exact Hall]|]. split; [|done].
        apply noDouble_cons; [exact Hnd|]. intros _. by apply Hhead.
Qed.

Lemma trimUnderscores_chars s :
  ∃ pre post, chars s = pre ++ chars (trimUnderscores s) ++ post
              ∧ Forall (λ c, c = underscore) pre ∧ Forall (λ c, c = underscore) post.
Proof.
  unfold trimUnderscores. destruct (strip_suffix s) as (pre & Hpre & Hall).
  set (m := stripLeadingUnderscores s) in *.
  destruct (strip_suffix (String.rev m)) as (us & Hus & Hus_all).
  rewrite chars_rev in Hus.
  exists pre, (List.rev us). split; [|split; [done | by apply Forall_rev]].
  rewrite Hpre. f_equal. rewrite chars_rev.
  rewrite <- rev_app_distr, <- Hus. by rewrite rev_involutive.
Qed.

Lemma head_rev (l : list ascii) : head (List.rev l) = last l.
Proof.
  induction l as [|c l _] using rev_ind; [done|].
  rewrite rev_app_distr, last_snoc. reflexivity.
Qed.

Lemma trimUnderscores_ends s :
  head (chars (trimUnderscores s)) ≠ Some underscore
  ∧ last (chars (trimUnderscores s)) ≠ Some underscore.
Proof.
  unfold trimUnderscores. set (m := stripLeadingUnderscores s).
  assert (last (chars (String.rev (stripLeadingUnderscores (String.rev m))))
          ≠ Some underscore) as Hlast.
  { rewrite chars_rev, <- head_rev, rev_involutive. apply strip_head. }
  split; [|exact Hlast].
  destruct (strip_suffix (String.rev m)) as (us & Hus & Hall).
  rewrite chars_rev in Hus.
  assert (chars m
          = chars (String.rev (stripLeadingUnderscores (String.rev m))) ++ List.rev us)
    as Hm.
  { rewrite chars_rev, <- rev_app_distr, <- Hus. by rewrite rev_involutive. }
  pose proof (strip_head s) as Hhead. fold m in Hhead. rewrite Hm in Hhead.
  destruct (chars (String.rev (stripLeadingUnderscores (String.rev m)))); [done|].
  exact Hhead.
Qed.

Lemma lowerChar_keyish c : keyish c → lowerChar c = c.
Proof.
  intros [Hkey| ->]; [|reflexivity].
  destruct c as [[] [] [] [] [] [] [] []]; vm_compute in Hkey; try discriminate;
    reflexivity.
Qed.

Lemma Forall_chars_cons (P : ascii → Prop) c s :
  Forall P (chars (String c s)) ↔ P c ∧ Forall P (chars s).
Proof. unfold chars. simpl. apply Forall_cons. Qed.

Lemma toLowerCase_id s : Forall keyish (chars s) → toLowerCase s = s.
Proof.
  induction s as [|c s IH]; [done|].
  intros [Hc Hs]%Forall_chars_cons. simpl. by rewrite (lowerChar_keyish c Hc), IH.
Qed.

Lemma replaceRuns_id inRun s :
  Forall keyish (chars s) → noDouble (chars s) →
  (inRun = true → head (chars s) ≠ Some underscore) →
  replaceRuns inRun s = s.
Proof.
  revert inRun. induction s as [|c s IH]; intros inRun Hall Hnd Hhead; [done|].
  apply Forall_chars_cons in Hall as [Hc Hs].
  assert (noDouble (chars s)) as Hnd'.
  { apply (noDouble_suffix [c]). exact Hnd. }
  simpl. destruct Hc as [Hkey| ->].
  - rewrite Hkey. f_equal. by apply IH.
  - rewrite isKeyChar_not_underscore. destruct inRun.
    + exfalso. by apply Hhead.
    + f_equal. apply IH; [done | done |].
      intros _ Hs'. destruct s as [|c' s]; [done|].
      unfold chars in Hs'. simpl in Hs'. injection Hs' as ->.
      by apply (Hnd [] (chars s)).
Qed.

Lemma trimUnderscores_id s :
  head (chars s) ≠ Some underscore → last (chars s) ≠ Some underscore →
  trimUnderscores s = s.
Proof.
  intros Hhead Hlast. unfold trimUnderscores.
  rewrite (strip_id s Hhead).
  rewrite (strip_id (String.rev s)) by (by rewrite chars_rev, head_rev).
  apply chars_inj. by rewrite !chars_rev, rev_involutive.
Qed.

Lemma normalize_shape source :
  Forall keyish (chars (normalize source))
  ∧ noDouble (chars (normalize source))
  ∧ head (chars (normalize source)) ≠ Some underscore
  ∧ last (chars (normalize source)) ≠ Some underscore.
Proof.
  unfold normalize. set (r := replaceRuns false (toLowerCase source)).
  destruct (replaceRuns_shape false (toLowerCase source)) as (Hall & Hnd & _).
  fold r in Hall, Hnd.
  destruct (trimUnderscores_chars r) as (pre & post & Hr & _ & _).
  destruct (trimUnderscores_ends r) as [Hhead Hlast].
  rewrite Hr in Hall, Hnd.
  apply Forall_app in Hall as [_ Hall]. apply Forall_app in Hall as [Hall _].
  split; [exact Hall|]. split; [|by split].
  apply noDouble_suffix in Hnd. by apply noDouble_prefix in Hnd.
Qed.

(** X3.  The text that [makeKey] normalises holds nothing but lower-case
    letters, digits and underscores, it neither starts nor ends with an
    underscore, it has no two underscores side by side, and normalising it
    again gives the same text. *)
Theorem normalize_key_shape (source : string) :
  let key := normalize source in
  (∀ c, c ∈ list_ascii_of_string key → isKeyChar c = true ∨ c = "_"%char)
  ∧ (∀ rest, key ≠ "_" +:+ rest)
  ∧ (∀ rest, key ≠ rest +:+ "_")
  ∧ (∀ before after, key ≠ before +:+ "__" +:+ after)
  ∧ normalize key = key.
Proof.
  intros key. destruct (normalize_shape source) as (Hall & Hnd & Hhead & Hlast).
  fold key in Hall, Hnd, Hhead, Hlast.
  split; [|split; [|split; [|split]]].
  - intros c Hc. by apply (proj1 (Forall_forall _ _) Hall).
  - intros rest Heq. apply Hhead. by rewrite Heq.
  - intros rest Heq. apply Hlast. rewrite Heq, chars_app.
    unfold chars at 2. simpl. by rewrite last_snoc.
  - intros before after Heq. apply (Hnd (chars before) (chars after)).
    rewrite Heq, chars_app. f_equal.
  - unfold normalize at 1.
    rewrite (toLowerCase_id key Hall), (replaceRuns_id false key Hall Hnd) by done.
    by apply trimUnderscores_id.
Qed.


(** *** The buttons that add a port *)

Import Ports.

(** [after] is [before] with [intf] under a key that [before] did not
    have. *)
Definition addsPort (before after : gmap string PortIntf) (intf : PortIntf) : Prop :=
  ∃ key, before !! key = None ∧ after = <[key := intf]> before.

Lemma portsAt_insert (coll : gmap string PortIntf) key intf loc :
  coll !! key = None →
  length (portsAt loc (<[key := intf]> coll))
  = if decide (location (data intf) = loc) then S (length (portsAt loc coll))
    else length (portsAt loc coll).
Proof.
  intros Hfree. unfold portsAt.
  rewrite (map_to_list_insert coll key intf Hfree). rewrite fmap_cons. simpl.
  rewrite filter_cons. by destruct (decide _).
Qed.

Lemma addFlowInterface_adds (node : t) nm ft s :
  let node' := (addFlowInterface node nm ft s None).1 in
  let intf := {| name := nm;
                 data := {| side := s;
                            location := default (outputSideToLocation s)
                                          (inputSideToLocation s);
                            flowType := ft; fieldPath := None |} |} in
  match s with
  | output | knowHow =>
      addsPort (outputs node) (outputs node') intf ∧ inputs node' = inputs node
  | input | service =>
      addsPort (inputs node) (inputs node') intf ∧ outputs node' = outputs node
  end.
Proof.
  intros node' intf. pose proof (makeKey_free_in node nm s ft None) as Hfree.
  destruct s; simpl in *; (split; [|done]).
  - by exists (makeKey node nm input ft None).
  - by exists (makeKey node nm output ft None).
  - by exists (makeKey node nm knowHow ft None).
  - by exists (makeKey node nm service ft None).
Qed.

(** X4.  Each of the three buttons gives the process one new port and
    overwrites none: [addInputPort] a left input labelled [Input n+1] where
    [n] is the number of left inputs before, [addOutputPort] a right output
    labelled [Output n+1] for [n] right outputs, [addMechanismPort] a bottom
    input labelled [Szolgáltatás n+1] for [n] bottom inputs.  The number of
    ports on that side grows by one, so that the labels of repeated presses
    count on; the ports of the other sides stay as they are. *)
Theorem port_buttons_count_on (process : t) :
  let port label s loc ft :=
    {| name := label;
       data := {| side := s; location := loc; flowType := ft; fieldPath := None |} |} in
  (addsPort (inputs process) (inputs (addInputPort process))
     (port ("Input " +:+ pretty (S (length (portsAt left (inputs process)))))
           input left "material")
   ∧ outputs (addInputPort process) = outputs process
   ∧ length (portsAt left (inputs (addInputPort process)))
     = S (length (portsAt left (inputs process)))
   ∧ length (portsAt bottom (inputs (addInputPort process)))
     = length (portsAt bottom (inputs process)))
  ∧ (addsPort (outputs process) (outputs (addOutputPort process))
       (port ("Output " +:+ pretty (S (length (portsAt right (outputs process)))))
             output right "product")
     ∧ inputs (addOutputPort process) = inputs process
     ∧ length (portsAt right (outputs (addOutputPort process)))
       = S (length (portsAt right (outputs process))))
  ∧ (addsPort (inputs process) (inputs (addMechanismPort process))
       (port ("Szolgáltatás " +:+ pretty (S (length (portsAt bottom (inputs process)))))
             service bottom "service")
     ∧ outputs (addMechanismPort process) = outputs process
     ∧ length (portsAt bottom (inputs (addMechanismPort process)))
       = S (length (portsAt bottom (inputs process)))
     ∧ length (portsAt left (inputs (addMechanismPort process)))
       = length (portsAt left (inputs process))).
Proof.
  intros port. unfold addInputPort, addOutputPort, addMechanismPort. cbv zeta.
  rewrite !Nat.add_1_r. split; [|split].
  - destruct (addFlowInterface_adds process
                ("Input " +:+ pretty (S (length (portsAt left (inputs process)))))
                "material" input) as [(key & Hfree & Heq) Hout].
    split; [by exists key|]. split; [done|]. rewrite Heq.
    by rewrite !portsAt_insert.
  - destruct (addFlowInterface_adds process
                ("Output " +:+ pretty (S (length (portsAt right (outputs process)))))
                "product" output) as [(key & Hfree & Heq) Hin].
    split; [by exists key|]. split; [done|]. rewrite Heq.
    by rewrite !portsAt_insert.
  - destruct (addFlowInterface_adds process
                ("Szolgáltatás " +:+ pretty (S (length (portsAt bottom (inputs process)))))
                "service" service) as [(key & Hfree & Heq) Hout].
    split; [by exists key|]. split; [done|]. rewrite Heq.
    by rewrite !portsAt_insert.
Qed.
End ProcessNodeSpec.

(** ** App.vue: the arrow of a straight connection *)

Module BezierSpec.
Import Reals Ratan Lra.
Import Bezier.
Local Open Scope R_scope.

Example scan_line : matchNumbers "M 10 20 L 30.5 -40" = Some ["10"; "20"; "30.5"; "-40"]%string.
Proof. reflexivity. Qed.

Example scan_curve :
  matchNumbers "M 1 2 C 3 4, 5 6, 7 8" = Some ["1"; "2"; "3"; "4"; "5"; "6"; "7"; "8"]%string.
Proof. reflexivity. Qed.

Example scan_dashes : matchNumbers "a-b 1-2 -" = Some ["1"; "-2"]%string.
Proof. reflexivity. Qed.

Example scan_nothing : matchNumbers "M L z" = None.
Proof. reflexivity. Qed.



(** The basis of the cubic at one half: the weights are 1/8, 3/8, 3/8 and
    1/8. *)
Lemma bezierMidpoint_basis (x1 y1 cx1 cy1 cx2 cy2 x2 y2 : R) :
  mx (bezierMidpoint x1 y1 cx1 cy1 cx2 cy2 x2 y2) = (x1 + 3 * cx1 + 3 * cx2 + x2) / 8
  ∧ my (bezierMidpoint x1 y1 cx1 cy1 cx2 cy2 x2 y2) = (y1 + 3 * cy1 + 3 * cy2 + y2) / 8.
Proof. unfold bezierMidpoint; simpl. split; field. Qed.




(** *** The numbers of a path *)

Local Close Scope R_scope.

(** A text of digits and dots, at least one. *)
Definition digitsAndDots (s : string) : Prop :=
  s ≠ EmptyString ∧ ∀ c, c ∈ list_ascii_of_string s → isNumChar c = true.

(** What the pattern matches: digits and dots, after at most one dash. *)
Definition wellFormed (tok : string) : Prop :=
  digitsAndDots tok ∨ ∃ body, tok = ("-" +:+ body)%string ∧ digitsAndDots body.

(** The digits and dots of a text, in order. *)
Definition numChars (s : string) : list ascii :=
  filter (λ c, isNumChar c = true) (list_ascii_of_string s).

Lemma list_ascii_app s1 s2 :
  list_ascii_of_string (s1 +:+ s2) = list_ascii_of_string s1 ++ list_ascii_of_string s2.
Proof. induction s1 as [|c s1 IH]; simpl; [done|]. by rewrite IH. Qed.

Lemma digitsAndDots_snoc s c :
  isNumChar c = true → (s = EmptyString ∨ digitsAndDots s) →
  digitsAndDots (s +:+ String c EmptyString).
Proof.
  intros Hc Hs. split; [by destruct s|].
  intros c' Hc'. rewrite list_ascii_app in Hc'. apply elem_of_app in Hc' as [Hin|Hin].
  - destruct Hs as [->|[_ Hall]]; [by apply elem_of_nil in Hin | by apply Hall].
  - simpl in Hin. apply list_elem_of_singleton in Hin. by subst.
Qed.

Lemma wellFormed_snoc tok c :
  isNumChar c = true → (wellFormed tok ∨ tok = "-"%string) →
  wellFormed (tok +:+ String c EmptyString).
Proof.
  intros Hc [[Hd|(body & -> & Hd)]| ->].
  - left. apply digitsAndDots_snoc; auto.
  - right. exists (body +:+ String c EmptyString)%string. split; [done|].
    apply digitsAndDots_snoc; auto.
  - right. exists (String c EmptyString). split; [done|].
    apply (digitsAndDots_snoc EmptyString); auto.
Qed.

(** The match in progress is a match already, or a dash that a digit or a
    dot follows. *)
Definition inProgress (cur : option string) (s : string) : Prop :=
  match cur with
  | None => True
  | Some tok => wellFormed tok ∨ (tok = "-"%string ∧ startsWithNumChar s = true)
  end.

Lemma scanNumbers_wellFormed cur s :
  inProgress cur s → Forall wellFormed (scanNumbers cur s).
Proof.
  revert cur. induction s as [|c s IH]; intros cur Hcur.
  - destruct cur as [tok|]; simpl; [|constructor].
    destruct Hcur as [Hw|[_ Hs]]; [|done]. by apply Forall_singleton.
  - simpl. destruct (isNumChar c) eqn:Hc.
    + apply IH. unfold extend. simpl. left. destruct cur as [tok|]; simpl.
      * apply wellFormed_snoc; [done|]. destruct Hcur as [?|[? _]]; auto.
      * left. apply (digitsAndDots_snoc EmptyString); auto.
    + assert (Forall wellFormed (emit cur)) as Hemit.
      { destruct cur as [tok|]; simpl; [|constructor].
        destruct Hcur as [Hw|[_ Hs]]; [by apply Forall_singleton|].
        simpl in Hs. congruence. }
      destruct (isDash c && startsWithNumChar s) eqn:Hdash; apply Forall_app; split;
        try done; apply IH; simpl; [|done].
      right. apply andb_true_iff in Hdash as [Hd Hs]. split; [|done].
      unfold isDash in Hd. apply Nat.eqb_eq in Hd.
      rewrite <- (ascii_nat_embedding c), Hd. reflexivity.
Qed.

Lemma numChars_app s1 s2 : numChars (s1 +:+ s2) = numChars s1 ++ numChars s2.
Proof. unfold numChars. by rewrite list_ascii_app, filter_app. Qed.

Lemma numChars_cons c s :
  numChars (String c s) = if isNumChar c then c :: numChars s else numChars s.
Proof.
  unfold numChars. simpl. destruct (isNumChar c) eqn:Hc.
  - by rewrite filter_cons_True.
  - rewrite filter_cons_False; [done|]. congruence.
Qed.

Lemma scanNumbers_numChars cur s :
  concat (numChars <$> scanNumbers cur s) = numChars (default EmptyString cur) ++ numChars s.
Proof.
  revert cur. induction s as [|c s IH]; intros cur.
  - simpl. destruct cur as [tok|]; simpl; by rewrite ?app_nil_r.
  - simpl. rewrite (numChars_cons c s). destruct (isNumChar c) eqn:Hc.
    + rewrite IH. unfold extend. simpl. rewrite numChars_app, numChars_cons, Hc.
      by rewrite <- app_assoc.
    + assert (concat (numChars <$> emit cur) = numChars (default EmptyString cur)) as Hemit.
      { destruct cur as [tok|]; simpl; by rewrite ?app_nil_r. }
      destruct (isDash c && startsWithNumChar s) eqn:Hdash;
        rewrite fmap_app, concat_app, IH, Hemit; [|done].
      apply andb_true_iff in Hdash as [Hd _].
      simpl. rewrite numChars_cons.
      assert (isNumChar c = false) as -> by done. done.
Qed.

Lemma wellFormed_numChars tok : wellFormed tok → numChars tok ≠ [].
Proof.
  assert (∀ s, digitsAndDots s → numChars s ≠ []) as Hd.
  { intros [|c s] [Hne Hall]; [done|].
    rewrite numChars_cons, (Hall c) by (simpl; by left). done. }
  intros [H|(body & -> & H)]; [by apply Hd|].
  rewrite numChars_app. change (numChars "-") with (@nil ascii). simpl. by apply Hd.
Qed.

(** X7.  Every text that the pattern of [parseBezierPath] matches is a
    run of digits and dots after at most one dash; the matches hold all
    the digits and dots of the path, in their order; and there is no match
    exactly when the path has no digit and no dot. *)
Theorem scanNumbers_tokens (d : string) :
  (∀ tok, tok ∈ scanNumbers None d → wellFormed tok)
  ∧ concat (numChars <$> scanNumbers None d) = numChars d
  ∧ (matchNumbers d = None ↔ numChars d = []).
Proof.
  pose proof (scanNumbers_wellFormed None d I) as Hwf.
  pose proof (scanNumbers_numChars None d) as Hnum. simpl in Hnum.
  split; [by apply Forall_forall|]. split; [exact Hnum|].
  unfold matchNumbers. destruct (scanNumbers None d) as [|tok toks] eqn:Hscan.
  - simpl in Hnum. by split.
  - split; [done|]. intros Hnil. exfalso.
    apply Forall_cons in Hwf as [Htok _]. apply (wellFormed_numChars tok Htok).
    rewrite Hnil in Hnum. simpl in Hnum. by apply app_eq_nil in Hnum as [? _].
Qed.

(** X8.  [parseBezierPath] gives nothing for a path with fewer than four
    numbers; a path with four to seven numbers is read as the straight line
    through its first four numbers, whatever follows them; of a path with
    eight numbers or more the first eight are the curve. *)
Theorem parseBezierPath_by_count (Number : string → Reals.Rdefinitions.R) (d : string) :
  let nums := scanNumbers None d in
  (length nums < 4 → parseBezierPath Number d = None)
  ∧ (4 ≤ length nums < 8 →
     ∃ t1 t2 t3 t4 rest, nums = t1 :: t2 :: t3 :: t4 :: rest
       ∧ parseBezierPath Number d
         = Some (Number t1, Number t2, Number t1, Number t2,
                 Number t3, Number t4, Number t3, Number t4))
  ∧ (8 ≤ length nums →
     ∃ t1 t2 t3 t4 t5 t6 t7 t8 rest,
       nums = t1 :: t2 :: t3 :: t4 :: t5 :: t6 :: t7 :: t8 :: rest
       ∧ parseBezierPath Number d
         = Some (Number t1, Number t2, Number t3, Number t4,
                 Number t5, Number t6, Number t7, Number t8)).
Proof.
  intros nums. unfold parseBezierPath, matchNumbers. fold nums.
  split; [|split].
  - intros Hlen. destruct nums as [|t1 [|t2 [|t3 [|t4 rest]]]]; simpl in *; try done. lia.
  - intros [Hlo Hhi].
    destruct nums as [|t1 [|t2 [|t3 [|t4 rest]]]]; simpl in Hlo; try lia.
    exists t1, t2, t3, t4, rest. split; [done|].
    destruct rest as [|t5 [|t6 [|t7 [|t8 rest]]]]; simpl in Hhi; try lia; reflexivity.
  - intros Hlen.
    destruct nums as [|t1 [|t2 [|t3 [|t4 [|t5 [|t6 [|t7 [|t8 rest]]]]]]]];
      simpl in Hlen; try lia.
    exists t1, t2, t3, t4, t5, t6, t7, t8, rest. split; reflexivity.
Qed.

End BezierSpec.

(** ** App.vue: the arrow of a straight connection, in doubles *)

Module BezierDoubleSpec.
Import Bezier BezierDouble.
Local Open Scope float_scope.

(** In doubles the arrow of a straight connection need not sit at the
    middle of the segment as [(x1 + x2) / 2] gives it: from 100.1 to 200.3
    the code gives the double next above. *)
Example straight_arrow_off_middle (atan2 : float → float → float) :
  mx (bezierMidpoint atan2 0x1.9066666666666p+6 0 0x1.9066666666666p+6 0
        0x1.909999999999ap+7 0 0x1.909999999999ap+7 0)
  = 0x1.2c66666666667p+7
  ∧ (0x1.9066666666666p+6 + 0x1.909999999999ap+7) / 2 = 0x1.2c66666666666p+7
  ∧ (0x1.2c66666666666p+7 <? 0x1.2c66666666667p+7) = true.
Proof. repeat split; by vm_compute. Qed.

(** With an [atan2] that gives the double nearest to PI / 2 for the
    direction straight up, the arrow of the segment from (0, 0) to (0, 1)
    is turned by 90. *)
Example vertical_arrow_90 (atan2 : float → float → float) :
  atan2 1.5 0 = 0x1.921fb54442d18p+0 →
  angle (bezierMidpoint atan2 0 0 0 0 0 1 0 1) = 90.
Proof. intros Hup. unfold bezierMidpoint. cbn. rewrite Hup. by vm_compute. Qed.



End BezierDoubleSpec.
(** ** The placement pass: what it writes and what it leaves alone *)

Module LayoutSpec.
Import Layout.
Local Open Scope float_scope.

(** Everything of a graph but the positions of its nodes. *)
Definition structure (g : Graph) : list NodeInfo * list Connection * float * Position :=
  (info <$> nodes g, connections g, scaling g, panning g).

(** [g'] comes from [g] by writing positions of nodes whose place is in
    [L], and nothing else. *)
Definition touchesOnly (L : list nat) (g g' : Graph) : Prop :=
  structure g' = structure g ∧ ∀ i, i ∉ L → nodes g' !! i = nodes g !! i.

Lemma structure_length g g' :
  structure g' = structure g → length (nodes g') = length (nodes g).
Proof.
  unfold structure. intros H. injection H as H _ _ _.
  apply (f_equal length) in H. by rewrite !length_fmap in H.
Qed.

Lemma structure_refs g g' : structure g' = structure g → refs g' = refs g.
Proof.
  unfold structure, refs. intros H. injection H as H _ _ _.
  apply list_eq. intros i. rewrite !list_lookup_imap.
  apply (f_equal (λ l, l !! i)) in H. rewrite !list_lookup_fmap in H.
  destruct (nodes g' !! i), (nodes g !! i); simpl in *; congruence.
Qed.

Lemma structure_connections g g' :
  structure g' = structure g → connections g' = connections g.
Proof. unfold structure. by intros [=]. Qed.

Lemma structure_scaling g g' : structure g' = structure g → scaling g' = scaling g.
Proof. unfold structure. by intros [=]. Qed.

Lemma structure_getNodeSize w g g' node fallback :
  structure g' = structure g →
  getNodeSize w g' node fallback = getNodeSize w g node fallback.
Proof. intros H. unfold getNodeSize. by rewrite (structure_scaling _ _ H). Qed.

Lemma setPos_structure g node px py : structure (setPos g node px py) = structure g.
Proof.
  unfold structure, setPos; simpl. f_equal. f_equal. f_equal.
  apply list_eq. intros i. rewrite !list_lookup_fmap.
  destruct (decide (node.1 = i)) as [<-|Hne].
  - rewrite list_lookup_alter_eq. by destruct (nodes g !! node.1).
  - by rewrite list_lookup_alter_ne.
Qed.

Lemma touchesOnly_refl L g : touchesOnly L g g.
Proof. by split. Qed.

Lemma touchesOnly_trans L1 L2 g1 g2 g3 :
  touchesOnly L1 g1 g2 → touchesOnly L2 g2 g3 → touchesOnly (L1 ++ L2) g1 g3.
Proof.
  intros [Hs1 Hn1] [Hs2 Hn2]. split; [congruence|].
  intros i Hi. rewrite elem_of_app in Hi.
  rewrite Hn2, Hn1; [done| |]; intros ?; apply Hi; auto.
Qed.

Lemma touchesOnly_weaken L L' g g' :
  (∀ i, i ∈ L → i ∈ L') → touchesOnly L g g' → touchesOnly L' g g'.
Proof. intros Hsub [Hs Hn]. split; [done|]. intros i Hi. apply Hn. auto. Qed.

Lemma touchesOnly_setPos g node px py : touchesOnly [node.1] g (setPos g node px py).
Proof.
  split; [apply setPos_structure|].
  intros i Hi. simpl. apply list_lookup_alter_ne. intros Heq. apply Hi. rewrite <- Heq. by left.
Qed.

Lemma touchesOnly_positionOf L g g' node :
  touchesOnly L g g' → node.1 ∉ L → positionOf g' node = positionOf g node.
Proof. intros [_ Hn] Hi. unfold positionOf. by rewrite Hn. Qed.

Lemma touchesOnly_structure L g g' : touchesOnly L g g' → structure g' = structure g.
Proof. by intros [? _]. Qed.

Lemma positionOf_setPos g node px py :
  (node.1 < length (nodes g))%nat →
  positionOf (setPos g node px py) node = {| x := px; y := py |}.
Proof.
  intros Hlt. unfold positionOf, setPos; simpl.
  rewrite list_lookup_alter_eq.
  destruct (lookup_lt_is_Some_2 _ _ Hlt) as [n ->]. reflexivity.
Qed.

(** *** References *)

Lemma refs_fst g : (refs g).*1 = seq 0 (length (nodes g)).
Proof.
  unfold refs. apply list_eq. intros i.
  rewrite list_lookup_fmap, list_lookup_imap.
  destruct (nodes g !! i) as [n|] eqn:Hn; simpl.
  - symmetry. apply lookup_seq. split; [done|]. by eapply lookup_lt_Some.
  - symmetry. apply lookup_seq_ge. by apply lookup_ge_None.
Qed.

Lemma refs_NoDup_fst g : NoDup (refs g).*1.
Proof. rewrite refs_fst. apply NoDup_seq. Qed.

Lemma refs_lt g node : node ∈ refs g → (node.1 < length (nodes g))%nat.
Proof.
  intros Hin. assert (node.1 ∈ (refs g).*1) as H by (by apply list_elem_of_fmap_2).
  rewrite refs_fst in H. apply elem_of_seq in H. lia.
Qed.

(** Two references into a graph with the same place are the same. *)
Lemma refs_same g a b : a ∈ refs g → b ∈ refs g → a.1 = b.1 → a = b.
Proof.
  unfold refs. intros Ha Hb Heq.
  apply elem_of_lookup_imap in Ha as (i & n & -> & Hi).
  apply elem_of_lookup_imap in Hb as (j & m & -> & Hj).
  simpl in Heq. subst j. congruence.
Qed.

(** A list of references into [g] without repetition. *)
Definition validRefs (g : Graph) (items : list NodeRef) : Prop :=
  NoDup items.*1 ∧ ∀ a, a ∈ items → a ∈ refs g.

Lemma validRefs_refs g : validRefs g (refs g).
Proof. split; [apply refs_NoDup_fst | done]. Qed.

Lemma validRefs_sublist g l k : l `sublist_of` k → validRefs g k → validRefs g l.
Proof.
  intros Hsub [Hnd Hin]. split.
  - eapply sublist_NoDup; [exact Hnd | by apply fmap_sublist].
  - intros a Ha. apply Hin. eapply elem_of_submseteq; [exact Ha | by apply sublist_submseteq].
Qed.

Lemma validRefs_filter g (P : NodeRef → Prop) `{!∀ a, Decision (P a)} l :
  validRefs g l → validRefs g (filter P l).
Proof. apply validRefs_sublist, sublist_filter. Qed.

Lemma validRefs_structure g g' l :
  structure g' = structure g → validRefs g l → validRefs g' l.
Proof. intros Hs [? ?]. split; [done|]. by rewrite (structure_refs _ _ Hs). Qed.

(** *** Stacks

    Every placement loop of the pass walks a list of nodes with their
    sizes, writes the position of each node from a running offset and
    advances the offset by the extent of the node plus a gap. *)

Definition stackStep (px py : float → Size → float) (ext : Size → float) (gap : float)
    : Graph * float → NodeRef * Size → Graph * float :=
  λ '(g, cur) '(node, size),
    (setPos g node (px cur size) (py cur size), cur + (ext size + gap)).

Definition stackLoop (px py : float → Size → float) (ext : Size → float) (gap : float)
    (g : Graph) (cur : float) (l : list (NodeRef * Size)) : Graph * float :=
  foldl (stackStep px py ext gap) (g, cur) l.

(** The offset after the nodes with the given sizes. *)
Definition advance (ext : Size → float) (gap : float) (cur : float) (sizes : list Size) : float :=
  foldl (λ c size, c + (ext size + gap)) cur sizes.

(** A list of nodes paired with the size the pass takes for each. *)
Definition sized (sz : NodeRef → Size) (items : list NodeRef) : list (NodeRef * Size) :=
  (λ a, (a, sz a)) <$> items.

Lemma zip_sized sz items : zip items (sz <$> items) = sized sz items.
Proof. induction items as [|a items IH]; [done|]. unfold sized in *; simpl. by f_equal. Qed.

Lemma sized_fst sz items : (sized sz items).*1 = items.
Proof. unfold sized. rewrite <- list_fmap_compose. apply list_fmap_id. Qed.

Lemma sized_lookup sz items k a :
  items !! k = Some a → sized sz items !! k = Some (a, sz a).
Proof. intros H. unfold sized. by rewrite list_lookup_fmap, H. Qed.

Lemma sized_take_sizes sz items k :
  (take k (sized sz items)).*2 = sz <$> take k items.
Proof.
  unfold sized. rewrite <- fmap_take, <- list_fmap_compose. reflexivity.
Qed.

Section Stack.

Variables (px py : float → Size → float) (ext : Size → float) (gap : float).

Lemma stackLoop_cons g cur node size l :
  stackLoop px py ext gap g cur ((node, size) :: l)
  = stackLoop px py ext gap (setPos g node (px cur size) (py cur size))
      (cur + (ext size + gap)) l.
Proof. reflexivity. Qed.

Lemma stackLoop_touchesOnly l g cur :
  touchesOnly l.*1.*1 g (stackLoop px py ext gap g cur l).1.
Proof.
  revert g cur. induction l as [|[node size] l IH]; intros g cur.
  - apply touchesOnly_refl.
  - rewrite stackLoop_cons.
    change (((node, size) :: l).*1.*1) with ([node.1] ++ l.*1.*1).
    eapply touchesOnly_trans; [apply touchesOnly_setPos | apply IH].
Qed.

(** The node at place [k] of the list gets the position computed from the
    offset after the [k] nodes before it. *)
Lemma stackLoop_kth l g cur k node size :
  NoDup l.*1.*1 →
  (∀ e, e ∈ l → (e.1.1 < length (nodes g))%nat) →
  l !! k = Some (node, size) →
  positionOf (stackLoop px py ext gap g cur l).1 node
  = {| x := px (advance ext gap cur (take k l).*2) size;
       y := py (advance ext gap cur (take k l).*2) size |}.
Proof.
  revert g cur k. induction l as [|[b sb] l IH]; intros g cur k Hnd Hlt Hk; [done|].
  rewrite stackLoop_cons.
  change (((b, sb) :: l).*1.*1) with (b.1 :: l.*1.*1) in Hnd.
  apply NoDup_cons in Hnd as [Hb Hnd].
  destruct k as [|k]; simpl in Hk.
  - injection Hk as -> ->. simpl.
    rewrite (touchesOnly_positionOf _ _ _ _ (stackLoop_touchesOnly l _ _) Hb).
    apply positionOf_setPos. apply (Hlt (node, size)). by left.
  - rewrite (IH _ _ k Hnd); [reflexivity | | exact Hk].
    intros e He. rewrite (structure_length g _ (setPos_structure _ _ _ _)).
    apply Hlt. by right.
Qed.

End Stack.

Lemma advance_snoc ext gap cur sizes size :
  advance ext gap cur (sizes ++ [size]) = advance ext gap cur sizes + (ext size + gap).
Proof. unfold advance. by rewrite foldl_snoc. Qed.

(** The positions of a stack of valid references, by place. *)
Lemma stack_kth px py ext gap sz g cur items k a :
  validRefs g items →
  items !! k = Some a →
  positionOf (stackLoop px py ext gap g cur (sized sz items)).1 a
  = {| x := px (advance ext gap cur (sz <$> take k items)) (sz a);
       y := py (advance ext gap cur (sz <$> take k items)) (sz a) |}.
Proof.
  intros [Hnd Hin] Hk.
  rewrite (stackLoop_kth px py ext gap (sized sz items) g cur k a (sz a)).
  - by rewrite sized_take_sizes.
  - by rewrite sized_fst.
  - intros e He. apply refs_lt, Hin.
    rewrite <- (sized_fst sz items). by apply list_elem_of_fmap_2.
  - by apply sized_lookup.
Qed.

Lemma stack_touchesOnly px py ext gap sz g cur items :
  touchesOnly items.*1 g (stackLoop px py ext gap g cur (sized sz items)).1.
Proof.
  pose proof (stackLoop_touchesOnly px py ext gap (sized sz items) g cur) as H.
  by rewrite sized_fst in H.
Qed.

(** Loops that carry more than the offset: the graph and the offset go
    the way of [stackLoop]. *)
Lemma foldl_stack3 {E} (px py : float → Size → float) (ext : Size → float) (gap : float)
    (h : E → float → Size → E) l g cur e :
  (foldl (λ '(g, cur, e) '(node, size),
            (setPos g node (px cur size) (py cur size), cur + (ext size + gap),
             h e cur size))
         (g, cur, e) l).1
  = stackLoop px py ext gap g cur l.
Proof.
  revert g cur e. induction l as [|[node size] l IH]; intros g cur e; [done|].
  simpl. rewrite IH. reflexivity.
Qed.

Lemma foldl_stack4 {E F} (px py : float → Size → float) (ext : Size → float) (gap : float)
    (h1 : E → float → Size → E) (h2 : F → float → Size → F) l g cur e f :
  (foldl (λ '(g, cur, e, f) '(node, size),
            (setPos g node (px cur size) (py cur size), cur + (ext size + gap),
             h1 e cur size, h2 f cur size))
         (g, cur, e, f) l).1.1
  = stackLoop px py ext gap g cur l.
Proof.
  revert g cur e f. induction l as [|[node size] l IH]; intros g cur e f; [done|].
  simpl. rewrite IH. reflexivity.
Qed.

(** *** The loops of the landscape mode as stacks *)

Section LandscapeStacks.

Variables (w : Window) (g : Graph).

(** The size the pass takes for a resource node. *)
Definition resourceSize (node : NodeRef) : Size := getNodeSize w g node resourceFallback.
Definition processSize (node : NodeRef) : Size := getNodeSize w g node processFallback.

Definition centreX (node : NodeRef) : float :=
  x (positionOf g node) + width (processSize node) / 2.
Definition centreY (node : NodeRef) : float :=
  y (positionOf g node) + height (processSize node) / 2.

Definition columnStart (owner : NodeRef) (items : list NodeRef) : float :=
  centreY owner
  - (sumBy height (resourceSize <$> items)
     + gapsOf (length items) Landscape.verticalGap) / 2.

Lemma placeLeftOfProcess_stack processTop owner items :
  (Landscape.placeLeftOfProcess w processTop g owner items).1
  = (stackLoop
       (λ _ size, centreX owner - width (processSize owner) / 2
                  - Landscape.offsetFromProcess - width size)
       (λ cur _, cur) height Landscape.verticalGap
       g (columnStart owner items) (sized resourceSize items)).1.
Proof.
  destruct items as [|a items]; [reflexivity|].
  unfold Landscape.placeLeftOfProcess.
  rewrite zip_sized.
  match goal with
  | |- context [foldl ?f ?i ?l] =>
      pose proof (foldl_stack3
        (λ _ size, centreX owner - width (processSize owner) / 2
                   - Landscape.offsetFromProcess - width size)
        (λ cur _, cur) height Landscape.verticalGap
        (λ _ cur size, cur + height size)
        (sized resourceSize (a :: items)) g (columnStart owner (a :: items))
        (columnStart owner (a :: items))
        : (foldl f i l).1 = _) as H;
      destruct (foldl f i l) as [[g' c'] b']
  end.
  rewrite <- H. reflexivity.
Qed.

Lemma placeRightOfProcess_stack processRight processTop owner items :
  (Landscape.placeRightOfProcess w processRight processTop g owner items).1
  = (stackLoop
       (λ _ _, centreX owner + width (processSize owner) / 2
               + Landscape.offsetFromProcess)
       (λ cur _, cur) height Landscape.verticalGap
       g (columnStart owner items) (sized resourceSize items)).1.
Proof.
  destruct items as [|a items]; [reflexivity|].
  unfold Landscape.placeRightOfProcess.
  rewrite zip_sized.
  match goal with
  | |- context [foldl ?f ?i ?l] =>
      pose proof (foldl_stack4
        (λ _ _, centreX owner + width (processSize owner) / 2
                + Landscape.offsetFromProcess)
        (λ cur _, cur) height Landscape.verticalGap
        (λ maxRight _ size,
           Math.max maxRight
             (centreX owner + width (processSize owner) / 2
              + Landscape.offsetFromProcess + width size))
        (λ _ cur size, cur + height size)
        (sized resourceSize (a :: items)) g (columnStart owner (a :: items))
        neg_infinity (columnStart owner (a :: items))
        : (foldl f i l).1.1 = _) as H;
      destruct (foldl f i l) as [[[g' c'] m'] b']
  end.
  rewrite <- H. reflexivity.
Qed.

Definition rowStart (centre gap : float) (sz : NodeRef → Size) (items : list NodeRef) : float :=
  centre - (sumBy width (sz <$> items) + gapsOf (length items) gap) / 2.

Lemma placeMechanismRow_stack mechanisms centerX bottomRowY :
  Landscape.placeMechanismRow w g mechanisms centerX bottomRowY
  = (stackLoop (λ cur _, cur) (λ _ _, bottomRowY) width Landscape.mechanismGap
       g (rowStart centerX Landscape.mechanismGap resourceSize mechanisms)
       (sized resourceSize mechanisms)).1.
Proof. unfold Landscape.placeMechanismRow. rewrite zip_sized. reflexivity. Qed.

Lemma placeSecondaryColumn_stack secondaryProcesses outputColumnRight centerX centerY :
  Landscape.placeSecondaryColumn w g secondaryProcesses outputColumnRight centerX centerY
  = (stackLoop
       (λ _ size, Math.max (outputColumnRight + 220) (centerX + 520) - width size / 2)
       (λ cur _, cur) height Landscape.processColumnGap
       g (centerY
          - (sumBy height (processSize <$> secondaryProcesses)
             + gapsOf (length (processSize <$> secondaryProcesses))
                 Landscape.processColumnGap) / 2 - 40)
       (sized processSize secondaryProcesses)).1.
Proof.
  destruct secondaryProcesses as [|a l]; [reflexivity|].
  unfold Landscape.placeSecondaryColumn. rewrite zip_sized. reflexivity.
Qed.

(** *** The loops of the portrait mode as stacks *)

Lemma placeRowFromMetrics_stack g' sz items centerXPos py :
  Portrait.placeRowFromMetrics g' items
    {| Portrait.sizes := sz <$> items;
       Portrait.totalWidth := sumBy width (sz <$> items)
                              + gapsOf (length items) Portrait.rowGap;
       Portrait.maxHeight := maxBy height (sz <$> items) |}
    centerXPos py
  = (stackLoop (λ cur _, cur) (λ _ _, py) width Portrait.rowGap
       g' (rowStart centerXPos Portrait.rowGap sz items) (sized sz items)).1.
Proof.
  destruct items as [|a l]; [reflexivity|].
  unfold Portrait.placeRowFromMetrics. cbn [Portrait.sizes Portrait.totalWidth].
  rewrite zip_sized. reflexivity.
Qed.

Lemma placeColumnRight_stack items px centerYPos :
  Portrait.placeColumnRight w g items px centerYPos
  = (stackLoop (λ _ _, px) (λ cur _, cur) height Portrait.columnGap
       g (centerYPos
          - (sumBy height (resourceSize <$> items)
             + gapsOf (length items) Portrait.columnGap) / 2)
       (sized resourceSize items)).1.
Proof.
  destruct items as [|a l]; [reflexivity|].
  unfold Portrait.placeColumnRight. rewrite zip_sized. reflexivity.
Qed.

End LandscapeStacks.

(** *** Spacing inside a stack *)

(** Along the axis [coord], every node of [items] starts where the node
    before it ends, plus [gap]. *)
Definition Stacked (coord : Position → float) (ext : Size → float) (gap : float)
    (sz : NodeRef → Size) (items : list NodeRef) (g : Graph) : Prop :=
  ∀ k a b, items !! k = Some a → items !! S k = Some b →
    coord (positionOf g b) = coord (positionOf g a) + (ext (sz a) + gap).

Lemma Stacked_frame coord ext gap sz items g g' :
  (∀ a, a ∈ items → positionOf g' a = positionOf g a) →
  Stacked coord ext gap sz items g → Stacked coord ext gap sz items g'.
Proof.
  intros Hsame Hst k a b Ha Hb.
  rewrite !Hsame by (eapply list_elem_of_lookup_2; eassumption).
  by apply (Hst k).
Qed.

Lemma Stacked_ext coord ext gap sz sz' items g :
  (∀ a, sz a = sz' a) →
  Stacked coord ext gap sz items g → Stacked coord ext gap sz' items g.
Proof. intros Heq Hst k a b Ha Hb. rewrite <- Heq. by apply (Hst k). Qed.

Lemma sized_ext sz sz' items : (∀ a, sz a = sz' a) → sized sz items = sized sz' items.
Proof. intros Heq. unfold sized. apply list_fmap_ext. intros _ a _. by rewrite Heq. Qed.

Lemma stack_Stacked_y px ext gap sz g cur items :
  validRefs g items →
  Stacked y ext gap sz items
    (stackLoop px (λ cur _, cur) ext gap g cur (sized sz items)).1.
Proof.
  intros Hv k a b Ha Hb.
  rewrite (stack_kth _ _ _ _ _ _ _ _ (S k) b Hv Hb).
  rewrite (stack_kth _ _ _ _ _ _ _ _ k a Hv Ha). simpl.
  rewrite (take_S_r _ _ _ Ha), fmap_snoc. apply advance_snoc.
Qed.

Lemma stack_Stacked_x py ext gap sz g cur items :
  validRefs g items →
  Stacked x ext gap sz items
    (stackLoop (λ cur _, cur) py ext gap g cur (sized sz items)).1.
Proof.
  intros Hv k a b Ha Hb.
  rewrite (stack_kth _ _ _ _ _ _ _ _ (S k) b Hv Hb).
  rewrite (stack_kth _ _ _ _ _ _ _ _ k a Hv Ha). simpl.
  rewrite (take_S_r _ _ _ Ha), fmap_snoc. apply advance_snoc.
Qed.

(** *** Groups *)

(** The grouping loop, for any way to find the owner of an item. *)
Definition groupBy (owner : NodeRef → option NodeRef) (items : list NodeRef) : Groups :=
  foldl (λ groups item,
           match owner item with
           | None => groups
           | Some o => groupsPush groups o item
           end)
        [] items.

Definition inputOwner (g : Graph) (ifaceMap : gmap Intf NodeRef)
    (mainProcess : option NodeRef) (inputNode : NodeRef) : option NodeRef :=
  ownerProcessOf ifaceMap mainProcess
    (findConnection g from (head (outputs inputNode.2))) to.

Definition outputOwner (g : Graph) (ifaceMap : gmap Intf NodeRef)
    (mainProcess : option NodeRef) (outputNode : NodeRef) : option NodeRef :=
  ownerProcessOf ifaceMap mainProcess
    (findConnection g to (head (inputs outputNode.2))) from.

Lemma inputGroups_groupBy g ifaceMap mainProcess inputNodes :
  inputGroups g ifaceMap mainProcess inputNodes
  = groupBy (inputOwner g ifaceMap mainProcess) inputNodes.
Proof. reflexivity. Qed.

Lemma outputGroups_groupBy g ifaceMap mainProcess outputNodes :
  outputGroups g ifaceMap mainProcess outputNodes
  = groupBy (outputOwner g ifaceMap mainProcess) outputNodes.
Proof. reflexivity. Qed.

(** [item] was given to an owner that is the node [o]. *)
Definition ownedBy (owner : NodeRef → option NodeRef) (o item : NodeRef) : Prop :=
  match owner item with
  | Some o' => sameNode o' o
  | None => False
  end.

Global Instance ownedBy_dec owner o item : Decision (ownedBy owner o item).
Proof. unfold ownedBy. destruct (owner item); apply _. Defined.

Definition nonEmpty (l : list NodeRef) : option (list NodeRef) :=
  match l with
  | [] => None
  | _ => Some l
  end.

Lemma groupsGet_push groups o item o' :
  groupsGet (groupsPush groups o item) o'
  = if decide (sameNode o o') then Some (default [] (groupsGet groups o') ++ [item])
    else groupsGet groups o'.
Proof.
  unfold sameNode.
  induction groups as [|[key items] groups IH]; simpl.
  - unfold sameNode. by destruct (decide (o.1 = o'.1)).
  - unfold sameNode in *.
    destruct (decide (key.1 = o.1)) as [Hk|Hk]; simpl; unfold sameNode.
    + destruct (decide (key.1 = o'.1)), (decide (o.1 = o'.1)); try done; congruence.
    + destruct (decide (key.1 = o'.1)), (decide (o.1 = o'.1)); try done; congruence.
Qed.

Lemma groupsPush_keys groups o item :
  (groupsPush groups o item).*1.*1
  = if decide (o.1 ∈ groups.*1.*1) then groups.*1.*1 else groups.*1.*1 ++ [o.1].
Proof.
  induction groups as [|[key items] groups IH].
  - destruct (decide (o.1 ∈ ([] : Groups).*1.*1)) as [H|H]; [|done].
    by apply elem_of_nil in H.
  - change (((key, items) :: groups).*1.*1) with (key.1 :: groups.*1.*1).
    cbn [groupsPush]. unfold sameNode.
    destruct (decide (key.1 = o.1)) as [Hk|Hk].
    + destruct (decide (o.1 ∈ key.1 :: groups.*1.*1)) as [H|H]; [done|].
      exfalso. apply H. rewrite Hk. by left.
    + change (((key, items) :: groupsPush groups o item).*1.*1)
        with (key.1 :: (groupsPush groups o item).*1.*1).
      rewrite IH.
      destruct (decide (o.1 ∈ groups.*1.*1)) as [Hin|Hin];
        destruct (decide (o.1 ∈ key.1 :: groups.*1.*1)) as [H|H]; try done.
      * exfalso. apply H. by right.
      * exfalso. apply elem_of_cons in H as [?|?]; congruence.
Qed.

Lemma groupsPush_keys_NoDup groups o item :
  NoDup groups.*1.*1 → NoDup (groupsPush groups o item).*1.*1.
Proof.
  intros Hnd. rewrite groupsPush_keys. case_decide; [done|].
  apply NoDup_app. split; [done|]. split; [|apply NoDup_singleton].
  intros i Hi [->|[]%elem_of_nil]%elem_of_cons. done.
Qed.

Lemma groupBy_snoc owner items item :
  groupBy owner (items ++ [item])
  = match owner item with
    | None => groupBy owner items
    | Some o => groupsPush (groupBy owner items) o item
    end.
Proof. unfold groupBy. by rewrite foldl_snoc. Qed.

Lemma groupBy_keys_NoDup owner items : NoDup (groupBy owner items).*1.*1.
Proof.
  induction items as [|item items IH] using rev_ind; [apply NoDup_nil_2|].
  rewrite groupBy_snoc. destruct (owner item); [|done].
  by apply groupsPush_keys_NoDup.
Qed.

(** The list of an owner holds the items given to it, in their order. *)
Lemma groupBy_get owner items o :
  groupsGet (groupBy owner items) o = nonEmpty (filter (ownedBy owner o) items).
Proof.
  induction items as [|item items IH] using rev_ind; [done|].
  rewrite groupBy_snoc, filter_app.
  destruct (owner item) as [o'|] eqn:Ho.
  - rewrite groupsGet_push, IH.
    destruct (decide (sameNode o' o)) as [Hs|Hs].
    + rewrite (filter_cons_True (ownedBy owner o)) by (unfold ownedBy; by rewrite Ho).
      rewrite filter_nil.
      by destruct (filter (ownedBy owner o) items).
    + rewrite (filter_cons_False (ownedBy owner o)) by (unfold ownedBy; by rewrite Ho).
      by rewrite filter_nil, app_nil_r.
  - rewrite (filter_cons_False (ownedBy owner o)) by (unfold ownedBy; rewrite Ho; tauto).
    by rewrite IH, filter_nil, app_nil_r.
Qed.

Lemma groupsGet_entry groups key items :
  NoDup groups.*1.*1 → (key, items) ∈ groups → groupsGet groups key = Some items.
Proof.
  induction groups as [|[key' items'] groups IH]; intros Hnd Hin.
  - by apply elem_of_nil in Hin.
  - simpl in Hnd. apply NoDup_cons in Hnd as [Hk Hnd]. simpl.
    apply elem_of_cons in Hin as [Heq|Hin].
    + injection Heq as <- <-. by rewrite decide_True.
    + rewrite decide_False; [by apply IH|].
      unfold sameNode. intros Heq. apply Hk. rewrite Heq.
      apply (list_elem_of_fmap_2 (fst ∘ fst) _ (key, items)) in Hin.
      by rewrite list_fmap_compose in Hin.
Qed.

Lemma nonEmpty_Some l l' : nonEmpty l = Some l' → l' = l.
Proof. destruct l; simpl; congruence. Qed.

Lemma groupBy_entry owner items key l :
  (key, l) ∈ groupBy owner items → l = filter (ownedBy owner key) items.
Proof.
  intros Hin. apply groupsGet_entry in Hin; [|apply groupBy_keys_NoDup].
  rewrite groupBy_get in Hin. by apply nonEmpty_Some in Hin.
Qed.

Lemma groupBy_get_Some owner items o l :
  groupsGet (groupBy owner items) o = Some l → l = filter (ownedBy owner o) items.
Proof. rewrite groupBy_get. apply nonEmpty_Some. Qed.

(** *** A sequence of placements

    [jobs] are placed one after the other; the placement of a job writes
    the nodes at [itemsOf] of the job.  When no node belongs to two jobs,
    the nodes of a job keep the positions its placement gave them. *)

Section Jobs.

Context {J : Type}.
Variables (place : Graph → J → Graph) (itemsOf : J → list nat).
Hypothesis place_touches : ∀ g j, touchesOnly (itemsOf j) g (place g j).

Lemma foldl_place_touchesOnly jobs g :
  touchesOnly (concat (itemsOf <$> jobs)) g (foldl place g jobs).
Proof.
  revert g. induction jobs as [|j jobs IH]; intros g; [apply touchesOnly_refl|].
  simpl. eapply touchesOnly_trans; [apply place_touches | apply IH].
Qed.

Lemma foldl_place_kept jobs g i j :
  NoDup (concat (itemsOf <$> jobs)) →
  jobs !! i = Some j →
  ∃ gi, touchesOnly (concat (itemsOf <$> take i jobs)) g gi
        ∧ ∀ a, a ∈ itemsOf j → nodes (foldl place g jobs) !! a = nodes (place gi j) !! a.
Proof.
  revert g i. induction jobs as [|j0 jobs IH]; intros g i Hnd Hi; [done|].
  simpl in Hnd. apply NoDup_app in Hnd as (Hnd0 & Hdisj & Hnd).
  destruct i as [|i]; simpl in Hi.
  - injection Hi as ->. exists g. split; [apply touchesOnly_refl|].
    intros a Ha. simpl.
    apply (foldl_place_touchesOnly jobs (place g j)). by apply Hdisj.
  - destruct (IH (place g j0) i Hnd Hi) as (gi & Htouch & Hkept).
    exists gi. split; [|exact Hkept].
    simpl. eapply touchesOnly_trans; [apply place_touches | exact Htouch].
Qed.

End Jobs.

Lemma elem_of_concat {A} (ls : list (list A)) (a : A) :
  a ∈ concat ls ↔ ∃ l, a ∈ l ∧ l ∈ ls.
Proof.
  induction ls as [|l0 ls IH]; simpl.
  - split; [by intros ?%elem_of_nil | by intros (l & _ & ?%elem_of_nil)].
  - rewrite elem_of_app, IH. split.
    + intros [H|(l & Hl & Hin)]; [exists l0; split; [done | by left]|].
      exists l. split; [done | by right].
    + intros (l & Hl & [->|Hin]%elem_of_cons); [by left|]. right. by exists l.
Qed.

Lemma NoDup_concat_fmap {J} (f : J → list nat) (jobs : list J) :
  (∀ j, j ∈ jobs → NoDup (f j)) →
  (∀ i i' j j' a, jobs !! i = Some j → jobs !! i' = Some j' →
                  a ∈ f j → a ∈ f j' → i = i') →
  NoDup (concat (f <$> jobs)).
Proof.
  induction jobs as [|j jobs IH]; intros Hnd Hdisj; [apply NoDup_nil_2|].
  simpl. apply NoDup_app. split; [apply Hnd; by left|]. split.
  - intros a Ha Hin. apply elem_of_concat in Hin as (l & Hal & Hl).
    apply list_elem_of_fmap in Hl as (j' & -> & Hj').
    apply list_elem_of_lookup in Hj' as [i' Hi'].
    by specialize (Hdisj 0%nat (S i') j j' a eq_refl Hi' Ha Hal).
  - apply IH.
    + intros j' Hj'. apply Hnd. by right.
    + intros i i' j1 j2 a H1 H2 Ha1 Ha2.
      by specialize (Hdisj (S i) (S i') j1 j2 a H1 H2 Ha1 Ha2) as [= ->].
Qed.

(** *** The groups of a graph *)

Definition processes (g : Graph) : list NodeRef := processNodesOf (refs g).
Definition resources (g : Graph) : list NodeRef := resourceNodesOf (refs g).
Definition mainOf (g : Graph) : option NodeRef := findMainProcess (processes g).
Definition inputNodesOf (g : Graph) : list NodeRef := inputsOf (resources g).
Definition outputNodesOf (g : Graph) : list NodeRef := outputsOf (resources g).
Definition mechanismsIn (g : Graph) : list NodeRef := mechanismsOf (resources g).
Definition secondariesOf (g : Graph) : list NodeRef := secondaryOf (mainOf g) (processes g).
Definition inGroupsOf (g : Graph) : Groups :=
  inputGroups g (interfaceNodeMap (refs g)) (mainOf g) (inputNodesOf g).
Definition outGroupsOf (g : Graph) : Groups :=
  outputGroups g (interfaceNodeMap (refs g)) (mainOf g) (outputNodesOf g).

Lemma inputGroups_connections g g' ifaceMap mainProcess inputNodes :
  connections g' = connections g →
  inputGroups g' ifaceMap mainProcess inputNodes
  = inputGroups g ifaceMap mainProcess inputNodes.
Proof. intros H. unfold inputGroups, findConnection. by rewrite H. Qed.

Lemma outputGroups_connections g g' ifaceMap mainProcess outputNodes :
  connections g' = connections g →
  outputGroups g' ifaceMap mainProcess outputNodes
  = outputGroups g ifaceMap mainProcess outputNodes.
Proof. intros H. unfold outputGroups, findConnection. by rewrite H. Qed.

Lemma validRefs_processes g : validRefs g (processes g).
Proof. apply validRefs_filter, validRefs_refs. Qed.

Lemma validRefs_resources g : validRefs g (resources g).
Proof. apply validRefs_filter, validRefs_refs. Qed.

Lemma validRefs_inputs g : validRefs g (inputNodesOf g).
Proof. apply validRefs_filter, validRefs_resources. Qed.

Lemma validRefs_outputs g : validRefs g (outputNodesOf g).
Proof. apply validRefs_filter, validRefs_resources. Qed.

Lemma validRefs_mechanisms g : validRefs g (mechanismsIn g).
Proof. apply validRefs_filter, validRefs_resources. Qed.

Lemma validRefs_secondaries g : validRefs g (secondariesOf g).
Proof. apply validRefs_filter, validRefs_processes. Qed.

(** Two lists of references into [g] whose members differ share no
    place. *)
Lemma disjoint_places g (A B : list NodeRef) :
  (∀ a, a ∈ A → a ∈ refs g) → (∀ b, b ∈ B → b ∈ refs g) →
  (∀ a, a ∈ A → a ∉ B) →
  ∀ i, i ∈ A.*1 → i ∉ B.*1.
Proof.
  intros HA HB Hdisj i Hi Hi'.
  apply list_elem_of_fmap in Hi as (a & -> & Ha).
  apply list_elem_of_fmap in Hi' as (b & Heq & Hb).
  assert (a = b) as -> by (eapply refs_same; eauto).
  by apply (Hdisj b).
Qed.

Lemma elem_of_processes g a : a ∈ processes g ↔ isProcess a ∧ a ∈ refs g.
Proof. apply list_elem_of_filter. Qed.

Lemma elem_of_resources g a : a ∈ resources g ↔ isResource a ∧ a ∈ refs g.
Proof. apply list_elem_of_filter. Qed.

Lemma process_not_resource a : isProcess a → ¬ isResource a.
Proof. unfold isProcess, isResource. intros H1 H2. rewrite H1 in H2. discriminate. Qed.

Lemma elem_of_inputs g a : a ∈ inputNodesOf g ↔ isInput a ∧ a ∈ resources g.
Proof. apply list_elem_of_filter. Qed.

Lemma elem_of_outputs g a :
  a ∈ outputNodesOf g ↔ (¬ isInput a ∧ isOutput a) ∧ a ∈ resources g.
Proof. unfold outputNodesOf, outputsOf. by rewrite list_elem_of_filter. Qed.

Lemma elem_of_mechanisms g a :
  a ∈ mechanismsIn g ↔ (¬ isInput a ∧ ¬ isOutput a) ∧ a ∈ resources g.
Proof. unfold mechanismsIn, mechanismsOf. by rewrite list_elem_of_filter. Qed.

Lemma elem_of_secondaries g a :
  a ∈ secondariesOf g ↔ notMain (mainOf g) a ∧ a ∈ processes g.
Proof. apply list_elem_of_filter. Qed.

(** The main process is one of the process nodes. *)
Lemma mainOf_process g main : mainOf g = Some main → main ∈ processes g.
Proof.
  unfold mainOf, findMainProcess.
  destruct (List.find (λ node, String.eqb (title node.2) "Process") (processes g))
    as [node|] eqn:Hfind.
  - intros [= <-]. apply List.find_some in Hfind as [Hin _].
    by apply list_elem_of_In.
  - intros Hhead. apply head_Some_elem_of in Hhead. done.
Qed.

(** *** What each placement writes *)

Lemma placeLeftOfProcess_touchesOnly w processTop g owner items :
  touchesOnly items.*1 g (Landscape.placeLeftOfProcess w processTop g owner items).1.
Proof. rewrite placeLeftOfProcess_stack. apply stack_touchesOnly. Qed.

Lemma placeRightOfProcess_touchesOnly w processRight processTop g owner items :
  touchesOnly items.*1 g
    (Landscape.placeRightOfProcess w processRight processTop g owner items).1.
Proof. rewrite placeRightOfProcess_stack. apply stack_touchesOnly. Qed.

Lemma placeMechanismRow_touchesOnly w g mechanisms centerX bottomRowY :
  touchesOnly mechanisms.*1 g
    (Landscape.placeMechanismRow w g mechanisms centerX bottomRowY).
Proof. rewrite placeMechanismRow_stack. apply stack_touchesOnly. Qed.

Lemma placeSecondaryColumn_touchesOnly w g secondaryProcesses ocr centerX centerY :
  touchesOnly secondaryProcesses.*1 g
    (Landscape.placeSecondaryColumn w g secondaryProcesses ocr centerX centerY).
Proof. rewrite placeSecondaryColumn_stack. apply stack_touchesOnly. Qed.

Lemma placeRowFromMetrics_touchesOnly w g0 g items fallback centerXPos py :
  touchesOnly items.*1 g
    (Portrait.placeRowFromMetrics g items (Portrait.getRowMetrics w g0 items fallback)
       centerXPos py).
Proof.
  unfold Portrait.getRowMetrics.
  rewrite (placeRowFromMetrics_stack g (λ node, getNodeSize w g0 node fallback)).
  apply stack_touchesOnly.
Qed.

Lemma placeColumnRight_touchesOnly w g items px centerYPos :
  touchesOnly items.*1 g (Portrait.placeColumnRight w g items px centerYPos).
Proof. rewrite placeColumnRight_stack. apply stack_touchesOnly. Qed.

(** The graph that the loop over the input groups yields. *)
Lemma placeInputColumns_graph w processTop groups g :
  (Landscape.placeInputColumns w processTop g groups).1
  = foldl (λ g (entry : NodeRef * list NodeRef),
             (Landscape.placeLeftOfProcess w processTop g entry.1 entry.2).1)
          g groups.
Proof.
  unfold Landscape.placeInputColumns. generalize neg_infinity as inputsBottom.
  revert g. induction groups as [|[owner items] groups IH]; intros g ib; [done|].
  simpl.
  destruct (Landscape.placeLeftOfProcess w processTop g owner items) as [g' b].
  apply IH.
Qed.

Lemma placeOutputColumns_graph w processRight processTop groups g :
  (Landscape.placeOutputColumns w processRight processTop g groups).1.1
  = foldl (λ g (entry : NodeRef * list NodeRef),
             (Landscape.placeRightOfProcess w processRight processTop g
                entry.1 entry.2).1)
          g groups.
Proof.
  unfold Landscape.placeOutputColumns.
  generalize neg_infinity as outputsBottom. generalize processRight at 2 as ocr.
  revert g. induction groups as [|[owner items] groups IH]; intros g ocr ob; [done|].
  simpl.
  destruct (Landscape.placeRightOfProcess w processRight processTop g owner items)
    as [g' r].
  apply IH.
Qed.

(** The places of all the items of a map of groups. *)
Definition groupPlaces (groups : Groups) : list nat :=
  concat ((λ entry : NodeRef * list NodeRef, entry.2.*1) <$> groups).

Lemma placeInputColumns_touchesOnly w processTop groups g :
  touchesOnly (groupPlaces groups) g
    (Landscape.placeInputColumns w processTop g groups).1.
Proof.
  rewrite placeInputColumns_graph. unfold groupPlaces.
  apply (foldl_place_touchesOnly
           (λ g (entry : NodeRef * list NodeRef),
              (Landscape.placeLeftOfProcess w processTop g entry.1 entry.2).1)
           (λ entry, entry.2.*1)).
  intros g0 [owner items]. apply placeLeftOfProcess_touchesOnly.
Qed.

Lemma placeOutputColumns_touchesOnly w processRight processTop groups g :
  touchesOnly (groupPlaces groups) g
    (Landscape.placeOutputColumns w processRight processTop g groups).1.1.
Proof.
  rewrite placeOutputColumns_graph. unfold groupPlaces.
  apply (foldl_place_touchesOnly
           (λ g (entry : NodeRef * list NodeRef),
              (Landscape.placeRightOfProcess w processRight processTop g
                 entry.1 entry.2).1)
           (λ entry, entry.2.*1)).
  intros g0 [owner items]. apply placeRightOfProcess_touchesOnly.
Qed.

(** *** The stages of the landscape pass *)

Module LandscapeStages.
Import Landscape.

Section Stages.

Variables (w : Window) (g : Graph).

Definition afterMain : Graph := placeMain w g (mainOf g) (centerXOf w g) (centerYOf w g).

Definition primarySize : Size :=
  match match mainOf g with
        | Some main => Some main
        | None => head (processes g)
        end with
  | Some primary => getNodeSize w afterMain primary processFallback
  | None => processFallback
  end.

Definition processRight : float := centerXOf w g + width primarySize / 2.
Definition processTop : float := centerYOf w g - height primarySize / 2 - 40.
Definition processBottom : float := centerYOf w g + height primarySize / 2 - 40.

Definition inputStage : Graph * float :=
  placeInputColumns w processTop afterMain (inGroupsOf g).

Definition outputStage : Graph * float * float :=
  placeOutputColumns w processRight processTop inputStage.1 (outGroupsOf g).

Definition bottomRowY : float := bottomRowYOf processBottom inputStage.2 outputStage.2.

Definition mechanismStage : Graph :=
  placeMechanismRow w outputStage.1.1 (mechanismsIn g) (centerXOf w g) bottomRowY.

Definition finalStage : Graph :=
  placeSecondaryColumn w mechanismStage (secondariesOf g) outputStage.1.2
    (centerXOf w g) (centerYOf w g).

Definition mainPlaces (mainProcess : option NodeRef) : list nat :=
  match mainProcess with
  | Some main => [main.1]
  | None => []
  end.

Lemma landscape_placeMain_touchesOnly g0 mainProcess cx cy :
  touchesOnly (mainPlaces mainProcess) g0 (placeMain w g0 mainProcess cx cy).
Proof.
  destruct mainProcess as [main|]; simpl;
    [apply touchesOnly_setPos | apply touchesOnly_refl].
Qed.

Lemma landscape_afterMain_touchesOnly : touchesOnly (mainPlaces (mainOf g)) g afterMain.
Proof. apply landscape_placeMain_touchesOnly. Qed.

Lemma landscape_inputStage_touchesOnly :
  touchesOnly (groupPlaces (inGroupsOf g)) afterMain inputStage.1.
Proof. apply placeInputColumns_touchesOnly. Qed.

Lemma landscape_outputStage_touchesOnly :
  touchesOnly (groupPlaces (outGroupsOf g)) inputStage.1 outputStage.1.1.
Proof. apply placeOutputColumns_touchesOnly. Qed.

Lemma landscape_mechanismStage_touchesOnly :
  touchesOnly (mechanismsIn g).*1 outputStage.1.1 mechanismStage.
Proof. apply placeMechanismRow_touchesOnly. Qed.

Lemma landscape_finalStage_touchesOnly :
  touchesOnly (secondariesOf g).*1 mechanismStage finalStage.
Proof. apply placeSecondaryColumn_touchesOnly. Qed.

Lemma landscape_afterMain_structure : structure afterMain = structure g.
Proof. eapply touchesOnly_structure, landscape_afterMain_touchesOnly. Qed.

Lemma landscape_inputStage_structure : structure inputStage.1 = structure g.
Proof.
  rewrite (touchesOnly_structure _ _ _ landscape_inputStage_touchesOnly).
  apply landscape_afterMain_structure.
Qed.

Lemma landscape_outputStage_structure : structure outputStage.1.1 = structure g.
Proof.
  rewrite (touchesOnly_structure _ _ _ landscape_outputStage_touchesOnly).
  apply landscape_inputStage_structure.
Qed.

Lemma landscape_mechanismStage_structure : structure mechanismStage = structure g.
Proof.
  rewrite (touchesOnly_structure _ _ _ landscape_mechanismStage_touchesOnly).
  apply landscape_outputStage_structure.
Qed.

Lemma landscape_finalStage_structure : structure finalStage = structure g.
Proof.
  rewrite (touchesOnly_structure _ _ _ landscape_finalStage_touchesOnly).
  apply landscape_mechanismStage_structure.
Qed.

Lemma landscape_arrange_stages :
  arrange w g (processes g) (resources g) (centerXOf w g) (centerYOf w g) = finalStage.
Proof.
  unfold finalStage, mechanismStage, bottomRowY.
  pose proof landscape_outputStage_structure as Hs3. revert Hs3.
  unfold outputStage.
  pose proof landscape_inputStage_structure as Hs2. revert Hs2.
  unfold inputStage, processRight, processTop, processBottom, primarySize.
  unfold arrange. cbv zeta.
  fold (mainOf g). fold afterMain.
  rewrite (inputGroups_connections g afterMain)
    by (apply structure_connections, landscape_afterMain_structure).
  fold (inputNodesOf g). fold (inGroupsOf g).
  destruct (placeInputColumns _ _ afterMain (inGroupsOf g)) as [g2 ib].
  cbn [fst snd]. intros Hs2.
  rewrite (outputGroups_connections g g2) by (by apply structure_connections).
  fold (outputNodesOf g). fold (outGroupsOf g).
  destruct (placeOutputColumns _ _ _ g2 (outGroupsOf g)) as [[g3 ocr] ob].
  reflexivity.
Qed.

End Stages.

End LandscapeStages.

(** *** The stages of the portrait pass *)

Module PortraitStages.
Import Portrait.

Section Stages.

Variables (w : Window) (g : Graph).

Definition afterMain : Graph := placeMain w g (mainOf g) (centerXOf w g) (centerYOf w g).

Definition processRect : Size :=
  match mainOf g with
  | Some main => getNodeSize w afterMain main processFallback
  | None => processFallback
  end.

Definition processX : float :=
  match mainOf g with
  | Some main => x (positionOf afterMain main) + width processRect / 2
  | None => centerXOf w g
  end.

Definition processY : float :=
  match mainOf g with
  | Some main => y (positionOf afterMain main) + height processRect / 2
  | None => centerYOf w g
  end.

(** The groups of the main process. *)
Definition mainGroup (groups : Groups) : list NodeRef :=
  match mainOf g with
  | Some main => default [] (groupsGet groups main)
  | None => []
  end.

Definition inputMetrics : RowMetrics :=
  getRowMetrics w afterMain (mainGroup (inGroupsOf g)) resourceFallback.

Definition inputRowY : float :=
  processY - height processRect / 2 - offsetFromProcess - maxHeight inputMetrics.

Definition inputStage : Graph :=
  placeRowFromMetrics afterMain (mainGroup (inGroupsOf g)) inputMetrics processX inputRowY.

Definition outputMetrics : RowMetrics :=
  getRowMetrics w inputStage (mainGroup (outGroupsOf g)) resourceFallback.

Definition outputRowY : float := processY + height processRect / 2 + offsetFromProcess.

Definition outputStage : Graph :=
  placeRowFromMetrics inputStage (mainGroup (outGroupsOf g)) outputMetrics processX
    outputRowY.

Definition secondaryStage : Graph :=
  placeSecondaryRow w (inGroupsOf g) (outGroupsOf g) outputStage (secondariesOf g)
    processX outputRowY (maxHeight outputMetrics).

Definition maxRowRight : float :=
  Math.max (Math.max (processX + totalWidth inputMetrics / 2)
             (processX + totalWidth outputMetrics / 2))
       (processX + width processRect / 2).

Definition finalStage : Graph :=
  placeColumnRight w secondaryStage (mechanismsIn g) (maxRowRight + mechanismGap) processY.

(** The items that the sub-layout of a secondary process writes. *)
Definition secondaryItems (processNode : NodeRef) : list NodeRef :=
  default [] (groupsGet (outGroupsOf g) processNode)
  ++ default [] (groupsGet (inGroupsOf g) processNode).

Definition secondaryPlaces : list nat :=
  (secondariesOf g).*1
  ++ concat ((λ node, (secondaryItems node).*1) <$> secondariesOf g).

Lemma portrait_placeMain_touchesOnly g0 mainProcess cx cy :
  touchesOnly (LandscapeStages.mainPlaces mainProcess) g0
    (placeMain w g0 mainProcess cx cy).
Proof.
  destruct mainProcess as [main|]; simpl;
    [apply touchesOnly_setPos | apply touchesOnly_refl].
Qed.

Lemma placeSecondaryGroups_touchesOnly g0 processNode :
  touchesOnly (secondaryItems processNode).*1 g0
    (placeSecondaryGroups w (inGroupsOf g) (outGroupsOf g) g0 processNode).
Proof.
  unfold placeSecondaryGroups, secondaryItems. rewrite fmap_app.
  eapply touchesOnly_trans; apply placeRowFromMetrics_touchesOnly.
Qed.

Lemma placeSecondaryRow_touchesOnly g0 px py mh :
  touchesOnly secondaryPlaces g0
    (placeSecondaryRow w (inGroupsOf g) (outGroupsOf g) g0 (secondariesOf g) px py mh).
Proof.
  unfold placeSecondaryRow, secondaryPlaces.
  destruct (secondariesOf g) as [|s l] eqn:Hsec; [apply touchesOnly_refl|].
  eapply touchesOnly_trans; [apply placeRowFromMetrics_touchesOnly|].
  apply (foldl_place_touchesOnly
           (placeSecondaryGroups w (inGroupsOf g) (outGroupsOf g))
           (λ node, (secondaryItems node).*1)).
  apply placeSecondaryGroups_touchesOnly.
Qed.

Lemma portrait_afterMain_touchesOnly :
  touchesOnly (LandscapeStages.mainPlaces (mainOf g)) g afterMain.
Proof. apply portrait_placeMain_touchesOnly. Qed.

Lemma portrait_inputStage_touchesOnly :
  touchesOnly (mainGroup (inGroupsOf g)).*1 afterMain inputStage.
Proof. apply placeRowFromMetrics_touchesOnly. Qed.

Lemma portrait_outputStage_touchesOnly :
  touchesOnly (mainGroup (outGroupsOf g)).*1 inputStage outputStage.
Proof. apply placeRowFromMetrics_touchesOnly. Qed.

Lemma portrait_secondaryStage_touchesOnly : touchesOnly secondaryPlaces outputStage secondaryStage.
Proof. apply placeSecondaryRow_touchesOnly. Qed.

Lemma portrait_finalStage_touchesOnly : touchesOnly (mechanismsIn g).*1 secondaryStage finalStage.
Proof. apply placeColumnRight_touchesOnly. Qed.

Lemma portrait_afterMain_structure : structure afterMain = structure g.
Proof. eapply touchesOnly_structure, portrait_afterMain_touchesOnly. Qed.

Lemma portrait_inputStage_structure : structure inputStage = structure g.
Proof.
  rewrite (touchesOnly_structure _ _ _ portrait_inputStage_touchesOnly).
  apply portrait_afterMain_structure.
Qed.

Lemma portrait_outputStage_structure : structure outputStage = structure g.
Proof.
  rewrite (touchesOnly_structure _ _ _ portrait_outputStage_touchesOnly).
  apply portrait_inputStage_structure.
Qed.

Lemma portrait_secondaryStage_structure : structure secondaryStage = structure g.
Proof.
  rewrite (touchesOnly_structure _ _ _ portrait_secondaryStage_touchesOnly).
  apply portrait_outputStage_structure.
Qed.

Lemma portrait_finalStage_structure : structure finalStage = structure g.
Proof.
  rewrite (touchesOnly_structure _ _ _ portrait_finalStage_touchesOnly).
  apply portrait_secondaryStage_structure.
Qed.

Lemma portrait_arrange_stages :
  arrange w g (processes g) (resources g) (centerXOf w g) (centerYOf w g) = finalStage.
Proof.
  unfold finalStage, maxRowRight, secondaryStage, outputStage, outputRowY, outputMetrics,
    inputStage, inputRowY, inputMetrics, mainGroup, processX, processY, processRect.
  unfold arrange. cbv zeta.
  fold (mainOf g). fold afterMain.
  rewrite (inputGroups_connections g afterMain)
    by (apply structure_connections, portrait_afterMain_structure).
  rewrite (outputGroups_connections g afterMain)
    by (apply structure_connections, portrait_afterMain_structure).
  reflexivity.
Qed.

End Stages.

End PortraitStages.

(** *** C7: the pass only writes positions *)

Lemma autoArrangeNodes_stages w g :
  autoArrangeNodes w g
  = match nodes g with
    | [] => g
    | _ => if isPortrait w then PortraitStages.finalStage w g
           else LandscapeStages.finalStage w g
    end.
Proof.
  unfold autoArrangeNodes. destruct (nodes g); [done|].
  fold (processes g) (resources g).
  by rewrite PortraitStages.portrait_arrange_stages, LandscapeStages.landscape_arrange_stages.
Qed.

Lemma autoArrangeNodes_structure w g : structure (autoArrangeNodes w g) = structure g.
Proof.
  rewrite autoArrangeNodes_stages. destruct (nodes g); [done|].
  destruct (isPortrait w);
    [apply PortraitStages.portrait_finalStage_structure
    |apply LandscapeStages.landscape_finalStage_structure].
Qed.

Lemma nudge_structure move g : structure (nudge move g) = structure g.
Proof.
  unfold nudge. generalize (refs g) as l. intros l.
  assert (∀ g', structure g' = structure g →
            structure (foldl (λ g' node, setPos g' node (move (x (positionOf g' node)))
                                           (move (y (positionOf g' node)))) g' l)
            = structure g) as H; [|by apply H].
  induction l as [|node l IH]; intros g' Hg'; [done|].
  simpl. apply IH. by rewrite setPos_structure.
Qed.

Lemma refreshFrames_structure g : structure (refreshFrames g) = structure g.
Proof.
  unfold refreshFrames. destruct (nodes g); [done|].
  by rewrite !nudge_structure.
Qed.

(** C7.  A layout pass leaves the nodes with all their fields but the
    position, the connections and the view as they were; so do the two
    animation frames it requests at its end. *)
Theorem autoArrangeNodes_writes_positions_only (w : Window) (g : Graph) :
  info <$> nodes (autoArrangeNodes w g) = info <$> nodes g
  ∧ connections (autoArrangeNodes w g) = connections g
  ∧ scaling (autoArrangeNodes w g) = scaling g
  ∧ panning (autoArrangeNodes w g) = panning g
  ∧ length (nodes (autoArrangeNodes w g)) = length (nodes g)
  ∧ structure (refreshFrames (autoArrangeNodes w g)) = structure g.
Proof.
  pose proof (autoArrangeNodes_structure w g) as Hs.
  pose proof (structure_length _ _ Hs) as Hlen.
  unfold structure in Hs. injection Hs as H1 H2 H3 H4.
  repeat split; try done.
  rewrite refreshFrames_structure. apply autoArrangeNodes_structure.
Qed.

(** ** Grouping *)

(** The interfaces of a node. *)
Definition ports (node : NodeRef) : list Intf := inputs node.2 ++ outputs node.2.

(** In [g], the interface [i] belongs to [node] and to no other node. *)
Definition owns (g : Graph) (node : NodeRef) (i : Intf) : Prop :=
  i ∈ ports node ∧ ∀ n, n ∈ refs g → i ∈ ports n → n = node.

Lemma setAll_lookup (node : NodeRef) (l : list Intf) (m : gmap Intf NodeRef) (k : Intf) :
  foldl (λ m intf, <[intf := node]> m) m l !! k
  = if decide (k ∈ l) then Some node else m !! k.
Proof.
  revert m. induction l as [|i l IH]; intros m; simpl.
  - destruct (decide (k ∈ [])) as [H|H]; [by apply elem_of_nil in H | done].
  - rewrite IH.
    destruct (decide (k ∈ l)) as [Hl|Hl]; destruct (decide (k ∈ i :: l)) as [Hil|Hil];
      try done.
    + exfalso. apply Hil. by right.
    + apply elem_of_cons in Hil as [->|?]; [|done]. apply lookup_insert_eq.
    + apply lookup_insert_ne. intros ->. apply Hil. by left.
Qed.

Lemma interfaceNodeMap_snoc l node k :
  interfaceNodeMap (l ++ [node]) !! k
  = if decide (k ∈ ports node) then Some node else interfaceNodeMap l !! k.
Proof.
  unfold interfaceNodeMap. rewrite foldl_snoc, !setAll_lookup. unfold ports.
  destruct (decide (k ∈ outputs node.2)) as [Ho|Ho];
    destruct (decide (k ∈ inputs node.2)) as [Hi|Hi];
    destruct (decide (k ∈ inputs node.2 ++ outputs node.2)) as [Hio|Hio];
    try done; exfalso; rewrite elem_of_app in Hio; tauto.
Qed.

(** An interface that belongs to exactly one node is mapped to it. *)
Lemma interfaceNodeMap_owner l node k :
  node ∈ l → k ∈ ports node → (∀ n, n ∈ l → k ∈ ports n → n = node) →
  interfaceNodeMap l !! k = Some node.
Proof.
  induction l as [|n l IH] using rev_ind; intros Hin Hk Huniq.
  - by apply elem_of_nil in Hin.
  - rewrite interfaceNodeMap_snoc.
    destruct (decide (k ∈ ports n)) as [Hn|Hn].
    + f_equal. apply Huniq; [|done]. apply elem_of_app. right. by left.
    + apply IH; [|done|].
      * apply elem_of_app in Hin as [?|Hin]; [done|].
        apply list_elem_of_singleton in Hin as ->. done.
      * intros n' Hn'. apply Huniq. apply elem_of_app. by left.
Qed.

Lemma interfaceNodeMap_owns g node i :
  node ∈ refs g → owns g node i → interfaceNodeMap (refs g) !! i = Some node.
Proof. intros Hin [Hi Huniq]. by apply interfaceNodeMap_owner. Qed.

(** [item] is in the list that [groups] keeps for [owner]. *)
Definition groupedUnder (groups : Groups) (owner item : NodeRef) : Prop :=
  ∃ l, groupsGet groups owner = Some l ∧ item ∈ l.

Lemma groupBy_groupedUnder owner items o item :
  groupedUnder (groupBy owner items) o item ↔ item ∈ items ∧ ownedBy owner o item.
Proof.
  unfold groupedUnder. rewrite groupBy_get. split.
  - intros (l & Hl & Hin). apply nonEmpty_Some in Hl as ->.
    apply list_elem_of_filter in Hin. tauto.
  - intros [Hin Ho].
    assert (item ∈ filter (ownedBy owner o) items) as Hf
      by (apply list_elem_of_filter; tauto).
    exists (filter (ownedBy owner o) items). split; [|done].
    destruct (filter (ownedBy owner o) items); [by apply elem_of_nil in Hf | done].
Qed.

(** The connections at a port, seen from the resource that has the port:
    [near] is the end at the resource. *)
Definition noConnectionAt (g : Graph) (port : option Intf) : Prop :=
  ∀ c p, c ∈ connections g → port = Some p → from c ≠ p ∧ to c ≠ p.

Lemma findConnection_None g near port :
  (∀ c p, c ∈ connections g → port = Some p → near c ≠ p) →
  findConnection g near port = None.
Proof.
  intros Hno. unfold findConnection. destruct port as [p|]; [|done].
  destruct (List.find (λ c, (near c =? p)%nat) (connections g)) as [c|] eqn:Hfind;
    [|done].
  apply List.find_some in Hfind as [Hin Heq].
  apply Nat.eqb_eq in Heq. apply list_elem_of_In in Hin.
  by destruct (Hno c p Hin eq_refl).
Qed.

Lemma findConnection_Some g near p :
  (∃ c, c ∈ connections g ∧ near c = p) →
  ∃ c, findConnection g near (Some p) = Some c ∧ c ∈ connections g ∧ near c = p.
Proof.
  intros (c0 & Hin0 & Heq0). unfold findConnection.
  destruct (List.find (λ c, (near c =? p)%nat) (connections g)) as [c|] eqn:Hfind.
  - apply List.find_some in Hfind as [Hin Heq].
    apply Nat.eqb_eq in Heq. apply list_elem_of_In in Hin. eauto.
  - apply list_elem_of_In in Hin0.
    pose proof (List.find_none _ _ Hfind c0 Hin0) as Hc. simpl in Hc.
    apply Nat.eqb_neq in Hc. done.
Qed.

Lemma ownerProcessOf_orphan ifaceMap mainProcess far :
  ownerProcessOf ifaceMap mainProcess None far = mainProcess.
Proof.
  unfold ownerProcessOf. destruct mainProcess as [m|]; [|done].
  by destruct (decide (isProcess m)).
Qed.

Lemma ownerProcessOf_process ifaceMap mainProcess c far owner :
  ifaceMap !! far c = Some owner → isProcess owner →
  ownerProcessOf ifaceMap mainProcess (Some c) far = Some owner.
Proof. intros Hmap Hp. unfold ownerProcessOf. rewrite Hmap. by rewrite decide_True. Qed.

Lemma ownerProcessOf_other ifaceMap mainProcess c far owner :
  ifaceMap !! far c = Some owner → ¬ isProcess owner →
  ownerProcessOf ifaceMap mainProcess (Some c) far = mainProcess.
Proof. intros Hmap Hp. unfold ownerProcessOf. rewrite Hmap. by rewrite decide_False. Qed.

(** [find] gives the first connection at the port, in the order of
    [graph.connections]. *)
Lemma findConnection_first g near p before c after :
  connections g = before ++ c :: after → near c = p →
  (∀ c', c' ∈ before → near c' ≠ p) →
  findConnection g near (Some p) = Some c.
Proof.
  intros Hconn Hc Hbefore. unfold findConnection. rewrite Hconn. clear Hconn.
  induction before as [|b before IH]; simpl.
  - by rewrite Hc, Nat.eqb_refl.
  - destruct (Nat.eqb_spec (near b) p) as [Heq|_].
    + destruct (Hbefore b); [by left | done].
    + apply IH. intros c' Hc'. apply Hbefore. by right.
Qed.

(** The grouping port of a resource: the first output of an input
    resource, the first input of an output resource. *)
Definition inputPort (node : NodeRef) : option Intf := head (outputs node.2).
Definition outputPort (node : NodeRef) : option Intf := head (inputs node.2).

(** *** Diagrams to run the pass on *)

Definition mkNode (i t ti rt : string) (ins outs : list Intf) : Node :=
  {| info := {| id := i; type := t; title := ti; resourceType := rt;
                inputs := ins; outputs := outs |};
     position := {| x := 0; y := 0 |} |}.

Definition refAt (g : Graph) (i : nat) : NodeRef :=
  (i, default (info (mkNode "" "" "" "" [] [])) (info <$> nodes g !! i)).

(** A window of 1600 by 900 and one of 700 by 1200 in which no node is
    rendered yet. *)
Definition wideWindow : Window :=
  {| innerWidth := 1600; innerHeight := 900; getElementById := λ _, None |}.
Definition tallWindow : Window :=
  {| innerWidth := 700; innerHeight := 1200; getElementById := λ _, None |}.

(** The process "Process" with two inputs, two outputs and a machine, and
    a second process "Second" with one output of its own. *)
Definition twoProcesses : Graph :=
  {| nodes := [ mkNode "p" "ProcessNode" "Process" "" [10; 11; 12]%nat [13; 14]%nat;
                mkNode "s" "ProcessNode" "Second" "" [20]%nat [21]%nat;
                mkNode "i1" "ResourceNode" "Input 1" "input" [] [30]%nat;
                mkNode "i2" "ResourceNode" "Input 2" "input" [] [31]%nat;
                mkNode "o1" "ResourceNode" "Output 1" "output" [40]%nat [41]%nat;
                mkNode "o2" "ResourceNode" "Output 2" "output" [42]%nat [43]%nat;
                mkNode "m1" "ResourceNode" "Machine" "machine" [] [50]%nat;
                mkNode "so" "ResourceNode" "Output 3" "output" [60]%nat [61]%nat ];
     connections := [ {| from := 30; to := 10 |}; {| from := 31; to := 11 |};
                      {| from := 13; to := 40 |}; {| from := 14; to := 42 |};
                      {| from := 50; to := 12 |}; {| from := 21; to := 60 |} ]%nat;
     scaling := 1;
     panning := {| x := 0; y := 0 |} |}.

(** Two processes, the second one titled "Folyamat", an input wired to the
    second and an input wired to nothing. *)
Definition folyamatSecond : Graph :=
  {| nodes := [ mkNode "a" "ProcessNode" "Manufacturing Step" "" [10]%nat [11]%nat;
                mkNode "b" "ProcessNode" "Folyamat" "" [20]%nat [21]%nat;
                mkNode "r" "ResourceNode" "Input Material" "input" [] [30]%nat;
                mkNode "q" "ResourceNode" "Input Material" "input" [] [31]%nat ];
     connections := [ {| from := 31; to := 20 |} ]%nat;
     scaling := 1;
     panning := {| x := 0; y := 0 |} |}.

(** The processes "Process" and "Second", and an input whose port is wired
    first to the input of an output resource and then to "Second". *)
Definition firstWireElsewhere : Graph :=
  {| nodes := [ mkNode "p" "ProcessNode" "Process" "" [10]%nat [11]%nat;
                mkNode "s" "ProcessNode" "Second" "" [20]%nat [21]%nat;
                mkNode "r" "ResourceNode" "Input 1" "input" [] [30]%nat;
                mkNode "o" "ResourceNode" "Output 1" "output" [40]%nat [41]%nat ];
     connections := [ {| from := 30; to := 40 |}; {| from := 30; to := 20 |} ]%nat;
     scaling := 1;
     panning := {| x := 0; y := 0 |} |}.

Ltac in_list := vm_compute; repeat constructor.

Ltac no_connection :=
  let c := fresh "c" in let p := fresh "p" in
  let Hc := fresh "Hc" in let Hp := fresh "Hp" in
  intros c p Hc Hp; vm_compute in Hp; injection Hp as <-;
  vm_compute in Hc;
  repeat (apply elem_of_cons in Hc as [->|Hc]; [split; discriminate|]);
  by apply elem_of_nil in Hc.

(** *** C2: resources without a connection *)

(** The primary process as the specification words it: the process titled
    "Process" or "Folyamat", or the first process if none is so titled. *)
Definition specPrimaryProcess (g : Graph) : option NodeRef :=
  match List.find (λ node, String.eqb (title node.2) "Process"
                           || String.eqb (title node.2) "Folyamat") (processes g) with
  | Some node => Some node
  | None => head (processes g)
  end.

(** C2 as stated fails: with a first process of another title and a second
    process titled "Folyamat", the pass groups an input without connection
    under the first process, not under "Folyamat". *)
Lemma orphan_not_under_Folyamat :
  refAt folyamatSecond 2 ∈ inputNodesOf folyamatSecond
  ∧ noConnectionAt folyamatSecond (inputPort (refAt folyamatSecond 2))
  ∧ specPrimaryProcess folyamatSecond = Some (refAt folyamatSecond 1)
  ∧ ¬ groupedUnder (inGroupsOf folyamatSecond) (refAt folyamatSecond 1)
        (refAt folyamatSecond 2)
  ∧ groupedUnder (inGroupsOf folyamatSecond) (refAt folyamatSecond 0)
      (refAt folyamatSecond 2).
Proof.
  split; [in_list|]. split; [no_connection|]. split; [reflexivity|]. split.
  - intros (l & Hl & Hin). vm_compute in Hl. injection Hl as <-.
    vm_compute in Hin.
    apply elem_of_cons in Hin as [Heq|Hin]; [discriminate|].
    by apply elem_of_nil in Hin.
  - eexists. split; [vm_compute; reflexivity | in_list].
Qed.

(** C2, amended.  A resource whose grouping port has no connection is
    grouped under the main process of the pass, which is the first process
    titled "Process", or the first process when none has that title. *)
Theorem orphan_grouped_under_main (g : Graph) (r main : NodeRef) :
  mainOf g = Some main →
  (r ∈ inputNodesOf g → noConnectionAt g (inputPort r) →
   groupedUnder (inGroupsOf g) main r)
  ∧ (r ∈ outputNodesOf g → noConnectionAt g (outputPort r) →
     groupedUnder (outGroupsOf g) main r)
  ∧ mainOf g
    = match List.find (λ node, String.eqb (title node.2) "Process") (processes g) with
      | Some node => Some node
      | None => head (processes g)
      end.
Proof.
  intros Hmain. split; [|split; [|reflexivity]].
  - intros Hin Hno. unfold inGroupsOf. rewrite inputGroups_groupBy.
    apply groupBy_groupedUnder. split; [done|].
    unfold ownedBy, inputOwner.
    rewrite (findConnection_None g from) by (intros c p Hc Hp; by apply (Hno c p)).
    rewrite ownerProcessOf_orphan, Hmain. reflexivity.
  - intros Hin Hno. unfold outGroupsOf. rewrite outputGroups_groupBy.
    apply groupBy_groupedUnder. split; [done|].
    unfold ownedBy, outputOwner.
    rewrite (findConnection_None g to) by (intros c p Hc Hp; by apply (Hno c p)).
    rewrite ownerProcessOf_orphan, Hmain. reflexivity.
Qed.

Lemma orphan_grouped_under_main_witness :
  groupedUnder (inGroupsOf folyamatSecond) (refAt folyamatSecond 0)
    (refAt folyamatSecond 2).
Proof.
  apply (proj1 (orphan_grouped_under_main folyamatSecond (refAt folyamatSecond 2)
                  (refAt folyamatSecond 0) eq_refl)).
  - in_list.
  - no_connection.
Defined.

(** *** C3: resources wired to one process *)

Ltac owns_at :=
  let n := fresh "n" in let Hn := fresh "Hn" in let Hports := fresh "Hports" in
  split; [in_list|];
  intros n Hn Hports; vm_compute in Hn;
  repeat (apply elem_of_cons in Hn as [->|Hn];
          [first [reflexivity
                 | exfalso; vm_compute in Hports;
                   repeat (apply elem_of_cons in Hports as [Hports|Hports];
                           [discriminate Hports|]);
                   by apply elem_of_nil in Hports]|]);
  by apply elem_of_nil in Hn.

(** C3 as stated fails: the port of the input of [firstWireElsewhere] is
    wired to exactly one process, "Second", which is not the main process,
    and to the input of an output resource by an earlier connection.  The
    pass looks at the earlier connection only and groups the input under
    the main process "Process", not under "Second". *)
Lemma wired_to_one_process_grouped_under_main :
  let g := firstWireElsewhere in
  let r := refAt g 2 in
  let second := refAt g 1 in
  let main := refAt g 0 in
  r ∈ inputNodesOf g ∧ inputPort r = Some 30%nat
  ∧ second ∈ processes g
  ∧ (∃ c, c ∈ connections g ∧ from c = 30%nat ∧ owns g second (to c))
  ∧ (∀ c P, c ∈ connections g → from c = 30%nat → P ∈ processes g →
       to c ∈ ports P → P = second)
  ∧ mainOf g = Some main ∧ ¬ sameNode second main
  ∧ ¬ groupedUnder (inGroupsOf g) second r
  ∧ groupedUnder (inGroupsOf g) main r.
Proof.
  intros g r second main.
  split; [in_list|]. split; [reflexivity|]. split; [in_list|]. split; [|split].
  - exists {| from := 30%nat; to := 20%nat |}. split; [in_list|]. split; [reflexivity|].
    owns_at.
  - intros c P Hc _ HP Hports. vm_compute in HP.
    repeat (apply elem_of_cons in HP as [->|HP];
            [first [reflexivity
                   | exfalso; vm_compute in Hc;
                     repeat (apply elem_of_cons in Hc as [->|Hc];
                             [vm_compute in Hports;
                              repeat (apply elem_of_cons in Hports as [Hports|Hports];
                                      [discriminate Hports|]);
                              by apply elem_of_nil in Hports|]);
                     by apply elem_of_nil in Hc]|]).
    by apply elem_of_nil in HP.
  - split; [reflexivity|]. split; [vm_compute; discriminate|]. split.
    + intros (l & Hl & Hin). vm_compute in Hl. discriminate Hl.
    + eexists. split; [vm_compute; reflexivity | in_list].
Qed.

(** C3, amended.  An input resource is grouped by the first connection, in
    the order of [graph.connections], that starts at its grouping port.
    When the other end of that connection is an interface of a process
    [P], the resource is in the input group of [P], and it is not in the
    input group of the main process unless [P] is the main process.  When
    the other end is an interface of a node that is no process, the
    resource is in the input group of the main process, whatever other
    connections its port has.  The same holds for an output resource, the
    connections that end at its port and the output groups. *)
Theorem first_connection_decides_group (g : Graph) (r : NodeRef) (p : Intf)
    (before after : list Connection) (c : Connection) :
  connections g = before ++ c :: after →
  (r ∈ inputNodesOf g → inputPort r = Some p →
   from c = p → (∀ c', c' ∈ before → from c' ≠ p) →
   (∀ P, P ∈ processes g → owns g P (to c) →
      groupedUnder (inGroupsOf g) P r
      ∧ ∀ main, mainOf g = Some main → ¬ sameNode P main →
                ¬ groupedUnder (inGroupsOf g) main r)
   ∧ (∀ N main, N ∈ refs g → ¬ isProcess N → owns g N (to c) →
        mainOf g = Some main → groupedUnder (inGroupsOf g) main r))
  ∧ (r ∈ outputNodesOf g → outputPort r = Some p →
     to c = p → (∀ c', c' ∈ before → to c' ≠ p) →
     (∀ P, P ∈ processes g → owns g P (from c) →
        groupedUnder (outGroupsOf g) P r
        ∧ ∀ main, mainOf g = Some main → ¬ sameNode P main →
                  ¬ groupedUnder (outGroupsOf g) main r)
     ∧ (∀ N main, N ∈ refs g → ¬ isProcess N → owns g N (from c) →
          mainOf g = Some main → groupedUnder (outGroupsOf g) main r)).
Proof.
  intros Hconn. split.
  - intros Hin Hport Hc Hbefore.
    pose proof (findConnection_first g from p before c after Hconn Hc Hbefore) as Hfind.
    unfold inGroupsOf. rewrite inputGroups_groupBy. split.
    + intros P HP Howns. apply elem_of_processes in HP as [HPproc HPref].
      assert (inputOwner g (interfaceNodeMap (refs g)) (mainOf g) r = Some P) as Howner.
      { unfold inputOwner. fold (inputPort r). rewrite Hport, Hfind.
        apply ownerProcessOf_process; [|done]. by apply interfaceNodeMap_owns. }
      split.
      * apply groupBy_groupedUnder. split; [done|]. unfold ownedBy. by rewrite Howner.
      * intros main Hmain Hne Hg. apply groupBy_groupedUnder in Hg as [_ Ho].
        unfold ownedBy in Ho. by rewrite Howner in Ho.
    + intros N main HN HNproc Howns Hmain.
      apply groupBy_groupedUnder. split; [done|].
      unfold ownedBy, inputOwner. fold (inputPort r). rewrite Hport, Hfind.
      rewrite (ownerProcessOf_other _ _ c to N); [by rewrite Hmain | | done].
      by apply interfaceNodeMap_owns.
  - intros Hin Hport Hc Hbefore.
    pose proof (findConnection_first g to p before c after Hconn Hc Hbefore) as Hfind.
    unfold outGroupsOf. rewrite outputGroups_groupBy. split.
    + intros P HP Howns. apply elem_of_processes in HP as [HPproc HPref].
      assert (outputOwner g (interfaceNodeMap (refs g)) (mainOf g) r = Some P) as Howner.
      { unfold outputOwner. fold (outputPort r). rewrite Hport, Hfind.
        apply ownerProcessOf_process; [|done]. by apply interfaceNodeMap_owns. }
      split.
      * apply groupBy_groupedUnder. split; [done|]. unfold ownedBy. by rewrite Howner.
      * intros main Hmain Hne Hg. apply groupBy_groupedUnder in Hg as [_ Ho].
        unfold ownedBy in Ho. by rewrite Howner in Ho.
    + intros N main HN HNproc Howns Hmain.
      apply groupBy_groupedUnder. split; [done|].
      unfold ownedBy, outputOwner. fold (outputPort r). rewrite Hport, Hfind.
      rewrite (ownerProcessOf_other _ _ c from N); [by rewrite Hmain | | done].
      by apply interfaceNodeMap_owns.
Qed.

Lemma first_connection_decides_group_witness :
  connections firstWireElsewhere
  = [] ++ {| from := 30%nat; to := 40%nat |} :: [ {| from := 30%nat; to := 20%nat |} ]
  ∧ groupedUnder (inGroupsOf firstWireElsewhere) (refAt firstWireElsewhere 0)
      (refAt firstWireElsewhere 2).
Proof.
  split; [reflexivity|].
  destruct (proj1 (first_connection_decides_group firstWireElsewhere
                     (refAt firstWireElsewhere 2) 30%nat []
                     [ {| from := 30%nat; to := 20%nat |} ]
                     {| from := 30%nat; to := 40%nat |} eq_refl)) as [_ Hother].
  - in_list.
  - reflexivity.
  - reflexivity.
  - by intros c' ?%elem_of_nil.
  - apply (Hother (refAt firstWireElsewhere 3) (refAt firstWireElsewhere 0)).
    + in_list.
    + vm_compute. discriminate.
    + owns_at.
    + reflexivity.
Defined.
(** ** No node is written twice in a pass *)

Lemma Stacked_touchesOnly coord ext gap sz items L g g' :
  touchesOnly L g g' → (∀ a, a ∈ items → a.1 ∉ L) →
  Stacked coord ext gap sz items g → Stacked coord ext gap sz items g'.
Proof.
  intros Ht Hdisj. apply Stacked_frame. intros a Ha.
  eapply touchesOnly_positionOf; [exact Ht | by apply Hdisj].
Qed.

Lemma positionOf_same_node g g' (a : NodeRef) :
  nodes g' !! a.1 = nodes g !! a.1 → positionOf g' a = positionOf g a.
Proof. intros H. unfold positionOf. by rewrite H. Qed.

Lemma place_of_member (l : list NodeRef) (a : NodeRef) : a ∈ l → a.1 ∈ l.*1.
Proof. apply list_elem_of_fmap_2. Qed.

Lemma inputs_resources g a : a ∈ inputNodesOf g → a ∈ resources g.
Proof. intros H. by apply elem_of_inputs in H as [_ ?]. Qed.

Lemma outputs_resources g a : a ∈ outputNodesOf g → a ∈ resources g.
Proof. intros H. by apply elem_of_outputs in H as [_ ?]. Qed.

Lemma mechanisms_resources g a : a ∈ mechanismsIn g → a ∈ resources g.
Proof. intros H. by apply elem_of_mechanisms in H as [_ ?]. Qed.

Lemma resources_refs g a : a ∈ resources g → a ∈ refs g.
Proof. intros H. by apply elem_of_resources in H as [_ ?]. Qed.

Lemma processes_refs g a : a ∈ processes g → a ∈ refs g.
Proof. intros H. by apply elem_of_processes in H as [_ ?]. Qed.

Lemma secondaries_processes g a : a ∈ secondariesOf g → a ∈ processes g.
Proof. intros H. by apply elem_of_secondaries in H as [_ ?]. Qed.

Lemma places_resources_processes g i :
  i ∈ (resources g).*1 → i ∉ (processes g).*1.
Proof.
  apply (disjoint_places g); [apply resources_refs | apply processes_refs|].
  intros a Ha Hp. apply elem_of_resources in Ha as [Hr _].
  apply elem_of_processes in Hp as [Hp _]. by apply (process_not_resource a).
Qed.

Lemma places_inputs_outputs g i :
  i ∈ (inputNodesOf g).*1 → i ∉ (outputNodesOf g).*1.
Proof.
  apply (disjoint_places g).
  - intros a Ha. by apply resources_refs, inputs_resources.
  - intros a Ha. by apply resources_refs, outputs_resources.
  - intros a Ha Ho. apply elem_of_inputs in Ha as [Hi _].
    apply elem_of_outputs in Ho as [[Hni _] _]. done.
Qed.

Lemma places_inputs_mechanisms g i :
  i ∈ (inputNodesOf g).*1 → i ∉ (mechanismsIn g).*1.
Proof.
  apply (disjoint_places g).
  - intros a Ha. by apply resources_refs, inputs_resources.
  - intros a Ha. by apply resources_refs, mechanisms_resources.
  - intros a Ha Hm. apply elem_of_inputs in Ha as [Hi _].
    apply elem_of_mechanisms in Hm as [[Hni _] _]. done.
Qed.

Lemma places_outputs_mechanisms g i :
  i ∈ (outputNodesOf g).*1 → i ∉ (mechanismsIn g).*1.
Proof.
  apply (disjoint_places g).
  - intros a Ha. by apply resources_refs, outputs_resources.
  - intros a Ha. by apply resources_refs, mechanisms_resources.
  - intros a Ha Hm. apply elem_of_outputs in Ha as [[_ Ho] _].
    apply elem_of_mechanisms in Hm as [[_ Hno] _]. done.
Qed.

Lemma places_fmap_subseteq (l k : list NodeRef) i :
  (∀ a, a ∈ l → a ∈ k) → i ∈ l.*1 → i ∈ k.*1.
Proof.
  intros Hsub Hi. apply list_elem_of_fmap in Hi as (a & -> & Ha).
  by apply place_of_member, Hsub.
Qed.

Lemma places_inputs g i : i ∈ (inputNodesOf g).*1 → i ∈ (resources g).*1.
Proof. apply places_fmap_subseteq, inputs_resources. Qed.

Lemma places_outputs g i : i ∈ (outputNodesOf g).*1 → i ∈ (resources g).*1.
Proof. apply places_fmap_subseteq, outputs_resources. Qed.

Lemma places_mechanisms g i : i ∈ (mechanismsIn g).*1 → i ∈ (resources g).*1.
Proof. apply places_fmap_subseteq, mechanisms_resources. Qed.

Lemma places_secondaries g i : i ∈ (secondariesOf g).*1 → i ∈ (processes g).*1.
Proof. apply places_fmap_subseteq, secondaries_processes. Qed.

Lemma main_not_secondary g main :
  mainOf g = Some main → main.1 ∉ (secondariesOf g).*1.
Proof.
  intros Hmain Hin. apply list_elem_of_fmap in Hin as (a & Heq & Ha).
  apply elem_of_secondaries in Ha as [Hnot _].
  rewrite Hmain in Hnot. simpl in Hnot. apply Hnot. unfold sameNode. congruence.
Qed.

Lemma main_place_process g main : mainOf g = Some main → main.1 ∈ (processes g).*1.
Proof. intros H. by apply place_of_member, mainOf_process. Qed.

(** The members of a group are resources of its kind. *)
Lemma groupBy_places owner items i :
  i ∈ groupPlaces (groupBy owner items) → i ∈ items.*1.
Proof.
  unfold groupPlaces. intros Hi. apply elem_of_concat in Hi as (l & Hil & Hl).
  apply list_elem_of_fmap in Hl as ([key members] & -> & Hentry). simpl in Hil.
  apply groupBy_entry in Hentry as ->.
  eapply places_fmap_subseteq; [|exact Hil].
  intros a Ha. by apply list_elem_of_filter in Ha as [_ ?].
Qed.

Lemma groupsGet_places owner items o l i :
  groupsGet (groupBy owner items) o = Some l → i ∈ l.*1 → i ∈ items.*1.
Proof.
  intros Hget Hi. apply groupBy_get_Some in Hget as ->.
  eapply places_fmap_subseteq; [|exact Hi].
  intros a Ha. by apply list_elem_of_filter in Ha as [_ ?].
Qed.

Lemma inGroups_places g i : i ∈ groupPlaces (inGroupsOf g) → i ∈ (inputNodesOf g).*1.
Proof. apply groupBy_places. Qed.

Lemma outGroups_places g i : i ∈ groupPlaces (outGroupsOf g) → i ∈ (outputNodesOf g).*1.
Proof. apply groupBy_places. Qed.

Lemma validRefs_group g owner items key l :
  validRefs g items → groupsGet (groupBy owner items) key = Some l → validRefs g l.
Proof.
  intros Hv Hget. apply groupBy_get_Some in Hget as ->. by apply validRefs_filter.
Qed.

Lemma validRefs_entry g owner items key l :
  validRefs g items → (key, l) ∈ groupBy owner items → validRefs g l.
Proof.
  intros Hv Hentry. apply groupBy_entry in Hentry as ->. by apply validRefs_filter.
Qed.

(** No node is in the lists of two owners. *)
Lemma groupBy_NoDup_places g owner items :
  validRefs g items → NoDup (groupPlaces (groupBy owner items)).
Proof.
  intros Hv. unfold groupPlaces. apply NoDup_concat_fmap.
  - intros [key l] Hentry. simpl. by apply (validRefs_entry g owner items key l).
  - intros i i' [k1 l1] [k2 l2] a H1 H2 Ha1 Ha2. simpl in *.
    pose proof (list_elem_of_lookup_2 _ _ _ H1) as He1.
    pose proof (list_elem_of_lookup_2 _ _ _ H2) as He2.
    apply groupBy_entry in He1 as Hl1. apply groupBy_entry in He2 as Hl2. subst l1 l2.
    apply list_elem_of_fmap in Ha1 as (a1 & -> & Ha1).
    apply list_elem_of_fmap in Ha2 as (a2 & Heq & Ha2).
    apply list_elem_of_filter in Ha1 as [Ho1 Hin1].
    apply list_elem_of_filter in Ha2 as [Ho2 Hin2].
    destruct Hv as [Hnd Hrefs].
    assert (a1 = a2) as <- by (eapply refs_same; eauto).
    unfold ownedBy in Ho1, Ho2. destruct (owner a1) as [o|]; [|done].
    unfold sameNode in Ho1, Ho2.
    eapply (NoDup_lookup _ i i' k1.1); [apply (groupBy_keys_NoDup owner items)| |].
    + by rewrite !list_lookup_fmap, H1.
    + rewrite !list_lookup_fmap, H2. simpl. f_equal. congruence.
Qed.

(** ** Where a row starts *)

Lemma sumBy_snoc f sizes size : sumBy f (sizes ++ [size]) = sumBy f sizes + f size.
Proof. unfold sumBy. by rewrite foldl_snoc. Qed.

(** A row written by [stackLoop] from [rowStart] begins half its width
    to the left of [centre]. *)
Lemma stack_row_first py gap sz g centre items first :
  validRefs g items →
  head items = Some first →
  let final := (stackLoop (λ cur _, cur) py width gap g
                  (rowStart centre gap sz items) (sized sz items)).1 in
  let total := sumBy width (sz <$> items) + gapsOf (length items) gap in
  x (positionOf final first) = centre - total / 2.
Proof.
  intros Hv Hfirst final total.
  unfold final. rewrite (stack_kth _ _ _ _ _ _ _ _ 0%nat first Hv).
  - reflexivity.
  - by rewrite <- head_lookup.
Qed.
(** ** The landscape pass, stack by stack *)

Section LandscapeFinal.
Import LandscapeStages.

Variables (w : Window) (g : Graph).

Lemma resourceSize_structure g' node :
  structure g' = structure g → resourceSize w g' node = resourceSize w g node.
Proof. apply structure_getNodeSize. Qed.

Lemma processSize_structure g' node :
  structure g' = structure g → processSize w g' node = processSize w g node.
Proof. apply structure_getNodeSize. Qed.

(** A node that is neither a secondary process nor a mechanism keeps, to
    the end of the pass, the position it has after the output columns. *)
Lemma landscape_after_outputs (a : NodeRef) :
  a.1 ∉ (mechanismsIn g).*1 → a.1 ∉ (secondariesOf g).*1 →
  positionOf (finalStage w g) a = positionOf (outputStage w g).1.1 a.
Proof.
  intros Hm Hs.
  rewrite (touchesOnly_positionOf _ _ _ _ (landscape_finalStage_touchesOnly w g) Hs).
  by rewrite (touchesOnly_positionOf _ _ _ _ (landscape_mechanismStage_touchesOnly w g) Hm).
Qed.

Lemma input_place_kept (a : NodeRef) :
  a.1 ∈ (inputNodesOf g).*1 →
  positionOf (finalStage w g) a = positionOf (inputStage w g).1 a.
Proof.
  intros Ha. rewrite landscape_after_outputs.
  - apply (touchesOnly_positionOf _ _ _ _ (landscape_outputStage_touchesOnly w g)).
    intros Hout. by apply outGroups_places, places_inputs_outputs in Hout.
  - by apply places_inputs_mechanisms.
  - intros Hs. apply places_secondaries in Hs.
    by apply places_inputs, places_resources_processes in Ha.
Qed.

Lemma output_place_kept (a : NodeRef) :
  a.1 ∈ (outputNodesOf g).*1 →
  positionOf (finalStage w g) a = positionOf (outputStage w g).1.1 a.
Proof.
  intros Ha. apply landscape_after_outputs.
  - by apply places_outputs_mechanisms.
  - intros Hs. apply places_secondaries in Hs.
    by apply places_outputs, places_resources_processes in Ha.
Qed.

Lemma mechanism_place_kept (a : NodeRef) :
  a.1 ∈ (mechanismsIn g).*1 →
  positionOf (finalStage w g) a = positionOf (mechanismStage w g) a.
Proof.
  intros Ha.
  apply (touchesOnly_positionOf _ _ _ _ (landscape_finalStage_touchesOnly w g)).
  intros Hs. apply places_secondaries in Hs.
  by apply places_mechanisms, places_resources_processes in Ha.
Qed.

Lemma main_place_kept main :
  mainOf g = Some main →
  positionOf (finalStage w g) main = positionOf (afterMain w g) main.
Proof.
  intros Hmain.
  assert (main.1 ∉ (resources g).*1) as Hres.
  { intros Hr. apply places_resources_processes in Hr. apply Hr.
    by apply main_place_process. }
  rewrite landscape_after_outputs.
  - rewrite (touchesOnly_positionOf _ _ _ _ (landscape_outputStage_touchesOnly w g)).
    + apply (touchesOnly_positionOf _ _ _ _ (landscape_inputStage_touchesOnly w g)).
      intros Hin. by apply Hres, places_inputs, inGroups_places.
    + intros Hout. by apply Hres, places_outputs, outGroups_places.
  - intros Hm. by apply Hres, places_mechanisms.
  - by apply main_not_secondary.
Qed.

(** The columns of the input groups. *)
Lemma landscape_input_column owner items :
  (owner, items) ∈ inGroupsOf g →
  Stacked y height Landscape.verticalGap (resourceSize w g) items (finalStage w g).
Proof.
  intros Hentry.
  pose proof (validRefs_entry g _ _ _ _ (validRefs_inputs g) Hentry) as Hv.
  apply list_elem_of_lookup in Hentry as Hi. destruct Hi as [i Hi].
  destruct (foldl_place_kept
              (λ g0 (entry : NodeRef * list NodeRef),
                 (Landscape.placeLeftOfProcess w (processTop w g) g0 entry.1 entry.2).1)
              (λ entry, entry.2.*1)
              (λ g0 entry, placeLeftOfProcess_touchesOnly w _ g0 entry.1 entry.2)
              (inGroupsOf g) (afterMain w g) i (owner, items))
    as (gi & Hgi & Hkept); [apply (groupBy_NoDup_places g), validRefs_inputs | exact Hi |].
  simpl in Hkept. rewrite <- placeInputColumns_graph in Hkept. fold (inputStage w g) in Hkept.
  assert (structure gi = structure g) as Hsi.
  { rewrite (touchesOnly_structure _ _ _ Hgi). apply landscape_afterMain_structure. }
  apply (Stacked_frame _ _ _ _ _ (inputStage w g).1).
  { intros a Ha. apply input_place_kept.
    apply place_of_member in Ha. eapply places_fmap_subseteq; [|exact Ha].
    intros b Hb. apply groupBy_entry in Hentry. subst items.
    by apply list_elem_of_filter in Hb as [_ ?]. }
  apply (Stacked_frame _ _ _ _ _
           (Landscape.placeLeftOfProcess w (processTop w g) gi owner items).1).
  { intros a Ha. apply positionOf_same_node, Hkept. by apply place_of_member. }
  rewrite placeLeftOfProcess_stack.
  apply (Stacked_ext _ _ _ (resourceSize w gi)).
  { intros a. by apply resourceSize_structure. }
  apply stack_Stacked_y. by apply (validRefs_structure g).
Qed.

(** The columns of the output groups. *)
Lemma landscape_output_column owner items :
  (owner, items) ∈ outGroupsOf g →
  Stacked y height Landscape.verticalGap (resourceSize w g) items (finalStage w g).
Proof.
  intros Hentry.
  pose proof (validRefs_entry g _ _ _ _ (validRefs_outputs g) Hentry) as Hv.
  apply list_elem_of_lookup in Hentry as Hi. destruct Hi as [i Hi].
  destruct (foldl_place_kept
              (λ g0 (entry : NodeRef * list NodeRef),
                 (Landscape.placeRightOfProcess w (processRight w g) (processTop w g)
                    g0 entry.1 entry.2).1)
              (λ entry, entry.2.*1)
              (λ g0 entry, placeRightOfProcess_touchesOnly w _ _ g0 entry.1 entry.2)
              (outGroupsOf g) (inputStage w g).1 i (owner, items))
    as (gi & Hgi & Hkept); [apply (groupBy_NoDup_places g), validRefs_outputs | exact Hi |].
  simpl in Hkept. rewrite <- placeOutputColumns_graph in Hkept.
  fold (outputStage w g) in Hkept.
  assert (structure gi = structure g) as Hsi.
  { rewrite (touchesOnly_structure _ _ _ Hgi). apply landscape_inputStage_structure. }
  apply (Stacked_frame _ _ _ _ _ (outputStage w g).1.1).
  { intros a Ha. apply output_place_kept.
    apply place_of_member in Ha. eapply places_fmap_subseteq; [|exact Ha].
    intros b Hb. apply groupBy_entry in Hentry. subst items.
    by apply list_elem_of_filter in Hb as [_ ?]. }
  apply (Stacked_frame _ _ _ _ _
           (Landscape.placeRightOfProcess w (processRight w g) (processTop w g)
              gi owner items).1).
  { intros a Ha. apply positionOf_same_node, Hkept. by apply place_of_member. }
  rewrite placeRightOfProcess_stack.
  apply (Stacked_ext _ _ _ (resourceSize w gi)).
  { intros a. by apply resourceSize_structure. }
  apply stack_Stacked_y. by apply (validRefs_structure g).
Qed.

(** The row of mechanisms. *)
Lemma landscape_mechanism_row :
  Stacked x width Landscape.mechanismGap (resourceSize w g) (mechanismsIn g)
    (finalStage w g).
Proof.
  apply (Stacked_frame _ _ _ _ _ (mechanismStage w g)).
  { intros a Ha. by apply mechanism_place_kept, place_of_member. }
  unfold mechanismStage. rewrite placeMechanismRow_stack.
  apply (Stacked_ext _ _ _ (resourceSize w (outputStage w g).1.1)).
  { intros a. apply resourceSize_structure, landscape_outputStage_structure. }
  apply stack_Stacked_x.
  apply (validRefs_structure g); [apply landscape_outputStage_structure|].
  apply validRefs_mechanisms.
Qed.

(** The row of mechanisms starts half its width to the left of
    [centerX]. *)
Lemma landscape_mechanism_row_first first :
  head (mechanismsIn g) = Some first →
  x (positionOf (finalStage w g) first)
  = centerXOf w g
    - (sumBy width (resourceSize w g <$> mechanismsIn g)
       + gapsOf (length (mechanismsIn g)) Landscape.mechanismGap) / 2.
Proof.
  intros Hfirst.
  rewrite mechanism_place_kept by (by apply place_of_member, head_Some_elem_of).
  assert (structure (outputStage w g).1.1 = structure g) as Hs
    by apply landscape_outputStage_structure.
  pose proof (stack_row_first (λ _ _, bottomRowY w g) Landscape.mechanismGap
                (resourceSize w (outputStage w g).1.1) (outputStage w g).1.1
                (centerXOf w g) (mechanismsIn g) first
                (validRefs_structure g _ _ Hs (validRefs_mechanisms g))
                Hfirst) as Hext.
  cbv zeta in Hext. unfold mechanismStage. rewrite placeMechanismRow_stack.
  rewrite (list_fmap_ext (resourceSize w (outputStage w g).1.1) (resourceSize w g)
             (mechanismsIn g)) in Hext
    by (intros; by apply resourceSize_structure).
  exact Hext.
Qed.

(** The main process is centred on the view. *)
Lemma landscape_main_position main :
  mainOf g = Some main →
  positionOf (finalStage w g) main
  = {| x := centerXOf w g - width (processSize w g main) / 2;
       y := centerYOf w g - height (processSize w g main) / 2 - 40 |}.
Proof.
  intros Hmain. rewrite (main_place_kept main Hmain).
  unfold afterMain. rewrite Hmain. simpl.
  apply positionOf_setPos. by apply refs_lt, processes_refs, mainOf_process.
Qed.

End LandscapeFinal.

(** ** The portrait pass, stack by stack *)

Lemma groupOf_filter owner items o :
  default [] (groupsGet (groupBy owner items) o) = filter (ownedBy owner o) items.
Proof. rewrite groupBy_get. by destruct (filter (ownedBy owner o) items). Qed.

Lemma groupOf_disjoint g owner items o1 o2 i :
  validRefs g items → ¬ sameNode o1 o2 →
  i ∈ (default [] (groupsGet (groupBy owner items) o1)).*1 →
  i ∉ (default [] (groupsGet (groupBy owner items) o2)).*1.
Proof.
  intros [Hnd Hrefs] Hne. rewrite !groupOf_filter. intros H1 H2.
  apply list_elem_of_fmap in H1 as (a1 & -> & Ha1).
  apply list_elem_of_fmap in H2 as (a2 & Heq & Ha2).
  apply list_elem_of_filter in Ha1 as [Ho1 Hin1].
  apply list_elem_of_filter in Ha2 as [Ho2 Hin2].
  assert (a1 = a2) as <- by (eapply refs_same; eauto).
  unfold ownedBy in Ho1, Ho2. destruct (owner a1) as [o|]; [|done].
  unfold sameNode in *. congruence.
Qed.

Lemma groupOf_places owner items o i :
  i ∈ (default [] (groupsGet (groupBy owner items) o)).*1 → i ∈ items.*1.
Proof.
  rewrite groupOf_filter. apply places_fmap_subseteq.
  intros a Ha. by apply list_elem_of_filter in Ha as [_ ?].
Qed.

Lemma validRefs_groupOf g owner items o :
  validRefs g items → validRefs g (default [] (groupsGet (groupBy owner items) o)).
Proof. intros Hv. rewrite groupOf_filter. by apply validRefs_filter. Qed.

Section PortraitFinal.
Import PortraitStages.

Variables (w : Window) (g : Graph).

Definition inGroupOf (owner : NodeRef) : list NodeRef :=
  default [] (groupsGet (inGroupsOf g) owner).
Definition outGroupOf (owner : NodeRef) : list NodeRef :=
  default [] (groupsGet (outGroupsOf g) owner).

Lemma inGroupOf_places owner i : i ∈ (inGroupOf owner).*1 → i ∈ (inputNodesOf g).*1.
Proof. apply groupOf_places. Qed.

Lemma outGroupOf_places owner i : i ∈ (outGroupOf owner).*1 → i ∈ (outputNodesOf g).*1.
Proof. apply groupOf_places. Qed.

Lemma validRefs_inGroupOf owner : validRefs g (inGroupOf owner).
Proof. apply validRefs_groupOf, validRefs_inputs. Qed.

Lemma validRefs_outGroupOf owner : validRefs g (outGroupOf owner).
Proof. apply validRefs_groupOf, validRefs_outputs. Qed.

Lemma mainGroup_in main : mainOf g = Some main → mainGroup g (inGroupsOf g) = inGroupOf main.
Proof. intros H. unfold mainGroup. by rewrite H. Qed.

Lemma mainGroup_out main :
  mainOf g = Some main → mainGroup g (outGroupsOf g) = outGroupOf main.
Proof. intros H. unfold mainGroup. by rewrite H. Qed.

Lemma mainGroup_in_places i :
  i ∈ (mainGroup g (inGroupsOf g)).*1 → i ∈ (inputNodesOf g).*1.
Proof.
  unfold mainGroup. destruct (mainOf g); [apply inGroupOf_places|].
  by intros ?%elem_of_nil.
Qed.

Lemma mainGroup_out_places i :
  i ∈ (mainGroup g (outGroupsOf g)).*1 → i ∈ (outputNodesOf g).*1.
Proof.
  unfold mainGroup. destruct (mainOf g); [apply outGroupOf_places|].
  by intros ?%elem_of_nil.
Qed.

Lemma secondaryItems_split node i :
  i ∈ (secondaryItems g node).*1 ↔ i ∈ (outGroupOf node).*1 ∨ i ∈ (inGroupOf node).*1.
Proof. unfold secondaryItems. by rewrite fmap_app, elem_of_app. Qed.

(** The places the sub-layouts of the secondary processes write. *)
Lemma secondary_items_places i :
  i ∈ concat ((λ node, (secondaryItems g node).*1) <$> secondariesOf g) →
  ∃ node, node ∈ secondariesOf g
          ∧ (i ∈ (outGroupOf node).*1 ∨ i ∈ (inGroupOf node).*1).
Proof.
  intros Hi. apply elem_of_concat in Hi as (l & Hil & Hl).
  apply list_elem_of_fmap in Hl as (node & -> & Hnode).
  exists node. split; [done|]. by apply secondaryItems_split.
Qed.

Lemma secondaryPlaces_split i :
  i ∈ secondaryPlaces g →
  i ∈ (secondariesOf g).*1
  ∨ ∃ node, node ∈ secondariesOf g
            ∧ (i ∈ (outGroupOf node).*1 ∨ i ∈ (inGroupOf node).*1).
Proof.
  unfold secondaryPlaces. rewrite elem_of_app.
  intros [?|Hi]; [by left|]. right. by apply secondary_items_places.
Qed.

Lemma secondary_not_main main node :
  mainOf g = Some main → node ∈ secondariesOf g → ¬ sameNode main node.
Proof.
  intros Hmain Hnode Hsame. apply elem_of_secondaries in Hnode as [Hnot _].
  rewrite Hmain in Hnot. simpl in Hnot. apply Hnot. unfold sameNode in *. congruence.
Qed.

(** Resources keep what a stage gave them when the later stages write
    other resources. *)
Lemma resource_not_secondary i :
  i ∈ (resources g).*1 → i ∉ (secondariesOf g).*1.
Proof.
  intros Hr Hs. apply places_secondaries in Hs.
  by apply places_resources_processes in Hr.
Qed.

Lemma portrait_main_input_kept (a : NodeRef) :
  a.1 ∈ (mainGroup g (inGroupsOf g)).*1 →
  positionOf (finalStage w g) a = positionOf (inputStage w g) a.
Proof.
  intros Ha. pose proof (mainGroup_in_places _ Ha) as Hin.
  rewrite (touchesOnly_positionOf _ _ _ _ (portrait_finalStage_touchesOnly w g))
    by (by apply places_inputs_mechanisms).
  rewrite (touchesOnly_positionOf _ _ _ _ (portrait_secondaryStage_touchesOnly w g)).
  - apply (touchesOnly_positionOf _ _ _ _ (portrait_outputStage_touchesOnly w g)).
    intros Hout. by apply mainGroup_out_places, places_inputs_outputs in Hout.
  - intros [Hs|(node & Hnode & [Ho|Hi])]%secondaryPlaces_split.
    + by apply (resource_not_secondary a.1); [apply places_inputs|].
    + by apply outGroupOf_places, places_inputs_outputs in Ho.
    + unfold mainGroup in Ha. destruct (mainOf g) as [main|] eqn:Hmain;
        [|by apply elem_of_nil in Ha].
      eapply (groupOf_disjoint g); [apply validRefs_inputs| |exact Ha|exact Hi].
      by apply secondary_not_main.
Qed.

Lemma portrait_main_output_kept (a : NodeRef) :
  a.1 ∈ (mainGroup g (outGroupsOf g)).*1 →
  positionOf (finalStage w g) a = positionOf (outputStage w g) a.
Proof.
  intros Ha. pose proof (mainGroup_out_places _ Ha) as Hout.
  rewrite (touchesOnly_positionOf _ _ _ _ (portrait_finalStage_touchesOnly w g))
    by (by apply places_outputs_mechanisms).
  apply (touchesOnly_positionOf _ _ _ _ (portrait_secondaryStage_touchesOnly w g)).
  intros [Hs|(node & Hnode & [Ho|Hi])]%secondaryPlaces_split.
  - by apply (resource_not_secondary a.1); [apply places_outputs|].
  - unfold mainGroup in Ha. destruct (mainOf g) as [main|] eqn:Hmain;
      [|by apply elem_of_nil in Ha].
    eapply (groupOf_disjoint g); [apply validRefs_outputs| |exact Ha|exact Ho].
    by apply secondary_not_main.
  - by apply inGroupOf_places, places_inputs_outputs in Hi.
Qed.

Lemma portrait_main_kept main :
  mainOf g = Some main →
  positionOf (finalStage w g) main = positionOf (afterMain w g) main.
Proof.
  intros Hmain.
  assert (main.1 ∉ (resources g).*1) as Hres.
  { intros Hr. apply places_resources_processes in Hr. apply Hr.
    by apply main_place_process. }
  rewrite (touchesOnly_positionOf _ _ _ _ (portrait_finalStage_touchesOnly w g))
    by (intros Hm; by apply Hres, places_mechanisms).
  rewrite (touchesOnly_positionOf _ _ _ _ (portrait_secondaryStage_touchesOnly w g)).
  - rewrite (touchesOnly_positionOf _ _ _ _ (portrait_outputStage_touchesOnly w g))
      by (intros H; by apply Hres, places_outputs, mainGroup_out_places).
    apply (touchesOnly_positionOf _ _ _ _ (portrait_inputStage_touchesOnly w g)).
    intros H. by apply Hres, places_inputs, mainGroup_in_places.
  - intros [Hs|(node & Hnode & [Ho|Hi])]%secondaryPlaces_split.
    + by apply (main_not_secondary g main).
    + apply Hres. by eapply places_outputs, outGroupOf_places.
    + apply Hres. by eapply places_inputs, inGroupOf_places.
Qed.

Lemma portrait_main_position main :
  mainOf g = Some main →
  positionOf (finalStage w g) main
  = {| x := centerXOf w g - width (processSize w g main) / 2;
       y := centerYOf w g - height (processSize w g main) / 2 - 20 |}.
Proof.
  intros Hmain. rewrite (portrait_main_kept main Hmain).
  unfold afterMain. rewrite Hmain. simpl.
  apply positionOf_setPos. by apply refs_lt, processes_refs, mainOf_process.
Qed.

(** The rows of the main process. *)
Lemma portrait_main_input_row :
  Stacked x width Portrait.rowGap (resourceSize w g) (mainGroup g (inGroupsOf g))
    (finalStage w g).
Proof.
  apply (Stacked_frame _ _ _ _ _ (inputStage w g)).
  { intros a Ha. by apply portrait_main_input_kept, place_of_member. }
  unfold inputStage, inputMetrics, Portrait.getRowMetrics.
  rewrite (placeRowFromMetrics_stack (afterMain w g)
             (λ node, getNodeSize w (afterMain w g) node resourceFallback)).
  apply (Stacked_ext _ _ _ (resourceSize w (afterMain w g))).
  { intros a. apply (resourceSize_structure w g), portrait_afterMain_structure. }
  apply stack_Stacked_x.
  apply (validRefs_structure g); [apply portrait_afterMain_structure|].
  unfold mainGroup. destruct (mainOf g); [apply validRefs_inGroupOf|].
  split; [apply NoDup_nil_2 | by intros a ?%elem_of_nil].
Qed.

Lemma portrait_main_output_row :
  Stacked x width Portrait.rowGap (resourceSize w g) (mainGroup g (outGroupsOf g))
    (finalStage w g).
Proof.
  apply (Stacked_frame _ _ _ _ _ (outputStage w g)).
  { intros a Ha. by apply portrait_main_output_kept, place_of_member. }
  unfold outputStage, outputMetrics, Portrait.getRowMetrics.
  rewrite (placeRowFromMetrics_stack (inputStage w g)
             (λ node, getNodeSize w (inputStage w g) node resourceFallback)).
  apply (Stacked_ext _ _ _ (resourceSize w (inputStage w g))).
  { intros a. apply (resourceSize_structure w g), portrait_inputStage_structure. }
  apply stack_Stacked_x.
  apply (validRefs_structure g); [apply portrait_inputStage_structure|].
  unfold mainGroup. destruct (mainOf g); [apply validRefs_outGroupOf|].
  split; [apply NoDup_nil_2 | by intros a ?%elem_of_nil].
Qed.

(** The column of mechanisms, and where it stands. *)
Lemma portrait_mechanism_column :
  Stacked y height Portrait.columnGap (resourceSize w g) (mechanismsIn g)
    (finalStage w g).
Proof.
  unfold finalStage. rewrite placeColumnRight_stack.
  apply (Stacked_ext _ _ _ (resourceSize w (secondaryStage w g))).
  { intros a. apply (resourceSize_structure w g), portrait_secondaryStage_structure. }
  apply stack_Stacked_y.
  apply (validRefs_structure g); [apply portrait_secondaryStage_structure|].
  apply validRefs_mechanisms.
Qed.


Lemma secondaryItems_NoDup node : NoDup (secondaryItems g node).*1.
Proof.
  unfold secondaryItems. rewrite fmap_app. apply NoDup_app.
  split; [apply (validRefs_outGroupOf node)|].
  split; [|apply (validRefs_inGroupOf node)].
  intros i Ho Hi. apply outGroupOf_places in Ho. apply inGroupOf_places in Hi.
  by apply places_inputs_outputs in Hi.
Qed.

Lemma secondary_items_NoDup :
  NoDup (concat ((λ node, (secondaryItems g node).*1) <$> secondariesOf g)).
Proof.
  apply NoDup_concat_fmap; [intros node _; apply secondaryItems_NoDup|].
  intros i i' j j' a Hj Hj' Ha Ha'.
  destruct (decide (i = i')) as [|Hne]; [done|]. exfalso.
  assert (¬ sameNode j j') as Hdiff.
  { unfold sameNode. intros Heq. apply Hne.
    eapply (NoDup_lookup (secondariesOf g).*1 i i' j.1);
      [apply (validRefs_secondaries g)| |].
    - rewrite list_lookup_fmap. exact (f_equal (fmap fst) Hj).
    - rewrite list_lookup_fmap. rewrite Heq. exact (f_equal (fmap fst) Hj'). }
  apply secondaryItems_split in Ha as [Ho|Hi];
    apply secondaryItems_split in Ha' as [Ho'|Hi'].
  - by eapply (groupOf_disjoint g); [apply validRefs_outputs|exact Hdiff|exact Ho|].
  - apply outGroupOf_places in Ho. apply inGroupOf_places in Hi'.
    by apply places_inputs_outputs in Hi'.
  - apply outGroupOf_places in Ho'. apply inGroupOf_places in Hi.
    by apply places_inputs_outputs in Hi.
  - by eapply (groupOf_disjoint g); [apply validRefs_inputs|exact Hdiff|exact Hi|].
Qed.

(** After the sub-layouts of the secondary processes, only the mechanisms
    are written. *)
Lemma portrait_resource_kept (a : NodeRef) :
  a.1 ∉ (mechanismsIn g).*1 →
  positionOf (finalStage w g) a = positionOf (secondaryStage w g) a.
Proof. apply (touchesOnly_positionOf _ _ _ _ (portrait_finalStage_touchesOnly w g)). Qed.

(** The rows of a secondary process. *)
Lemma portrait_secondary_rows node :
  node ∈ secondariesOf g →
  Stacked x width Portrait.rowGap (resourceSize w g) (outGroupOf node) (finalStage w g)
  ∧ Stacked x width Portrait.rowGap (resourceSize w g) (inGroupOf node) (finalStage w g).
Proof.
  intros Hnode. apply list_elem_of_lookup in Hnode as Hi. destruct Hi as [i Hi].
  unfold finalStage.
  assert (∃ g0, structure g0 = structure g
                ∧ secondaryStage w g
                  = foldl (Portrait.placeSecondaryGroups w (inGroupsOf g) (outGroupsOf g))
                      g0 (secondariesOf g)) as (g0 & Hs0 & Hfold).
  { unfold secondaryStage, Portrait.placeSecondaryRow.
    destruct (secondariesOf g) as [|s l] eqn:Hsec; [by rewrite lookup_nil in Hi|].
    eexists. split; [|reflexivity].
    rewrite (touchesOnly_structure _ _ _
               (placeRowFromMetrics_touchesOnly w _ _ _ _ _ _)).
    apply portrait_outputStage_structure. }
  destruct (foldl_place_kept
              (Portrait.placeSecondaryGroups w (inGroupsOf g) (outGroupsOf g))
              (λ node, (secondaryItems g node).*1)
              (placeSecondaryGroups_touchesOnly w g)
              (secondariesOf g) g0 i node secondary_items_NoDup Hi)
    as (gi & Hgi & Hkept).
  rewrite <- Hfold in Hkept.
  assert (structure gi = structure g) as Hsi.
  { by rewrite (touchesOnly_structure _ _ _ Hgi). }
  fold (finalStage w g).
  set (procX := x (positionOf gi node) + width (getNodeSize w gi node processFallback) / 2)
    in *.
  set (procY := y (positionOf gi node) + height (getNodeSize w gi node processFallback) / 2)
    in *.
  set (outY := procY + height (getNodeSize w gi node processFallback) / 2
               + Portrait.offsetFromProcess).
  set (gOut := Portrait.placeRowFromMetrics gi (outGroupOf node)
                 (Portrait.getRowMetrics w gi (outGroupOf node) resourceFallback)
                 procX outY).
  assert (structure gOut = structure g) as HsOut.
  { unfold gOut.
    by rewrite (touchesOnly_structure _ _ _
                  (placeRowFromMetrics_touchesOnly w _ _ _ _ _ _)). }
  set (inY := procY - height (getNodeSize w gi node processFallback) / 2
              - Portrait.offsetFromProcess
              - Portrait.maxHeight
                  (Portrait.getRowMetrics w gOut (inGroupOf node) resourceFallback)).
  assert (Portrait.placeSecondaryGroups w (inGroupsOf g) (outGroupsOf g) gi node
          = Portrait.placeRowFromMetrics gOut (inGroupOf node)
              (Portrait.getRowMetrics w gOut (inGroupOf node) resourceFallback)
              procX inY) as Hplace by reflexivity.
  rewrite Hplace in Hkept.
  split.
  - apply (Stacked_frame _ _ _ _ _ gOut).
    { intros a Ha. apply place_of_member in Ha.
      rewrite portrait_resource_kept
        by (by apply places_outputs_mechanisms, (outGroupOf_places node)).
      rewrite (positionOf_same_node _ _ a (Hkept a.1 ltac:(apply secondaryItems_split; by left))).
      apply (touchesOnly_positionOf _ _ _ _
               (placeRowFromMetrics_touchesOnly w _ _ _ _ _ _)).
      intros Hin. apply inGroupOf_places in Hin. apply outGroupOf_places in Ha.
      by apply places_inputs_outputs in Hin. }
    unfold gOut, Portrait.getRowMetrics.
    rewrite (placeRowFromMetrics_stack gi
               (λ node, getNodeSize w gi node resourceFallback)).
    apply (Stacked_ext _ _ _ (resourceSize w gi)).
    { intros a. by apply (resourceSize_structure w g). }
    apply stack_Stacked_x. apply (validRefs_structure g); [done|].
    apply validRefs_outGroupOf.
  - apply (Stacked_frame _ _ _ _ _
             (Portrait.placeRowFromMetrics gOut (inGroupOf node)
                (Portrait.getRowMetrics w gOut (inGroupOf node) resourceFallback)
                procX inY)).
    { intros a Ha. apply place_of_member in Ha.
      rewrite portrait_resource_kept
        by (by apply places_inputs_mechanisms, (inGroupOf_places node)).
      apply positionOf_same_node, Hkept. apply secondaryItems_split. by right. }
    unfold Portrait.getRowMetrics.
    rewrite (placeRowFromMetrics_stack gOut
               (λ node, getNodeSize w gOut node resourceFallback)).
    apply (Stacked_ext _ _ _ (resourceSize w gOut)).
    { intros a. by apply (resourceSize_structure w g). }
    apply stack_Stacked_x. apply (validRefs_structure g); [done|].
    apply validRefs_inGroupOf.
Qed.

(** Every process is the main process or a secondary one. *)
Lemma process_main_or_secondary owner :
  owner ∈ processes g →
  (∃ main, mainOf g = Some main ∧ owner = main) ∨ owner ∈ secondariesOf g.
Proof.
  intros Howner. destruct (mainOf g) as [main|] eqn:Hmain.
  - destruct (decide (sameNode owner main)) as [Hsame|Hdiff].
    + left. exists main. split; [done|].
      eapply refs_same; [by apply processes_refs| |exact Hsame].
      by apply processes_refs, mainOf_process.
    + right. apply elem_of_secondaries. rewrite Hmain. by split.
  - right. apply elem_of_secondaries. rewrite Hmain. by split.
Qed.

(** The rows of the input and output groups of every process. *)
Lemma portrait_rows owner :
  owner ∈ processes g →
  Stacked x width Portrait.rowGap (resourceSize w g) (outGroupOf owner) (finalStage w g)
  ∧ Stacked x width Portrait.rowGap (resourceSize w g) (inGroupOf owner) (finalStage w g).
Proof.
  intros Howner.
  destruct (process_main_or_secondary owner Howner) as [(main & Hmain & ->)|Hsec].
  - rewrite <- (mainGroup_in main Hmain), <- (mainGroup_out main Hmain).
    split; [apply portrait_main_output_row | apply portrait_main_input_row].
  - by apply portrait_secondary_rows.
Qed.

(** The rows of the main process start half their width to the left of
    its centre. *)
Lemma portrait_main_row_first main first :
  mainOf g = Some main →
  let final := finalStage w g in
  let centre := x (positionOf final main) + width (processSize w g main) / 2 in
  let total items := sumBy width (resourceSize w g <$> items)
                     + gapsOf (length items) Portrait.rowGap in
  (head (inGroupOf main) = Some first →
   x (positionOf final first) = centre - total (inGroupOf main) / 2)
  ∧ (head (outGroupOf main) = Some first →
     x (positionOf final first) = centre - total (outGroupOf main) / 2).
Proof.
  intros Hmain final centre total.
  assert (processX w g = centre) as HpX.
  { unfold processX, processRect, centre, final. rewrite Hmain.
    rewrite (portrait_main_kept main Hmain).
    by rewrite (structure_getNodeSize w g _ main _ (portrait_afterMain_structure w g)). }
  split; intros Hfirst.
  - unfold final.
    rewrite !portrait_main_input_kept
      by (rewrite (mainGroup_in main Hmain); by apply place_of_member, head_Some_elem_of).
    assert (structure (afterMain w g) = structure g) as Hs
      by apply portrait_afterMain_structure.
    pose proof (stack_row_first (λ _ _, inputRowY w g) Portrait.rowGap
                  (resourceSize w (afterMain w g)) (afterMain w g)
                  (processX w g) (inGroupOf main) first
                  (validRefs_structure g _ _ Hs (validRefs_inGroupOf main))
                  Hfirst) as Hext.
    cbv zeta in Hext.
    unfold inputStage, inputMetrics, Portrait.getRowMetrics.
    rewrite (mainGroup_in main Hmain).
    rewrite (placeRowFromMetrics_stack (afterMain w g)
               (λ node, getNodeSize w (afterMain w g) node resourceFallback)).
    rewrite (list_fmap_ext (resourceSize w (afterMain w g)) (resourceSize w g)
               (inGroupOf main)) in Hext
      by (intros; by apply (resourceSize_structure w g)).
    rewrite HpX in Hext |- *. exact Hext.
  - unfold final.
    rewrite !portrait_main_output_kept
      by (rewrite (mainGroup_out main Hmain); by apply place_of_member, head_Some_elem_of).
    assert (structure (inputStage w g) = structure g) as Hs
      by apply portrait_inputStage_structure.
    pose proof (stack_row_first (λ _ _, outputRowY w g) Portrait.rowGap
                  (resourceSize w (inputStage w g)) (inputStage w g)
                  (processX w g) (outGroupOf main) first
                  (validRefs_structure g _ _ Hs (validRefs_outGroupOf main))
                  Hfirst) as Hext.
    cbv zeta in Hext.
    unfold outputStage, outputMetrics, Portrait.getRowMetrics.
    rewrite (mainGroup_out main Hmain).
    rewrite (placeRowFromMetrics_stack (inputStage w g)
               (λ node, getNodeSize w (inputStage w g) node resourceFallback)).
    rewrite (list_fmap_ext (resourceSize w (inputStage w g)) (resourceSize w g)
               (outGroupOf main)) in Hext
      by (intros; by apply (resourceSize_structure w g)).
    rewrite HpX in Hext |- *. exact Hext.
Qed.



End PortraitFinal.

(** ** The claims about the placement *)

Lemma autoArrangeNodes_landscape w g :
  nodes g ≠ [] → isPortrait w = false →
  autoArrangeNodes w g = LandscapeStages.finalStage w g.
Proof.
  intros Hne Hl. rewrite autoArrangeNodes_stages, Hl. by destruct (nodes g).
Qed.

Lemma autoArrangeNodes_portrait w g :
  nodes g ≠ [] → isPortrait w = true →
  autoArrangeNodes w g = PortraitStages.finalStage w g.
Proof.
  intros Hne Hp. rewrite autoArrangeNodes_stages, Hp. by destruct (nodes g).
Qed.

Lemma refs_nonempty g a : a ∈ refs g → nodes g ≠ [].
Proof.
  unfold refs. intros Hin Hnil. rewrite Hnil in Hin. by apply elem_of_nil in Hin.
Qed.

Lemma lookup_refs_nonempty g (items : list NodeRef) k a :
  (∀ b, b ∈ items → b ∈ refs g) → items !! k = Some a → nodes g ≠ [].
Proof.
  intros Hsub Hk. apply (refs_nonempty g a), Hsub.
  by eapply list_elem_of_lookup_2.
Qed.

Lemma group_members_refs g owner items key l :
  validRefs g items → groupsGet (groupBy owner items) key = Some l →
  ∀ b, b ∈ l → b ∈ refs g.
Proof. intros Hv Hget. by apply (validRefs_group g owner items key l). Qed.

(** *** C1: a second pass *)

Definition placeOf (g : Graph) (i : nat) : float * float :=
  (x (positionOf g (refAt g i)), y (positionOf g (refAt g i))).

(** C1 fails in landscape mode.  The process "Second" owns an output.  The
    first pass puts that output next to the place "Second" had before the
    pass and then moves "Second"; the second pass moves both again, and so
    does the third.  Nothing but positions differs between the graphs. *)
Theorem landscape_pass_drifts :
  let once := autoArrangeNodes wideWindow twoProcesses in
  let twice := autoArrangeNodes wideWindow once in
  let thrice := autoArrangeNodes wideWindow twice in
  isPortrait wideWindow = false
  ∧ structure once = structure twoProcesses
  ∧ structure twice = structure twoProcesses
  ∧ placeOf once 1 = (1440, 320) ∧ placeOf once 7 = (420, 30)
  ∧ placeOf twice 1 = (2180, 320) ∧ placeOf twice 7 = (1860, 350)
  ∧ placeOf thrice 1 = (2920, 320) ∧ placeOf thrice 7 = (2600, 350)
  ∧ x (positionOf twice (refAt twoProcesses 1))
    ≠ x (positionOf once (refAt twoProcesses 1)).
Proof.
  intros once twice thrice.
  split; [reflexivity|].
  split; [apply autoArrangeNodes_structure|].
  split; [unfold twice; rewrite autoArrangeNodes_structure;
          apply autoArrangeNodes_structure|].
  repeat (split; [by vm_compute|]).
  intros H. apply (f_equal (λ c, c =? 1440)) in H. vm_compute in H. discriminate H.
Qed.

(** In portrait mode the same diagram is at rest after one pass. *)
Example portrait_pass_at_rest :
  let once := autoArrangeNodes tallWindow twoProcesses in
  isPortrait tallWindow = true
  ∧ (placeOf once <$> seq 0 8)
    = [(250, 490); (250, 1190); (140, 190); (360, 190); (140, 850); (360, 850);
       (650, 520); (250, 1550)]
  ∧ (placeOf (autoArrangeNodes tallWindow once) <$> seq 0 8) = (placeOf once <$> seq 0 8).
Proof. repeat split; by vm_compute. Qed.

(** ** The portrait pass is at rest after one pass *)

(** [g1] and [g2] have the same structure and the same nodes at the places
    in [W]. *)
Definition agreeOn (W : list nat) (g1 g2 : Graph) : Prop :=
  structure g1 = structure g2 ∧ ∀ i, i ∈ W → nodes g1 !! i = nodes g2 !! i.

Lemma agreeOn_weaken W W' g1 g2 :
  (∀ i, i ∈ W' → i ∈ W) → agreeOn W g1 g2 → agreeOn W' g1 g2.
Proof. intros Hsub [Hs Hn]. split; [done|]. intros i Hi. apply Hn. auto. Qed.

Lemma agreeOn_positionOf W g1 g2 (node : NodeRef) :
  agreeOn W g1 g2 → node.1 ∈ W → positionOf g1 node = positionOf g2 node.
Proof. intros [_ Hn] Hin. unfold positionOf. by rewrite Hn. Qed.

Lemma agreeOn_getNodeSize w W g1 g2 node fallback :
  agreeOn W g1 g2 → getNodeSize w g1 node fallback = getNodeSize w g2 node fallback.
Proof. intros [Hs _]. by apply structure_getNodeSize. Qed.

Lemma structure_info_lookup g1 g2 i :
  structure g1 = structure g2 → info <$> nodes g1 !! i = info <$> nodes g2 !! i.
Proof.
  unfold structure. intros [= H _ _ _].
  apply (f_equal (λ l, l !! i)) in H. by rewrite !list_lookup_fmap in H.
Qed.

Lemma setPos_agree W g1 g2 node px py :
  agreeOn W g1 g2 → agreeOn (W ++ [node.1]) (setPos g1 node px py) (setPos g2 node px py).
Proof.
  intros [Hs Hn]. split; [by rewrite !setPos_structure|].
  intros i Hi. simpl. destruct (decide (node.1 = i)) as [<-|Hne].
  - rewrite !list_lookup_alter_eq.
    pose proof (structure_info_lookup g1 g2 node.1 Hs) as Hinfo.
    destruct (nodes g1 !! node.1) as [n1|], (nodes g2 !! node.1) as [n2|];
      simpl in *; try done.
    injection Hinfo as ->. done.
  - rewrite !list_lookup_alter_ne by done. apply Hn.
    apply elem_of_app in Hi as [?|Hi]; [done|].
    apply list_elem_of_singleton in Hi. congruence.
Qed.

Lemma stackLoop_agree px py ext gap l W g1 g2 cur :
  agreeOn W g1 g2 →
  agreeOn (W ++ l.*1.*1) (stackLoop px py ext gap g1 cur l).1
    (stackLoop px py ext gap g2 cur l).1.
Proof.
  revert W g1 g2 cur. induction l as [|[node size] l IH]; intros W g1 g2 cur Hag.
  - simpl. by rewrite app_nil_r.
  - rewrite !stackLoop_cons.
    change (((node, size) :: l).*1.*1) with ([node.1] ++ l.*1.*1).
    rewrite app_assoc. apply IH. by apply setPos_agree.
Qed.

Lemma stack_agree px py ext gap sz W g1 g2 cur items :
  agreeOn W g1 g2 →
  agreeOn (W ++ items.*1) (stackLoop px py ext gap g1 cur (sized sz items)).1
    (stackLoop px py ext gap g2 cur (sized sz items)).1.
Proof.
  intros Hag.
  pose proof (stackLoop_agree px py ext gap (sized sz items) W g1 g2 cur Hag) as H.
  by rewrite sized_fst in H.
Qed.

Lemma getRowMetrics_structure w g1 g2 items fallback :
  structure g1 = structure g2 →
  Portrait.getRowMetrics w g1 items fallback = Portrait.getRowMetrics w g2 items fallback.
Proof.
  intros Hs. unfold Portrait.getRowMetrics.
  by rewrite (list_fmap_ext (λ node, getNodeSize w g1 node fallback)
                (λ node, getNodeSize w g2 node fallback) items)
    by (intros; by apply structure_getNodeSize).
Qed.

Lemma placeRowFromMetrics_agree w g0 W g1 g2 items fallback centerXPos py :
  agreeOn W g1 g2 →
  agreeOn (W ++ items.*1)
    (Portrait.placeRowFromMetrics g1 items (Portrait.getRowMetrics w g0 items fallback)
       centerXPos py)
    (Portrait.placeRowFromMetrics g2 items (Portrait.getRowMetrics w g0 items fallback)
       centerXPos py).
Proof.
  intros Hag. unfold Portrait.getRowMetrics.
  rewrite !(placeRowFromMetrics_stack _ (λ node, getNodeSize w g0 node fallback)).
  by apply stack_agree.
Qed.

Lemma placeColumnRight_agree w W g1 g2 items px centerYPos :
  agreeOn W g1 g2 →
  agreeOn (W ++ items.*1)
    (Portrait.placeColumnRight w g1 items px centerYPos)
    (Portrait.placeColumnRight w g2 items px centerYPos).
Proof.
  intros Hag. rewrite !placeColumnRight_stack.
  rewrite (sized_ext (resourceSize w g2) (resourceSize w g1))
    by (intros; symmetry; by eapply agreeOn_getNodeSize).
  rewrite (list_fmap_ext (resourceSize w g2) (resourceSize w g1) items)
    by (intros; symmetry; by eapply agreeOn_getNodeSize).
  by apply stack_agree.
Qed.

Lemma placeSecondaryGroups_agree w inGroups outGroups W g1 g2 (processNode : NodeRef) :
  agreeOn W g1 g2 → processNode.1 ∈ W →
  agreeOn ((W ++ (default [] (groupsGet outGroups processNode)).*1)
           ++ (default [] (groupsGet inGroups processNode)).*1)
    (Portrait.placeSecondaryGroups w inGroups outGroups g1 processNode)
    (Portrait.placeSecondaryGroups w inGroups outGroups g2 processNode).
Proof.
  intros Hag Hin. unfold Portrait.placeSecondaryGroups.
  rewrite <- (agreeOn_positionOf W g1 g2 processNode Hag Hin).
  rewrite <- !(agreeOn_getNodeSize w W g1 g2 processNode processFallback Hag).
  rewrite <- (getRowMetrics_structure w g1 g2 _ resourceFallback (proj1 Hag)).
  set (gOut1 := Portrait.placeRowFromMetrics g1 _ _ _ _).
  set (gOut2 := Portrait.placeRowFromMetrics g2 _ _ _ _).
  assert (agreeOn (W ++ (default [] (groupsGet outGroups processNode)).*1) gOut1 gOut2)
    as Hout by (by apply placeRowFromMetrics_agree).
  rewrite <- (getRowMetrics_structure w gOut1 gOut2 _ resourceFallback (proj1 Hout)).
  by apply placeRowFromMetrics_agree.
Qed.

Lemma foldl_placeSecondaryGroups_agree w inGroups outGroups l W g1 g2 :
  agreeOn W g1 g2 → (∀ node : NodeRef, node ∈ l → node.1 ∈ W) →
  ∃ W', (∀ i, i ∈ W → i ∈ W')
        ∧ (∀ i, i ∈ concat ((λ node : NodeRef,
                               (default [] (groupsGet outGroups node)
                                ++ default [] (groupsGet inGroups node)).*1) <$> l)
                → i ∈ W')
        ∧ agreeOn W'
            (foldl (Portrait.placeSecondaryGroups w inGroups outGroups) g1 l)
            (foldl (Portrait.placeSecondaryGroups w inGroups outGroups) g2 l).
Proof.
  revert W g1 g2. induction l as [|node l IH]; intros W g1 g2 Hag Hin.
  - exists W. split; [done|]. split; [by intros i ?%elem_of_nil | done].
  - simpl.
    destruct (IH _ _ _ (placeSecondaryGroups_agree w inGroups outGroups W g1 g2 node Hag
                          (Hin node ltac:(by left))))
      as (W' & Hsub & Hcat & Hag').
    { intros n Hn. apply elem_of_app. left. apply elem_of_app. left.
      apply Hin. by right. }
    exists W'. split; [|split; [|exact Hag']].
    + intros i Hi. apply Hsub. apply elem_of_app. left. apply elem_of_app. by left.
    + intros i Hi. apply elem_of_app in Hi as [Hi|Hi]; [|by apply Hcat].
      apply Hsub. rewrite fmap_app in Hi. rewrite <- app_assoc.
      apply elem_of_app. by right.
Qed.

Lemma structure_panning g g' : structure g' = structure g → panning g' = panning g.
Proof. unfold structure. by intros [=]. Qed.

Lemma graph_eq g1 g2 : structure g1 = structure g2 → nodes g1 = nodes g2 → g1 = g2.
Proof.
  unfold structure. destruct g1, g2; simpl. intros [= _ -> -> ->] ->. done.
Qed.

Section PortraitRest.
Import Portrait.
Import PortraitStages.

Variables (w : Window) (g g' : Graph).
Hypothesis same_structure : structure g' = structure g.

Lemma rest_mainOf : mainOf g' = mainOf g.
Proof. unfold mainOf, processes. by rewrite (structure_refs _ _ same_structure). Qed.

Lemma rest_secondariesOf : secondariesOf g' = secondariesOf g.
Proof.
  unfold secondariesOf. rewrite rest_mainOf. unfold processes.
  by rewrite (structure_refs _ _ same_structure).
Qed.

Lemma rest_mechanismsIn : mechanismsIn g' = mechanismsIn g.
Proof.
  unfold mechanismsIn, resources. by rewrite (structure_refs _ _ same_structure).
Qed.

Lemma rest_inGroupsOf : inGroupsOf g' = inGroupsOf g.
Proof.
  unfold inGroupsOf. rewrite rest_mainOf. unfold inputNodesOf, resources.
  rewrite (structure_refs _ _ same_structure).
  apply inputGroups_connections, structure_connections, same_structure.
Qed.

Lemma rest_outGroupsOf : outGroupsOf g' = outGroupsOf g.
Proof.
  unfold outGroupsOf. rewrite rest_mainOf. unfold outputNodesOf, resources.
  rewrite (structure_refs _ _ same_structure).
  apply outputGroups_connections, structure_connections, same_structure.
Qed.

Lemma rest_centerXOf : centerXOf w g' = centerXOf w g.
Proof.
  unfold centerXOf.
  by rewrite (structure_scaling _ _ same_structure), (structure_panning _ _ same_structure).
Qed.

Lemma rest_centerYOf : centerYOf w g' = centerYOf w g.
Proof.
  unfold centerYOf.
  by rewrite (structure_scaling _ _ same_structure), (structure_panning _ _ same_structure).
Qed.

Lemma rest_mainGroup groups : mainGroup g' groups = mainGroup g groups.
Proof. unfold mainGroup. by rewrite rest_mainOf. Qed.

Definition mainWritten : list nat := LandscapeStages.mainPlaces (mainOf g).
Definition inputWritten : list nat := mainWritten ++ (mainGroup g (inGroupsOf g)).*1.
Definition outputWritten : list nat := inputWritten ++ (mainGroup g (outGroupsOf g)).*1.
Definition secondaryWritten : list nat := outputWritten ++ secondaryPlaces g.
Definition allWritten : list nat := secondaryWritten ++ (mechanismsIn g).*1.

Lemma rest_afterMain : agreeOn mainWritten (afterMain w g) (afterMain w g').
Proof.
  assert (agreeOn [] g g') as H0 by (split; [done | by intros i ?%elem_of_nil]).
  unfold afterMain, mainWritten. rewrite rest_mainOf, rest_centerXOf, rest_centerYOf.
  destruct (mainOf g) as [main|]; simpl; [|done].
  rewrite (structure_getNodeSize w g g' main processFallback same_structure).
  apply (setPos_agree [] g g' main _ _ H0).
Qed.

Lemma rest_processRect : processRect w g' = processRect w g.
Proof.
  unfold processRect. rewrite rest_mainOf. destruct (mainOf g); [|done].
  symmetry. eapply agreeOn_getNodeSize, rest_afterMain.
Qed.

Lemma rest_main_position main :
  mainOf g = Some main → positionOf (afterMain w g') main = positionOf (afterMain w g) main.
Proof.
  intros Hmain. symmetry. eapply agreeOn_positionOf; [apply rest_afterMain|].
  unfold mainWritten. rewrite Hmain. by left.
Qed.

Lemma rest_processX : processX w g' = processX w g.
Proof.
  unfold processX. rewrite rest_mainOf, rest_processRect, rest_centerXOf.
  destruct (mainOf g) as [main|] eqn:Hmain; [|done].
  by rewrite (rest_main_position main Hmain).
Qed.

Lemma rest_processY : processY w g' = processY w g.
Proof.
  unfold processY. rewrite rest_mainOf, rest_processRect, rest_centerYOf.
  destruct (mainOf g) as [main|] eqn:Hmain; [|done].
  by rewrite (rest_main_position main Hmain).
Qed.

Lemma rest_inputMetrics : inputMetrics w g' = inputMetrics w g.
Proof.
  unfold inputMetrics. rewrite rest_mainGroup, rest_inGroupsOf.
  symmetry. apply getRowMetrics_structure, rest_afterMain.
Qed.

Lemma rest_inputRowY : inputRowY w g' = inputRowY w g.
Proof.
  unfold inputRowY. by rewrite rest_processY, rest_processRect, rest_inputMetrics.
Qed.

Lemma rest_inputStage : agreeOn inputWritten (inputStage w g) (inputStage w g').
Proof.
  unfold inputStage, inputWritten.
  rewrite rest_mainGroup, rest_inGroupsOf, rest_inputMetrics, rest_processX, rest_inputRowY.
  unfold inputMetrics. apply placeRowFromMetrics_agree, rest_afterMain.
Qed.

Lemma rest_outputMetrics : outputMetrics w g' = outputMetrics w g.
Proof.
  unfold outputMetrics. rewrite rest_mainGroup, rest_outGroupsOf.
  symmetry. apply getRowMetrics_structure, rest_inputStage.
Qed.

Lemma rest_outputRowY : outputRowY w g' = outputRowY w g.
Proof. unfold outputRowY. by rewrite rest_processY, rest_processRect. Qed.

Lemma rest_outputStage : agreeOn outputWritten (outputStage w g) (outputStage w g').
Proof.
  unfold outputStage, outputWritten.
  rewrite rest_mainGroup, rest_outGroupsOf, rest_outputMetrics, rest_processX,
    rest_outputRowY.
  unfold outputMetrics. apply placeRowFromMetrics_agree, rest_inputStage.
Qed.

Lemma rest_secondaryStage : agreeOn secondaryWritten (secondaryStage w g) (secondaryStage w g').
Proof.
  unfold secondaryStage, secondaryWritten, secondaryPlaces, placeSecondaryRow.
  rewrite rest_inGroupsOf, rest_outGroupsOf, rest_secondariesOf, rest_processX,
    rest_outputRowY, rest_outputMetrics.
  destruct (secondariesOf g) as [|s l] eqn:Hsec.
  { simpl. rewrite app_nil_r. apply rest_outputStage. }
  rewrite <- Hsec. clear Hsec s l.
  pose proof rest_outputStage as Hout.
  rewrite <- (getRowMetrics_structure w (outputStage w g) (outputStage w g') _
                processFallback (proj1 Hout)).
  rewrite <- (list_fmap_ext
                (λ node, maxHeight (getRowMetrics w (outputStage w g)
                                      (default [] (groupsGet (inGroupsOf g) node))
                                      resourceFallback))
                (λ node, maxHeight (getRowMetrics w (outputStage w g')
                                      (default [] (groupsGet (inGroupsOf g) node))
                                      resourceFallback))
                (secondariesOf g))
    by (intros; by rewrite (getRowMetrics_structure w _ _ _ _ (proj1 Hout))).
  set (row1 := placeRowFromMetrics (outputStage w g) _ _ _ _).
  set (row2 := placeRowFromMetrics (outputStage w g') _ _ _ _).
  assert (agreeOn (outputWritten ++ (secondariesOf g).*1) row1 row2) as Hrow
    by (by apply placeRowFromMetrics_agree).
  destruct (foldl_placeSecondaryGroups_agree w (inGroupsOf g) (outGroupsOf g)
              (secondariesOf g) _ row1 row2 Hrow) as (W' & Hsub & Hcat & Hag).
  { intros node Hnode. apply elem_of_app. right. by apply list_elem_of_fmap_2. }
  eapply agreeOn_weaken; [|exact Hag].
  intros i Hi. rewrite app_assoc in Hi.
  apply elem_of_app in Hi as [Hi|Hi]; [by apply Hsub | by apply Hcat].
Qed.

Lemma rest_maxRowRight : maxRowRight w g' = maxRowRight w g.
Proof.
  unfold maxRowRight.
  by rewrite rest_processX, rest_inputMetrics, rest_outputMetrics, rest_processRect.
Qed.

Lemma rest_finalStage : agreeOn allWritten (finalStage w g) (finalStage w g').
Proof.
  unfold finalStage, allWritten.
  rewrite rest_mechanismsIn, rest_maxRowRight, rest_processY.
  apply placeColumnRight_agree, rest_secondaryStage.
Qed.

Lemma portrait_finalStage_writes : touchesOnly allWritten g (finalStage w g).
Proof.
  unfold allWritten, secondaryWritten, outputWritten, inputWritten, mainWritten.
  eapply touchesOnly_trans; [|apply portrait_finalStage_touchesOnly].
  eapply touchesOnly_trans; [|apply portrait_secondaryStage_touchesOnly].
  eapply touchesOnly_trans; [|apply portrait_outputStage_touchesOnly].
  eapply touchesOnly_trans; [|apply portrait_inputStage_touchesOnly].
  apply portrait_afterMain_touchesOnly.
Qed.

End PortraitRest.

(** A portrait pass run on its own result changes nothing: every value a
    placement reads is either a size or the position of a process that the
    same pass has already written. *)
Lemma portrait_finalStage_at_rest w g :
  PortraitStages.finalStage w (PortraitStages.finalStage w g) = PortraitStages.finalStage w g.
Proof.
  set (g' := PortraitStages.finalStage w g).
  assert (structure g' = structure g) as Hs
    by apply PortraitStages.portrait_finalStage_structure.
  pose proof (rest_finalStage w g g' Hs) as [Hstr Hag]. fold g' in Hstr, Hag.
  pose proof (portrait_finalStage_writes w g') as [_ Hkept].
  apply graph_eq; [by rewrite <- Hstr|].
  apply list_eq. intros i.
  destruct (decide (i ∈ allWritten g)) as [Hin|Hout].
  - symmetry. by apply Hag.
  - apply Hkept. intros Hin. apply Hout. revert Hin.
    unfold allWritten, secondaryWritten, outputWritten, inputWritten, mainWritten,
      PortraitStages.secondaryPlaces, PortraitStages.secondaryItems.
    by rewrite (rest_mainOf g g' Hs), (rest_inGroupsOf g g' Hs), (rest_outGroupsOf g g' Hs),
      (rest_secondariesOf g g' Hs), (rest_mechanismsIn g g' Hs),
      !(rest_mainGroup g g' Hs).
Qed.

(** X9.  In portrait mode a second pass leaves every node where the
    first pass put it, on every diagram. *)
Theorem portrait_pass_idempotent w g :
  isPortrait w = true →
  autoArrangeNodes w (autoArrangeNodes w g) = autoArrangeNodes w g.
Proof.
  intros Hp. rewrite (autoArrangeNodes_stages w g).
  destruct (nodes g) as [|n l] eqn:Hn.
  - rewrite autoArrangeNodes_stages. by rewrite Hn.
  - rewrite Hp, autoArrangeNodes_stages, Hp.
    destruct (nodes (PortraitStages.finalStage w g)); [done|].
    apply portrait_finalStage_at_rest.
Qed.

(** ** The landscape pass when every group belongs to the main process *)

Lemma foldl_stack3_agree {E} (px py : float → Size → float) (ext : Size → float) (gap : float)
    (h : E → float → Size → E) l W g1 g2 cur e :
  agreeOn W g1 g2 →
  let step := λ '(g, cur, e) '(node, size),
                (setPos g node (px cur size) (py cur size), cur + (ext size + gap),
                 h e cur size) in
  agreeOn (W ++ l.*1.*1) (foldl step (g1, cur, e) l).1.1 (foldl step (g2, cur, e) l).1.1
  ∧ (foldl step (g1, cur, e) l).2 = (foldl step (g2, cur, e) l).2.
Proof.
  intros Hag step. revert W g1 g2 cur e Hag.
  induction l as [|[node size] l IH]; intros W g1 g2 cur e Hag.
  - simpl. by rewrite app_nil_r.
  - change (((node, size) :: l).*1.*1) with ([node.1] ++ l.*1.*1).
    rewrite app_assoc. simpl. apply IH. by apply setPos_agree.
Qed.

Lemma foldl_stack4_agree {E F} (px py : float → Size → float) (ext : Size → float) (gap : float)
    (h1 : E → float → Size → E) (h2 : F → float → Size → F) l W g1 g2 cur e f :
  agreeOn W g1 g2 →
  let step := λ '(g, cur, e, f) '(node, size),
                (setPos g node (px cur size) (py cur size), cur + (ext size + gap),
                 h1 e cur size, h2 f cur size) in
  agreeOn (W ++ l.*1.*1) (foldl step (g1, cur, e, f) l).1.1.1
    (foldl step (g2, cur, e, f) l).1.1.1
  ∧ (foldl step (g1, cur, e, f) l).1.2 = (foldl step (g2, cur, e, f) l).1.2
  ∧ (foldl step (g1, cur, e, f) l).2 = (foldl step (g2, cur, e, f) l).2.
Proof.
  intros Hag step. revert W g1 g2 cur e f Hag.
  induction l as [|[node size] l IH]; intros W g1 g2 cur e f Hag.
  - simpl. by rewrite app_nil_r.
  - change (((node, size) :: l).*1.*1) with ([node.1] ++ l.*1.*1).
    rewrite app_assoc. simpl. apply IH. by apply setPos_agree.
Qed.

Lemma resource_sizes_agree w W g1 g2 (items : list NodeRef) :
  agreeOn W g1 g2 →
  (λ node, getNodeSize w g2 node resourceFallback) <$> items
  = (λ node, getNodeSize w g1 node resourceFallback) <$> items.
Proof.
  intros Hag. apply list_fmap_ext. intros _ node _. symmetry.
  by eapply agreeOn_getNodeSize.
Qed.

Lemma placeLeftOfProcess_agree w processTop W g1 g2 (owner : NodeRef) items :
  agreeOn W g1 g2 → owner.1 ∈ W →
  agreeOn (W ++ items.*1)
    (Landscape.placeLeftOfProcess w processTop g1 owner items).1
    (Landscape.placeLeftOfProcess w processTop g2 owner items).1
  ∧ (Landscape.placeLeftOfProcess w processTop g1 owner items).2
    = (Landscape.placeLeftOfProcess w processTop g2 owner items).2.
Proof.
  intros Hag Hin. destruct items as [|a items].
  { simpl. by rewrite app_nil_r. }
  unfold Landscape.placeLeftOfProcess. cbv zeta.
  rewrite <- (agreeOn_positionOf W g1 g2 owner Hag Hin).
  rewrite <- !(agreeOn_getNodeSize w W g1 g2 owner processFallback Hag).
  rewrite !(resource_sizes_agree w W g1 g2 (a :: items) Hag).
  rewrite zip_sized.
  match goal with
  | |- context [foldl ?f (g1, ?c, ?e) ?l] =>
      pose proof (foldl_stack3_agree
        (λ _ size, centreX w g1 owner - width (processSize w g1 owner) / 2
                   - Landscape.offsetFromProcess - width size)
        (λ cur _, cur) height Landscape.verticalGap
        (λ _ cur size, cur + height size) l W g1 g2 c e Hag
        : agreeOn _ (foldl f (g1, c, e) l).1.1 (foldl f (g2, c, e) l).1.1
          ∧ (foldl f (g1, c, e) l).2 = (foldl f (g2, c, e) l).2) as [H1 H2];
      destruct (foldl f (g1, c, e) l) as [[ga ca] ba];
      destruct (foldl f (g2, c, e) l) as [[gb cb] bb]
  end.
  rewrite sized_fst in H1. simpl in *. by split.
Qed.

Lemma placeRightOfProcess_agree w processRight processTop W g1 g2 (owner : NodeRef) items :
  agreeOn W g1 g2 → owner.1 ∈ W →
  agreeOn (W ++ items.*1)
    (Landscape.placeRightOfProcess w processRight processTop g1 owner items).1
    (Landscape.placeRightOfProcess w processRight processTop g2 owner items).1
  ∧ (Landscape.placeRightOfProcess w processRight processTop g1 owner items).2
    = (Landscape.placeRightOfProcess w processRight processTop g2 owner items).2.
Proof.
  intros Hag Hin. destruct items as [|a items].
  { simpl. by rewrite app_nil_r. }
  unfold Landscape.placeRightOfProcess. cbv zeta.
  rewrite <- (agreeOn_positionOf W g1 g2 owner Hag Hin).
  rewrite <- !(agreeOn_getNodeSize w W g1 g2 owner processFallback Hag).
  rewrite !(resource_sizes_agree w W g1 g2 (a :: items) Hag).
  rewrite zip_sized.
  match goal with
  | |- context [foldl ?f (g1, ?c, ?e, ?b) ?l] =>
      pose proof (foldl_stack4_agree
        (λ _ _, centreX w g1 owner + width (processSize w g1 owner) / 2
                + Landscape.offsetFromProcess)
        (λ cur _, cur) height Landscape.verticalGap
        (λ maxRight _ size,
           Math.max maxRight
             (centreX w g1 owner + width (processSize w g1 owner) / 2
              + Landscape.offsetFromProcess + width size))
        (λ _ cur size, cur + height size) l W g1 g2 c e b Hag
        : agreeOn _ (foldl f (g1, c, e, b) l).1.1.1 (foldl f (g2, c, e, b) l).1.1.1
          ∧ (foldl f (g1, c, e, b) l).1.2 = (foldl f (g2, c, e, b) l).1.2
          ∧ (foldl f (g1, c, e, b) l).2 = (foldl f (g2, c, e, b) l).2)
        as (H1 & H2 & H3);
      destruct (foldl f (g1, c, e, b) l) as [[[ga ca] ma] ba];
      destruct (foldl f (g2, c, e, b) l) as [[[gb cb] mb] bb]
  end.
  rewrite sized_fst in H1. simpl in *. subst. by split.
Qed.

Lemma placeInputColumns_agree w processTop groups W g1 g2 :
  agreeOn W g1 g2 → (∀ entry : NodeRef * list NodeRef, entry ∈ groups → entry.1.1 ∈ W) →
  agreeOn (W ++ groupPlaces groups)
    (Landscape.placeInputColumns w processTop g1 groups).1
    (Landscape.placeInputColumns w processTop g2 groups).1
  ∧ (Landscape.placeInputColumns w processTop g1 groups).2
    = (Landscape.placeInputColumns w processTop g2 groups).2.
Proof.
  unfold Landscape.placeInputColumns. generalize neg_infinity as inputsBottom.
  revert W g1 g2. induction groups as [|[owner items] groups IH];
    intros W g1 g2 ib Hag Hown.
  - simpl. unfold groupPlaces. simpl. by rewrite app_nil_r.
  - simpl.
    destruct (placeLeftOfProcess_agree w processTop W g1 g2 owner items Hag
                (Hown (owner, items) ltac:(by left))) as [H1 H2].
    destruct (Landscape.placeLeftOfProcess w processTop g1 owner items) as [ga ba].
    destruct (Landscape.placeLeftOfProcess w processTop g2 owner items) as [gb bb].
    simpl in H1, H2. subst bb.
    change (groupPlaces ((owner, items) :: groups))
      with (items.*1 ++ groupPlaces groups).
    rewrite app_assoc. apply IH; [done|].
    intros entry Hentry. apply elem_of_app. left. apply Hown. by right.
Qed.

Lemma placeOutputColumns_agree w processRight processTop groups W g1 g2 :
  agreeOn W g1 g2 → (∀ entry : NodeRef * list NodeRef, entry ∈ groups → entry.1.1 ∈ W) →
  agreeOn (W ++ groupPlaces groups)
    (Landscape.placeOutputColumns w processRight processTop g1 groups).1.1
    (Landscape.placeOutputColumns w processRight processTop g2 groups).1.1
  ∧ (Landscape.placeOutputColumns w processRight processTop g1 groups).1.2
    = (Landscape.placeOutputColumns w processRight processTop g2 groups).1.2
  ∧ (Landscape.placeOutputColumns w processRight processTop g1 groups).2
    = (Landscape.placeOutputColumns w processRight processTop g2 groups).2.
Proof.
  unfold Landscape.placeOutputColumns.
  generalize neg_infinity as outputsBottom. generalize processRight at 2 4 6 8 10 12 as ocr.
  revert W g1 g2. induction groups as [|[owner items] groups IH];
    intros W g1 g2 ocr ob Hag Hown.
  - simpl. unfold groupPlaces. simpl. by rewrite app_nil_r.
  - simpl.
    destruct (placeRightOfProcess_agree w processRight processTop W g1 g2 owner items Hag
                (Hown (owner, items) ltac:(by left))) as [H1 H2].
    destruct (Landscape.placeRightOfProcess w processRight processTop g1 owner items)
      as [ga ra].
    destruct (Landscape.placeRightOfProcess w processRight processTop g2 owner items)
      as [gb rb].
    simpl in H1, H2. subst rb.
    change (groupPlaces ((owner, items) :: groups))
      with (items.*1 ++ groupPlaces groups).
    rewrite app_assoc. apply IH; [done|].
    intros entry Hentry. apply elem_of_app. left. apply Hown. by right.
Qed.

Lemma placeMechanismRow_agree w W g1 g2 mechanisms centerX bottomRowY :
  agreeOn W g1 g2 →
  agreeOn (W ++ mechanisms.*1)
    (Landscape.placeMechanismRow w g1 mechanisms centerX bottomRowY)
    (Landscape.placeMechanismRow w g2 mechanisms centerX bottomRowY).
Proof.
  intros Hag. rewrite !placeMechanismRow_stack. unfold rowStart.
  rewrite (sized_ext (resourceSize w g2) (resourceSize w g1))
    by (intros; symmetry; by eapply agreeOn_getNodeSize).
  rewrite (list_fmap_ext (resourceSize w g2) (resourceSize w g1) mechanisms)
    by (intros; symmetry; by eapply agreeOn_getNodeSize).
  by apply stack_agree.
Qed.

Lemma placeSecondaryColumn_agree w W g1 g2 secondaryProcesses ocr centerX centerY :
  agreeOn W g1 g2 →
  agreeOn (W ++ secondaryProcesses.*1)
    (Landscape.placeSecondaryColumn w g1 secondaryProcesses ocr centerX centerY)
    (Landscape.placeSecondaryColumn w g2 secondaryProcesses ocr centerX centerY).
Proof.
  intros Hag. rewrite !placeSecondaryColumn_stack.
  rewrite (sized_ext (processSize w g2) (processSize w g1))
    by (intros; symmetry; by eapply agreeOn_getNodeSize).
  rewrite (list_fmap_ext (processSize w g2) (processSize w g1) secondaryProcesses)
    by (intros; symmetry; by eapply agreeOn_getNodeSize).
  by apply stack_agree.
Qed.

(** Every input and output group is a group of the main process. *)
Definition groupsOfMainOnly (g : Graph) : Prop :=
  ∀ entry : NodeRef * list NodeRef,
    entry ∈ inGroupsOf g ++ outGroupsOf g → mainOf g = Some entry.1.

Section LandscapeRest.
Import LandscapeStages.
Import Landscape.

Variables (w : Window) (g g' : Graph).
Hypothesis same_structure : structure g' = structure g.
Hypothesis main_only : groupsOfMainOnly g.

Definition columnsWritten : list nat := mainPlaces (mainOf g) ++ groupPlaces (inGroupsOf g).
Definition outputsWritten : list nat := columnsWritten ++ groupPlaces (outGroupsOf g).
Definition rowWritten : list nat := outputsWritten ++ (mechanismsIn g).*1.
Definition passWritten : list nat := rowWritten ++ (secondariesOf g).*1.

Lemma owner_in_mainPlaces (entry : NodeRef * list NodeRef) :
  entry ∈ inGroupsOf g ++ outGroupsOf g → entry.1.1 ∈ mainPlaces (mainOf g).
Proof. intros Hentry. rewrite (main_only entry Hentry). by left. Qed.

Lemma rest_landscape_afterMain :
  agreeOn (mainPlaces (mainOf g)) (afterMain w g) (afterMain w g').
Proof.
  assert (agreeOn [] g g') as H0 by (split; [done | by intros i ?%elem_of_nil]).
  unfold afterMain.
  rewrite (rest_mainOf g g' same_structure), (rest_centerXOf w g g' same_structure),
    (rest_centerYOf w g g' same_structure).
  destruct (mainOf g) as [main|]; simpl; [|done].
  rewrite (structure_getNodeSize w g g' main processFallback same_structure).
  apply (setPos_agree [] g g' main _ _ H0).
Qed.

Lemma rest_primarySize : primarySize w g' = primarySize w g.
Proof.
  unfold primarySize, processes.
  rewrite (rest_mainOf g g' same_structure), (structure_refs _ _ same_structure).
  destruct (match mainOf g with
            | Some main => Some main
            | None => head (processNodesOf (refs g))
            end); [|done].
  symmetry. eapply agreeOn_getNodeSize, rest_landscape_afterMain.
Qed.

Lemma rest_processRight : processRight w g' = processRight w g.
Proof.
  unfold processRight. by rewrite rest_primarySize, (rest_centerXOf w g g' same_structure).
Qed.

Lemma rest_processTop : processTop w g' = processTop w g.
Proof.
  unfold processTop. by rewrite rest_primarySize, (rest_centerYOf w g g' same_structure).
Qed.

Lemma rest_processBottom : processBottom w g' = processBottom w g.
Proof.
  unfold processBottom.
  by rewrite rest_primarySize, (rest_centerYOf w g g' same_structure).
Qed.

Lemma rest_landscape_inputStage :
  agreeOn columnsWritten (inputStage w g).1 (inputStage w g').1
  ∧ (inputStage w g).2 = (inputStage w g').2.
Proof.
  unfold inputStage, columnsWritten.
  rewrite rest_processTop, (rest_inGroupsOf g g' same_structure).
  apply placeInputColumns_agree; [apply rest_landscape_afterMain|].
  intros entry Hentry. apply owner_in_mainPlaces, elem_of_app. by left.
Qed.

Lemma rest_landscape_outputStage :
  agreeOn outputsWritten (outputStage w g).1.1 (outputStage w g').1.1
  ∧ (outputStage w g).1.2 = (outputStage w g').1.2
  ∧ (outputStage w g).2 = (outputStage w g').2.
Proof.
  unfold outputStage, outputsWritten.
  rewrite rest_processTop, rest_processRight, (rest_outGroupsOf g g' same_structure).
  apply placeOutputColumns_agree; [apply rest_landscape_inputStage|].
  intros entry Hentry. apply elem_of_app. left.
  apply owner_in_mainPlaces, elem_of_app. by right.
Qed.

Lemma rest_bottomRowY : bottomRowY w g' = bottomRowY w g.
Proof.
  unfold bottomRowY.
  by rewrite rest_processBottom, <- (proj2 rest_landscape_inputStage),
    <- (proj2 (proj2 rest_landscape_outputStage)).
Qed.

Lemma rest_landscape_mechanismStage :
  agreeOn rowWritten (mechanismStage w g) (mechanismStage w g').
Proof.
  unfold mechanismStage, rowWritten.
  rewrite (rest_mechanismsIn g g' same_structure), (rest_centerXOf w g g' same_structure),
    rest_bottomRowY.
  apply placeMechanismRow_agree, rest_landscape_outputStage.
Qed.

Lemma rest_landscape_finalStage :
  agreeOn passWritten (finalStage w g) (finalStage w g').
Proof.
  unfold finalStage, passWritten.
  rewrite (rest_secondariesOf g g' same_structure), (rest_centerXOf w g g' same_structure),
    (rest_centerYOf w g g' same_structure),
    <- (proj1 (proj2 rest_landscape_outputStage)).
  apply placeSecondaryColumn_agree, rest_landscape_mechanismStage.
Qed.

Lemma landscape_finalStage_writes : touchesOnly passWritten g (finalStage w g).
Proof.
  unfold passWritten, rowWritten, outputsWritten, columnsWritten.
  eapply touchesOnly_trans; [|apply landscape_finalStage_touchesOnly].
  eapply touchesOnly_trans; [|apply landscape_mechanismStage_touchesOnly].
  eapply touchesOnly_trans; [|apply landscape_outputStage_touchesOnly].
  eapply touchesOnly_trans; [|apply landscape_inputStage_touchesOnly].
  apply landscape_afterMain_touchesOnly.
Qed.

End LandscapeRest.

(** A landscape pass run on its own result changes nothing when no group
    belongs to a secondary process: the columns are then placed from the
    position of the main process, which the same pass has already
    written. *)
Lemma landscape_finalStage_at_rest w g :
  groupsOfMainOnly g →
  LandscapeStages.finalStage w (LandscapeStages.finalStage w g)
  = LandscapeStages.finalStage w g.
Proof.
  intros Hmain.
  set (g' := LandscapeStages.finalStage w g).
  assert (structure g' = structure g) as Hs
    by apply LandscapeStages.landscape_finalStage_structure.
  pose proof (rest_landscape_finalStage w g g' Hs Hmain) as [Hstr Hag].
  fold g' in Hstr, Hag.
  pose proof (landscape_finalStage_writes w g') as [_ Hkept].
  apply graph_eq; [by rewrite <- Hstr|].
  apply list_eq. intros i.
  destruct (decide (i ∈ passWritten g)) as [Hin|Hout].
  - symmetry. by apply Hag.
  - apply Hkept. intros Hin. apply Hout. revert Hin.
    unfold passWritten, rowWritten, outputsWritten, columnsWritten.
    by rewrite (rest_mainOf g g' Hs), (rest_inGroupsOf g g' Hs), (rest_outGroupsOf g g' Hs),
      (rest_secondariesOf g g' Hs), (rest_mechanismsIn g g' Hs).
Qed.

(** X10.  In landscape mode a second pass leaves every node where the
    first pass put it, provided no input or output group belongs to a
    secondary process. *)
Theorem landscape_pass_idempotent_main_groups w g :
  isPortrait w = false → groupsOfMainOnly g →
  autoArrangeNodes w (autoArrangeNodes w g) = autoArrangeNodes w g.
Proof.
  intros Hp Hmain. rewrite (autoArrangeNodes_stages w g).
  destruct (nodes g) as [|n l] eqn:Hn.
  - rewrite autoArrangeNodes_stages. by rewrite Hn.
  - rewrite Hp, autoArrangeNodes_stages, Hp.
    destruct (nodes (LandscapeStages.finalStage w g)); [done|].
    by apply landscape_finalStage_at_rest.
Qed.

(** The diagram [twoProcesses] without the connection of "Second": its
    secondary process has no group, and the landscape pass is at rest after
    one pass. *)
Definition secondUnwired : Graph :=
  {| nodes := nodes twoProcesses;
     connections := [ {| from := 30; to := 10 |}; {| from := 31; to := 11 |};
                      {| from := 13; to := 40 |}; {| from := 14; to := 42 |};
                      {| from := 50; to := 12 |} ]%nat;
     scaling := 1;
     panning := {| x := 0; y := 0 |} |}.

Lemma secondUnwired_groups : groupsOfMainOnly secondUnwired.
Proof.
  intros entry Hentry. vm_compute in Hentry.
  repeat (apply elem_of_cons in Hentry as [->|Hentry]; [vm_compute; reflexivity|]).
  by apply elem_of_nil in Hentry.
Qed.

Lemma landscape_pass_idempotent_main_groups_witness :
  isPortrait wideWindow = false
  ∧ secondariesOf secondUnwired = [refAt secondUnwired 1]
  ∧ autoArrangeNodes wideWindow (autoArrangeNodes wideWindow secondUnwired)
    = autoArrangeNodes wideWindow secondUnwired.
Proof.
  split; [reflexivity|]. split; [vm_compute; reflexivity|].
  exact (landscape_pass_idempotent_main_groups wideWindow secondUnwired eq_refl
           secondUnwired_groups).
Defined.

Lemma portrait_pass_idempotent_witness :
  isPortrait tallWindow = true
  ∧ autoArrangeNodes tallWindow (autoArrangeNodes tallWindow twoProcesses)
    = autoArrangeNodes tallWindow twoProcesses.
Proof.
  split; [reflexivity|].
  exact (portrait_pass_idempotent tallWindow twoProcesses eq_refl).
Defined.

(** ** More on the placement pass *)

(** *** Diagrams without a process node *)

Lemma interfaceNodeMap_values l k node :
  interfaceNodeMap l !! k = Some node → node ∈ l.
Proof.
  induction l as [|n l IH] using rev_ind; intros Hk.
  - unfold interfaceNodeMap in Hk. simpl in Hk. by rewrite lookup_empty in Hk.
  - rewrite interfaceNodeMap_snoc in Hk. apply elem_of_app.
    destruct (decide (k ∈ ports n)); [|left; by apply IH].
    injection Hk as ->. right. by left.
Qed.

Lemma groupBy_no_owner owner items :
  (∀ item, item ∈ items → owner item = None) → groupBy owner items = [].
Proof.
  induction items as [|item items IH] using rev_ind; intros Hnone; [done|].
  rewrite groupBy_snoc, (Hnone item) by (apply elem_of_app; right; by left).
  apply IH. intros a Ha. apply Hnone, elem_of_app. by left.
Qed.

Lemma ownerProcessOf_no_process g connection far :
  processes g = [] →
  ownerProcessOf (interfaceNodeMap (refs g)) None connection far = None.
Proof.
  intros Hnone. unfold ownerProcessOf.
  destruct connection as [c|]; [|done].
  destruct (interfaceNodeMap (refs g) !! far c) as [o|] eqn:Ho; [|done].
  destruct (decide (isProcess o)) as [Hp|]; [|done].
  apply interfaceNodeMap_values in Ho.
  assert (o ∈ processes g) as Hin by (by apply elem_of_processes).
  rewrite Hnone in Hin. by apply elem_of_nil in Hin.
Qed.

Lemma no_process_statics g :
  processes g = [] →
  mainOf g = None ∧ secondariesOf g = [] ∧ inGroupsOf g = [] ∧ outGroupsOf g = [].
Proof.
  intros Hnone.
  assert (mainOf g = None) as Hmain by (unfold mainOf; by rewrite Hnone).
  split; [done|]. split; [unfold secondariesOf; by rewrite Hnone|].
  unfold inGroupsOf, outGroupsOf. rewrite Hmain, inputGroups_groupBy, outputGroups_groupBy.
  split; apply groupBy_no_owner; intros item _;
    by apply ownerProcessOf_no_process.
Qed.

(** X11.  In a diagram without a process node the pass moves the
    mechanism resources only: every other node, and so every input and
    output resource, stays where it was. *)
Theorem pass_without_process_moves_mechanisms_only (w : Window) (g : Graph) :
  processes g = [] →
  (∀ i, i ∉ (mechanismsIn g).*1 → nodes (autoArrangeNodes w g) !! i = nodes g !! i)
  ∧ (∀ node, node ∈ inputNodesOf g ++ outputNodesOf g →
       positionOf (autoArrangeNodes w g) node = positionOf g node).
Proof.
  intros Hnone.
  destruct (no_process_statics g Hnone) as (Hmain & Hsec & Hin & Hout).
  assert (touchesOnly (mechanismsIn g).*1 g (autoArrangeNodes w g)) as Htouch.
  { rewrite autoArrangeNodes_stages. destruct (nodes g) eqn:Hn; [apply touchesOnly_refl|].
    destruct (isPortrait w).
    - eapply touchesOnly_weaken; [|apply portrait_finalStage_writes].
      unfold allWritten, secondaryWritten, outputWritten, inputWritten, mainWritten,
        PortraitStages.secondaryPlaces, PortraitStages.mainGroup.
      rewrite Hmain, Hsec. simpl. by intros i Hi.
    - eapply touchesOnly_weaken; [|apply landscape_finalStage_writes].
      unfold passWritten, rowWritten, outputsWritten, columnsWritten.
      rewrite Hmain, Hsec, Hin, Hout. simpl. rewrite app_nil_r. by intros i Hi. }
  split; [apply Htouch|].
  intros node Hnode. apply (touchesOnly_positionOf _ _ _ _ Htouch).
  apply elem_of_app in Hnode as [Hi|Ho]; apply place_of_member in Hi || apply place_of_member in Ho.
  - intros Hm. by apply (places_inputs_mechanisms g node.1).
  - intros Hm. by apply (places_outputs_mechanisms g node.1).
Qed.

(** Two resources and no process. *)
Definition resourcesOnly : Graph :=
  {| nodes := [ mkNode "i1" "ResourceNode" "Input 1" "input" [] [30]%nat;
                mkNode "m1" "ResourceNode" "Machine" "machine" [] [50]%nat ];
     connections := [];
     scaling := 1;
     panning := {| x := 0; y := 0 |} |}.

Lemma pass_without_process_moves_mechanisms_only_witness :
  processes resourcesOnly = []
  ∧ positionOf (autoArrangeNodes wideWindow resourcesOnly) (refAt resourcesOnly 0)
    = positionOf resourcesOnly (refAt resourcesOnly 0).
Proof.
  split; [reflexivity|].
  apply (proj2 (pass_without_process_moves_mechanisms_only wideWindow resourcesOnly
                  eq_refl)).
  in_list.
Defined.

(** *** The main process *)

(** X12.  After a pass the main process is at the horizontal centre of the
    view less half the width the pass measured for it, and at the vertical
    centre of the view less half its measured height and less 40 in
    landscape mode, 20 in portrait mode: no later stage of the pass moves
    it. *)
Theorem main_process_centred (w : Window) (g : Graph) (main : NodeRef) :
  mainOf g = Some main →
  let final := autoArrangeNodes w g in
  let size := getNodeSize w g main processFallback in
  x (positionOf final main) = centerXOf w g - width size / 2
  ∧ y (positionOf final main)
    = centerYOf w g - height size / 2 - (if isPortrait w then 20 else 40).
Proof.
  intros Hmain final size.
  assert (nodes g ≠ []) as Hne.
  { apply (refs_nonempty g main). by apply processes_refs, mainOf_process. }
  unfold final. destruct (isPortrait w) eqn:Hmode.
  - rewrite (autoArrangeNodes_portrait w g Hne Hmode).
    by rewrite (portrait_main_position w g main Hmain).
  - rewrite (autoArrangeNodes_landscape w g Hne Hmode).
    by rewrite (landscape_main_position w g main Hmain).
Qed.

Lemma main_process_centred_witness :
  let final := autoArrangeNodes wideWindow twoProcesses in
  let main := refAt twoProcesses 0 in
  mainOf twoProcesses = Some main
  ∧ x (positionOf final main) = centerXOf wideWindow twoProcesses - 200 / 2
  ∧ y (positionOf final main) = centerYOf wideWindow twoProcesses - 180 / 2 - 40.
Proof.
  split; [reflexivity|].
  exact (main_process_centred wideWindow twoProcesses (refAt twoProcesses 0) eq_refl).
Defined.


Lemma groupsPush_entry groups o item key l :
  (key, l) ∈ groupsPush groups o item → key = o ∨ ∃ l', (key, l') ∈ groups.
Proof.
  induction groups as [|[key' items'] groups IH]; simpl.
  - intros Hin. apply list_elem_of_singleton in Hin. left. congruence.
  - destruct (decide (sameNode key' o)).
    + intros [Heq|Hin]%elem_of_cons.
      * injection Heq as -> _. right. exists items'. by left.
      * right. exists l. by right.
    + intros [Heq|Hin]%elem_of_cons.
      * injection Heq as -> ->. right. exists items'. by left.
      * destruct (IH Hin) as [->|[l' Hl']]; [by left|].
        right. exists l'. by right.
Qed.

Lemma groupBy_key_source owner items key l :
  (key, l) ∈ groupBy owner items → ∃ item, item ∈ items ∧ owner item = Some key.
Proof.
  revert l. induction items as [|item items IH] using rev_ind; intros l Hin.
  - by apply elem_of_nil in Hin.
  - rewrite groupBy_snoc in Hin.
    assert (∀ l', (key, l') ∈ groupBy owner items →
              ∃ item0, item0 ∈ items ++ [item] ∧ owner item0 = Some key) as Hold.
    { intros l' Hl'. destruct (IH l' Hl') as (item0 & H0 & Ho).
      exists item0. split; [apply elem_of_app; by left | done]. }
    destruct (owner item) as [o|] eqn:Ho; [|by eapply Hold].
    apply groupsPush_entry in Hin as [->|[l' Hl']]; [|by eapply Hold].
    exists item. split; [apply elem_of_app; right; by left | done].
Qed.

Lemma ownerProcessOf_process_ref g connection far key :
  ownerProcessOf (interfaceNodeMap (refs g)) (mainOf g) connection far = Some key →
  key ∈ processes g.
Proof.
  unfold ownerProcessOf. intros Hkey.
  assert (mainOf g = Some key → key ∈ processes g) as Hmain by apply mainOf_process.
  destruct connection as [c|]; [|destruct (mainOf g); [|done]].
  - destruct (interfaceNodeMap (refs g) !! far c) as [o|] eqn:Ho; [|by apply Hmain].
    destruct (decide (isProcess o)) as [Hp|]; [|by apply Hmain].
    injection Hkey as <-. apply elem_of_processes. split; [done|].
    by eapply interfaceNodeMap_values.
  - destruct (decide (isProcess n)); by apply Hmain.
Qed.

Lemma inGroups_owner_process g owner items :
  (owner, items) ∈ inGroupsOf g → owner ∈ processes g.
Proof.
  unfold inGroupsOf. rewrite inputGroups_groupBy. intros Hin.
  apply groupBy_key_source in Hin as (item & _ & Ho).
  by eapply ownerProcessOf_process_ref.
Qed.

Lemma outGroups_owner_process g owner items :
  (owner, items) ∈ outGroupsOf g → owner ∈ processes g.
Proof.
  unfold outGroupsOf. rewrite outputGroups_groupBy. intros Hin.
  apply groupBy_key_source in Hin as (item & _ & Ho).
  by eapply ownerProcessOf_process_ref.
Qed.

Lemma process_not_placed_resource g (owner : NodeRef) :
  owner ∈ processes g → owner.1 ∉ (resources g).*1.
Proof.
  intros Hp Hr. apply places_resources_processes in Hr. apply Hr.
  by apply place_of_member.
Qed.

Lemma groupPlaces_take (groups : Groups) k i :
  i ∈ concat ((λ entry : NodeRef * list NodeRef, entry.2.*1) <$> take k groups) →
  i ∈ groupPlaces groups.
Proof.
  unfold groupPlaces. intros Hin. apply elem_of_concat in Hin as (l & Hl & Hll).
  apply elem_of_concat. exists l. split; [done|].
  apply list_elem_of_fmap in Hll as (e & -> & He).
  apply (list_elem_of_fmap_2 (λ entry : NodeRef * list NodeRef, entry.2.*1)).
  eapply elem_of_submseteq; [exact He|].
  apply sublist_submseteq, sublist_take.
Qed.

(** *** The columns of the landscape mode *)

Section LandscapeColumns.
Import LandscapeStages.

Variables (w : Window) (g : Graph).

(** The position a group owner has when its columns are placed: the main
    process has been centred, every other process is where it was before
    the pass. *)
Definition anchorOf (owner : NodeRef) : Position := positionOf (afterMain w g) owner.

Definition anchorCentreY (owner : NodeRef) : float :=
  y (anchorOf owner) + height (processSize w g owner) / 2.

Definition columnHeight (items : list NodeRef) : float :=
  sumBy height (resourceSize w g <$> items)
  + gapsOf (length items) Landscape.verticalGap.

Lemma anchorOf_secondary owner :
  owner ∈ secondariesOf g → anchorOf owner = positionOf g owner.
Proof.
  intros Hsec. unfold anchorOf.
  apply (touchesOnly_positionOf _ _ _ _ (landscape_afterMain_touchesOnly w g)).
  destruct (mainOf g) as [main|] eqn:Hmain; simpl; [|by intros ?%elem_of_nil].
  intros Hin%list_elem_of_singleton.
  apply elem_of_secondaries in Hsec as [Hnot _]. rewrite Hmain in Hnot. by apply Hnot.
Qed.

Lemma anchorOf_main main :
  mainOf g = Some main → anchorOf main = positionOf (finalStage w g) main.
Proof. intros Hmain. unfold anchorOf. symmetry. by apply main_place_kept. Qed.

(** The graph in which the column of one input group is placed. *)
Lemma input_column_state owner items :
  (owner, items) ∈ inGroupsOf g →
  ∃ gi, structure gi = structure g
        ∧ positionOf gi owner = anchorOf owner
        ∧ ∀ a : NodeRef, a ∈ items →
            positionOf (finalStage w g) a
            = positionOf (Landscape.placeLeftOfProcess w (processTop w g) gi owner items).1 a.
Proof.
  intros Hentry.
  apply list_elem_of_lookup in Hentry as Hi. destruct Hi as [i Hi].
  destruct (foldl_place_kept
              (λ g0 (entry : NodeRef * list NodeRef),
                 (Landscape.placeLeftOfProcess w (processTop w g) g0 entry.1 entry.2).1)
              (λ entry, entry.2.*1)
              (λ g0 entry, placeLeftOfProcess_touchesOnly w _ g0 entry.1 entry.2)
              (inGroupsOf g) (afterMain w g) i (owner, items))
    as (gi & Hgi & Hkept); [apply (groupBy_NoDup_places g), validRefs_inputs | exact Hi |].
  simpl in Hkept. rewrite <- placeInputColumns_graph in Hkept. fold (inputStage w g) in Hkept.
  exists gi. split; [|split].
  - rewrite (touchesOnly_structure _ _ _ Hgi). apply landscape_afterMain_structure.
  - apply (touchesOnly_positionOf _ _ _ _ Hgi).
    intros Hin.
    assert (owner.1 ∈ groupPlaces (inGroupsOf g)) as Hin'
      by (by eapply groupPlaces_take).
    apply inGroups_places, places_inputs in Hin'.
    apply (process_not_placed_resource g owner); [|exact Hin'].
    by apply (inGroups_owner_process g owner items).
  - intros a Ha.
    rewrite input_place_kept.
    + apply positionOf_same_node, Hkept. by apply place_of_member.
    + apply place_of_member in Ha. eapply places_fmap_subseteq; [|exact Ha].
      intros b Hb. apply groupBy_entry in Hentry. subst items.
      by apply list_elem_of_filter in Hb as [_ ?].
Qed.

Lemma output_column_state owner items :
  (owner, items) ∈ outGroupsOf g →
  ∃ gi, structure gi = structure g
        ∧ positionOf gi owner = anchorOf owner
        ∧ ∀ a : NodeRef, a ∈ items →
            positionOf (finalStage w g) a
            = positionOf (Landscape.placeRightOfProcess w (processRight w g)
                            (processTop w g) gi owner items).1 a.
Proof.
  intros Hentry.
  apply list_elem_of_lookup in Hentry as Hi. destruct Hi as [i Hi].
  destruct (foldl_place_kept
              (λ g0 (entry : NodeRef * list NodeRef),
                 (Landscape.placeRightOfProcess w (processRight w g) (processTop w g)
                    g0 entry.1 entry.2).1)
              (λ entry, entry.2.*1)
              (λ g0 entry, placeRightOfProcess_touchesOnly w _ _ g0 entry.1 entry.2)
              (outGroupsOf g) (inputStage w g).1 i (owner, items))
    as (gi & Hgi & Hkept); [apply (groupBy_NoDup_places g), validRefs_outputs | exact Hi |].
  simpl in Hkept. rewrite <- placeOutputColumns_graph in Hkept.
  fold (outputStage w g) in Hkept.
  assert (owner.1 ∉ (resources g).*1) as Hres.
  { apply (process_not_placed_resource g owner).
    by apply (outGroups_owner_process g owner items). }
  exists gi. split; [|split].
  - rewrite (touchesOnly_structure _ _ _ Hgi). apply landscape_inputStage_structure.
  - rewrite (touchesOnly_positionOf _ _ _ _ Hgi).
    + apply (touchesOnly_positionOf _ _ _ _ (landscape_inputStage_touchesOnly w g)).
      intros Hin. by apply Hres, places_inputs, inGroups_places.
    + intros Hin.
      assert (owner.1 ∈ groupPlaces (outGroupsOf g)) as Hin'
        by (by eapply groupPlaces_take).
      by apply Hres, places_outputs, outGroups_places.
  - intros a Ha.
    rewrite output_place_kept.
    + apply positionOf_same_node, Hkept. by apply place_of_member.
    + apply place_of_member in Ha. eapply places_fmap_subseteq; [|exact Ha].
      intros b Hb. apply groupBy_entry in Hentry. subst items.
      by apply list_elem_of_filter in Hb as [_ ?].
Qed.

End LandscapeColumns.

(** A column written by [stackLoop] begins at the offset it is given. *)
Lemma stack_column_first px gap sz g start items first :
  validRefs g items → head items = Some first →
  y (positionOf (stackLoop px (λ cur _, cur) height gap g start (sized sz items)).1 first)
  = start.
Proof.
  intros Hv Hfirst.
  rewrite (stack_kth _ _ _ _ _ _ _ _ 0%nat first Hv) by (by rewrite <- head_lookup).
  reflexivity.
Qed.

Section LandscapeColumnPlaces.
Import LandscapeStages.

Variables (w : Window) (g : Graph).

Lemma input_column_x owner items (a : NodeRef) :
  (owner, items) ∈ inGroupsOf g → a ∈ items →
  x (positionOf (finalStage w g) a)
  = x (anchorOf w g owner) + width (processSize w g owner) / 2
    - width (processSize w g owner) / 2 - Landscape.offsetFromProcess
    - width (resourceSize w g a).
Proof.
  intros Hentry Ha.
  destruct (input_column_state w g owner items Hentry) as (gi & Hs & Hanchor & Hfinal).
  pose proof (validRefs_entry g _ _ _ _ (validRefs_inputs g) Hentry) as Hv.
  rewrite (Hfinal a Ha). apply list_elem_of_lookup in Ha as [k Hk].
  rewrite placeLeftOfProcess_stack.
  rewrite (stack_kth _ _ _ _ _ _ _ _ k a (validRefs_structure g gi items Hs Hv) Hk).
  simpl. unfold centreX.
  by rewrite Hanchor, (resourceSize_structure w g gi a Hs),
    (processSize_structure w g gi owner Hs).
Qed.

Lemma output_column_x owner items (a : NodeRef) :
  (owner, items) ∈ outGroupsOf g → a ∈ items →
  x (positionOf (finalStage w g) a)
  = x (anchorOf w g owner) + width (processSize w g owner) / 2
    + width (processSize w g owner) / 2 + Landscape.offsetFromProcess.
Proof.
  intros Hentry Ha.
  destruct (output_column_state w g owner items Hentry) as (gi & Hs & Hanchor & Hfinal).
  pose proof (validRefs_entry g _ _ _ _ (validRefs_outputs g) Hentry) as Hv.
  rewrite (Hfinal a Ha). apply list_elem_of_lookup in Ha as [k Hk].
  rewrite placeRightOfProcess_stack.
  rewrite (stack_kth _ _ _ _ _ _ _ _ k a (validRefs_structure g gi items Hs Hv) Hk).
  simpl. unfold centreX.
  by rewrite Hanchor, (processSize_structure w g gi owner Hs).
Qed.

Lemma column_sizes_structure gi items :
  structure gi = structure g →
  sumBy height (resourceSize w gi <$> items) + gapsOf (length items) Landscape.verticalGap
  = columnHeight w g items.
Proof.
  intros Hs. unfold columnHeight.
  by rewrite (list_fmap_ext (resourceSize w gi) (resourceSize w g) items)
    by (intros; by apply resourceSize_structure).
Qed.

Lemma input_column_first owner items first :
  (owner, items) ∈ inGroupsOf g → head items = Some first →
  y (positionOf (finalStage w g) first)
  = anchorCentreY w g owner - columnHeight w g items / 2.
Proof.
  intros Hentry Hfirst.
  destruct (input_column_state w g owner items Hentry) as (gi & Hs & Hanchor & Hfinal).
  pose proof (validRefs_entry g _ _ _ _ (validRefs_inputs g) Hentry) as Hv.
  rewrite Hfinal by (by apply head_Some_elem_of).
  rewrite placeLeftOfProcess_stack.
  rewrite (stack_column_first _ _ _ _ _ items first
             (validRefs_structure g gi items Hs Hv) Hfirst).
  unfold columnStart, centreY, anchorCentreY.
  by rewrite (column_sizes_structure gi items Hs), Hanchor,
    (processSize_structure w g gi owner Hs).
Qed.

Lemma output_column_first owner items first :
  (owner, items) ∈ outGroupsOf g → head items = Some first →
  y (positionOf (finalStage w g) first)
  = anchorCentreY w g owner - columnHeight w g items / 2.
Proof.
  intros Hentry Hfirst.
  destruct (output_column_state w g owner items Hentry) as (gi & Hs & Hanchor & Hfinal).
  pose proof (validRefs_entry g _ _ _ _ (validRefs_outputs g) Hentry) as Hv.
  rewrite Hfinal by (by apply head_Some_elem_of).
  rewrite placeRightOfProcess_stack.
  rewrite (stack_column_first _ _ _ _ _ items first
             (validRefs_structure g gi items Hs Hv) Hfirst).
  unfold columnStart, centreY, anchorCentreY.
  by rewrite (column_sizes_structure gi items Hs), Hanchor,
    (processSize_structure w g gi owner Hs).
Qed.

End LandscapeColumnPlaces.


Lemma inGroups_nonempty g owner items : (owner, items) ∈ inGroupsOf g → nodes g ≠ [].
Proof.
  intros Hentry. apply (refs_nonempty g owner), processes_refs.
  by apply (inGroups_owner_process g owner items).
Qed.

Lemma outGroups_nonempty g owner items : (owner, items) ∈ outGroupsOf g → nodes g ≠ [].
Proof.
  intros Hentry. apply (refs_nonempty g owner), processes_refs.
  by apply (outGroups_owner_process g owner items).
Qed.


(** X13.  In landscape mode every item of an input group is written at the
    horizontal centre of its owner less half the width of the owner, less
    220 and less its own width, and every item of an output group at that
    centre plus half the width of the owner plus 220; the centre is the
    left edge of the owner plus half its width.  The sums are the ones the
    code computes, in its order.  The owner is taken at the position it has
    when the columns are placed: the main process where the pass has just
    centred it, a secondary process where it was before the pass. *)
Theorem landscape_columns_beside_owner (w : Window) (g : Graph) (owner : NodeRef)
    (items : list NodeRef) (a : NodeRef) :
  isPortrait w = false →
  let final := autoArrangeNodes w g in
  let anchor := anchorOf w g owner in
  let half := width (getNodeSize w g owner processFallback) / 2 in
  ((owner, items) ∈ inGroupsOf g → a ∈ items →
   x (positionOf final a)
   = x anchor + half - half - 220 - width (getNodeSize w g a resourceFallback))
  ∧ ((owner, items) ∈ outGroupsOf g → a ∈ items →
     x (positionOf final a) = x anchor + half + half + 220)
  ∧ (mainOf g = Some owner → anchor = positionOf final owner)
  ∧ (owner ∈ secondariesOf g → anchor = positionOf g owner).
Proof.
  intros Hmode final anchor half. unfold final, anchor, half.
  split; [|split; [|split]].
  - intros Hentry Ha.
    rewrite (autoArrangeNodes_landscape w g (inGroups_nonempty g _ _ Hentry) Hmode).
    by apply (input_column_x w g owner items).
  - intros Hentry Ha.
    rewrite (autoArrangeNodes_landscape w g (outGroups_nonempty g _ _ Hentry) Hmode).
    by apply (output_column_x w g owner items).
  - intros Hmain.
    rewrite (autoArrangeNodes_landscape w g); [by apply anchorOf_main | | done].
    apply (refs_nonempty g owner). by apply processes_refs, mainOf_process.
  - apply anchorOf_secondary.
Qed.

Lemma landscape_columns_beside_owner_witness :
  let final := autoArrangeNodes wideWindow twoProcesses in
  let main := refAt twoProcesses 0 in
  let input1 := refAt twoProcesses 2 in
  let half := width (getNodeSize wideWindow twoProcesses main processFallback) / 2 in
  isPortrait wideWindow = false
  ∧ x (positionOf final input1)
    = x (anchorOf wideWindow twoProcesses main) + half - half - 220
      - width (getNodeSize wideWindow twoProcesses input1 resourceFallback).
Proof.
  split; [reflexivity|].
  apply (proj1 (landscape_columns_beside_owner wideWindow twoProcesses
                  (refAt twoProcesses 0) [refAt twoProcesses 2; refAt twoProcesses 3]
                  (refAt twoProcesses 2) eq_refl)); in_list.
Defined.

(** X14.  In landscape mode the first item of every input and output
    column is written at the vertical centre of its owner less half the
    height of the column; the centre is the upper edge of the owner plus
    half its height, and the height of the column is the sum of the heights
    of its items, taken in their order from 0, plus 30 times the number of
    items less one. *)
Theorem landscape_columns_centred_on_owner (w : Window) (g : Graph) (owner : NodeRef)
    (items : list NodeRef) (first : NodeRef) :
  isPortrait w = false →
  (owner, items) ∈ inGroupsOf g ∨ (owner, items) ∈ outGroupsOf g →
  head items = Some first →
  let final := autoArrangeNodes w g in
  let centre := y (anchorOf w g owner) + height (getNodeSize w g owner processFallback) / 2 in
  let total := sumBy height ((λ node, getNodeSize w g node resourceFallback) <$> items)
               + gapsOf (length items) 30 in
  y (positionOf final first) = centre - total / 2.
Proof.
  intros Hmode [Hentry|Hentry] Hfirst final centre total; unfold final.
  - rewrite (autoArrangeNodes_landscape w g (inGroups_nonempty g _ _ Hentry) Hmode).
    by apply (input_column_first w g owner items).
  - rewrite (autoArrangeNodes_landscape w g (outGroups_nonempty g _ _ Hentry) Hmode).
    by apply (output_column_first w g owner items).
Qed.

Lemma landscape_columns_centred_on_owner_witness :
  let final := autoArrangeNodes wideWindow twoProcesses in
  let main := refAt twoProcesses 0 in
  let items := [refAt twoProcesses 2; refAt twoProcesses 3] in
  isPortrait wideWindow = false
  ∧ (main, items) ∈ inGroupsOf twoProcesses
  ∧ y (positionOf final (refAt twoProcesses 2))
    = y (anchorOf wideWindow twoProcesses main) + 180 / 2
      - (sumBy height ((λ node, getNodeSize wideWindow twoProcesses node resourceFallback)
                         <$> items)
         + gapsOf 2 30) / 2.
Proof.
  intros final main items.
  assert ((main, items) ∈ inGroupsOf twoProcesses) as Hentry by in_list.
  split; [reflexivity|]. split; [exact Hentry|].
  exact (landscape_columns_centred_on_owner wideWindow twoProcesses
           main items (refAt twoProcesses 2) eq_refl (or_introl Hentry) eq_refl).
Defined.

(** *** The row of mechanisms of the landscape mode *)

Section LandscapeRowBelow.
Import LandscapeStages.

Variables (w : Window) (g : Graph).

Lemma mechanism_row_y (m : NodeRef) :
  m ∈ mechanismsIn g → y (positionOf (finalStage w g) m) = bottomRowY w g.
Proof.
  intros Hm. rewrite mechanism_place_kept by (by apply place_of_member).
  apply list_elem_of_lookup in Hm as [k Hk].
  unfold mechanismStage. rewrite placeMechanismRow_stack.
  rewrite (stack_kth _ _ _ _ _ _ _ _ k m); [reflexivity | | exact Hk].
  apply (validRefs_structure g); [apply landscape_outputStage_structure|].
  apply validRefs_mechanisms.
Qed.

End LandscapeRowBelow.

(** *** The secondary processes *)

Section LandscapeSecondary.
Import LandscapeStages.

Variables (w : Window) (g : Graph).

Definition secondaryColumnX : float :=
  Math.max ((outputStage w g).1.2 + 220) (centerXOf w g + 520).

Definition secondaryColumnHeight : float :=
  sumBy height (processSize w g <$> secondariesOf g)
  + gapsOf (length (secondariesOf g)) Landscape.processColumnGap.

Lemma landscape_secondary_stack :
  finalStage w g
  = (stackLoop (λ _ size, secondaryColumnX - width size / 2) (λ cur _, cur) height
       Landscape.processColumnGap (mechanismStage w g)
       (centerYOf w g - secondaryColumnHeight / 2 - 40)
       (sized (processSize w g) (secondariesOf g))).1.
Proof.
  unfold finalStage. rewrite placeSecondaryColumn_stack.
  pose proof (landscape_mechanismStage_structure w g) as Hs.
  rewrite (sized_ext (processSize w (mechanismStage w g)) (processSize w g))
    by (intros; by apply processSize_structure).
  rewrite (list_fmap_ext (processSize w (mechanismStage w g)) (processSize w g)
             (secondariesOf g))
    by (intros; by apply processSize_structure).
  unfold secondaryColumnHeight. by rewrite length_fmap.
Qed.

Lemma validRefs_secondaries_mechanismStage :
  validRefs (mechanismStage w g) (secondariesOf g).
Proof.
  apply (validRefs_structure g); [apply landscape_mechanismStage_structure|].
  apply validRefs_secondaries.
Qed.

Lemma landscape_secondary_x (s : NodeRef) :
  s ∈ secondariesOf g →
  x (positionOf (finalStage w g) s) = secondaryColumnX - width (processSize w g s) / 2.
Proof.
  intros Hs. apply list_elem_of_lookup in Hs as [k Hk].
  rewrite landscape_secondary_stack.
  by rewrite (stack_kth _ _ _ _ _ _ _ _ k s validRefs_secondaries_mechanismStage Hk).
Qed.

Lemma landscape_secondary_spacing :
  Stacked y height Landscape.processColumnGap (processSize w g) (secondariesOf g)
    (finalStage w g).
Proof.
  rewrite landscape_secondary_stack.
  apply stack_Stacked_y, validRefs_secondaries_mechanismStage.
Qed.

Lemma landscape_secondary_top first :
  head (secondariesOf g) = Some first →
  y (positionOf (finalStage w g) first)
  = centerYOf w g - secondaryColumnHeight / 2 - 40.
Proof.
  intros Hfirst. rewrite landscape_secondary_stack.
  rewrite (stack_kth _ _ _ _ _ _ _ _ 0%nat first validRefs_secondaries_mechanismStage)
    by (by rewrite <- head_lookup).
  reflexivity.
Qed.

End LandscapeSecondary.

(** X16.  In landscape mode the secondary processes form one column.
    There is one number [outputColumnRight], the same for all of them,
    such that each is written at the larger of [outputColumnRight + 220]
    and the horizontal centre of the view plus 520, less half its own
    width; each is written at the
    upper edge of the one before it plus the sum of that one's height and
    40; and the first is written at the vertical centre of the view less
    half the height of the column and less 40, the height of the column
    being the sum of the heights, taken in their order from 0, plus 40
    times the number of secondary processes less one. *)
Theorem landscape_secondary_column (w : Window) (g : Graph) :
  isPortrait w = false → secondariesOf g ≠ [] →
  let final := autoArrangeNodes w g in
  let size a := getNodeSize w g a processFallback in
  let total := sumBy height (size <$> secondariesOf g)
               + gapsOf (length (secondariesOf g)) 40 in
  (∃ outputColumnRight, ∀ s, s ∈ secondariesOf g →
     x (positionOf final s)
     = Math.max (outputColumnRight + 220) (centerXOf w g + 520) - width (size s) / 2)
  ∧ (∀ k a b, secondariesOf g !! k = Some a → secondariesOf g !! S k = Some b →
       y (positionOf final b) = y (positionOf final a) + (height (size a) + 40))
  ∧ (∀ first, head (secondariesOf g) = Some first →
       y (positionOf final first) = centerYOf w g - total / 2 - 40).
Proof.
  intros Hmode Hsome final size total. unfold final.
  assert (nodes g ≠ []) as Hne.
  { destruct (secondariesOf g) as [|s rest] eqn:Hsec; [done|].
    apply (refs_nonempty g s). apply processes_refs, secondaries_processes.
    rewrite Hsec. by left. }
  rewrite (autoArrangeNodes_landscape w g Hne Hmode).
  split; [|split].
  - exists (LandscapeStages.outputStage w g).1.2. intros s Hs.
    by apply landscape_secondary_x.
  - apply landscape_secondary_spacing.
  - intros first Hfirst. by apply landscape_secondary_top.
Qed.

Lemma landscape_secondary_column_witness :
  let final := autoArrangeNodes wideWindow twoProcesses in
  let second := refAt twoProcesses 1 in
  isPortrait wideWindow = false
  ∧ secondariesOf twoProcesses ≠ []
  ∧ y (positionOf final second)
    = centerYOf wideWindow twoProcesses
      - (sumBy height ((λ a, getNodeSize wideWindow twoProcesses a processFallback)
                         <$> secondariesOf twoProcesses)
         + gapsOf (length (secondariesOf twoProcesses)) 40) / 2
      - 40.
Proof.
  intros final second.
  assert (secondariesOf twoProcesses ≠ []) as Hs by done.
  split; [reflexivity|]. split; [exact Hs|].
  exact (proj2 (proj2 (landscape_secondary_column wideWindow twoProcesses eq_refl Hs))
           second eq_refl).
Defined.

(** *** The rows of the portrait mode *)

Lemma groups_entry_get (groups : Groups) owner items :
  NoDup groups.*1.*1 → (owner, items) ∈ groups →
  default [] (groupsGet groups owner) = items.
Proof. intros Hnd Hentry. by rewrite (groupsGet_entry groups owner items Hnd Hentry). Qed.

Lemma inGroups_entry_get g owner items :
  (owner, items) ∈ inGroupsOf g → inGroupOf g owner = items.
Proof.
  intros Hentry. apply groups_entry_get; [|done].
  unfold inGroupsOf. rewrite inputGroups_groupBy. apply groupBy_keys_NoDup.
Qed.

Lemma outGroups_entry_get g owner items :
  (owner, items) ∈ outGroupsOf g → outGroupOf g owner = items.
Proof.
  intros Hentry. apply groups_entry_get; [|done].
  unfold outGroupsOf. rewrite outputGroups_groupBy. apply groupBy_keys_NoDup.
Qed.

Section PortraitRows.
Import PortraitStages.

Variables (w : Window) (g : Graph).

Lemma portrait_processY main :
  mainOf g = Some main →
  processY w g
  = y (positionOf (finalStage w g) main) + height (processSize w g main) / 2
  ∧ processRect w g = processSize w g main.
Proof.
  intros Hmain. unfold processY, processRect. rewrite Hmain.
  rewrite (portrait_main_kept w g main Hmain).
  by rewrite (structure_getNodeSize w g _ main _ (portrait_afterMain_structure w g)).
Qed.

Lemma portrait_main_input_y main (a : NodeRef) :
  mainOf g = Some main → a ∈ inGroupOf g main →
  y (positionOf (finalStage w g) a) = inputRowY w g.
Proof.
  intros Hmain Ha. rewrite <- (mainGroup_in g main Hmain) in Ha.
  rewrite portrait_main_input_kept by (by apply place_of_member).
  apply list_elem_of_lookup in Ha as [k Hk].
  unfold inputStage, inputMetrics, Portrait.getRowMetrics.
  rewrite (placeRowFromMetrics_stack (afterMain w g)
             (λ node, getNodeSize w (afterMain w g) node resourceFallback)).
  rewrite (stack_kth _ _ _ _ _ _ _ _ k a); [reflexivity | | exact Hk].
  apply (validRefs_structure g); [apply portrait_afterMain_structure|].
  rewrite (mainGroup_in g main Hmain). apply validRefs_inGroupOf.
Qed.

Lemma portrait_main_output_y main (a : NodeRef) :
  mainOf g = Some main → a ∈ outGroupOf g main →
  y (positionOf (finalStage w g) a) = outputRowY w g.
Proof.
  intros Hmain Ha. rewrite <- (mainGroup_out g main Hmain) in Ha.
  rewrite portrait_main_output_kept by (by apply place_of_member).
  apply list_elem_of_lookup in Ha as [k Hk].
  unfold outputStage, outputMetrics, Portrait.getRowMetrics.
  rewrite (placeRowFromMetrics_stack (inputStage w g)
             (λ node, getNodeSize w (inputStage w g) node resourceFallback)).
  rewrite (stack_kth _ _ _ _ _ _ _ _ k a); [reflexivity | | exact Hk].
  apply (validRefs_structure g); [apply portrait_inputStage_structure|].
  rewrite (mainGroup_out g main Hmain). apply validRefs_outGroupOf.
Qed.

Definition rowHeight (items : list NodeRef) : float :=
  maxBy height (resourceSize w g <$> items).

Lemma maxHeight_structure g' items :
  structure g' = structure g →
  Portrait.maxHeight (Portrait.getRowMetrics w g' items resourceFallback) = rowHeight items.
Proof.
  intros Hs. unfold rowHeight, Portrait.getRowMetrics. simpl.
  by rewrite (list_fmap_ext (λ node, getNodeSize w g' node resourceFallback)
                (resourceSize w g) items)
    by (intros; by apply (resourceSize_structure w g)).
Qed.

(** The height at which the rows of an owner are written, from the upper
    edge [top] and the height [h] of the owner. *)
Definition inputRowAt (top h maxHeight : float) : float :=
  top + h / 2 - h / 2 - Portrait.offsetFromProcess - maxHeight.

Definition outputRowAt (top h : float) : float :=
  top + h / 2 + h / 2 + Portrait.offsetFromProcess.

Lemma portrait_main_rows main (a : NodeRef) :
  mainOf g = Some main →
  let top := y (positionOf (finalStage w g) main) in
  let h := height (processSize w g main) in
  (a ∈ inGroupOf g main →
   y (positionOf (finalStage w g) a) = inputRowAt top h (rowHeight (inGroupOf g main)))
  ∧ (a ∈ outGroupOf g main →
     y (positionOf (finalStage w g) a) = outputRowAt top h).
Proof.
  intros Hmain top h. destruct (portrait_processY main Hmain) as [HpY Hrect].
  split; intros Ha.
  - rewrite (portrait_main_input_y main a Hmain Ha).
    unfold inputRowY, inputMetrics. rewrite HpY, Hrect, (mainGroup_in g main Hmain).
    by rewrite (maxHeight_structure _ _ (portrait_afterMain_structure w g)).
  - rewrite (portrait_main_output_y main a Hmain Ha).
    unfold outputRowY. by rewrite HpY, Hrect.
Qed.

End PortraitRows.

Lemma concat_fmap_take {J} (f : J → list nat) (l : list J) k i :
  i ∈ concat (f <$> take k l) → i ∈ concat (f <$> l).
Proof.
  intros Hin. apply elem_of_concat in Hin as (x & Hx & Hxl).
  apply elem_of_concat. exists x. split; [done|].
  apply list_elem_of_fmap in Hxl as (e & -> & He).
  apply (list_elem_of_fmap_2 f).
  eapply elem_of_submseteq; [exact He|].
  apply sublist_submseteq, sublist_take.
Qed.

Section PortraitSecondaryRows.
Import PortraitStages.

Variables (w : Window) (g : Graph).

Lemma secondary_items_resources i :
  i ∈ concat ((λ node, (secondaryItems g node).*1) <$> secondariesOf g) →
  i ∈ (resources g).*1.
Proof.
  intros Hi. apply secondary_items_places in Hi as (node & _ & [Ho|Hi]).
  - by eapply places_outputs, outGroupOf_places.
  - by eapply places_inputs, inGroupOf_places.
Qed.

Lemma portrait_secondary_rows_y node (a : NodeRef) :
  node ∈ secondariesOf g →
  let top := y (positionOf (finalStage w g) node) in
  let h := height (processSize w g node) in
  (a ∈ inGroupOf g node →
   y (positionOf (finalStage w g) a)
   = inputRowAt top h (rowHeight w g (inGroupOf g node)))
  ∧ (a ∈ outGroupOf g node →
     y (positionOf (finalStage w g) a) = outputRowAt top h).
Proof.
  intros Hnode top h. apply list_elem_of_lookup in Hnode as Hi. destruct Hi as [i Hi].
  assert (∃ g0, structure g0 = structure g
                ∧ secondaryStage w g
                  = foldl (Portrait.placeSecondaryGroups w (inGroupsOf g) (outGroupsOf g))
                      g0 (secondariesOf g)) as (g0 & Hs0 & Hfold).
  { unfold secondaryStage, Portrait.placeSecondaryRow.
    destruct (secondariesOf g) as [|s l] eqn:Hsec; [by rewrite lookup_nil in Hi|].
    eexists. split; [|reflexivity].
    rewrite (touchesOnly_structure _ _ _
               (placeRowFromMetrics_touchesOnly w _ _ _ _ _ _)).
    apply portrait_outputStage_structure. }
  destruct (foldl_place_kept
              (Portrait.placeSecondaryGroups w (inGroupsOf g) (outGroupsOf g))
              (λ node, (secondaryItems g node).*1)
              (placeSecondaryGroups_touchesOnly w g)
              (secondariesOf g) g0 i node (secondary_items_NoDup g) Hi)
    as (gi & Hgi & Hkept).
  rewrite <- Hfold in Hkept.
  assert (structure gi = structure g) as Hsi.
  { by rewrite (touchesOnly_structure _ _ _ Hgi). }
  assert (node.1 ∉ (resources g).*1) as Hres.
  { apply process_not_placed_resource. by apply secondaries_processes. }
  assert (positionOf gi node = positionOf (finalStage w g) node) as Hpos.
  { rewrite (touchesOnly_positionOf _ _ _ _ (portrait_finalStage_touchesOnly w g))
      by (intros Hm; by apply Hres, places_mechanisms).
    rewrite Hfold.
    rewrite (touchesOnly_positionOf _ _ _ _
               (foldl_place_touchesOnly
                  (Portrait.placeSecondaryGroups w (inGroupsOf g) (outGroupsOf g))
                  (λ node, (secondaryItems g node).*1)
                  (placeSecondaryGroups_touchesOnly w g) (secondariesOf g) g0))
      by (intros Hin; by apply Hres, secondary_items_resources).
    apply (touchesOnly_positionOf _ _ _ _ Hgi).
    intros Hin. by apply Hres, secondary_items_resources, (concat_fmap_take _ _ i). }
  set (procX := x (positionOf gi node) + width (getNodeSize w gi node processFallback) / 2)
    in *.
  set (procY := y (positionOf gi node) + height (getNodeSize w gi node processFallback) / 2)
    in *.
  set (outY := procY + height (getNodeSize w gi node processFallback) / 2
               + Portrait.offsetFromProcess).
  set (gOut := Portrait.placeRowFromMetrics gi (outGroupOf g node)
                 (Portrait.getRowMetrics w gi (outGroupOf g node) resourceFallback)
                 procX outY).
  assert (structure gOut = structure g) as HsOut.
  { unfold gOut.
    by rewrite (touchesOnly_structure _ _ _
                  (placeRowFromMetrics_touchesOnly w _ _ _ _ _ _)). }
  set (inY := procY - height (getNodeSize w gi node processFallback) / 2
              - Portrait.offsetFromProcess
              - Portrait.maxHeight
                  (Portrait.getRowMetrics w gOut (inGroupOf g node) resourceFallback)).
  assert (Portrait.placeSecondaryGroups w (inGroupsOf g) (outGroupsOf g) gi node
          = Portrait.placeRowFromMetrics gOut (inGroupOf g node)
              (Portrait.getRowMetrics w gOut (inGroupOf g node) resourceFallback)
              procX inY) as Hplace by reflexivity.
  rewrite Hplace in Hkept.
  assert (procY = top + height (processSize w g node) / 2) as HprocY.
  { unfold procY, top. rewrite Hpos.
    by rewrite (structure_getNodeSize w g gi node processFallback Hsi). }
  split; intros Ha.
  - pose proof (place_of_member _ _ Ha) as Hplace_a.
    rewrite portrait_resource_kept
      by (by apply places_inputs_mechanisms, (inGroupOf_places g node)).
    rewrite (positionOf_same_node _ _ a
               (Hkept a.1 ltac:(apply secondaryItems_split; by right))).
    apply list_elem_of_lookup in Ha as [k Hk].
    unfold Portrait.getRowMetrics.
    rewrite (placeRowFromMetrics_stack gOut
               (λ node, getNodeSize w gOut node resourceFallback)).
    rewrite (stack_kth _ _ _ _ _ _ _ _ k a);
      [| apply (validRefs_structure g); [done | apply validRefs_inGroupOf] | exact Hk].
    simpl. unfold inY. rewrite (maxHeight_structure w g gOut _ HsOut), HprocY.
    by rewrite (structure_getNodeSize w g gi node processFallback Hsi).
  - pose proof (place_of_member _ _ Ha) as Hplace_a.
    rewrite portrait_resource_kept
      by (by apply places_outputs_mechanisms, (outGroupOf_places g node)).
    rewrite (positionOf_same_node _ _ a
               (Hkept a.1 ltac:(apply secondaryItems_split; by left))).
    rewrite (touchesOnly_positionOf _ _ _ _
               (placeRowFromMetrics_touchesOnly w _ _ _ _ _ _)).
    2:{ intros Hin. apply inGroupOf_places in Hin. apply outGroupOf_places in Hplace_a.
        by apply places_inputs_outputs in Hin. }
    apply list_elem_of_lookup in Ha as [k Hk].
    unfold gOut, Portrait.getRowMetrics.
    rewrite (placeRowFromMetrics_stack gi
               (λ node, getNodeSize w gi node resourceFallback)).
    rewrite (stack_kth _ _ _ _ _ _ _ _ k a);
      [| apply (validRefs_structure g); [done | apply validRefs_outGroupOf] | exact Hk].
    simpl. unfold outY. rewrite HprocY.
    by rewrite (structure_getNodeSize w g gi node processFallback Hsi).
Qed.

End PortraitSecondaryRows.

(** X17.  In portrait mode every item of an output row is written at the
    vertical centre of its owner plus half the height of the owner plus 180,
    and every item of an input row at that centre less half the height of
    the owner, less 180 and less the height of the tallest item of the row;
    the centre is the upper edge of the owner plus half its height.  The
    sums are the ones the code computes, in its order.  This holds for the
    main process and for every secondary process, at the positions the pass
    gives them. *)
Theorem portrait_rows_above_and_below (w : Window) (g : Graph) (owner : NodeRef)
    (items : list NodeRef) (a : NodeRef) :
  isPortrait w = true → a ∈ items →
  let final := autoArrangeNodes w g in
  let top := y (positionOf final owner) in
  let h := height (getNodeSize w g owner processFallback) in
  let size node := getNodeSize w g node resourceFallback in
  ((owner, items) ∈ inGroupsOf g →
   y (positionOf final a) = top + h / 2 - h / 2 - 180 - maxBy height (size <$> items))
  ∧ ((owner, items) ∈ outGroupsOf g →
     y (positionOf final a) = top + h / 2 + h / 2 + 180).
Proof.
  intros Hmode Ha final top h size. unfold top, h, final.
  assert (∀ owner, owner ∈ processes g →
            (a ∈ inGroupOf g owner →
             y (positionOf (PortraitStages.finalStage w g) a)
             = inputRowAt (y (positionOf (PortraitStages.finalStage w g) owner))
                 (height (processSize w g owner)) (rowHeight w g (inGroupOf g owner)))
            ∧ (a ∈ outGroupOf g owner →
               y (positionOf (PortraitStages.finalStage w g) a)
               = outputRowAt (y (positionOf (PortraitStages.finalStage w g) owner))
                   (height (processSize w g owner))))
    as Hrows.
  { intros o Ho.
    destruct (process_main_or_secondary g o Ho) as [(main & Hmain & ->)|Hsec].
    - by apply portrait_main_rows.
    - by apply portrait_secondary_rows_y. }
  split; intros Hentry.
  - rewrite (autoArrangeNodes_portrait w g (inGroups_nonempty g _ _ Hentry) Hmode).
    pose proof (inGroups_entry_get g owner items Hentry) as Hget.
    destruct (Hrows owner (inGroups_owner_process g owner items Hentry)) as [Hin _].
    rewrite Hget in Hin. by apply Hin.
  - rewrite (autoArrangeNodes_portrait w g (outGroups_nonempty g _ _ Hentry) Hmode).
    pose proof (outGroups_entry_get g owner items Hentry) as Hget.
    destruct (Hrows owner (outGroups_owner_process g owner items Hentry)) as [_ Hout].
    rewrite Hget in Hout. by apply Hout.
Qed.

Lemma portrait_rows_above_and_below_witness :
  let final := autoArrangeNodes tallWindow twoProcesses in
  let second := refAt twoProcesses 1 in
  let output3 := refAt twoProcesses 7 in
  let h := height (getNodeSize tallWindow twoProcesses second processFallback) in
  isPortrait tallWindow = true
  ∧ (second, [output3]) ∈ outGroupsOf twoProcesses
  ∧ y (positionOf final output3) = y (positionOf final second) + h / 2 + h / 2 + 180.
Proof.
  intros final second output3 h.
  assert ((second, [output3]) ∈ outGroupsOf twoProcesses) as Hentry by in_list.
  assert (output3 ∈ [output3]) as Ha by in_list.
  split; [reflexivity|]. split; [exact Hentry|].
  exact (proj2 (portrait_rows_above_and_below tallWindow twoProcesses second [output3]
                  output3 eq_refl Ha) Hentry).
Defined.

(** *** The groups as a partition *)

Lemma groupsGet_Some_entry (groups : Groups) o l :
  groupsGet groups o = Some l → ∃ key, (key, l) ∈ groups ∧ sameNode key o.
Proof.
  induction groups as [|[key items] groups IH]; simpl; [done|].
  destruct (decide (sameNode key o)) as [Hs|Hs].
  - intros [= ->]. exists key. split; [by left | done].
  - intros Hget. destruct (IH Hget) as (key' & Hin & Hsame).
    exists key'. split; [by right | done].
Qed.

Lemma groups_same_key (groups : Groups) k1 l1 k2 l2 :
  NoDup groups.*1.*1 → (k1, l1) ∈ groups → (k2, l2) ∈ groups → sameNode k1 k2 →
  (k1, l1) = (k2, l2).
Proof.
  intros Hnd H1 H2 Hsame.
  apply list_elem_of_lookup in H1 as [i Hi]. apply list_elem_of_lookup in H2 as [j Hj].
  assert (i = j) as ->.
  { eapply (NoDup_lookup _ i j k1.1); [exact Hnd| |].
    - by rewrite !list_lookup_fmap, Hi.
    - rewrite !list_lookup_fmap, Hj. simpl. by rewrite Hsame. }
  congruence.
Qed.

Lemma ownerProcessOf_total ifaceMap main connection far :
  is_Some (ownerProcessOf ifaceMap (Some main) connection far).
Proof.
  unfold ownerProcessOf.
  destruct connection as [c|]; [destruct (ifaceMap !! far c) as [o|]|];
    repeat case_decide; eauto.
Qed.

Lemma groupBy_partition owner items (a : NodeRef) :
  (∀ item, item ∈ items → is_Some (owner item)) →
  a ∈ items →
  ∃ key l, (key, l) ∈ groupBy owner items ∧ a ∈ l
           ∧ ∀ key' l', (key', l') ∈ groupBy owner items → a ∈ l' →
                        (key', l') = (key, l).
Proof.
  intros Htotal Ha. destruct (Htotal a Ha) as [o Ho].
  assert (groupedUnder (groupBy owner items) o a) as (l & Hget & Hal).
  { apply groupBy_groupedUnder. split; [done|]. unfold ownedBy. by rewrite Ho. }
  apply groupsGet_Some_entry in Hget as (key & Hentry & Hsame).
  exists key, l. split; [done|]. split; [done|].
  intros key' l' Hentry' Hal'.
  apply (groups_same_key (groupBy owner items)); [apply groupBy_keys_NoDup|done|done|].
  pose proof (groupBy_entry _ _ _ _ Hentry') as ->.
  apply list_elem_of_filter in Hal' as [Hown _].
  unfold ownedBy in Hown. rewrite Ho in Hown. unfold sameNode in *. congruence.
Qed.

(** X18.  When the diagram has a process node, the input groups
    partition the input resources and the output groups partition the
    output resources: every such resource is in the list of exactly one
    owner, every owner is a process node, and a list holds no resource
    twice and nothing but resources of its kind. *)
Theorem groups_partition_resources (g : Graph) (main : NodeRef) :
  mainOf g = Some main →
  (∀ a, a ∈ inputNodesOf g →
     ∃ owner items, (owner, items) ∈ inGroupsOf g ∧ a ∈ items
       ∧ ∀ owner' items', (owner', items') ∈ inGroupsOf g → a ∈ items' →
                          (owner', items') = (owner, items))
  ∧ (∀ a, a ∈ outputNodesOf g →
       ∃ owner items, (owner, items) ∈ outGroupsOf g ∧ a ∈ items
         ∧ ∀ owner' items', (owner', items') ∈ outGroupsOf g → a ∈ items' →
                            (owner', items') = (owner, items))
  ∧ (∀ owner items, (owner, items) ∈ inGroupsOf g →
       owner ∈ processes g ∧ NoDup items ∧ ∀ a, a ∈ items → a ∈ inputNodesOf g)
  ∧ (∀ owner items, (owner, items) ∈ outGroupsOf g →
       owner ∈ processes g ∧ NoDup items ∧ ∀ a, a ∈ items → a ∈ outputNodesOf g).
Proof.
  intros Hmain. unfold inGroupsOf, outGroupsOf.
  rewrite Hmain, inputGroups_groupBy, outputGroups_groupBy.
  split; [|split; [|split]].
  - intros a Ha. apply groupBy_partition; [|done].
    intros item _. apply ownerProcessOf_total.
  - intros a Ha. apply groupBy_partition; [|done].
    intros item _. apply ownerProcessOf_total.
  - intros owner items Hentry. split; [|split].
    + apply (inGroups_owner_process g owner items).
      unfold inGroupsOf. by rewrite Hmain, inputGroups_groupBy.
    + destruct (validRefs_entry g _ _ _ _ (validRefs_inputs g) Hentry) as [Hnd _].
      by apply (NoDup_fmap_1 fst).
    + intros a Ha. apply groupBy_entry in Hentry. subst items.
      by apply list_elem_of_filter in Ha as [_ ?].
  - intros owner items Hentry. split; [|split].
    + apply (outGroups_owner_process g owner items).
      unfold outGroupsOf. by rewrite Hmain, outputGroups_groupBy.
    + destruct (validRefs_entry g _ _ _ _ (validRefs_outputs g) Hentry) as [Hnd _].
      by apply (NoDup_fmap_1 fst).
    + intros a Ha. apply groupBy_entry in Hentry. subst items.
      by apply list_elem_of_filter in Ha as [_ ?].
Qed.

Lemma groups_partition_resources_witness :
  mainOf twoProcesses = Some (refAt twoProcesses 0)
  ∧ ∃ owner items, (owner, items) ∈ outGroupsOf twoProcesses
                   ∧ refAt twoProcesses 7 ∈ items
                   ∧ ∀ owner' items', (owner', items') ∈ outGroupsOf twoProcesses →
                       refAt twoProcesses 7 ∈ items' → (owner', items') = (owner, items).
Proof.
  split; [reflexivity|].
  apply (proj1 (proj2 (groups_partition_resources twoProcesses (refAt twoProcesses 0)
                         eq_refl))).
  in_list.
Defined.

(** *** The row of secondary processes of the portrait mode *)

Section PortraitSecondaryRow.
Import PortraitStages.

Variables (w : Window) (g : Graph).

Definition secondaryInputsMax : float :=
  foldl Math.max 0
    ((λ node, Portrait.maxHeight
                (Portrait.getRowMetrics w (outputStage w g)
                   (default [] (groupsGet (inGroupsOf g) node)) resourceFallback))
       <$> secondariesOf g).

Definition secondaryRowY : float :=
  outputRowY w g + Portrait.maxHeight (outputMetrics w g) + Portrait.offsetFromProcess
  + secondaryInputsMax + 40.

Definition afterSecondaryRow : Graph :=
  Portrait.placeRowFromMetrics (outputStage w g) (secondariesOf g)
    (Portrait.getRowMetrics w (outputStage w g) (secondariesOf g) processFallback)
    (processX w g) secondaryRowY.

Lemma secondaryStage_fold :
  secondariesOf g ≠ [] →
  secondaryStage w g
  = foldl (Portrait.placeSecondaryGroups w (inGroupsOf g) (outGroupsOf g))
      afterSecondaryRow (secondariesOf g).
Proof.
  intros Hne. unfold secondaryStage, Portrait.placeSecondaryRow, afterSecondaryRow,
    secondaryRowY, secondaryInputsMax.
  by destruct (secondariesOf g).
Qed.

Lemma secondary_kept (s : NodeRef) :
  s ∈ secondariesOf g →
  positionOf (finalStage w g) s = positionOf afterSecondaryRow s.
Proof.
  intros Hs.
  assert (s.1 ∉ (resources g).*1) as Hres.
  { apply process_not_placed_resource. by apply secondaries_processes. }
  rewrite (touchesOnly_positionOf _ _ _ _ (portrait_finalStage_touchesOnly w g))
    by (intros Hm; by apply Hres, places_mechanisms).
  rewrite secondaryStage_fold by (intros Hnil; rewrite Hnil in Hs; by apply elem_of_nil in Hs).
  apply (touchesOnly_positionOf _ _ _ _
           (foldl_place_touchesOnly
              (Portrait.placeSecondaryGroups w (inGroupsOf g) (outGroupsOf g))
              (λ node, (secondaryItems g node).*1)
              (placeSecondaryGroups_touchesOnly w g) (secondariesOf g) _)).
  intros Hin. by apply Hres, secondary_items_resources.
Qed.

Lemma afterSecondaryRow_stack :
  afterSecondaryRow
  = (stackLoop (λ cur _, cur) (λ _ _, secondaryRowY) width Portrait.rowGap
       (outputStage w g)
       (rowStart (processX w g) Portrait.rowGap (processSize w g) (secondariesOf g))
       (sized (processSize w g) (secondariesOf g))).1.
Proof.
  unfold afterSecondaryRow, Portrait.getRowMetrics.
  rewrite (placeRowFromMetrics_stack (outputStage w g)
             (λ node, getNodeSize w (outputStage w g) node processFallback)).
  pose proof (portrait_outputStage_structure w g) as Hs.
  rewrite (sized_ext (λ node, getNodeSize w (outputStage w g) node processFallback)
             (processSize w g))
    by (intros; by apply processSize_structure).
  unfold rowStart.
  by rewrite (list_fmap_ext (λ node, getNodeSize w (outputStage w g) node processFallback)
                (processSize w g) (secondariesOf g))
    by (intros; by apply processSize_structure).
Qed.

Lemma validRefs_secondaries_outputStage : validRefs (outputStage w g) (secondariesOf g).
Proof.
  apply (validRefs_structure g); [apply portrait_outputStage_structure|].
  apply validRefs_secondaries.
Qed.

Lemma portrait_secondary_y (s : NodeRef) :
  s ∈ secondariesOf g → y (positionOf (finalStage w g) s) = secondaryRowY.
Proof.
  intros Hs. rewrite (secondary_kept s Hs), afterSecondaryRow_stack.
  apply list_elem_of_lookup in Hs as [k Hk].
  by rewrite (stack_kth _ _ _ _ _ _ _ _ k s validRefs_secondaries_outputStage Hk).
Qed.

Lemma portrait_secondary_spacing :
  Stacked x width Portrait.rowGap (processSize w g) (secondariesOf g) (finalStage w g).
Proof.
  apply (Stacked_frame _ _ _ _ _ afterSecondaryRow).
  { intros a Ha. by apply secondary_kept. }
  rewrite afterSecondaryRow_stack.
  apply stack_Stacked_x, validRefs_secondaries_outputStage.
Qed.

Lemma portrait_secondary_first main first :
  mainOf g = Some main → head (secondariesOf g) = Some first →
  let centre := x (positionOf (finalStage w g) main) + width (processSize w g main) / 2 in
  let total := sumBy width (processSize w g <$> secondariesOf g)
               + gapsOf (length (secondariesOf g)) Portrait.rowGap in
  x (positionOf (finalStage w g) first) = centre - total / 2.
Proof.
  intros Hmain Hfirst centre total.
  assert (processX w g = centre) as HpX.
  { unfold processX, processRect, centre. rewrite Hmain.
    rewrite (portrait_main_kept w g main Hmain).
    by rewrite (structure_getNodeSize w g _ main _ (portrait_afterMain_structure w g)). }
  rewrite secondary_kept by (by apply head_Some_elem_of).
  rewrite afterSecondaryRow_stack, HpX.
  apply (stack_row_first (λ _ _, secondaryRowY) Portrait.rowGap (processSize w g)
           (outputStage w g) centre (secondariesOf g) first
           validRefs_secondaries_outputStage Hfirst).
Qed.

End PortraitSecondaryRow.

(** X19.  In portrait mode the secondary processes form one row: they
    are written at one height; each is written at the left edge of the one
    before it plus the sum of that one's width and 20; and the first is
    written at the horizontal centre of the main process less half the
    width of the row, the centre being the left edge of the main process
    plus half its width and the width of the row the sum of the widths,
    taken in their order from 0, plus 20 times the number of secondary
    processes less one. *)
Theorem portrait_secondary_row (w : Window) (g : Graph) (main s : NodeRef) :
  isPortrait w = true → mainOf g = Some main → s ∈ secondariesOf g →
  let final := autoArrangeNodes w g in
  let psize node := getNodeSize w g node processFallback in
  let total := sumBy width (psize <$> secondariesOf g)
               + gapsOf (length (secondariesOf g)) 20 in
  (∀ s', s' ∈ secondariesOf g → y (positionOf final s') = y (positionOf final s))
  ∧ (∀ k a b, secondariesOf g !! k = Some a → secondariesOf g !! S k = Some b →
       x (positionOf final b) = x (positionOf final a) + (width (psize a) + 20))
  ∧ (∀ first, head (secondariesOf g) = Some first →
       x (positionOf final first)
       = x (positionOf final main) + width (psize main) / 2 - total / 2).
Proof.
  intros Hmode Hmain Hs final psize total. unfold final.
  assert (nodes g ≠ []) as Hne.
  { apply (refs_nonempty g s). by apply processes_refs, secondaries_processes. }
  rewrite (autoArrangeNodes_portrait w g Hne Hmode).
  split; [|split].
  - intros s' Hs'. by rewrite !portrait_secondary_y.
  - apply portrait_secondary_spacing.
  - intros first Hfirst. by apply (portrait_secondary_first w g main first).
Qed.

Lemma portrait_secondary_row_witness :
  let final := autoArrangeNodes tallWindow twoProcesses in
  let main := refAt twoProcesses 0 in
  let second := refAt twoProcesses 1 in
  isPortrait tallWindow = true ∧ mainOf twoProcesses = Some main
  ∧ second ∈ secondariesOf twoProcesses
  ∧ ∀ s', s' ∈ secondariesOf twoProcesses →
      y (positionOf final s') = y (positionOf final second).
Proof.
  intros final main second.
  assert (second ∈ secondariesOf twoProcesses) as Hs by in_list.
  split; [reflexivity|]. split; [reflexivity|]. split; [exact Hs|].
  exact (proj1 (portrait_secondary_row tallWindow twoProcesses main second eq_refl
                  eq_refl Hs)).
Defined.

(** ** The claims on the stacks *)




Lemma Stacked_empty coord ext gap sz items g : nodes g = [] →
  (∀ b, b ∈ items → b ∈ refs g) → Stacked coord ext gap sz items g.
Proof. intros Hnil Hsub k a b Ha _. by destruct (lookup_refs_nonempty g items k a). Qed.

(** *** C5: the gaps *)




(** *** C4: the row of mechanisms *)

(** The middle of the row of mechanisms after a pass. *)
Definition mechanismRowCentre (w : Window) (g final : Graph) : float :=
  match head (mechanismsIn g), last (mechanismsIn g) with
  | Some first, Some lastM =>
      (x (positionOf final first)
       + (x (positionOf final lastM) + width (resourceSize w g lastM))) / 2
  | _, _ => 0
  end.

(** The middle of the horizontal extent that all process nodes cover
    together. *)
Definition processesCentre (w : Window) (g final : Graph) : float :=
  let lefts := (λ node, x (positionOf final node)) <$> processes g in
  let rights := (λ node, x (positionOf final node) + width (processSize w g node))
                  <$> processes g in
  (foldl (λ m v, if v <? m then v else m) (default 0 (head lefts)) lefts
   + foldl (λ m v, if m <? v then v else m) (default 0 (head rights)) rights) / 2.

(** C4 as stated fails: with a second process, which the pass puts to the
    right, the row of mechanisms stays under the main process and is not
    centred under all processes. *)
Lemma mechanism_row_off_processes_centre :
  let final := autoArrangeNodes wideWindow twoProcesses in
  isPortrait wideWindow = false
  ∧ mechanismsIn twoProcesses = [refAt twoProcesses 6]
  ∧ x (positionOf final (refAt twoProcesses 6)) = 700
  ∧ width (resourceSize wideWindow twoProcesses (refAt twoProcesses 6)) = 200
  ∧ processes twoProcesses = [refAt twoProcesses 0; refAt twoProcesses 1]
  ∧ x (positionOf final (refAt twoProcesses 0)) = 700
  ∧ x (positionOf final (refAt twoProcesses 1)) = 1440
  ∧ width (processSize wideWindow twoProcesses (refAt twoProcesses 0)) = 200
  ∧ width (processSize wideWindow twoProcesses (refAt twoProcesses 1)) = 200
  ∧ mechanismRowCentre wideWindow twoProcesses final = 800
  ∧ processesCentre wideWindow twoProcesses final = 1170
  ∧ mechanismRowCentre wideWindow twoProcesses final
    ≠ processesCentre wideWindow twoProcesses final.
Proof.
  intros final.
  repeat (split; [by vm_compute|]).
  intros H. apply (f_equal (λ c, c =? 800)) in H. vm_compute in H. discriminate H.
Qed.

(** C4, amended.  In landscape mode the row of mechanisms is laid out from
    the horizontal centre of the view, [centerX]: the first mechanism is
    written at [centerX] less half the width of the row, that width being
    the sum of the widths of the mechanisms, taken in their order from 0,
    plus 40 times their number less one; every other mechanism is written
    at the place of the one before it plus the sum of that one's width and
    40; and all are written at one height.  The main process is written at
    [centerX] less half its own width.  The secondary processes have no
    part in any of these numbers. *)
Theorem mechanism_row_centred (w : Window) (g : Graph) (first : NodeRef) :
  isPortrait w = false →
  head (mechanismsIn g) = Some first →
  let final := autoArrangeNodes w g in
  let sz node := getNodeSize w g node resourceFallback in
  let total := sumBy width (sz <$> mechanismsIn g)
               + gapsOf (length (mechanismsIn g)) 40 in
  x (positionOf final first) = centerXOf w g - total / 2
  ∧ (∀ k a b, mechanismsIn g !! k = Some a → mechanismsIn g !! S k = Some b →
       x (positionOf final b) = x (positionOf final a) + (width (sz a) + 40))
  ∧ (∀ m, m ∈ mechanismsIn g → y (positionOf final m) = y (positionOf final first))
  ∧ (∀ main, mainOf g = Some main →
       x (positionOf final main)
       = centerXOf w g - width (getNodeSize w g main processFallback) / 2).
Proof.
  intros Hl Hfirst final sz total.
  assert (nodes g ≠ []) as Hne.
  { apply (refs_nonempty g first).
    by apply resources_refs, mechanisms_resources, head_Some_elem_of. }
  assert (final = LandscapeStages.finalStage w g) as ->
    by (by apply autoArrangeNodes_landscape).
  split; [|split; [|split]].
  - by apply landscape_mechanism_row_first.
  - apply landscape_mechanism_row.
  - intros m Hm. rewrite !mechanism_row_y; [done | by apply head_Some_elem_of | done].
  - intros main Hmain. by rewrite (landscape_main_position w g main Hmain).
Qed.

Lemma mechanism_row_centred_witness :
  let final := autoArrangeNodes wideWindow twoProcesses in
  isPortrait wideWindow = false
  ∧ head (mechanismsIn twoProcesses) = Some (refAt twoProcesses 6)
  ∧ x (positionOf final (refAt twoProcesses 6))
    = centerXOf wideWindow twoProcesses
      - (sumBy width ((λ node, getNodeSize wideWindow twoProcesses node resourceFallback)
                        <$> mechanismsIn twoProcesses)
         + gapsOf (length (mechanismsIn twoProcesses)) 40) / 2.
Proof.
  split; [reflexivity|]. split; [reflexivity|].
  exact (proj1 (mechanism_row_centred wideWindow twoProcesses (refAt twoProcesses 6)
                  eq_refl eq_refl)).
Defined.

(** *** C8: nodes that are not rendered *)

Lemma autoArrangeNodes_by_mode w g :
  nodes g ≠ [] →
  autoArrangeNodes w g
  = if isPortrait w then PortraitStages.finalStage w g else LandscapeStages.finalStage w g.
Proof.
  intros Hne. destruct (isPortrait w) eqn:Hmode.
  - by apply autoArrangeNodes_portrait.
  - by apply autoArrangeNodes_landscape.
Qed.

(** C8.  For a node without an element in the document, [getNodeSize]
    gives back the fallback it was called with, and the pass goes on with
    that size.  A main process that is not rendered is centred as a node of
    200 by 180.  After a resource that is not rendered the next node of its
    stack is written 120 plus the gap further down in a column and 200 plus
    the gap further right in a row; after a secondary process that is not
    rendered the next one is written 180 plus 40 further down in landscape
    mode and 200 plus 20 further right in portrait mode; and in landscape
    mode an input that is not rendered is written 220 and its 200 to the
    left of the left edge of its owner, and an input or output that is not
    rendered and alone in its column is written half of its 120 above the
    vertical centre of its owner.  The pass changes positions only. *)
Theorem unmeasured_node_uses_fallback (w : Window) (g : Graph) (node : NodeRef) :
  getElementById w (id node.2) = None →
  let final := autoArrangeNodes w g in
  (∀ fallback, getNodeSize w g node fallback = fallback)
  ∧ structure final = structure g
  ∧ (mainOf g = Some node →
     positionOf final node
     = {| x := centerXOf w g - 200 / 2;
          y := centerYOf w g - 180 / 2 - (if isPortrait w then 20 else 40) |})
  ∧ (isPortrait w = false →
     (∀ owner items k b,
        (owner, items) ∈ inGroupsOf g ∨ (owner, items) ∈ outGroupsOf g →
        items !! k = Some node → items !! S k = Some b →
        y (positionOf final b) = y (positionOf final node) + (120 + 30))
     ∧ (∀ k b, mechanismsIn g !! k = Some node → mechanismsIn g !! S k = Some b →
          x (positionOf final b) = x (positionOf final node) + (200 + 40))
     ∧ (∀ k b, secondariesOf g !! k = Some node → secondariesOf g !! S k = Some b →
          y (positionOf final b) = y (positionOf final node) + (180 + 40))
     ∧ (∀ owner items, (owner, items) ∈ inGroupsOf g → node ∈ items →
          let half := width (getNodeSize w g owner processFallback) / 2 in
          x (positionOf final node) = x (anchorOf w g owner) + half - half - 220 - 200)
     ∧ (∀ owner, (owner, [node]) ∈ inGroupsOf g ∨ (owner, [node]) ∈ outGroupsOf g →
          y (positionOf final node)
          = y (anchorOf w g owner) + height (getNodeSize w g owner processFallback) / 2
            - 120 / 2))
  ∧ (isPortrait w = true →
     (∀ owner items k b, owner ∈ processes g →
        groupsGet (inGroupsOf g) owner = Some items
        ∨ groupsGet (outGroupsOf g) owner = Some items →
        items !! k = Some node → items !! S k = Some b →
        x (positionOf final b) = x (positionOf final node) + (200 + 20))
     ∧ (∀ k b, mechanismsIn g !! k = Some node → mechanismsIn g !! S k = Some b →
          y (positionOf final b) = y (positionOf final node) + (120 + 20))
     ∧ (∀ k b, secondariesOf g !! k = Some node → secondariesOf g !! S k = Some b →
          x (positionOf final b) = x (positionOf final node) + (200 + 20))).
Proof.
  intros Hnone final.
  assert (∀ fb, getNodeSize w g node fb = fb) as Hsize.
  { intros fb. unfold getNodeSize. by rewrite Hnone. }
  assert (∀ (items : list NodeRef) k, items !! k = Some node →
            (∀ b, b ∈ items → b ∈ refs g) → nodes g ≠ []) as Hne.
  { intros items k Hk Hsub. by apply (lookup_refs_nonempty g items k node). }
  split; [exact Hsize|]. split; [apply autoArrangeNodes_structure|].
  split; [|split].
  - intros Hmain.
    assert (nodes g ≠ []) as Hnodes.
    { apply (refs_nonempty g node). by apply processes_refs, mainOf_process. }
    unfold final. rewrite (autoArrangeNodes_by_mode w g Hnodes).
    destruct (isPortrait w).
    + rewrite (portrait_main_position w g node Hmain).
      unfold processSize. by rewrite Hsize.
    + rewrite (landscape_main_position w g node Hmain).
      unfold processSize. by rewrite Hsize.
  - intros Hmode. split; [|split; [|split; [|split]]].
    + intros owner items k b Hentry Hk Hb.
      assert (nodes g ≠ []) as Hnodes.
      { destruct Hentry as [Hentry|Hentry];
          [by apply (inGroups_nonempty g owner items)
          | by apply (outGroups_nonempty g owner items)]. }
      unfold final. rewrite (autoArrangeNodes_landscape w g Hnodes Hmode).
      destruct Hentry as [Hentry|Hentry].
      * rewrite (landscape_input_column w g owner items Hentry k node b Hk Hb).
        unfold resourceSize. by rewrite Hsize.
      * rewrite (landscape_output_column w g owner items Hentry k node b Hk Hb).
        unfold resourceSize. by rewrite Hsize.
    + intros k b Hk Hb.
      assert (nodes g ≠ []) as Hnodes by (apply (Hne _ k Hk), validRefs_mechanisms).
      unfold final. rewrite (autoArrangeNodes_landscape w g Hnodes Hmode).
      rewrite (landscape_mechanism_row w g k node b Hk Hb).
      unfold resourceSize. by rewrite Hsize.
    + intros k b Hk Hb.
      assert (nodes g ≠ []) as Hnodes by (apply (Hne _ k Hk), validRefs_secondaries).
      unfold final. rewrite (autoArrangeNodes_landscape w g Hnodes Hmode).
      rewrite (landscape_secondary_spacing w g k node b Hk Hb).
      unfold processSize. by rewrite Hsize.
    + intros owner items Hentry Hin half.
      unfold final.
      rewrite (autoArrangeNodes_landscape w g (inGroups_nonempty g _ _ Hentry) Hmode).
      rewrite (input_column_x w g owner items node Hentry Hin).
      unfold resourceSize, half, processSize. by rewrite Hsize.
    + intros owner Hentry.
      assert (columnHeight w g [node] = 120) as Htotal.
      { unfold columnHeight, resourceSize. simpl. rewrite Hsize. by vm_compute. }
      assert (nodes g ≠ []) as Hnodes.
      { destruct Hentry as [Hentry|Hentry];
          [by apply (inGroups_nonempty g owner [node])
          | by apply (outGroups_nonempty g owner [node])]. }
      unfold final. rewrite (autoArrangeNodes_landscape w g Hnodes Hmode).
      destruct Hentry as [Hentry|Hentry].
      * rewrite (input_column_first w g owner [node] node Hentry eq_refl).
        unfold anchorCentreY, processSize. by rewrite Htotal.
      * rewrite (output_column_first w g owner [node] node Hentry eq_refl).
        unfold anchorCentreY, processSize. by rewrite Htotal.
  - intros Hmode. split; [|split].
    + intros owner items k b Howner Hget Hk Hb.
      assert (nodes g ≠ []) as Hnodes.
      { apply (refs_nonempty g owner). by apply processes_refs. }
      unfold final. rewrite (autoArrangeNodes_portrait w g Hnodes Hmode).
      destruct (portrait_rows w g owner Howner) as [Hout Hin].
      destruct Hget as [Hget|Hget].
      * assert (inGroupOf g owner = items) as Heq by (unfold inGroupOf; by rewrite Hget).
        rewrite Heq in Hin. rewrite (Hin k node b Hk Hb).
        unfold resourceSize. by rewrite Hsize.
      * assert (outGroupOf g owner = items) as Heq by (unfold outGroupOf; by rewrite Hget).
        rewrite Heq in Hout. rewrite (Hout k node b Hk Hb).
        unfold resourceSize. by rewrite Hsize.
    + intros k b Hk Hb.
      assert (nodes g ≠ []) as Hnodes by (apply (Hne _ k Hk), validRefs_mechanisms).
      unfold final. rewrite (autoArrangeNodes_portrait w g Hnodes Hmode).
      rewrite (portrait_mechanism_column w g k node b Hk Hb).
      unfold resourceSize. by rewrite Hsize.
    + intros k b Hk Hb.
      assert (nodes g ≠ []) as Hnodes by (apply (Hne _ k Hk), validRefs_secondaries).
      unfold final. rewrite (autoArrangeNodes_portrait w g Hnodes Hmode).
      rewrite (portrait_secondary_spacing w g k node b Hk Hb).
      unfold processSize. by rewrite Hsize.
Qed.

Lemma unmeasured_node_uses_fallback_witness :
  let final := autoArrangeNodes wideWindow twoProcesses in
  getElementById wideWindow (id (refAt twoProcesses 2).2) = None
  ∧ y (positionOf final (refAt twoProcesses 3))
    = y (positionOf final (refAt twoProcesses 2)) + (120 + 30).
Proof.
  split; [reflexivity|].
  assert ((refAt twoProcesses 0, [refAt twoProcesses 2; refAt twoProcesses 3])
          ∈ inGroupsOf twoProcesses) as Hentry by in_list.
  exact (proj1 (proj1 (proj2 (proj2 (proj2 (unmeasured_node_uses_fallback wideWindow
                                              twoProcesses (refAt twoProcesses 2)
                                              eq_refl)))) eq_refl)
           _ _ 0%nat _ (or_introl Hentry) eq_refl eq_refl).
Defined.
End LayoutSpec.

(** ** Saving and loading *)

Module PersistSpec.
Import Layout Persist.
Local Open Scope float_scope.

Definition nodeId (node : Node) : string := id (info node).
Definition stateId (nodeState : NodeState) : string := id (state_info nodeState).

Lemma metaById_snoc metas meta :
  metaById (metas ++ [meta]) = <[meta_id meta := meta]> (metaById metas).
Proof. unfold metaById. by rewrite foldl_snoc. Qed.

(** With ids that differ, every saved entry is found under its id. *)
Lemma metaById_lookup metas meta :
  NoDup (meta_id <$> metas) → meta ∈ metas →
  metaById metas !! meta_id meta = Some meta.
Proof.
  induction metas as [|m metas IH] using rev_ind; intros Hnd Hin.
  - by apply elem_of_nil in Hin.
  - rewrite metaById_snoc. rewrite fmap_app in Hnd. simpl in Hnd.
    apply NoDup_app in Hnd as (Hnd & Hdisj & _).
    apply elem_of_app in Hin as [Hin|Hin].
    + rewrite lookup_insert_ne; [by apply IH|].
      intros Heq. apply (Hdisj (meta_id meta)).
      * by apply list_elem_of_fmap_2.
      * rewrite Heq. by left.
    + apply list_elem_of_singleton in Hin as ->. apply lookup_insert_eq.
Qed.



Lemma enrich_id byId nodeState : stateId (enrich byId nodeState) = stateId nodeState.
Proof.
  unfold enrich, stateId.
  destruct (byId !! id (state_info nodeState)) as [meta|]; [|done].
  destruct (meta_resourceType meta) as [rt|]; [|done].
  by destruct (truthy rt && negb (truthy (resourceType (state_info nodeState)))).
Qed.

Lemma restoreNode_id byId node : nodeId (restoreNode byId node) = nodeId node.
Proof.
  unfold restoreNode, nodeId.
  destruct (byId !! id (info node)) as [meta|]; [|done]. simpl.
  destruct (truthy (meta_title meta)); simpl;
    by destruct (String.eqb (type (info node)) "ResourceNode").
Qed.


(** *** The two frames of a refresh *)

Definition moveNode (move : float → float) (node : Node) : Node :=
  {| info := info node;
     position := {| x := move (x (position node)); y := move (y (position node)) |} |}.

Lemma nudge_from move rest :
  ∀ before g, nodes g = before ++ rest →
    nodes (foldl (λ g' node, setPos g' node (move (x (positionOf g' node)))
                               (move (y (positionOf g' node))))
             g (imap (λ i n, ((length before + i)%nat, info n)) rest))
    = before ++ (moveNode move <$> rest).
Proof.
  induction rest as [|n rest IH]; intros before g Hg; [done|].
  simpl. rewrite Nat.add_0_r.
  assert (positionOf g (length before, info n) = position n) as Hpos.
  { unfold positionOf. simpl. by rewrite Hg, list_lookup_middle. }
  rewrite Hpos.
  rewrite (imap_ext _ (λ i n0, ((length (before ++ [moveNode move n]) + i)%nat, info n0)))
    by (intros i n0 _; simpl; rewrite length_app; simpl; f_equal; lia).
  rewrite (IH (before ++ [moveNode move n])); [by rewrite <- app_assoc|].
  unfold setPos. simpl. rewrite Hg.
  replace (length before) with (length before + 0)%nat by lia.
  rewrite alter_app_r. simpl. by rewrite <- app_assoc.
Qed.

Lemma nudge_nodes move g : nodes (nudge move g) = moveNode move <$> nodes g.
Proof.
  unfold nudge, refs.
  exact (nudge_from move (nodes g) [] g eq_refl).
Qed.



Lemma refreshFrames_ids g : nodeId <$> nodes (refreshFrames g) = nodeId <$> nodes g.
Proof.
  unfold refreshFrames. destruct (nodes g) eqn:Hnodes; [by rewrite Hnodes|].
  rewrite !nudge_nodes, Hnodes, <- !list_fmap_compose. by apply list_fmap_ext.
Qed.


Section SaveLoad.

Variable graph_save : Graph → GraphState.
Variable graph_load : GraphState → Graph.

(** What is asked of the graph library: a saved graph has one node state
    per node, with the id of the node, and loading creates one node per
    node state, with the id of the state.  Nothing is asked about the
    positions the library restores. *)
Hypothesis save_ids : ∀ g, stateId <$> state_nodes (graph_save g) = nodeId <$> nodes g.
Hypothesis load_ids : ∀ s, nodeId <$> nodes (graph_load s) = stateId <$> state_nodes s.




End SaveLoad.

Lemma plainSave_ids g : stateId <$> state_nodes (plainSave g) = nodeId <$> nodes g.
Proof. unfold plainSave; simpl. by rewrite <- list_fmap_compose. Qed.

Lemma plainLoad_ids s : nodeId <$> nodes (plainLoad s) = stateId <$> state_nodes s.
Proof. unfold plainLoad; simpl. by rewrite <- list_fmap_compose. Qed.

(** The editor with the diagram [twoProcesses] after a pass, at rest. *)
Definition arrangedApp : App :=
  {| displayedGraph := autoArrangeNodes LayoutSpec.wideWindow LayoutSpec.twoProcesses;
     suppressAutoArrange := false;
     timers := [];
     pending := [] |}.





(** Without the flag the same change of the counts would schedule a pass. *)
Example watcher_fires_without_flag :
  timers (watchCallback arrangedApp) = [(50, AutoArrange); (100, RefreshConnectionCoords)]%nat.
Proof. reflexivity. Qed.
(** *** Which entry of the payload a node is restored from *)

(** The entries of [metas] with the id [i]. *)
Definition entriesOf (i : string) (metas : list SavedNodeMeta) : list SavedNodeMeta :=
  filter (λ meta, meta_id meta = i) metas.

Lemma metaById_last metas i : metaById metas !! i = last (entriesOf i metas).
Proof.
  induction metas as [|m metas IH] using rev_ind; [done|].
  rewrite metaById_snoc. unfold entriesOf in *. rewrite filter_app.
  destruct (decide (meta_id m = i)) as [<-|Hne].
  - rewrite lookup_insert_eq, filter_cons_True, filter_nil by done.
    by rewrite last_snoc.
  - rewrite lookup_insert_ne, filter_cons_False, filter_nil, app_nil_r by done.
    exact IH.
Qed.

(** X20.  When a payload is applied, a loaded node whose id no entry of
    [payload.nodes] has is left as the library loaded it.  A node whose id
    one or more entries have is restored from the last of them: it gets the
    position of that entry, its title if that is not empty, and, if it is a
    resource node, its resource kind if the entry has one; its id, its type
    and its interfaces stay. *)
Theorem restoreNode_uses_last_entry (metas : list SavedNodeMeta) (node : Node) :
  let restored := restoreNode (metaById metas) node in
  ((∀ meta, meta ∈ metas → meta_id meta ≠ nodeId node) → restored = node)
  ∧ (∀ meta, last (entriesOf (nodeId node) metas) = Some meta →
       position restored = meta_position meta
       ∧ title (info restored)
         = (if truthy (meta_title meta) then meta_title meta else title (info node))
       ∧ resourceType (info restored)
         = (if String.eqb (type (info node)) "ResourceNode"
            then default (resourceType (info node)) (meta_resourceType meta)
            else resourceType (info node))
       ∧ id (info restored) = id (info node)
       ∧ type (info restored) = type (info node)
       ∧ inputs (info restored) = inputs (info node)
       ∧ outputs (info restored) = outputs (info node)).
Proof.
  intros restored. unfold restored, restoreNode.
  fold (nodeId node). rewrite metaById_last. split.
  - intros Hnone.
    destruct (entriesOf (nodeId node) metas) as [|m l] eqn:Hent; [done|].
    exfalso. assert (m ∈ entriesOf (nodeId node) metas) as Hin by (rewrite Hent; by left).
    apply list_elem_of_filter in Hin as [Hid Hin]. by apply (Hnone m).
  - intros meta ->. simpl.
    destruct (meta_position meta) as [px py]. simpl.
    destruct (truthy (meta_title meta)); simpl;
      destruct (String.eqb (type (info node)) "ResourceNode"); simpl; done.
Qed.

(** *** Titles and resource kinds over a save and a load *)

Definition nodeType (node : Node) : string := type (info node).
Definition stateType (nodeState : NodeState) : string := type (state_info nodeState).

Lemma enrich_type byId nodeState : stateType (enrich byId nodeState) = stateType nodeState.
Proof.
  unfold enrich, stateType.
  destruct (byId !! id (state_info nodeState)) as [meta|]; [|done].
  destruct (meta_resourceType meta) as [rt|]; [|done].
  by destruct (truthy rt && negb (truthy (resourceType (state_info nodeState)))).
Qed.

Lemma truthy_nonempty s : s ≠ EmptyString → truthy s = true.
Proof.
  intros Hne. unfold truthy. destruct (String.eqb s "") eqn:Heq; [|done].
  by apply String.eqb_eq in Heq.
Qed.

Section SaveLoadKinds.

Variable graph_save : Graph → GraphState.
Variable graph_load : GraphState → Graph.

(** What is asked of the graph library here: saving and loading keep the
    nodes in their order, each with its id and its type.  Nothing is asked
    about the titles, the resource kinds or the positions it restores. *)
Hypothesis save_ids : ∀ g, stateId <$> state_nodes (graph_save g) = nodeId <$> nodes g.
Hypothesis load_ids : ∀ s, nodeId <$> nodes (graph_load s) = stateId <$> state_nodes s.
Hypothesis save_types :
  ∀ g, stateType <$> state_nodes (graph_save g) = nodeType <$> nodes g.
Hypothesis load_types :
  ∀ s, nodeType <$> nodes (graph_load s) = stateType <$> state_nodes s.

(** X21.  Over a save and a load every node keeps its title, unless the
    title is empty, and every resource node keeps its resource kind,
    whatever title and kind the library restores; ids and types are those
    the library restores, which are those of the saved nodes. *)
Theorem save_and_reload_keeps_titles_and_kinds (app : App) (i : nat) (before : Node) :
  NoDup (nodeId <$> nodes (displayedGraph app)) →
  nodes (displayedGraph app) !! i = Some before →
  let loaded := applyFlowPayload graph_load app (buildFlowPayload graph_save app) in
  ∃ after, nodes (displayedGraph loaded) !! i = Some after
    ∧ nodeId after = nodeId before
    ∧ nodeType after = nodeType before
    ∧ (title (info before) ≠ EmptyString → title (info after) = title (info before))
    ∧ (nodeType before = "ResourceNode" →
       resourceType (info after) = resourceType (info before)).
Proof.
  intros Hnd Hbefore loaded. unfold loaded, applyFlowPayload, buildFlowPayload. simpl.
  set (g := displayedGraph app) in *.
  set (byId := metaById (metaOf <$> nodes g)).
  set (enriched := {| state_nodes := enrich byId <$> state_nodes (graph_save g);
                      state_connections := state_connections (graph_save g);
                      state_scaling := state_scaling (graph_save g);
                      state_panning := state_panning (graph_save g) |}).
  pose proof (load_ids enriched) as Hids. pose proof (load_types enriched) as Htypes.
  unfold enriched in Hids at 2. unfold enriched in Htypes at 2. simpl in Hids, Htypes.
  rewrite <- list_fmap_compose in Hids, Htypes.
  rewrite (list_fmap_ext (stateId ∘ enrich byId) stateId) in Hids
    by (intros; apply enrich_id).
  rewrite (list_fmap_ext (stateType ∘ enrich byId) stateType) in Htypes
    by (intros; apply enrich_type).
  rewrite save_ids in Hids. rewrite save_types in Htypes.
  apply (f_equal (λ l, l !! i)) in Hids, Htypes.
  rewrite !list_lookup_fmap, Hbefore in Hids, Htypes.
  rewrite list_lookup_fmap.
  destruct (nodes (graph_load enriched) !! i) as [l|]; simpl in *; [|done].
  injection Hids as Hid. injection Htypes as Hty.
  assert (byId !! id (info l) = Some (metaOf before)) as Hmeta.
  { unfold nodeId in Hid. rewrite Hid.
    change (id (info before)) with (meta_id (metaOf before)).
    apply metaById_lookup.
    - rewrite <- list_fmap_compose.
      by rewrite (list_fmap_ext (meta_id ∘ metaOf) nodeId) by done.
    - apply list_elem_of_fmap_2. by eapply list_elem_of_lookup_2. }
  exists (restoreNode byId l). split; [done|].
  split; [by rewrite restoreNode_id|].
  unfold restoreNode, nodeType in *. rewrite Hmeta. simpl.
  split; [|split].
  - destruct (truthy (title (info before))); simpl;
      by destruct (String.eqb (type (info l)) "ResourceNode").
  - intros Htitle. rewrite (truthy_nonempty _ Htitle). simpl.
    by destruct (String.eqb (type (info l)) "ResourceNode").
  - intros Hres. rewrite Hres.
    assert (String.eqb (type (info l)) "ResourceNode" = true) as Heq
      by (apply String.eqb_eq; congruence).
    destruct (truthy (title (info before))); simpl; by rewrite Heq.
Qed.

End SaveLoadKinds.

Lemma plainSave_types g : stateType <$> state_nodes (plainSave g) = nodeType <$> nodes g.
Proof. unfold plainSave; simpl. by rewrite <- list_fmap_compose. Qed.

Lemma plainLoad_types s : nodeType <$> nodes (plainLoad s) = stateType <$> state_nodes s.
Proof. unfold plainLoad; simpl. by rewrite <- list_fmap_compose. Qed.

(** The editor with the diagram [twoProcesses] as it was built. *)
Definition freshApp : App :=
  {| displayedGraph := LayoutSpec.twoProcesses;
     suppressAutoArrange := false;
     timers := [];
     pending := [] |}.

Lemma freshApp_ids : NoDup (nodeId <$> nodes (displayedGraph freshApp)).
Proof.
  vm_compute.
  repeat constructor; intros H;
    repeat (apply elem_of_cons in H as [H|H]; [discriminate H|]);
    by apply elem_of_nil in H.
Qed.

Lemma save_and_reload_keeps_titles_and_kinds_witness :
  let before := LayoutSpec.mkNode "i1" "ResourceNode" "Input 1" "input" [] [30]%nat in
  nodes (displayedGraph freshApp) !! 2%nat = Some before
  ∧ ∃ after,
      nodes (displayedGraph
               (applyFlowPayload plainLoad freshApp
                  (buildFlowPayload plainSave freshApp))) !! 2%nat = Some after
      ∧ title (info after) = "Input 1" ∧ resourceType (info after) = "input".
Proof.
  intros before. split; [reflexivity|].
  destruct (save_and_reload_keeps_titles_and_kinds plainSave plainLoad
              plainSave_ids plainLoad_ids plainSave_types plainLoad_types
              freshApp 2 before freshApp_ids eq_refl)
    as (after & Hafter & _ & _ & Htitle & Hkind).
  exists after. split; [exact Hafter|].
  split; [by apply Htitle | by apply Hkind].
Defined.

End PersistSpec.

(** * Texts, patterns, the stored sign-in and saving *)

Module FlowSpec.
Import Text Pattern.

Local Ltac in_list_text := repeat first [apply list_elem_of_here | apply list_elem_of_further].

(** ** The pattern test decides the denotation *)

Lemma append_cons (c : ascii) (s1 s2 : string) :
  String c s1 +:+ s2 = String c (s1 +:+ s2).
Proof. reflexivity. Qed.

Lemma append_nil_l (s : string) : "" +:+ s = s.
Proof. reflexivity. Qed.

Lemma append_nil_r (s : string) : s +:+ "" = s.
Proof. induction s as [|c s IH]; [done|]. by rewrite append_cons, IH. Qed.

Lemma append_assoc (s1 s2 s3 : string) : (s1 +:+ s2) +:+ s3 = s1 +:+ (s2 +:+ s3).
Proof. induction s1 as [|c s1 IH]; [done|]. by rewrite !append_cons, IH. Qed.

Lemma append_eq_nil (s1 s2 : string) : s1 +:+ s2 = "" → s1 = "" ∧ s2 = "".
Proof. by destruct s1. Qed.

Lemma matches_never_inv (s : string) : ¬ matches Never s.
Proof. inversion 1. Qed.

Lemma matches_empty_inv (s : string) : matches Empty s → s = "".
Proof. by inversion 1. Qed.

Lemma matches_class_inv (p : ascii → bool) (s : string) :
  matches (Class p) s → ∃ c, s = String c "" ∧ p c = true.
Proof. inversion 1; subst; eauto. Qed.

Lemma matches_seq_inv (r1 r2 : t) (s : string) :
  matches (Seq r1 r2) s → ∃ s1 s2, s = s1 +:+ s2 ∧ matches r1 s1 ∧ matches r2 s2.
Proof. inversion 1; subst; eauto. Qed.

Lemma matches_or_inv (r1 r2 : t) (s : string) :
  matches (Or r1 r2) s → matches r1 s ∨ matches r2 s.
Proof. inversion 1; subst; eauto. Qed.

Lemma nullable_matches (r : t) : nullable r = true ↔ matches r "".
Proof.
  induction r as [| |p|r1 IH1 r2 IH2|r1 IH1 r2 IH2|r IH]; simpl.
  - split; [done|]. by intros ?%matches_never_inv.
  - split; [constructor|done].
  - split; [done|]. by intros (c & ? & _)%matches_class_inv.
  - rewrite andb_true_iff, IH1, IH2. split.
    + intros [H1 H2]. exact (matches_seq _ _ "" "" H1 H2).
    + intros (s1 & s2 & Heq & H1 & H2)%matches_seq_inv.
      symmetry in Heq. apply append_eq_nil in Heq as [-> ->]. done.
  - rewrite orb_true_iff, IH1, IH2. split.
    + intros [H|H]; [by apply matches_or_l|by apply matches_or_r].
    + apply matches_or_inv.
  - split; [constructor|done].
Qed.

(** A match of [r*] that starts with [c] starts with a match of [r] that
    starts with [c]. *)
Lemma matches_star_cons (r : t) (c : ascii) (s : string) :
  matches (Star r) (String c s) →
  ∃ s1 s2, s = s1 +:+ s2 ∧ matches r (String c s1) ∧ matches (Star r) s2.
Proof.
  intros H. remember (Star r) as r' eqn:Hr. remember (String c s) as cs eqn:Hcs.
  revert s Hcs. induction H as [| | | | | |r0 s1 s2 H1 _ H2 IH2]; try done.
  injection Hr as ->. intros s Hcs.
  destruct s1 as [|c1 s1]; [rewrite append_nil_l in Hcs|rewrite append_cons in Hcs].
  - by apply IH2.
  - injection Hcs as -> <-. by exists s1, s2.
Qed.

Lemma derive_matches (r : t) (c : ascii) (s : string) :
  matches (derive c r) s ↔ matches r (String c s).
Proof.
  revert s. induction r as [| |p|r1 IH1 r2 IH2|r1 IH1 r2 IH2|r IH]; intros s; simpl.
  - split; by intros ?%matches_never_inv.
  - split; [by intros ?%matches_never_inv|by intros ?%matches_empty_inv].
  - destruct (p c) eqn:Hp; split.
    + intros ->%matches_empty_inv. by constructor.
    + intros (c' & [= <- ->] & _)%matches_class_inv. constructor.
    + by intros ?%matches_never_inv.
    + intros (c' & [= <- ->] & ?)%matches_class_inv. congruence.
  - assert (matches (Seq (derive c r1) r2) s →
            matches (Seq r1 r2) (String c s)) as Hfirst.
    { intros (s1 & s2 & -> & H1 & H2)%matches_seq_inv.
      apply IH1 in H1. exact (matches_seq _ _ _ _ H1 H2). }
    assert (matches (Seq r1 r2) (String c s) →
            matches (Seq (derive c r1) r2) s ∨
            nullable r1 = true ∧ matches (derive c r2) s) as Hback.
    { intros (s1 & s2 & Heq & H1 & H2)%matches_seq_inv.
      destruct s1 as [|c1 s1];
        [rewrite append_nil_l in Heq|rewrite append_cons in Heq].
      - right. split; [by apply nullable_matches|]. apply IH2. by rewrite Heq.
      - injection Heq as -> ->. left. constructor; [by apply IH1|done]. }
    destruct (nullable r1) eqn:Hnull; split.
    + intros [H|H]%matches_or_inv; [by apply Hfirst|].
      apply (matches_seq _ _ "" (String c s)); [by apply nullable_matches|by apply IH2].
    + intros H. destruct (Hback H) as [H'|[_ H']];
        [by apply matches_or_l|by apply matches_or_r].
    + apply Hfirst.
    + intros H. by destruct (Hback H) as [H'|[? _]].
  - split.
    + intros [H|H]%matches_or_inv; [apply matches_or_l, IH1|apply matches_or_r, IH2]; done.
    + intros [H|H]%matches_or_inv; [apply matches_or_l, IH1|apply matches_or_r, IH2]; done.
  - split.
    + intros (s1 & s2 & -> & H1 & H2)%matches_seq_inv.
      apply IH in H1. exact (matches_star_more _ _ _ H1 H2).
    + intros H. apply matches_star_cons in H as (s1 & s2 & -> & H1 & H2).
      constructor; [by apply IH|done].
Qed.

Lemma test_matches (r : t) (s : string) : test r s = true ↔ matches r s.
Proof.
  revert r. induction s as [|c s IH]; intros r; simpl.
  - apply nullable_matches.
  - by rewrite IH, derive_matches.
Qed.

(** ** Classes, repeated *)

Lemma matches_star_class (p : ascii → bool) (s : string) :
  matches (Star (Class p)) s ↔ allChars p s = true.
Proof.
  induction s as [|c s IH]; simpl.
  - split; [done|constructor].
  - rewrite andb_true_iff, <- IH. split.
    + intros (s1 & s2 & -> & (c' & Heq & Hp)%matches_class_inv & H2)%matches_star_cons.
      injection Heq as -> ->. by rewrite append_nil_l.
    + intros [Hp H]. apply (matches_star_more _ (String c "") s); [by constructor|done].
Qed.

Lemma matches_plus_class (p : ascii → bool) (s : string) :
  matches (Plus (Class p)) s ↔ s ≠ "" ∧ allChars p s = true.
Proof.
  split.
  - intros (s1 & s2 & -> & (c & -> & Hp)%matches_class_inv & H2)%matches_seq_inv.
    apply matches_star_class in H2. rewrite append_cons, append_nil_l.
    split; [done|]. simpl. by rewrite Hp, H2.
  - intros [Hne Hall]. destruct s as [|c s]; [done|]. simpl in Hall.
    apply andb_true_iff in Hall as [Hp Hall].
    apply (matches_seq _ _ (String c "") s); [by constructor|by apply matches_star_class].
Qed.

Lemma matches_lit (c : ascii) (s : string) : matches (Lit c) s ↔ s = String c "".
Proof.
  split.
  - intros (c' & -> & Hc)%matches_class_inv. apply Ascii.eqb_eq in Hc. by subst.
  - intros ->. constructor. apply Ascii.eqb_refl.
Qed.

Lemma matches_seq_iff (r1 r2 : t) (s : string) :
  matches (Seq r1 r2) s ↔ ∃ s1 s2, s = s1 +:+ s2 ∧ matches r1 s1 ∧ matches r2 s2.
Proof.
  split; [apply matches_seq_inv|]. intros (s1 & s2 & -> & H1 & H2). by constructor.
Qed.

Lemma allChars_app (p : ascii → bool) (s1 s2 : string) :
  allChars p (s1 +:+ s2) = allChars p s1 && allChars p s2.
Proof.
  induction s1 as [|c s1 IH]; [done|]. rewrite append_cons. simpl.
  by rewrite IH, andb_assoc.
Qed.

Lemma allChars_impl (p q : ascii → bool) (s : string) :
  (∀ c, p c = true → q c = true) → allChars p s = true → allChars q s = true.
Proof.
  intros Hpq. induction s as [|c s IH]; simpl; [done|].
  rewrite !andb_true_iff. intros [? ?]. auto.
Qed.

(** ** isValidEmail and parseFlowIdFromUrl *)

Import Flow.

(** The code units below 128, and the white space among them: tab, line
    feed, vertical tab, form feed, carriage return and space. *)
Definition isAscii (c : ascii) : bool := (nat_of_ascii c <? 128)%nat.

Definition isAsciiSpace (c : ascii) : bool :=
  let n := nat_of_ascii c in
  ((9 <=? n)%nat && (n <=? 13)%nat) || (n =? 32)%nat.

Definition notAsciiSpaceNorAt (c : ascii) : bool :=
  negb (isAsciiSpace c) && negb (Ascii.eqb c "@").

Lemma notSpaceNorAt_ascii (c : ascii) :
  isAscii c = true → notSpaceNorAt c = notAsciiSpaceNorAt c.
Proof.
  unfold isAscii, notSpaceNorAt, notAsciiSpaceNorAt, isWhiteSpace, isAsciiSpace.
  intros Hc%Nat.ltb_lt.
  destruct (Nat.eqb_spec (nat_of_ascii c) 160) as [Heq|_]; [lia|].
  by rewrite orb_false_r.
Qed.

Lemma allChars_ascii_class (s : string) :
  allChars isAscii s = true →
  allChars notSpaceNorAt s = allChars notAsciiSpaceNorAt s.
Proof.
  induction s as [|c s IH]; simpl; [done|].
  intros [Hc Hs]%andb_true_iff. by rewrite (notSpaceNorAt_ascii c Hc), (IH Hs).
Qed.

(** X22.  Of the strings of code units below 128, [isValidEmail] accepts
    exactly those made of a first part, [@], a second part, a dot and a
    third part, where the three parts are not empty and hold neither [@]
    nor white space, which is tab, line feed, vertical tab, form feed,
    carriage return and space.  (The second and the third part may hold
    dots.) *)
Theorem isValidEmail_shape (value : string) :
  allChars isAscii value = true →
  isValidEmail value = true ↔
  ∃ name domain tail,
    value = name +:+ "@" +:+ domain +:+ "." +:+ tail
    ∧ name ≠ "" ∧ domain ≠ "" ∧ tail ≠ ""
    ∧ allChars notAsciiSpaceNorAt name = true
    ∧ allChars notAsciiSpaceNorAt domain = true
    ∧ allChars notAsciiSpaceNorAt tail = true.
Proof.
  intros Hascii.
  assert (∀ name domain tail, value = name +:+ "@" +:+ domain +:+ "." +:+ tail →
            allChars isAscii name = true ∧ allChars isAscii domain = true
            ∧ allChars isAscii tail = true) as Hparts.
  { intros name domain tail ->.
    rewrite !allChars_app, !andb_true_iff in Hascii. tauto. }
  unfold isValidEmail, emailPattern. rewrite test_matches. split.
  - intros (name & s1 & -> & Hname & H1)%matches_seq_inv.
    apply matches_seq_inv in H1 as (at' & s2 & -> & ->%matches_lit & H2).
    apply matches_seq_inv in H2 as (domain & s3 & -> & Hdomain & H3).
    apply matches_seq_inv in H3 as (dot & tail & -> & ->%matches_lit & Htail).
    apply matches_plus_class in Hname as [? ?], Hdomain as [? ?], Htail as [? ?].
    destruct (Hparts name domain tail eq_refl) as (Hn & Hd & Ht).
    exists name, domain, tail.
    rewrite <- (allChars_ascii_class name Hn), <- (allChars_ascii_class domain Hd),
      <- (allChars_ascii_class tail Ht).
    done.
  - intros (name & domain & tail & Hvalue & ? & ? & ? & Hcn & Hcd & Hct).
    destruct (Hparts name domain tail Hvalue) as (Hn & Hd & Ht).
    rewrite <- (allChars_ascii_class name Hn) in Hcn.
    rewrite <- (allChars_ascii_class domain Hd) in Hcd.
    rewrite <- (allChars_ascii_class tail Ht) in Hct.
    subst value.
    apply matches_seq; [by apply matches_plus_class|].
    apply (matches_seq _ _ "@"); [by apply matches_lit|].
    apply matches_seq; [by apply matches_plus_class|].
    apply (matches_seq _ _ "."); [by apply matches_lit|].
    by apply matches_plus_class.
Qed.

Lemma isValidEmail_shape_witness :
  allChars isAscii "ann@example.org" = true
  ∧ isValidEmail "ann@example.org" = true
  ∧ ∃ name domain tail,
      "ann@example.org" = name +:+ "@" +:+ domain +:+ "." +:+ tail
      ∧ name ≠ "" ∧ domain ≠ "" ∧ tail ≠ ""
      ∧ allChars notAsciiSpaceNorAt name = true
      ∧ allChars notAsciiSpaceNorAt domain = true
      ∧ allChars notAsciiSpaceNorAt tail = true.
Proof.
  split; [reflexivity|]. split; [reflexivity|].
  exact (proj1 (isValidEmail_shape "ann@example.org" eq_refl) eq_refl).
Defined.

Lemma parseFlowIdFromUrl_shape (pathname id : string) :
  parseFlowIdFromUrl pathname = Some id ↔
  pathname = "/s/" +:+ id ∧ id ≠ "" ∧ allChars notSlash id = true.
Proof.
  unfold parseFlowIdFromUrl, flowPathPattern.
  destruct (test _ pathname) eqn:Htest.
  - apply test_matches in Htest.
    apply matches_seq_inv in Htest as (? & s1 & -> & ->%matches_lit & H1).
    apply matches_seq_inv in H1 as (? & s2 & -> & ->%matches_lit & H2).
    apply matches_seq_inv in H2 as (? & s3 & -> & ->%matches_lit & H3).
    apply matches_plus_class in H3 as [? ?]. simpl. split.
    + by intros [= <-].
    + intros [[= ->] _]. done.
  - split; [done|]. intros (-> & ? & ?). apply not_true_iff_false in Htest.
    destruct Htest. apply test_matches.
    apply (matches_seq _ _ "/"); [by apply matches_lit|].
    apply (matches_seq _ _ "s"); [by apply matches_lit|].
    apply (matches_seq _ _ "/"); [by apply matches_lit|].
    by apply matches_plus_class.
Qed.

Lemma isUuidChar_notSlash (c : ascii) : isUuidChar c = true → notSlash c = true.
Proof.
  unfold isUuidChar, notSlash. intros H.
  destruct (Ascii.eqb_spec c "/") as [->|]; [|done]. by vm_compute in H.
Qed.

Lemma flow_url_parse (pathname id : string) :
  id ≠ "" → allChars isUuidChar id = true →
  parseFlowIdFromUrl (updateUrlWithId pathname id) = Some id.
Proof.
  intros Hne Hall.
  assert (parseFlowIdFromUrl ("/s/" +:+ id) = Some id) as Hparse.
  { apply parseFlowIdFromUrl_shape. repeat split; [done|].
    revert Hall. apply allChars_impl, isUuidChar_notSlash. }
  unfold updateUrlWithId. cbv zeta.
  destruct (String.eqb_spec pathname ("/s/" +:+ id)) as [->|]; done.
Qed.

(** X23.  The path that [updateUrlWithId] leaves for a non-empty id of
    digits, letters [a] to [f] and [-] is read back as this id by
    [parseFlowIdFromUrl], whatever the path was before; and
    [parseFlowIdFromUrl] reads an id from the paths [/s/<id>] with a
    non-empty id without [/] only. *)
Theorem flow_url_round_trip (pathname id : string) :
  id ≠ "" → allChars isUuidChar id = true →
  parseFlowIdFromUrl (updateUrlWithId pathname id) = Some id
  ∧ ∀ path id', parseFlowIdFromUrl path = Some id' →
      path = "/s/" +:+ id' ∧ id' ≠ "" ∧ allChars notSlash id' = true.
Proof.
  intros Hne Hall. split; [|intros path id'; apply parseFlowIdFromUrl_shape].
  by apply flow_url_parse.
Qed.

Lemma flow_url_round_trip_witness :
  parseFlowIdFromUrl (updateUrlWithId "/" "3f2a-9c") = Some "3f2a-9c".
Proof. by apply (flow_url_round_trip "/" "3f2a-9c"). Defined.

(** ** The stored sign-in *)

Lemma truthy_true (s : string) : truthy s = true ↔ s ≠ "".
Proof.
  unfold truthy. destruct (String.eqb_spec s ""); simpl; split; congruence.
Qed.

Lemma trim_nil : trim "" = "".
Proof. reflexivity. Qed.

Lemma notBlank_Some (value : option string) (v : string) :
  Auth.notBlank value = Some v ↔ value = Some v ∧ trim v ≠ "".
Proof.
  unfold Auth.notBlank. destruct value as [w|]; [|split; [done|by intros [? _]]].
  destruct (truthy w) eqn:Hw, (truthy (trim w)) eqn:Htrim; simpl;
    rewrite <- ?not_true_iff_false in *; rewrite ?truthy_true in *.
  - split; [by intros [= ->]|by intros [[= ->] _]].
  - split; [done|]. intros [[= ->] ?]. done.
  - split; [done|]. intros [[= ->] ?]. destruct Hw. intros ->. done.
  - split; [done|]. intros [[= ->] ?]. done.
Qed.

Lemma setIfTruthy_other (key key' : string) (value : option string)
    (storage : gmap string string) :
  key ≠ key' → Auth.setIfTruthy key value storage !! key' = storage !! key'.
Proof.
  intros Hne. unfold Auth.setIfTruthy. destruct value as [v|]; [|done].
  destruct (truthy v); [|done]. by rewrite lookup_insert_ne.
Qed.

(** X24.  After [storeAuthToken], [getStoredAuthToken] gives the token of
    the profile if it is not blank, and nothing if it is; the stored e-mail
    is the one of the profile if it has a non-empty one, and otherwise the
    one that was stored before, which [storeAuthToken] leaves in place.
    After [clearAuthToken] neither a token nor an e-mail is found, and the
    other keys of the storage are as before. *)
Theorem stored_sign_in_round_trip (profile : Auth.ReownAuthProfile)
    (storage : gmap string string) :
  Auth.getStoredAuthToken (Auth.storeAuthToken profile storage)
    = Auth.notBlank (Some (Auth.token profile))
  ∧ Auth.getStoredEmail (Auth.storeAuthToken profile storage)
    = (if truthyOpt (Auth.email profile) then Auth.notBlank (Auth.email profile)
       else Auth.getStoredEmail storage)
  ∧ Auth.getStoredAuthToken (Auth.clearAuthToken storage) = None
  ∧ Auth.getStoredEmail (Auth.clearAuthToken storage) = None
  ∧ ∀ key, key ∉ ["auth"; "reown_address"; "reown_email"; "reown_provider"] →
      Auth.clearAuthToken storage !! key = storage !! key.
Proof.
  unfold Auth.getStoredAuthToken, Auth.getStoredEmail. repeat split.
  - unfold Auth.storeAuthToken. rewrite !setIfTruthy_other by done.
    by rewrite lookup_insert_eq.
  - unfold Auth.storeAuthToken. rewrite setIfTruthy_other by done.
    unfold Auth.setIfTruthy at 1, truthyOpt. destruct (Auth.email profile) as [v|].
    + destruct (truthy v); [by rewrite lookup_insert_eq|].
      rewrite setIfTruthy_other by done. by rewrite lookup_insert_ne.
    + rewrite setIfTruthy_other by done. by rewrite lookup_insert_ne.
  - unfold Auth.clearAuthToken. rewrite !lookup_delete_ne by done.
    by rewrite lookup_delete_eq.
  - unfold Auth.clearAuthToken. rewrite lookup_delete_ne by done.
    by rewrite lookup_delete_eq.
  - intros key Hkey. unfold Auth.clearAuthToken.
    rewrite !lookup_delete_ne; [done|..]; intros <-; apply Hkey; in_list_text.
Qed.

(** ** Saving *)

Lemma restoreEmail_fields (e : Editor) :
  isSaving (restoreEmail e) = isSaving e
  ∧ saveError (restoreEmail e) = saveError e
  ∧ contactPhone (restoreEmail e) = contactPhone e
  ∧ currentFlowId (restoreEmail e) = currentFlowId e
  ∧ authToken (restoreEmail e) = authToken e
  ∧ localStorage (restoreEmail e) = localStorage e
  ∧ pathname (restoreEmail e) = pathname e.
Proof.
  unfold restoreEmail. destruct (negb _); [|done]. cbv zeta.
  by destruct (truthy _).
Qed.

Lemma restoreEmail_email (e : Editor) :
  contactEmail (restoreEmail e) = contactEmail e
  ∨ trim (contactEmail e) = ""
    ∧ Auth.getStoredEmail (localStorage e) = Some (contactEmail (restoreEmail e)).
Proof.
  unfold restoreEmail. destruct (truthy (trim (contactEmail e))) eqn:Hblank; simpl;
    [by left|].
  apply not_true_iff_false in Hblank. rewrite truthy_true in Hblank.
  apply dec_stable in Hblank.
  destruct (truthy (readStoredEmail e)) eqn:Hstored; [|by left]. right.
  split; [done|]. simpl. unfold readStoredEmail in *.
  destruct (Auth.getStoredEmail (localStorage e)) as [v|]; [|done].
  by destruct (truthy v).
Qed.

Lemma getAuthToken_restoreEmail (e : Editor) (msg : string) :
  getAuthToken (restoreEmail (withError e msg)) = getAuthToken e.
Proof.
  unfold getAuthToken.
  destruct (restoreEmail_fields (withError e msg)) as (_ & _ & _ & _ & -> & -> & _).
  done.
Qed.

Lemma getAuthToken_truthy (e : Editor) :
  truthyOpt (getAuthToken e) = true → ∃ token, token ≠ "" ∧ getAuthToken e = Some token.
Proof.
  destruct (getAuthToken e) as [token|]; [|done]. simpl. intros Htoken%truthy_true.
  by exists token.
Qed.

(** X25.  [handleSaveFlow] starts a request only when no save is under
    way, the phone number is not blank and the e-mail (the one typed, or
    the stored one of the sign-in when the field was blank) passes
    [isValidEmail] after trimming.  The request is a [PUT] to the address
    of the flow when the editor has the id of a flow, and otherwise a
    [POST] to [/api/flows] that carries a non-empty bearer token: a new
    flow is never sent without one. *)
Theorem save_request_gate (e e' : Editor) (request : Request) :
  handleSaveFlow e = Send e' request →
  isSaving e = false
  ∧ trim (contactPhone e) ≠ ""
  ∧ isValidEmail (trim (contactEmail e')) = true
  ∧ (contactEmail e' = contactEmail e
     ∨ trim (contactEmail e) = ""
       ∧ Auth.getStoredEmail (localStorage e) = Some (contactEmail e'))
  ∧ ((∃ id, currentFlowId e = Some id ∧ id ≠ ""
            ∧ method request = "PUT" ∧ endpoint request = "/api/flows/" +:+ id)
     ∨ (truthyOpt (currentFlowId e) = false
        ∧ method request = "POST" ∧ endpoint request = "/api/flows"
        ∧ ∃ token, token ≠ "" ∧ getAuthToken e = Some token
                   ∧ authorization request = Some ("Bearer " +:+ token))).
Proof.
  unfold handleSaveFlow. destruct (isSaving e) eqn:Hsaving; [done|]. cbv zeta.
  change (contactPhone (withError e "")) with (contactPhone e).
  destruct (truthy (trim (contactPhone e))) eqn:Hphone; simpl; [|done].
  pose proof (restoreEmail_fields (withError e "")) as (_ & _ & _ & Hid & _).
  pose proof (restoreEmail_email (withError e "")) as Hemail.
  pose proof (getAuthToken_restoreEmail e "") as Htoken.
  set (e1 := restoreEmail (withError e "")) in *. simpl in Hid, Hemail.
  destruct (truthy (trim (contactEmail e1))) eqn:Hblank; simpl.
  2: { by destruct (negb _ && negb _). }
  destruct (isValidEmail (trim (contactEmail e1))) eqn:Hvalid; simpl; [|done].
  rewrite Htoken, Hid.
  destruct (truthyOpt (currentFlowId e)) eqn:Hflow; simpl.
  - intros [= <- <-]. apply truthy_true in Hphone. repeat split; try done.
    left. destruct (currentFlowId e) as [id|] eqn:Hcur; [|done].
    exists id. simpl in Hflow. unfold requestOf. rewrite Hid. simpl.
    rewrite Hflow. by apply truthy_true in Hflow.
  - destruct (truthyOpt (getAuthToken e)) eqn:Hsigned; simpl; [|done].
    intros [= <- <-]. apply truthy_true in Hphone. repeat split; try done.
    right. unfold requestOf. rewrite Hid, Hflow, Hsigned.
    apply getAuthToken_truthy in Hsigned as (token & Hne & Heq).
    repeat split; try done. exists token. by rewrite Heq.
Qed.

(** An editor with a new flow, a signed-in user and the contact fields
    filled in. *)
Definition draftEditor : Editor :=
  {| isSaving := false; saveError := ""; saveStatus := "";
     contactEmail := " ada@example.org "; contactPhone := "+36 1 234 5678";
     currentFlowId := None; authToken := Some "0xa11ce"; pendingSave := false;
     pathname := "/"; localStorage := ∅; draftStored := false |}.

Lemma save_request_gate_witness :
  handleSaveFlow draftEditor
    = Send (withSaving (withError draftEditor ""))
        {| method := "POST"; endpoint := "/api/flows";
           authorization := Some "Bearer 0xa11ce" |}
  ∧ trim (contactPhone draftEditor) ≠ ""
  ∧ isValidEmail "ada@example.org" = true.
Proof.
  split; [reflexivity|].
  pose proof (save_request_gate draftEditor (withSaving (withError draftEditor ""))
                {| method := "POST"; endpoint := "/api/flows";
                   authorization := Some "Bearer 0xa11ce" |} eq_refl)
    as (_ & Hphone & Hvalid & _).
  split; [exact Hphone|exact Hvalid].
Defined.

Lemma handleSaveFlow_Send (e e1 : Editor) (request : Request) :
  handleSaveFlow e = Send e1 request ↔
  isSaving e = false
  ∧ truthy (trim (contactPhone e)) = true
  ∧ truthy (trim (contactEmail (restoreEmail (withError e "")))) = true
  ∧ isValidEmail (trim (contactEmail (restoreEmail (withError e "")))) = true
  ∧ truthyOpt (currentFlowId e) || truthyOpt (getAuthToken e) = true
  ∧ e1 = withSaving (restoreEmail (withError e ""))
  ∧ request = requestOf (restoreEmail (withError e "")) (getAuthToken e).
Proof.
  unfold handleSaveFlow. cbv zeta.
  change (contactPhone (withError e "")) with (contactPhone e).
  pose proof (restoreEmail_fields (withError e "")) as (_ & _ & _ & Hid & _).
  pose proof (getAuthToken_restoreEmail e "") as Htoken.
  set (e0 := restoreEmail (withError e "")) in *. simpl in Hid.
  rewrite Htoken, Hid.
  destruct (isSaving e); [split; [done|by intros [? _]]|].
  destruct (truthy (trim (contactPhone e))); simpl;
    [|split; [done|by intros (_ & ? & _)]].
  destruct (truthy (trim (contactEmail e0))); simpl.
  2: { destruct (negb _ && negb _); (split; [done|by intros (_ & _ & ? & _)]). }
  destruct (isValidEmail (trim (contactEmail e0))); simpl;
    [|split; [done|by intros (_ & _ & _ & ? & _)]].
  destruct (truthyOpt (currentFlowId e)), (truthyOpt (getAuthToken e)); simpl.
  all: split; [try done; by intros [= <- <-]|].
  all: try by intros (_ & _ & _ & _ & _ & -> & ->).
  by intros (_ & _ & _ & _ & ? & _).
Qed.

(** X26.  When the first save of a new flow ends well and the server
    answers with the id of the flow, the editor keeps this id, the path of
    the page becomes one that [parseFlowIdFromUrl] reads back as this id (so
    that opening the page again finds the flow), the draft of the session is
    dropped, and the next save is a [PUT] to the address of this flow with
    the same [Authorization] header.  The id is non-empty and made of the
    characters of the ids of the server. *)
Theorem first_save_then_update (e e1 : Editor) (request : Request) (id : string) :
  handleSaveFlow e = Send e1 request →
  method request = "POST" →
  id ≠ "" → allChars isUuidChar id = true →
  currentFlowId (saveFlow e (Responded true (Some id))) = Some id
  ∧ parseFlowIdFromUrl (pathname (saveFlow e (Responded true (Some id)))) = Some id
  ∧ mountFlowId (saveFlow e (Responded true (Some id))) = Some id
  ∧ isSaving (saveFlow e (Responded true (Some id))) = false
  ∧ draftStored (saveFlow e (Responded true (Some id))) = false
  ∧ ∃ e3, handleSaveFlow (saveFlow e (Responded true (Some id)))
          = Send e3 {| method := "PUT"; endpoint := "/api/flows/" +:+ id;
                       authorization := authorization request |}.
Proof.
  intros Hsend Hmethod Hne Hall. unfold saveFlow. rewrite Hsend.
  apply handleSaveFlow_Send in Hsend
    as (Hsaving & Hphone & Hblank & Hvalid & Hgate & -> & ->).
  pose proof (restoreEmail_fields (withError e "")) as (_ & _ & Hph & Hid & Htok & Hls & _).
  set (e0 := restoreEmail (withError e "")) in *. simpl in Hph, Hid, Htok, Hls.
  assert (truthyOpt (currentFlowId e0) = false) as Hnew.
  { unfold requestOf in Hmethod. simpl in Hmethod.
    by destruct (truthyOpt (currentFlowId e0)). }
  assert (truthy id = true) as Hid' by by apply truthy_true.
  change (currentFlowId (withSaving e0)) with (currentFlowId e0). rewrite Hnew.
  set (e2 := finishSaveFlow (withSaving e0) false (Responded true (Some id))).
  assert (currentFlowId e2 = Some id) as Hcur.
  { unfold e2, finishSaveFlow. simpl. by rewrite Hid'. }
  assert (pathname e2 = updateUrlWithId (pathname e0) id) as Hpath.
  { unfold e2, finishSaveFlow. simpl. by rewrite Hid'. }
  assert (draftStored e2 = false) as Hdraft.
  { unfold e2, finishSaveFlow. simpl. by rewrite Hid'. }
  assert (contactEmail e2 = contactEmail e0 ∧ contactPhone e2 = contactPhone e
          ∧ authToken e2 = authToken e ∧ localStorage e2 = localStorage e
          ∧ isSaving e2 = false) as (Hem2 & Hph2 & Htok2 & Hls2 & Hsav2).
  { unfold e2, finishSaveFlow. simpl. by destruct (truthy id). }
  pose proof (flow_url_parse (pathname e0) id Hne Hall) as Hparse.
  repeat split; try done.
  - by rewrite Hpath.
  - unfold mountFlowId. by rewrite Hpath, Hparse, Hid'.
  - eexists. apply handleSaveFlow_Send.
    assert (restoreEmail (withError e2 "") = withError e2 "") as Hrest.
    { unfold restoreEmail. simpl. by rewrite Hem2, Hblank. }
    assert (getAuthToken e2 = getAuthToken e) as Hget.
    { unfold getAuthToken. by rewrite Htok2, Hls2. }
    rewrite Hrest. simpl. rewrite Hem2, Hph2, Hcur, Hget. simpl. rewrite Hid'.
    repeat split; try done.
    unfold requestOf. simpl. by rewrite Hcur; simpl; rewrite Hid'.
Qed.

Lemma first_save_then_update_witness :
  handleSaveFlow draftEditor
    = Send (withSaving (withError draftEditor ""))
        {| method := "POST"; endpoint := "/api/flows";
           authorization := Some "Bearer 0xa11ce" |}
  ∧ pathname (saveFlow draftEditor (Responded true (Some "3f2a-9c"))) = "/s/3f2a-9c"
  ∧ mountFlowId (saveFlow draftEditor (Responded true (Some "3f2a-9c")))
    = Some "3f2a-9c".
Proof.
  split; [reflexivity|]. split; [reflexivity|].
  exact (proj1 (proj2 (proj2
    (first_save_then_update draftEditor _ _ "3f2a-9c" eq_refl eq_refl
       ltac:(done) eq_refl)))).
Defined.

End FlowSpec.

(** * ResourceNode: the ports of a kind, and loading *)

Module ResourceNodeSpec.
Import Text ResourceNode.

(** The node has the ports that the constructor gives a node of its
    kind. *)
Definition portsOfKind (node : t) : Prop :=
  inputs node = inputs (new (resourceType node))
  ∧ outputs node = outputs (new (resourceType node)).

(** The eight kinds of the type [ResourceType]. *)
Definition kinds : list string :=
  ["input"; "output"; "machine"; "energy"; "gas"; "water"; "service"; "property"].

Lemma truthy_true_iff (s : string) : s ≠ "" ↔ truthy s = true.
Proof.
  unfold truthy. destruct (String.eqb_spec s ""); simpl; split; congruence.
Qed.

Lemma initInterfaces_ports (base : t) (kind : string) :
  inputs base = ∅ → outputs base = ∅ →
  inputs (initInterfaces base kind) = inputs (new kind)
  ∧ outputs (initInterfaces base kind) = outputs (new kind)
  ∧ resourceType (initInterfaces base kind) = resourceType base.
Proof.
  intros Hin Hout. unfold new, initInterfaces.
  repeat (destruct (String.eqb kind _); [simpl; by rewrite ?Hin, ?Hout|]).
  simpl. by rewrite Hin, Hout.
Qed.

Lemma initInterfaces_unknown (base : t) (kind : string) :
  kind ∉ kinds → initInterfaces base kind = base.
Proof.
  intros Hkind. unfold initInterfaces.
  repeat match goal with
         | |- context [String.eqb kind ?k] =>
             destruct (String.eqb_spec kind k) as [Heq|_];
             [destruct Hkind; rewrite Heq; unfold kinds;
              repeat first [apply list_elem_of_here|apply list_elem_of_further]|]
         end.
  done.
Qed.

Lemma new_portsOfKind (kind : string) : portsOfKind (new kind).
Proof.
  assert (resourceType (new kind) = kind) as Hkind
    by by destruct (initInterfaces_ports
                      {| title := None; resourceType := kind; inputs := ∅; outputs := ∅;
                         fields := noFields |} kind eq_refl eq_refl) as (_ & _ & ?).
  unfold portsOfKind. by rewrite Hkind.
Qed.

Section Loading.

Variable super_load : State → t → t.

(** [load] of the library sets the id and the title of the node and the
    values of the ports it has; it adds and removes no port and touches
    neither the kind nor the fields. *)
Hypothesis super_load_keeps : ∀ state node,
  resourceType (super_load state node) = resourceType node
  ∧ inputs (super_load state node) = inputs node
  ∧ outputs (super_load state node) = outputs node
  ∧ fields (super_load state node) = fields node.

(** The kind of a node after [load]. *)
Definition loadedKind (node : t) (state : State) : string :=
  match state_resourceType state with
  | Some savedType => if truthy savedType then savedType else resourceType node
  | None => resourceType node
  end.

Lemma load_kind_ports (node : t) (state : State) :
  portsOfKind node →
  resourceType (load super_load node state) = loadedKind node state
  ∧ portsOfKind (load super_load node state).
Proof.
  intros [Hin Hout]. unfold load, loadedKind, portsOfKind. cbv zeta.
  set (rebuilt := initInterfaces _ _).
  set (node1 := if _ && _ then rebuilt else node).
  assert (resourceType node1 = loadedKind node state
          ∧ inputs node1 = inputs (new (resourceType node1))
          ∧ outputs node1 = outputs (new (resourceType node1))) as (Hk & Hi & Ho).
  { unfold node1, rebuilt, loadedKind.
    destruct (state_resourceType state) as [savedType|]; [|done].
    change (default EmptyString (Some savedType)) with savedType.
    change (truthyOpt (Some savedType)) with (truthy savedType).
    destruct (truthy savedType); [|done].
    destruct (String.eqb_spec savedType (resourceType node)) as [->|Hne];
      cbn [andb negb]; [done|].
    destruct (initInterfaces_ports
                {| title := title node; resourceType := savedType; inputs := ∅;
                   outputs := ∅; fields := fields node |} savedType eq_refl eq_refl)
      as (Hi & Ho & Hk).
    cbn [resourceType] in Hk. split; [exact Hk|].
    split.
    - etrans; [exact Hi|]. apply (f_equal (λ k, inputs (new k))). symmetry. exact Hk.
    - etrans; [exact Ho|]. apply (f_equal (λ k, outputs (new k))). symmetry. exact Hk. }
  destruct (super_load_keeps state node1) as (Hk' & Hi' & Ho' & _).
  unfold loadedKind in Hk.
  destruct (state_fields state) as [savedFields|]; simpl;
    rewrite ?Hk', ?Hi', ?Ho'; by rewrite <- ?Hi, <- ?Ho.
Qed.

(** X27.  [load] keeps a resource node consistent with its kind, whatever
    the state holds: after it the kind is the one of the state, if the state
    has a non-empty one, and the one of the node otherwise, and the ports
    are the ones that the constructor gives a node of that kind; for a kind
    that is none of the eight, these are no ports at all. *)
Theorem load_gives_ports_of_kind (node : t) (state : State) :
  portsOfKind node →
  resourceType (load super_load node state) = loadedKind node state
  ∧ inputs (load super_load node state) = inputs (new (loadedKind node state))
  ∧ outputs (load super_load node state) = outputs (new (loadedKind node state))
  ∧ (loadedKind node state ∉ kinds →
     inputs (load super_load node state) = ∅
     ∧ outputs (load super_load node state) = ∅).
Proof.
  intros Hnode. destruct (load_kind_ports node state Hnode) as (Hk & Hi & Ho).
  rewrite Hk in Hi, Ho. repeat split; try done.
  - rewrite Hi. unfold new. by rewrite initInterfaces_unknown.
  - rewrite Ho. unfold new. by rewrite initInterfaces_unknown.
Qed.

(** X28.  A resource node that is saved and loaded into another resource
    node (the editor loads into a new node of the default kind) comes back
    with its kind, its ports and its fields, provided that its kind is not
    the empty string and that both nodes have the ports of their kinds. *)
Theorem resource_save_load_round_trip (node target : t) :
  portsOfKind node → portsOfKind target → resourceType node ≠ "" →
  resourceType (load super_load target (save node)) = resourceType node
  ∧ inputs (load super_load target (save node)) = inputs node
  ∧ outputs (load super_load target (save node)) = outputs node
  ∧ fields (load super_load target (save node)) = fields node.
Proof.
  intros [Hin Hout] Htarget Hkind.
  destruct (load_kind_ports target (save node) Htarget) as (Hk & Hi & Ho).
  assert (loadedKind target (save node) = resourceType node) as Hloaded.
  { unfold loadedKind. simpl. apply truthy_true_iff in Hkind. by rewrite Hkind. }
  rewrite Hloaded in Hk. rewrite Hk in Hi, Ho.
  split; [done|]. split; [congruence|]. split; [congruence|].
  unfold load. cbv zeta. by cbn [state_fields save fields].
Qed.

End Loading.

Lemma libraryLoad_keeps (state : State) (node : t) :
  resourceType (libraryLoad state node) = resourceType node
  ∧ inputs (libraryLoad state node) = inputs node
  ∧ outputs (libraryLoad state node) = outputs node
  ∧ fields (libraryLoad state node) = fields node.
Proof. done. Qed.

(** A state of a machine that was saved without its fields. *)
Definition machineState : State :=
  {| state_title := Some "Press"; state_resourceType := Some "machine";
     state_fields := None |}.

Lemma load_gives_ports_of_kind_witness :
  portsOfKind (new "input")
  ∧ resourceType (load libraryLoad (new "input") machineState) = "machine"
  ∧ outputs (load libraryLoad (new "input") machineState) = outputs (new "machine").
Proof.
  assert (portsOfKind (new "input")) as Hnew by (split; reflexivity).
  split; [exact Hnew|].
  pose proof (load_gives_ports_of_kind libraryLoad libraryLoad_keeps (new "input")
                machineState Hnew) as (Hkind & _ & Hout & _).
  split; [exact Hkind|exact Hout].
Defined.

(** An output resource with its fields filled in. *)
Definition filledOutput : t :=
  {| title := Some "Waste"; resourceType := "output";
     inputs := inputs (new "output"); outputs := outputs (new "output");
     fields := {| origin := None; inputQuantity := None; details := None;
                  outputKg := Some 3%Q; destination := Some "Depot";
                  quantity := None; duration := None; parameters := None |} |}.

Lemma resource_save_load_round_trip_witness :
  portsOfKind filledOutput ∧ portsOfKind (new "input")
  ∧ resourceType filledOutput ≠ ""
  ∧ resourceType (load libraryLoad (new "input") (save filledOutput)) = "output"
  ∧ fields (load libraryLoad (new "input") (save filledOutput)) = fields filledOutput.
Proof.
  assert (portsOfKind filledOutput) as Hnode by (split; reflexivity).
  assert (portsOfKind (new "input")) as Hnew by (split; reflexivity).
  assert (resourceType filledOutput ≠ "") as Hkind by done.
  split; [exact Hnode|]. split; [exact Hnew|]. split; [exact Hkind|].
  pose proof (resource_save_load_round_trip libraryLoad libraryLoad_keeps filledOutput
                (new "input") Hnode Hnew Hkind) as (Hk & _ & _ & Hf).
  split; [exact Hk|exact Hf].
Defined.

End ResourceNodeSpec.
